(** * LaCAM: a shallow embedding of the solver core of [app.js]

    The development follows the source class by class: [Graph], [Agent],
    [Configuration], [HighLevelNode], [LowLevelNode] and [LaCAM].

    JavaScript objects that are mutated in place and shared between
    several owners (constraint-tree nodes, the per-node work queue
    arrays, high-level nodes) live in an explicit store indexed by
    allocation addresses; everything else is a plain value. *)

From stdpp Require Import gmap strings list fin_maps pretty sorting.

(** ** JavaScript values

    The places where the program expects a vertex id or an agent id can
    also hold [null] (an agent whose start or goal was never set, the
    [who]/[where] of a tree root) or [undefined] (an array read out of
    range, a missing [Map] key). *)

Inductive jsval :=
| Undefined
| Null
| Num (n : nat).

Global Instance jsval_eq_dec : EqDecision jsval.
Proof. solve_decision. Defined.

(** The result of a distance query: a hop count or JavaScript's
    [Infinity]. *)
Inductive dist :=
| Hops (n : nat)
| Infinity.

Global Instance dist_eq_dec : EqDecision dist.
Proof. solve_decision. Defined.

(** ** Graph *)

(** A JavaScript string as the sequence of its 16-bit code units; the
    vertex labels are kept this way. *)
Definition codeunits := list N.

Record Vertex := mkVertex {
  vid : nat;
  vx : Z;
  vy : Z;
  vlabel : codeunits
}.

Record Edge := mkEdge {
  eid : nat;
  v1 : nat;
  v2 : nat
}.

(** [adjacency] maps a vertex id to its neighbour [Set]; a JavaScript
    [Set] iterates in insertion order, so it is kept as a list. *)
Record Graph := mkGraph {
  vertices : gmap nat Vertex;
  edges : gmap nat Edge;
  adjacency : gmap nat (list nat);
  nextVertexId : nat;
  nextEdgeId : nat
}.

(** [getNeighbors(vertexId)]: [this.adjacency.get(vertexId) || new Set()]. *)
Definition getNeighbors (g : Graph) (vertexId : jsval) : list nat :=
  match vertexId with
  | Num v => default [] (adjacency g !! v)
  | _ => []
  end.

(** ** Agent *)

Record Agent := mkAgent {
  aid : nat;
  start : jsval;
  goal : jsval
}.

(** ** Distance oracle: [LaCAM.getDistance] *)

(** The body of the [for (const neighbor of ...)] loop: an unvisited
    neighbour is marked and appended to the queue. *)
Definition visit_neighbor (d : nat) (st : list jsval * list (jsval * nat)) (neighbor : nat)
  : list jsval * list (jsval * nat) :=
  if decide (Num neighbor ∈ st.1) then st
  else (Num neighbor :: st.1, st.2 ++ [(Num neighbor, S d)]).

Definition visit_neighbors (d : nat) (nbs : list nat)
  (st : list jsval * list (jsval * nat)) : list jsval * list (jsval * nat) :=
  foldl (visit_neighbor d) st nbs.

(** The [while (queue.length > 0)] loop. [None] means the fuel ran out. *)
Fixpoint bfs_loop (fuel : nat) (g : Graph) (to : jsval)
  (visited : list jsval) (queue : list (jsval * nat)) : option dist :=
  match fuel with
  | 0 => None
  | S fuel' =>
      match queue with
      | [] => Some Infinity
      | (vertex, d) :: rest =>
          if decide (vertex = to) then Some (Hops d)
          else
            let st := visit_neighbors d (getNeighbors g vertex) (visited, rest) in
            bfs_loop fuel' g to st.1 st.2
      end
  end.

(** Every vertex that can ever enter the queue is the source or occurs
    in some neighbour set. *)
Definition targets (g : Graph) : list nat :=
  mjoin (map_to_list (adjacency g)).*2.

Definition bfs_fuel (g : Graph) : nat := S (S (length (targets g))).

Definition getDistance (g : Graph) (from to : jsval) : dist :=
  if decide (from = to) then Hops 0
  else if decide (from = Null ∨ to = Null) then Infinity
  else default Infinity (bfs_loop (bfs_fuel g) g to [from] [(from, 0)]).

(** A walk of [n] edges along the adjacency index. *)
Inductive walk (g : Graph) (from : jsval) : nat → jsval → Prop :=
| walk_here : walk g from 0 from
| walk_step n v w :
    walk g from n v → w ∈ getNeighbors g v → walk g from (S n) (Num w).

(** What a distance answer has to satisfy. *)
Definition is_distance (g : Graph) (from to : jsval) (r : dist) : Prop :=
  match r with
  | Hops d => walk g from d to ∧ ∀ n, walk g from n to → d ≤ n
  | Infinity => ∀ n, ¬ walk g from n to
  end.

(** ** [Array.prototype.sort]

    The comparator's result is used through its sign only; a [NaN]
    result counts as [+0]. The sort is stable (ECMAScript 2019), and for
    a consistent comparator the result of a stable sort does not depend
    on the algorithm, so a stable insertion sort stands for it. *)

Inductive sign := Neg | Zero | Pos.

Fixpoint sort_insert {A} (cmp : A → A → sign) (x : A) (l : list A) : list A :=
  match l with
  | [] => [x]
  | y :: l' =>
      match cmp x y with
      | Pos => y :: sort_insert cmp x l'
      | _ => x :: l
      end
  end.

Definition sort {A} (cmp : A → A → sign) (l : list A) : list A :=
  foldr (sort_insert cmp) [] l.

(** The sign of [x - y] on distances; [Infinity - Infinity] is [NaN]. *)
Definition dist_sub_sign (x y : dist) : sign :=
  match x, y with
  | Hops a, Hops b =>
      if decide (a < b) then Neg else if decide (b < a) then Pos else Zero
  | Hops _, Infinity => Neg
  | Infinity, Hops _ => Pos
  | Infinity, Infinity => Zero
  end.

(** [dist < bestDist] *)
Definition dist_lt (x y : dist) : bool :=
  match x, y with
  | Hops a, Hops b => bool_decide (a < b)
  | Hops _, Infinity => true
  | Infinity, _ => false
  end.

(** ** Configuration *)

Record Configuration := mkConfig { locations : list jsval }.

Global Instance Configuration_eq_dec : EqDecision Configuration.
Proof. solve_decision. Defined.

(** [get(agentId)]: [this.locations[agentId]]. *)
Definition config_get (c : Configuration) (agentId : jsval) : jsval :=
  match agentId with
  | Num i => default Undefined (locations c !! i)
  | _ => Undefined
  end.

(** How [Array.prototype.join] prints an element: [null] and
    [undefined] print as the empty string, a vertex id in decimal. *)
Definition jsval_to_string (v : jsval) : string :=
  match v with
  | Num n => pretty n
  | _ => ""
  end.

(** [hash()]: [this.locations.join(',')]; the [_hash] field only caches
    this value. *)
Definition hash (c : Configuration) : string :=
  String.concat "," (jsval_to_string <$> locations c).

(** [equals(other)] *)
Definition equals (c other : Configuration) : bool :=
  bool_decide (hash c = hash other).

(** ** Priority orders: [getInitOrder] and [getOrder] *)

Definition getInitOrder (g : Graph) (agents : list Agent) : list nat :=
  (sort (λ a b : nat * dist, dist_sub_sign b.2 a.2)
        ((λ a, (aid a, getDistance g (start a) (goal a))) <$> agents)).*1.

Record OrderKey := mkOrderKey {
  ok_id : nat;
  ok_atGoal : bool;
  ok_dist : dist
}.

Definition order_cmp (a b : OrderKey) : sign :=
  if negb (eqb (ok_atGoal a) (ok_atGoal b))
  then (if ok_atGoal a then Pos else Neg)
  else dist_sub_sign (ok_dist b) (ok_dist a).

Definition getOrder (g : Graph) (agents : list Agent) (config : Configuration)
  : list nat :=
  ok_id <$>
    sort order_cmp
      ((λ a, mkOrderKey (aid a)
               (bool_decide (config_get config (Num (aid a)) = goal a))
               (getDistance g (config_get config (Num (aid a))) (goal a)))
         <$> agents).

(** ** PIBT successor generator: [getBestMove] and [generateConfig] *)

Definition try_neighbor (g : Graph) (goal : jsval) (occupied : list jsval)
  (best : jsval * dist) (neighbor : nat) : jsval * dist :=
  if decide (Num neighbor ∈ occupied) then best
  else
    let d := getDistance g (Num neighbor) goal in
    if dist_lt d best.2 then (Num neighbor, d) else best.

(** Returns [Null] when no move was found. The [agentId] parameter of
    the source is not used by its body. *)
Definition getBestMove (g : Graph) (current goal : jsval)
  (occupied : list jsval) : jsval :=
  if decide (current = goal ∧ current ∉ occupied) then current
  else
    let neighbors := getNeighbors g current in
    let stay :=
      if decide (current ∈ occupied) then (Null, Infinity)
      else (current, getDistance g current goal) in
    (foldl (try_neighbor g goal occupied) stay neighbors).1.

(** [arr[i] = x] on a JavaScript array: a write past the end extends
    the array, the skipped slots read as [undefined]. *)
Definition array_set (i : nat) (x : jsval) (arr : list jsval) : list jsval :=
  if decide (i < length arr) then <[i := x]> arr
  else arr ++ replicate (i - length arr) Undefined ++ [x].

Global Instance jsval_countable : Countable jsval :=
  inj_countable'
    (λ v, match v with
          | Undefined => inl false
          | Null => inl true
          | Num n => inr n
          end)
    (λ s, match s with
          | inl false => Undefined
          | inl true => Null
          | inr n => Num n
          end)
    (λ v, match v with
          | Undefined => eq_refl
          | Null => eq_refl
          | Num n => eq_refl
          end).

(** The two placement loops thread [newLocations] and [occupiedNext];
    [None] is the early [return null]. *)
Definition place_constrained (constraints : gmap jsval jsval)
  (acc : option (list jsval * list jsval)) (agent : Agent)
  : option (list jsval * list jsval) :=
  '(newLocations, occupiedNext) ← acc;
  let nextPos := default Undefined (constraints !! Num (aid agent)) in
  if decide (nextPos ∈ occupiedNext) then None
  else Some (array_set (aid agent) nextPos newLocations, nextPos :: occupiedNext).

Definition place_unconstrained (g : Graph) (currentConfig : Configuration)
  (acc : option (list jsval * list jsval)) (agent : Agent)
  : option (list jsval * list jsval) :=
  '(newLocations, occupiedNext) ← acc;
  let currentPos := config_get currentConfig (Num (aid agent)) in
  let nextPos := getBestMove g currentPos (goal agent) occupiedNext in
  if decide (nextPos = Null) then None
  else Some (array_set (aid agent) nextPos newLocations, nextPos :: occupiedNext).

(** The nested swap-conflict loops over [i < j < this.agents.length]. *)
Definition swap_conflict (currentConfig : Configuration)
  (newLocations : list jsval) (i j : nat) : bool :=
  bool_decide (config_get currentConfig (Num i) = default Undefined (newLocations !! j)
               ∧ config_get currentConfig (Num j) = default Undefined (newLocations !! i)).

Definition has_swap_conflict (n : nat) (currentConfig : Configuration)
  (newLocations : list jsval) : bool :=
  existsb (λ i, existsb (λ j, swap_conflict currentConfig newLocations i j)
                        (seq (S i) (n - S i)))
          (seq 0 n).

Definition generateConfig (g : Graph) (agents : list Agent)
  (currentConfig : Configuration) (constraints : gmap jsval jsval)
  : option Configuration :=
  let newLocations := replicate (length agents) Undefined in
  let constrainedAgents :=
    filter (λ a, is_Some (constraints !! Num (aid a))) agents in
  let unconstrainedAgents :=
    filter (λ a, ¬ is_Some (constraints !! Num (aid a))) agents in
  let unconstrainedAgents :=
    sort (λ a b,
            dist_sub_sign
              (getDistance g (config_get currentConfig (Num (aid b))) (goal b))
              (getDistance g (config_get currentConfig (Num (aid a))) (goal a)))
         unconstrainedAgents in
  '(newLocations, occupiedNext) ←
    foldl (place_unconstrained g currentConfig)
      (foldl (place_constrained constraints) (Some (newLocations, []))
         constrainedAgents)
      unconstrainedAgents;
  if has_swap_conflict (length agents) currentConfig newLocations then None
  else Some (mkConfig newLocations).

(** ** The store

    [LowLevelNode] objects, the [tree] queue arrays of high-level nodes
    and [HighLevelNode] objects are allocated at fresh addresses. A
    reference is an address; [null]/[undefined] references are [None]
    (the source tests them for truthiness only). *)

Notation addr := nat (only parsing).

Record LowLevelNode := mkLL {
  lid : nat;
  lparent : option addr;
  who : jsval;
  where_ : jsval;
  children : list addr;
  depth : nat;
  isSearched : bool;
  isSelected : bool
}.

(** The fields of a high-level node are assigned while it is set up and
    never afterwards; [tree] is a reference to the queue array, which is
    mutated in place by [shift] and [push]. *)
Record HighLevelNode := mkHL {
  hid : nat;
  config : Configuration;
  tree : addr;
  treeRoot : option addr;
  order : list nat;
  parent : option addr
}.

Inductive Phase :=
| ph_init | ph_select | ph_pop_constraint | ph_expand_tree | ph_generate | ph_check.

Inductive Status := running | solved | no_solution.

Global Instance Phase_eq_dec : EqDecision Phase.
Proof. solve_decision. Defined.
Global Instance Status_eq_dec : EqDecision Status.
Proof. solve_decision. Defined.

(** [this.state]. The [description] string is presentation only and is
    left out, here and in the snapshots. *)
Record State := mkState {
  open : list addr;
  explored : gmap string addr;
  currentHighLevelNode : option addr;
  currentLowLevelNode : option addr;
  generatedConfig : option Configuration;
  stepNumber : nat;
  phase : Phase;
  status : Status;
  solution : option (list Configuration);
  nodesGenerated : nat;
  configurationsExplored : nat
}.

(** One entry of [snapshot.nodes]. *)
Record NodeData := mkNodeData {
  nd_id : nat;
  nd_config : Configuration;
  nd_treeRoot : option addr;
  nd_tree : addr;
  nd_order : list nat;
  nd_parentId : option nat
}.

Record Snapshot := mkSnapshot {
  nodes : gmap nat NodeData;
  openIds : list nat;
  exploredMap : gmap string nat;
  currentHighLevelNodeId : option nat;
  currentLowLevelNodeId : option nat;
  s_stepNumber : nat;
  s_phase : Phase;
  s_status : Status;
  s_nodesGenerated : nat;
  s_configurationsExplored : nat;
  s_generatedConfig : option Configuration;
  s_solution : option (list Configuration)
}.

(** The store, the two module-level id counters and the fields of the
    [LaCAM] object. *)
Record World := mkWorld {
  llnodes : gmap addr LowLevelNode;
  arrays : gmap addr (list addr);
  hlnodes : gmap addr HighLevelNode;
  next : addr;
  hlNodeIdCounter : nat;
  llNodeIdCounter : nat;
  graph : Graph;
  agents : list Agent;
  state : option State;
  history : list Snapshot
}.

Definition with_llnodes (f : gmap addr LowLevelNode → gmap addr LowLevelNode)
  (w : World) : World :=
  mkWorld (f (llnodes w)) (arrays w) (hlnodes w) (next w) (hlNodeIdCounter w)
    (llNodeIdCounter w) (graph w) (agents w) (state w) (history w).
Definition with_arrays (f : gmap addr (list addr) → gmap addr (list addr))
  (w : World) : World :=
  mkWorld (llnodes w) (f (arrays w)) (hlnodes w) (next w) (hlNodeIdCounter w)
    (llNodeIdCounter w) (graph w) (agents w) (state w) (history w).
Definition with_hlnodes (f : gmap addr HighLevelNode → gmap addr HighLevelNode)
  (w : World) : World :=
  mkWorld (llnodes w) (arrays w) (f (hlnodes w)) (next w) (hlNodeIdCounter w)
    (llNodeIdCounter w) (graph w) (agents w) (state w) (history w).
Definition with_next (n : addr) (w : World) : World :=
  mkWorld (llnodes w) (arrays w) (hlnodes w) n (hlNodeIdCounter w)
    (llNodeIdCounter w) (graph w) (agents w) (state w) (history w).
Definition with_hlNodeIdCounter (n : nat) (w : World) : World :=
  mkWorld (llnodes w) (arrays w) (hlnodes w) (next w) n
    (llNodeIdCounter w) (graph w) (agents w) (state w) (history w).
Definition with_llNodeIdCounter (n : nat) (w : World) : World :=
  mkWorld (llnodes w) (arrays w) (hlnodes w) (next w) (hlNodeIdCounter w)
    n (graph w) (agents w) (state w) (history w).
Definition with_state (s : option State) (w : World) : World :=
  mkWorld (llnodes w) (arrays w) (hlnodes w) (next w) (hlNodeIdCounter w)
    (llNodeIdCounter w) (graph w) (agents w) s (history w).
Definition with_history (h : list Snapshot) (w : World) : World :=
  mkWorld (llnodes w) (arrays w) (hlnodes w) (next w) (hlNodeIdCounter w)
    (llNodeIdCounter w) (graph w) (agents w) (state w) h.

Definition set_open (x : list addr) (s : State) : State :=
  mkState x (explored s) (currentHighLevelNode s) (currentLowLevelNode s)
    (generatedConfig s) (stepNumber s) (phase s) (status s) (solution s)
    (nodesGenerated s) (configurationsExplored s).
Definition set_explored (x : gmap string addr) (s : State) : State :=
  mkState (open s) x (currentHighLevelNode s) (currentLowLevelNode s)
    (generatedConfig s) (stepNumber s) (phase s) (status s) (solution s)
    (nodesGenerated s) (configurationsExplored s).
Definition set_currentHighLevelNode (x : option addr) (s : State) : State :=
  mkState (open s) (explored s) x (currentLowLevelNode s)
    (generatedConfig s) (stepNumber s) (phase s) (status s) (solution s)
    (nodesGenerated s) (configurationsExplored s).
Definition set_currentLowLevelNode (x : option addr) (s : State) : State :=
  mkState (open s) (explored s) (currentHighLevelNode s) x
    (generatedConfig s) (stepNumber s) (phase s) (status s) (solution s)
    (nodesGenerated s) (configurationsExplored s).
Definition set_generatedConfig (x : option Configuration) (s : State) : State :=
  mkState (open s) (explored s) (currentHighLevelNode s) (currentLowLevelNode s)
    x (stepNumber s) (phase s) (status s) (solution s)
    (nodesGenerated s) (configurationsExplored s).
Definition set_stepNumber (x : nat) (s : State) : State :=
  mkState (open s) (explored s) (currentHighLevelNode s) (currentLowLevelNode s)
    (generatedConfig s) x (phase s) (status s) (solution s)
    (nodesGenerated s) (configurationsExplored s).
Definition set_phase (x : Phase) (s : State) : State :=
  mkState (open s) (explored s) (currentHighLevelNode s) (currentLowLevelNode s)
    (generatedConfig s) (stepNumber s) x (status s) (solution s)
    (nodesGenerated s) (configurationsExplored s).
Definition set_status (x : Status) (s : State) : State :=
  mkState (open s) (explored s) (currentHighLevelNode s) (currentLowLevelNode s)
    (generatedConfig s) (stepNumber s) (phase s) x (solution s)
    (nodesGenerated s) (configurationsExplored s).
Definition set_solution (x : option (list Configuration)) (s : State) : State :=
  mkState (open s) (explored s) (currentHighLevelNode s) (currentLowLevelNode s)
    (generatedConfig s) (stepNumber s) (phase s) (status s) x
    (nodesGenerated s) (configurationsExplored s).
Definition set_nodesGenerated (x : nat) (s : State) : State :=
  mkState (open s) (explored s) (currentHighLevelNode s) (currentLowLevelNode s)
    (generatedConfig s) (stepNumber s) (phase s) (status s) (solution s)
    x (configurationsExplored s).
Definition set_configurationsExplored (x : nat) (s : State) : State :=
  mkState (open s) (explored s) (currentHighLevelNode s) (currentLowLevelNode s)
    (generatedConfig s) (stepNumber s) (phase s) (status s) (solution s)
    (nodesGenerated s) x.

(** ** A monad for the methods

    A method runs on a world and ends with a value or with a thrown
    exception; either way the world it leaves behind is kept, since an
    exception does not undo the writes made before it. [TypeError] is
    the property access on [null] or [undefined]. The other two cannot
    happen in JavaScript and only make the model total: [OutOfFuel]
    bounds a loop or recursion over the store, [Dangling] is a read at
    an address that holds no object. *)

Inductive error := TypeError | OutOfFuel | Dangling.

Inductive outcome (A : Type) :=
| Val (a : A)
| Throw (e : error).
Arguments Val {A} a.
Arguments Throw {A} e.

Definition M (A : Type) : Type := World → outcome A * World.

Definition ret {A} (a : A) : M A := λ w, (Val a, w).
Definition throw {A} (e : error) : M A := λ w, (Throw e, w).
Definition bind {A B} (m : M A) (k : A → M B) : M B :=
  λ w, match m w with
       | (Val a, w') => k a w'
       | (Throw e, w') => (Throw e, w')
       end.

Declare Scope lacam_scope.
Delimit Scope lacam_scope with lacam.
Notation "'let!' x ':=' m 'in' k" := (bind m (λ x, k))
  (at level 10, x pattern, m at level 200, k at level 200) : lacam_scope.
Notation "'do!' m 'in' k" := (bind m (λ _, k))
  (at level 10, m at level 200, k at level 200) : lacam_scope.
Local Open Scope lacam_scope.

Definition get_world : M World := λ w, (Val w, w).
Definition modify_world (f : World → World) : M unit := λ w, (Val tt, f w).

Fixpoint mapM {A B} (f : A → M B) (l : list A) : M (list B) :=
  match l with
  | [] => ret []
  | x :: l' => let! y := f x in let! ys := mapM f l' in ret (y :: ys)
  end.

Fixpoint forM_ {A} (l : list A) (f : A → M unit) : M unit :=
  match l with
  | [] => ret tt
  | x :: l' => do! f x in forM_ l' f
  end.

(** [this.state.…]: a [TypeError] when [this.state] is still [null]. *)
Definition get_state : M State :=
  λ w, match state w with
       | Some s => (Val s, w)
       | None => (Throw TypeError, w)
       end.

Definition modify_state (f : State → State) : M unit :=
  let! s := get_state in modify_world (with_state (Some (f s))).

(** Dereferencing. *)
Definition deref {A} (e : error) (o : option A) : M A :=
  match o with
  | Some a => ret a
  | None => throw e
  end.

Definition read_ll (a : addr) : M LowLevelNode :=
  let! w := get_world in deref Dangling (llnodes w !! a).
Definition read_hl (a : addr) : M HighLevelNode :=
  let! w := get_world in deref Dangling (hlnodes w !! a).
Definition read_array (a : addr) : M (list addr) :=
  let! w := get_world in deref Dangling (arrays w !! a).

Definition write_ll (a : addr) (n : LowLevelNode) : M unit :=
  modify_world (with_llnodes (insert a n)).
Definition write_array (a : addr) (l : list addr) : M unit :=
  modify_world (with_arrays (insert a l)).
Definition write_hl (a : addr) (n : HighLevelNode) : M unit :=
  modify_world (with_hlnodes (insert a n)).

Definition fresh : M addr :=
  let! w := get_world in do! modify_world (with_next (S (next w))) in ret (next w).

Definition alloc_array (l : list addr) : M addr :=
  let! a := fresh in do! write_array a l in ret a.

(** [new LowLevelNode(parent, who, where)] *)
Definition new_LowLevelNode (parent : option addr) (who where_ : jsval) : M addr :=
  let! w := get_world in
  let id := llNodeIdCounter w in
  do! modify_world (with_llNodeIdCounter (S id)) in
  let! depth := match parent with
                 | Some p => let! pn := read_ll p in ret (S (depth pn))
                 | None => ret 0
                 end in
  let! a := fresh in
  do! write_ll a (mkLL id parent who where_ [] depth false false) in
  ret a.

(** [new HighLevelNode(config, parent)] followed by the assignments to
    [treeRoot], [tree] and [order] (and, when restoring, to [id]) that
    every caller makes right after it. The empty array the constructor
    first stores in [tree] is dropped by those assignments and is not
    allocated here. [fixId] is the id assigned over the counter's. *)
Definition new_HighLevelNode (config : Configuration) (parent : option addr)
  (fixId : option nat) (treeRoot : option addr) (tree : addr)
  (order : list nat) : M addr :=
  let! w := get_world in
  let id := hlNodeIdCounter w in
  do! modify_world (with_hlNodeIdCounter (S id)) in
  let! a := fresh in
  do! write_hl a (mkHL (default id fixId) config tree treeRoot order parent) in
  ret a.

Definition set_children (x : list addr) (n : LowLevelNode) : LowLevelNode :=
  mkLL (lid n) (lparent n) (who n) (where_ n) x (depth n)
    (isSearched n) (isSelected n).
Definition set_flags (searched selected : bool) (n : LowLevelNode) : LowLevelNode :=
  mkLL (lid n) (lparent n) (who n) (where_ n) (children n) (depth n)
    searched selected.
Definition set_parent (x : option addr) (n : HighLevelNode) : HighLevelNode :=
  mkHL (hid n) (config n) (tree n) (treeRoot n) (order n) x.

(** ** [LowLevelNode.getConstraints]

    The [while (node && node.who !== null)] walk towards the root. *)
Fixpoint getConstraints_loop (fuel : nat) (node : option addr)
  (constraints : gmap jsval jsval) : M (gmap jsval jsval) :=
  match fuel with
  | 0 => throw OutOfFuel
  | S fuel' =>
      match node with
      | None => ret constraints
      | Some a =>
          let! n := read_ll a in
          if decide (who n = Null) then ret constraints
          else getConstraints_loop fuel' (lparent n)
                 (<[who n := where_ n]> constraints)
      end
  end.

Definition getConstraints (node : addr) : M (gmap jsval jsval) :=
  let! w := get_world in
  getConstraints_loop (S (next w)) (Some node) ∅.

(** ** [LaCAM] *)

(** [new LaCAM(graph, agents)] on an empty store. *)
Definition construct (g : Graph) (ags : list Agent) : World :=
  mkWorld ∅ ∅ ∅ 0 0 0 g ags None [].

(** [backtrack(node)]: the [while (current)] walk along [parent]. *)
Fixpoint backtrack_loop (fuel : nat) (current : option addr)
  (path : list Configuration) : M (list Configuration) :=
  match fuel with
  | 0 => throw OutOfFuel
  | S fuel' =>
      match current with
      | None => ret path
      | Some a =>
          let! n := read_hl a in
          backtrack_loop fuel' (parent n) (config n :: path)
      end
  end.

Definition backtrack (node : addr) : M (list Configuration) :=
  let! w := get_world in
  backtrack_loop (S (next w)) (Some node) [].

(** *** Snapshots: [cloneAllNodes] and [saveHistory] *)

(** The inner closure [cloneLowLevelTree(node, parentClone)]. *)
Fixpoint cloneLowLevelTree (fuel : nat) (node : addr) (parentClone : option addr)
  : M addr :=
  match fuel with
  | 0 => throw OutOfFuel
  | S fuel' =>
      let! n := read_ll node in
      let! clone := new_LowLevelNode parentClone (who n) (where_ n) in
      let! c := read_ll clone in
      do! write_ll clone
            (mkLL (lid n) (lparent c) (who c) (where_ c) (children c) (depth n)
               (isSearched n) (isSelected n)) in
      let! kids := mapM (λ child, cloneLowLevelTree fuel' child (Some clone))
                     (children n) in
      let! c := read_ll clone in
      do! write_ll clone (set_children kids c) in
      ret clone
  end.

(** The number of nodes below an address, counted along [children];
    it bounds the iterations of a breadth-first traversal. *)
Fixpoint tree_size (fuel : nat) (ll : gmap addr LowLevelNode) (a : addr) : nat :=
  match fuel with
  | 0 => 0
  | S fuel' =>
      match ll !! a with
      | None => 0
      | Some n => S (sum_list (tree_size fuel' ll <$> children n))
      end
  end.

(** The breadth-first loop that rebuilds the queue of a cloned tree:
    a clone is queued when the original queue holds a node of its id. *)
Fixpoint rebuild_tree (fuel : nat) (originalIds : list nat) (queue : list addr)
  (clonedTree : list addr) : M (list addr) :=
  match fuel with
  | 0 => throw OutOfFuel
  | S fuel' =>
      match queue with
      | [] => ret clonedTree
      | a :: rest =>
          let! n := read_ll a in
          let clonedTree :=
            if decide (lid n ∈ originalIds) then clonedTree ++ [a]
            else clonedTree in
          rebuild_tree fuel' originalIds (rest ++ children n) clonedTree
      end
  end.

(** The body of [allNodes.forEach((node, id) => ...)]. *)
Definition clone_node (nodesMap : gmap nat NodeData) (entry : nat * addr)
  : M (gmap nat NodeData) :=
  let '(id, node) := entry in
  let! n := read_hl node in
  let! clonedTreeRoot :=
    match treeRoot n with
    | Some r =>
        let! w := get_world in
        let! c := cloneLowLevelTree (S (next w)) r None in
        ret (Some c)
    | None => ret None
    end in
  let! clonedTree :=
    match clonedTreeRoot with
    | Some c =>
        let! original := read_array (tree n) in
        let! originalIds :=
          mapM (λ t, let! tn := read_ll t in ret (lid tn)) original in
        let! w := get_world in
        rebuild_tree (S (tree_size (S (next w)) (llnodes w) c)) originalIds [c] []
    | None => ret []
    end in
  let! clonedTreeArr := alloc_array clonedTree in
  let! parentId :=
    match parent n with
    | Some p => let! pn := read_hl p in ret (Some (hid pn))
    | None => ret None
    end in
  ret (<[id := mkNodeData (hid n) (config n) clonedTreeRoot clonedTreeArr
                  (order n) parentId]> nodesMap).

Fixpoint foldM {A B} (f : B → A → M B) (b : B) (l : list A) : M B :=
  match l with
  | [] => ret b
  | x :: l' => let! b' := f b x in foldM f b' l'
  end.

(** The ids of the objects behind a list of references. *)
Definition hl_ids (refs : list addr) : M (list nat) :=
  mapM (λ a, let! n := read_hl a in ret (hid n)) refs.

(** [allNodes]: the nodes of Open, then those of Explored, keyed by id. *)
Definition collect_allNodes (s : State) : M (gmap nat addr) :=
  let refs := open s ++ (map_to_list (explored s)).*2 in
  let! ids := hl_ids refs in
  ret (foldl (λ m p, <[p.1 := p.2]> m) ∅ (zip ids refs)).

Definition cloneAllNodes : M (gmap nat NodeData) :=
  let! s := get_state in
  let! allNodes := collect_allNodes s in
  foldM clone_node ∅ (map_to_list allNodes).

Definition opt_id {A} (rd : addr → M A) (f : A → nat) (r : option addr)
  : M (option nat) :=
  match r with
  | Some a => let! n := rd a in ret (Some (f n))
  | None => ret None
  end.

Definition saveHistory : M unit :=
  let! nodes := cloneAllNodes in
  let! s := get_state in
  let! openIds := hl_ids (open s) in
  let! w := get_world in
  let exploredMap := omap (λ a, hid <$> hlnodes w !! a) (explored s) in
  let! currentHighLevelNodeId := opt_id read_hl hid (currentHighLevelNode s) in
  let! currentLowLevelNodeId := opt_id read_ll lid (currentLowLevelNode s) in
  let snapshot :=
    mkSnapshot nodes openIds exploredMap currentHighLevelNodeId
      currentLowLevelNodeId (stepNumber s) (phase s) (status s)
      (nodesGenerated s) (configurationsExplored s) (generatedConfig s)
      (solution s) in
  let! w := get_world in
  let h := history w ++ [snapshot] in
  modify_world (with_history (if decide (200 < length h) then tail h else h)).

(** *** [restoreFromSnapshot] and [stepBack] *)

(** First pass: one new high-level node per entry, without its parent
    link; the node adopts the entry's [config], [treeRoot], [tree] and
    [order] as they are. *)
Definition restore_node (nodeMap : gmap nat addr) (entry : nat * NodeData)
  : M (gmap nat addr) :=
  let '(id, data) := entry in
  let! a := new_HighLevelNode (nd_config data) None (Some (nd_id data))
              (nd_treeRoot data) (nd_tree data) (nd_order data) in
  ret (<[id := a]> nodeMap).

(** Second pass: the parent links. The temporary [_parentId] field of
    the source holds the entry's [parentId]. *)
Definition link_parent (snapshot : Snapshot) (nodeMap : gmap nat addr)
  (entry : nat * addr) : M unit :=
  let '(id, a) := entry in
  match from_option nd_parentId None (nodes snapshot !! id) with
  | Some pid =>
      let! n := read_hl a in
      write_hl a (set_parent (nodeMap !! pid) n)
  | None => ret tt
  end.

(** The inner closure [findLLNode(node)]. *)
Fixpoint findLLNode (fuel : nat) (target : nat) (node : addr) : M (option addr) :=
  match fuel with
  | 0 => throw OutOfFuel
  | S fuel' =>
      let! n := read_ll node in
      if decide (lid n = target) then ret (Some node)
      else
        foldM (λ found child,
                 match found with
                 | Some _ => ret found
                 | None => findLLNode fuel' target child
                 end)
          None (children n)
  end.

Definition restoreFromSnapshot (snapshot : Snapshot) : M unit :=
  let! nodeMap := foldM restore_node ∅ (map_to_list (nodes snapshot)) in
  do! forM_ (map_to_list nodeMap) (link_parent snapshot nodeMap) in
  do! modify_state (set_open (omap (λ id, nodeMap !! id) (openIds snapshot))) in
  do! modify_state
        (set_explored (omap (λ id, nodeMap !! id) (exploredMap snapshot))) in
  let current :=
    match currentHighLevelNodeId snapshot with
    | Some id => nodeMap !! id
    | None => None
    end in
  do! modify_state (set_currentHighLevelNode current) in
  do! modify_state (set_currentLowLevelNode None) in
  let! w := get_world in
  let root :=
    match current with
    | Some a => from_option treeRoot None (hlnodes w !! a)
    | None => None
    end in
  do! match currentLowLevelNodeId snapshot, root with
      | Some target, Some root =>
          let! found := findLLNode (S (next w)) target root in
          modify_state (set_currentLowLevelNode found)
      | _, _ => ret tt
      end in
  do! modify_state (set_stepNumber (s_stepNumber snapshot)) in
  do! modify_state (set_phase (s_phase snapshot)) in
  do! modify_state (set_status (s_status snapshot)) in
  do! modify_state (set_nodesGenerated (s_nodesGenerated snapshot)) in
  do! modify_state
        (set_configurationsExplored (s_configurationsExplored snapshot)) in
  do! modify_state (set_generatedConfig (s_generatedConfig snapshot)) in
  modify_state (set_solution (s_solution snapshot)).

Definition stepBack : M bool :=
  let! w := get_world in
  if decide (1 < length (history w)) then
    let h := removelast (history w) in
    do! modify_world (with_history h) in
    do! match last h with
        | Some prevSnapshot => restoreFromSnapshot prevSnapshot
        | None => throw TypeError
        end in
    ret true
  else ret false.

(** *** [initialize] and [reset] *)

Definition initial_state : State :=
  mkState [] ∅ None None None 0 ph_init running None 1 1.

Definition initialize : M unit :=
  do! modify_world (with_hlNodeIdCounter 0) in
  do! modify_world (with_llNodeIdCounter 0) in
  do! modify_world (with_state (Some initial_state)) in
  let! w := get_world in
  let startConfig := mkConfig (start <$> agents w) in
  let! Cinit := new_LowLevelNode None Null Null in
  let! queue := alloc_array [Cinit] in
  let! Ninit :=
    new_HighLevelNode startConfig None None (Some Cinit) queue
      (getInitOrder (graph w) (agents w)) in
  do! modify_state (λ s, set_open (open s ++ [Ninit]) s) in
  do! modify_state (λ s, set_explored (<[hash startConfig := Ninit]> (explored s)) s) in
  do! modify_state (set_currentHighLevelNode (Some Ninit)) in
  do! modify_state (set_phase ph_select) in
  do! modify_world (with_history []) in
  saveHistory.

Definition reset : M unit := initialize.

(** *** The phases of [step] *)

Definition stepSelect : M bool :=
  let! s := get_state in
  match last (open s) with
  | None =>
      do! modify_state (set_status no_solution) in
      ret false
  | Some N =>
      do! modify_state (set_currentHighLevelNode (Some N)) in
      let! w := get_world in
      let goalConfig := mkConfig (goal <$> agents w) in
      let! n := read_hl N in
      if equals (config n) goalConfig then
        let! path := backtrack N in
        do! modify_state (set_solution (Some path)) in
        do! modify_state (set_status solved) in
        ret false
      else
        let! queue := read_array (tree n) in
        if decide (length queue = 0) then
          do! modify_state (λ s, set_open (removelast (open s)) s) in
          ret true
        else
          do! modify_state (set_phase ph_pop_constraint) in
          ret true
  end.

Definition stepPopConstraint : M bool :=
  let! s := get_state in
  let! N := deref TypeError (currentHighLevelNode s) in
  let! n := read_hl N in
  let! queue := read_array (tree n) in
  match queue with
  | [] => throw TypeError
  | C :: rest =>
      do! write_array (tree n) rest in
      let! c := read_ll C in
      do! write_ll C (set_flags true true c) in
      do! modify_state (set_currentLowLevelNode (Some C)) in
      do! modify_state (set_phase ph_expand_tree) in
      ret true
  end.

(** The body of [for (const vertex of moves)]. *)
Definition add_child (N C : addr) (agentId vertex : jsval) : M unit :=
  let! Cnew := new_LowLevelNode (Some C) agentId vertex in
  let! c := read_ll C in
  do! write_ll C (set_children (children c ++ [Cnew]) c) in
  let! n := read_hl N in
  let! queue := read_array (tree n) in
  write_array (tree n) (queue ++ [Cnew]).

(** [N.order[C.depth]] *)
Definition order_at (order : list nat) (i : nat) : jsval :=
  match order !! i with
  | Some a => Num a
  | None => Undefined
  end.

Definition stepExpandTree : M bool :=
  let! s := get_state in
  let! C := deref TypeError (currentLowLevelNode s) in
  let! c := read_ll C in
  let! w := get_world in
  do! (if decide (depth c < length (agents w)) then
         let! N := deref TypeError (currentHighLevelNode s) in
         let! n := read_hl N in
         let agentId := order_at (order n) (depth c) in
         let currentVertex := config_get (config n) agentId in
         let neighbors := getNeighbors (graph w) currentVertex in
         let moves := currentVertex :: (Num <$> neighbors) in
         forM_ moves (add_child N C agentId)
       else ret tt) in
  do! modify_state (set_phase ph_generate) in
  ret true.

Definition stepGenerate : M bool :=
  let! s := get_state in
  let! C := deref TypeError (currentLowLevelNode s) in
  let! constraints := getConstraints C in
  let! N := deref TypeError (currentHighLevelNode s) in
  let! n := read_hl N in
  let! w := get_world in
  match generateConfig (graph w) (agents w) (config n) constraints with
  | None =>
      do! modify_state (set_generatedConfig None) in
      do! modify_state (set_phase ph_select) in
      ret true
  | Some Qnew =>
      do! modify_state (set_generatedConfig (Some Qnew)) in
      do! modify_state (set_phase ph_check) in
      ret true
  end.

Definition stepCheck : M bool :=
  let! s := get_state in
  let! Qnew := deref TypeError (generatedConfig s) in
  if decide (is_Some (explored s !! hash Qnew)) then
    do! modify_state (set_phase ph_select) in
    ret true
  else
    let! w := get_world in
    let! Cinit := new_LowLevelNode None Null Null in
    let! queue := alloc_array [Cinit] in
    let! Nnew :=
      new_HighLevelNode Qnew (currentHighLevelNode s) None (Some Cinit) queue
        (getOrder (graph w) (agents w) Qnew) in
    do! modify_state (λ s, set_open (open s ++ [Nnew]) s) in
    do! modify_state (λ s, set_explored (<[hash Qnew := Nnew]> (explored s)) s) in
    do! modify_state (λ s, set_nodesGenerated (S (nodesGenerated s)) s) in
    do! modify_state
          (λ s, set_configurationsExplored (S (configurationsExplored s)) s) in
    do! modify_state (set_phase ph_select) in
    ret true.

Definition step : M bool :=
  let! s := get_state in
  if decide (status s ≠ running) then ret false
  else
    do! saveHistory in
    do! modify_state (λ s, set_stepNumber (S (stepNumber s)) s) in
    let! s := get_state in
    match phase s with
    | ph_select => stepSelect
    | ph_pop_constraint => stepPopConstraint
    | ph_expand_tree => stepExpandTree
    | ph_generate => stepGenerate
    | ph_check => stepCheck
    | ph_init => ret false
    end.

(** Running a method: the world it leaves and the value it returns. *)
Definition exec {A} (m : M A) (w : World) : World := (m w).2.
Definition result {A} (m : M A) (w : World) : outcome A := (m w).1.

(** A driver loop: call [step] up to [n] times, collecting the return
    values, until one call returns [false] or throws. *)
Fixpoint run_steps (n : nat) (w : World) : list (outcome bool) * World :=
  match n with
  | 0 => ([], w)
  | S n' =>
      match step w with
      | (Val true, w') =>
          let '(rs, w'') := run_steps n' w' in (Val true :: rs, w'')
      | (r, w') => ([r], w')
      end
  end.


(** ** Specification predicates and invariants

    Nothing below is part of the program: these are the statements the
    proofs are about. *)

(** The state of the breadth-first loop, with the entries already
    dequeued ([done]) as ghost state: entries carry exact walk lengths,
    the queue holds at most two consecutive levels, and every neighbour
    of a dequeued vertex has been seen. *)
Record bfs_inv (g : Graph) (from to : jsval)
  (done queue : list (jsval * nat)) (visited : list jsval) : Prop := {
  inv_vis : ∀ x, x ∈ visited ↔ x ∈ (done ++ queue).*1;
  inv_nodup : NoDup (done ++ queue).*1;
  inv_walk : ∀ v d, (v, d) ∈ done ++ queue → walk g from d v;
  inv_level : ∃ d0 qa qb,
    queue = qa ++ qb
    ∧ Forall (λ e, e.2 = d0) qa
    ∧ Forall (λ e, e.2 = S d0) qb
    ∧ Forall (λ e, e.2 ≤ d0) done;
  inv_closed : ∀ v d w, (v, d) ∈ done → w ∈ getNeighbors g v →
    ∃ d', d' ≤ S d ∧ (Num w, d') ∈ done ++ queue;
  inv_to : ∀ v d, (v, d) ∈ done → v ≠ to;
  inv_from : (from, 0) ∈ done ++ queue;
  inv_univ : ∀ v d, (v, d) ∈ done ++ queue →
    v = from ∨ ∃ n, v = Num n ∧ n ∈ targets g
}.


(** The distance contract read clause by clause, each clause on its
    own: [0] for equal arguments, [Infinity] as soon as one argument is
    [null], and the hop distance otherwise. *)
Definition getDistance_clauses (g : Graph) (from to : jsval) : Prop :=
  (from = to → getDistance g from to = Hops 0)
  ∧ (from = Null ∨ to = Null → getDistance g from to = Infinity)
  ∧ (from ≠ Null → to ≠ Null → is_distance g from to (getDistance g from to)).

Definition empty_graph : Graph := mkGraph ∅ ∅ ∅ 0 0.

(** Two vertices joined by one edge, as [addVertex] twice and
    [addEdge(0, 1)] build it. *)
Definition edge_graph : Graph :=
  mkGraph {[0 := mkVertex 0 0 0 [97%N]; 1 := mkVertex 1 1 0 [98%N]]}
          {[0 := mkEdge 0 0 1]}
          {[0 := [1]; 1 := [0]]} 2 1.


(** Agent ids are the positions in [this.agents]: the caller numbers
    the agents [0 .. N-1] in array order. *)
Definition ids_wf (agents : list Agent) : Prop :=
  aid <$> agents = seq 0 (length agents).

Definition dist_gt (x y : dist) : Prop := dist_lt y x = true.

(** The order a stable sort has to produce: strictly earlier by the
    comparator, or tied and earlier in the input ([tie]). *)
Definition sorted_before {A} (cmp : A → A → sign) (tie : A → A → Prop)
  (x y : A) : Prop :=
  cmp x y = Neg ∨ (cmp x y = Zero ∧ tie x y).

(** A comparator that a sort can rely on. *)
Record consistent {A} (cmp : A → A → sign) : Prop := {
  cmp_flip : ∀ x y, cmp x y = Pos → cmp y x = Neg;
  cmp_trans : ∀ x y z, cmp x y ≠ Pos → cmp y z ≠ Pos → cmp x z ≠ Pos
}.

(** The keys the two priority orders sort by, per agent id. *)
Definition init_key (g : Graph) (agents : list Agent) (a : nat) : dist :=
  from_option (λ ag, getDistance g (start ag) (goal ag)) Infinity (agents !! a).

Definition init_before (g : Graph) (agents : list Agent) (a b : nat) : Prop :=
  dist_gt (init_key g agents a) (init_key g agents b)
  ∨ (init_key g agents a = init_key g agents b ∧ a < b).

Definition at_goal (agents : list Agent) (Q : Configuration) (a : nat) : bool :=
  from_option (λ ag, bool_decide (config_get Q (Num a) = goal ag)) false
    (agents !! a).

Definition order_key (g : Graph) (agents : list Agent) (Q : Configuration)
  (a : nat) : dist :=
  from_option (λ ag, getDistance g (config_get Q (Num a)) (goal ag)) Infinity
    (agents !! a).

Definition order_before (g : Graph) (agents : list Agent) (Q : Configuration)
  (a b : nat) : Prop :=
  (at_goal agents Q a = false ∧ at_goal agents Q b = true)
  ∨ (at_goal agents Q a = at_goal agents Q b
     ∧ (dist_gt (order_key g agents Q a) (order_key g agents Q b)
        ∨ (order_key g agents Q a = order_key g agents Q b ∧ a < b))).

(** The [paper] preset of the source: vertices a, b, c, d with the
    edges a-b, b-c and a-d; agent 1 goes from a to d, agent 2 from c
    to b. *)
Definition paper_graph : Graph :=
  mkGraph
    {[0 := mkVertex 0 80 150 [97%N]; 1 := mkVertex 1 200 150 [98%N];
      2 := mkVertex 2 320 150 [99%N]; 3 := mkVertex 3 80 280 [100%N]]}
    {[0 := mkEdge 0 0 1; 1 := mkEdge 1 1 2; 2 := mkEdge 2 0 3]}
    {[0 := [1; 3]; 1 := [0; 2]; 2 := [1]; 3 := [0]]}
    4 3.

Definition paper_agents : list Agent :=
  [mkAgent 0 (Num 0) (Num 3); mkAgent 1 (Num 2) (Num 1)].

(** C7 as it states it, for every agent list. *)
Definition priority_orders_claim (g : Graph) (agents : list Agent)
  (Q : Configuration) : Prop :=
  getInitOrder g agents ≡ₚ seq 0 (length agents)
  ∧ StronglySorted (init_before g agents) (getInitOrder g agents)
  ∧ getOrder g agents Q ≡ₚ seq 0 (length agents)
  ∧ StronglySorted (order_before g agents Q) (getOrder g agents Q).

(** Three agents on the graph of the [paper] preset, numbered by
    position: a to b (one hop), c to d (three hops), b to c (one
    hop). *)
Definition three_agents : list Agent :=
  [mkAgent 0 (Num 0) (Num 1); mkAgent 1 (Num 2) (Num 3); mkAgent 2 (Num 1) (Num 2)].

(** Two agents on that graph whose ids are 0 and 1 but not their
    positions in the array: the first, with id 1, goes from d to a, the
    second, with id 0, from c to b. *)
Definition swapped_agents : list Agent :=
  [mkAgent 1 (Num 3) (Num 0); mkAgent 0 (Num 2) (Num 1)].


(** Successor validity. [is_move g Q a v]: in one step agent [a] may be
    at [v], staying or crossing one edge. *)
Definition is_move (g : Graph) (Q : Configuration) (a : nat) (v : jsval) : Prop :=
  v = config_get Q (Num a)
  ∨ ∃ n, n ∈ getNeighbors g (config_get Q (Num a)) ∧ v = Num n.

Definition no_swap (N : nat) (Q Q' : Configuration) : Prop :=
  ∀ i j, i < N → j < N → i ≠ j →
    ¬ (config_get Q (Num i) = config_get Q' (Num j)
       ∧ config_get Q (Num j) = config_get Q' (Num i)).

Definition respects (N : nat) (K : gmap jsval jsval) (Q' : Configuration) : Prop :=
  ∀ a v, a < N → K !! Num a = Some v → config_get Q' (Num a) = v.

Record valid_successor (g : Graph) (N : nat) (Q : Configuration)
  (K : gmap jsval jsval) (Q' : Configuration) : Prop := {
  vs_length : length (locations Q') = N;
  vs_distinct : NoDup (locations Q');
  vs_moves : ∀ a, a < N → is_move g Q a (config_get Q' (Num a));
  vs_no_swap : no_swap N Q Q';
  vs_respects : respects N K Q'
}.

(** The constraints a constraint tree produces pin an agent to its
    current vertex or to a neighbour of it. *)
Definition constraints_are_moves (g : Graph) (N : nat) (Q : Configuration)
  (K : gmap jsval jsval) : Prop :=
  ∀ a v, a < N → K !! Num a = Some v → is_move g Q a v.

(** The state of the two placement loops of [generateConfig] after the
    agents [P] have been placed. *)
Record placed (g : Graph) (N : nat) (Q : Configuration) (K : gmap jsval jsval)
  (P : list nat) (newLocations occupiedNext : list jsval) : Prop := {
  pl_length : length newLocations = N;
  pl_ids : NoDup P ∧ ∀ a, a ∈ P → a < N;
  pl_occupied : occupiedNext ≡ₚ (λ a, default Undefined (newLocations !! a)) <$> P;
  pl_distinct : NoDup occupiedNext;
  pl_moves : ∀ a, a ∈ P → is_move g Q a (default Undefined (newLocations !! a));
  pl_respects : ∀ a v, a ∈ P → K !! Num a = Some v →
    default Undefined (newLocations !! a) = v
}.


(** Successor validity as C1 states it, for every constraint map. *)
Definition generateConfig_claim (g : Graph) (agents : list Agent)
  (Q : Configuration) (K : gmap jsval jsval) : Prop :=
  ∀ Q', generateConfig g agents Q K = Some Q' →
        valid_successor g (length agents) Q K Q'.

(** The start configuration of the [paper] preset. *)
Definition paper_start : Configuration := mkConfig [Num 0; Num 2].


(** *** Calls and reachable worlds *)

Inductive call := Initialize | Step | StepBack | Reset.

(** What a call leaves behind, whether it returns or throws. *)
Definition perform (c : call) (w : World) : World :=
  match c with
  | Initialize => exec initialize w
  | Step => exec step w
  | StepBack => exec stepBack w
  | Reset => exec reset w
  end.

(** The worlds a solver built by [new LaCAM(graph, agents)] can be in. *)
Inductive reachable (g : Graph) (ags : list Agent) : World → Prop :=
| reach_new : reachable g ags (construct g ags)
| reach_call w c : reachable g ags w → reachable g ags (perform c w).

(** [wp m w Q]: running [m] on [w] ends in an outcome and a world that
    satisfy [Q]. *)
Definition wp {A} (m : M A) (w : World) (Q : outcome A → World → Prop) : Prop :=
  Q (m w).1 (m w).2.

(** The constraint-tree nodes of a store: addresses below the
    allocation pointer, children allocated after their parent, depths
    bounded by the number of agents and growing by one per level. *)
Record ll_ok (N : nat) (ll : gmap addr LowLevelNode) (nx : addr) : Prop := {
  ll_alloc : ∀ a, is_Some (ll !! a) → a < nx;
  ll_children : ∀ a n c, ll !! a = Some n → c ∈ children n →
    a < c ∧ is_Some (ll !! c);
  ll_depth : ∀ a n, ll !! a = Some n → depth n ≤ N;
  ll_child : ∀ a n c cn, ll !! a = Some n → c ∈ children n → ll !! c = Some cn →
    depth cn = S (depth n) ∧ lparent cn = Some a
}.

(** What holds of every reachable world. *)
Record store_ok (w : World) : Prop := {
  ok_ll : ll_ok (length (agents w)) (llnodes w) (next w);
  ok_arr : ∀ a, is_Some (arrays w !! a) → a < next w;
  ok_hl : ∀ a, is_Some (hlnodes w !! a) → a < next w;
  ok_treeRoot : ∀ h hn r, hlnodes w !! h = Some hn → treeRoot hn = Some r →
    is_Some (llnodes w !! r);
  ok_state : state w = None → history w = [];
  ok_snap_root : ∀ snap id data r, snap ∈ history w →
    nodes snap !! id = Some data → nd_treeRoot data = Some r →
    is_Some (llnodes w !! r);
  ok_history : length (history w) ≤ 200
}.

(** A world that grew by allocation only: everything that was in the
    store is still there, unchanged, and the inputs are the same. *)
Record extends (w w' : World) : Prop := {
  ext_next : next w ≤ next w';
  ext_ll : ∀ a, a < next w → llnodes w' !! a = llnodes w !! a;
  ext_arr : ∀ a, a < next w → arrays w' !! a = arrays w !! a;
  ext_hl : ∀ a, a < next w → hlnodes w' !! a = hlnodes w !! a;
  ext_graph : graph w' = graph w;
  ext_agents : agents w' = agents w
}.

(** When cloning the tree below [a] cannot run out of fuel: the nodes
    below the bound [B] only have children below [B]. *)
Definition clone_safe (B fuel : nat) (a : addr) (w : World) : Prop :=
  B ≤ next w
  ∧ (∀ b n c, b < B → llnodes w !! b = Some n → c ∈ children n → c < B)
  ∧ a < B ∧ B < fuel + a.

(** A method that writes nothing. *)
Definition readonly {A} (m : M A) : Prop := ∀ w, (m w).2 = w.


(** A high-level node whose references all point to objects. *)
Definition node_ready (h : addr) (w : World) : Prop :=
  ∃ hn q, hlnodes w !! h = Some hn
          ∧ arrays w !! tree hn = Some q
          ∧ (∀ t, t ∈ q → is_Some (llnodes w !! t))
          ∧ (∀ p, parent hn = Some p → is_Some (hlnodes w !! p)).

(** The state can be snapshotted: every reference it holds points to
    an object. *)
Definition snapshot_ready (w : World) : Prop :=
  ∃ s, state w = Some s
       ∧ (∀ h, h ∈ open s → node_ready h w)
       ∧ (∀ k h, explored s !! k = Some h → node_ready h w)
       ∧ (∀ h, currentHighLevelNode s = Some h → is_Some (hlnodes w !! h))
       ∧ (∀ c, currentLowLevelNode s = Some c → is_Some (llnodes w !! c)).

(** The tree roots recorded in a [nodes] map are allocated. *)
Definition roots_alloc (nodes : gmap nat NodeData) (w : World) : Prop :=
  ∀ id data r, nodes !! id = Some data → nd_treeRoot data = Some r →
               is_Some (llnodes w !! r).

(** The bounded history after one more snapshot. *)
Definition push_snapshot (h : list Snapshot) (snap : Snapshot) : list Snapshot :=
  if decide (200 < length (h ++ [snap])) then tail (h ++ [snap]) else h ++ [snap].


(** A method that leaves the inputs of the solver, the graph and the
    agents, as they are, whether it returns or throws. *)
Definition keeps_inputs {A} (m : M A) : Prop :=
  ∀ w, graph (m w).2 = graph w ∧ agents (m w).2 = agents w.


(** What [stepExpandTree] does to the store when it expands the node
    [C] (holding [c]) of a high-level node whose queue array is [t]
    (holding [q]): one fresh leaf per move, in the order of the moves,
    appended to the children of [C] and to the queue; nothing else in
    the store changes. *)
Record expanded_by (w w' : World) (C : addr) (c : LowLevelNode) (t : addr)
  (q : list addr) (a : jsval) (moves : list jsval) : Prop := {
  exp_next : next w' = next w + length moves;
  exp_counter : llNodeIdCounter w' = llNodeIdCounter w + length moves;
  exp_node : llnodes w' !! C
             = Some (set_children (children c ++ seq (next w) (length moves)) c);
  exp_queue : arrays w' !! t = Some (q ++ seq (next w) (length moves));
  exp_child : ∀ i m, moves !! i = Some m →
    llnodes w' !! (next w + i)
    = Some (mkLL (llNodeIdCounter w + i) (Some C) a m [] (S (depth c)) false false);
  exp_ll_frame : ∀ b, b < next w → b ≠ C → llnodes w' !! b = llnodes w !! b;
  exp_arr_frame : ∀ b, b ≠ t → arrays w' !! b = arrays w !! b;
  exp_hl : hlnodes w' = hlnodes w;
  exp_hl_counter : hlNodeIdCounter w' = hlNodeIdCounter w;
  exp_state : state w' = state w;
  exp_history : history w' = history w
}.


(** A sequence of calls, and what a user of the solver sees of a
    world: the phase, the status, the step number and the generated
    configuration. *)
Definition run_calls (cs : list call) (w : World) : World :=
  foldl (λ w c, perform c w) w cs.

Definition observe (w : World)
  : option (Phase * Status * nat * option Configuration) :=
  match state w with
  | Some s => Some (phase s, status s, stepNumber s, generatedConfig s)
  | None => None
  end.


(** ** The mutators of [Graph]

    A [Set] is kept as the list of its elements in insertion order:
    [add] appends an element that is not in the set, [delete] takes an
    element out. *)
Definition set_add (x : nat) (s : list nat) : list nat :=
  if decide (x ∈ s) then s else s ++ [x].

Definition set_delete (x : nat) (s : list nat) : list nat :=
  filter (λ y, y ≠ x) s.

(** [String.fromCharCode(n)]: the string of the one code unit [n],
    taken modulo 2^16. *)
Definition fromCharCode (n : nat) : codeunits := [(N.of_nat n mod 65536)%N].

(** [addVertex(x, y)] returns the new id. *)
Definition addVertex (x y : Z) (g : Graph) : nat * Graph :=
  let id := nextVertexId g in
  let label := fromCharCode (97 + id) in
  (id,
   mkGraph (<[id := mkVertex id x y label]> (vertices g)) (edges g)
     (<[id := []]> (adjacency g)) (S id) (nextEdgeId g)).

(** The test of the loop of [addEdge]: the edge joins [a] and [b], in
    one direction or the other. *)
Definition joins (a b : nat) (e : Edge) : Prop :=
  (v1 e = a ∧ v2 e = b) ∨ (v1 e = b ∧ v2 e = a).

Global Instance joins_dec a b e : Decision (joins a b e).
Proof. unfold joins. apply _. Defined.

(** [addEdge(v1, v2)] returns the new edge id, or [null] ([None])
    for a loop or an edge that is already there.
    [this.adjacency.get(v).add(...)] is a [TypeError] when [v] has no
    neighbour set; the writes made before it stay. *)
Definition addEdge (a b : nat) (g : Graph) : outcome (option nat) * Graph :=
  if decide (a = b) then (Val None, g)
  else if decide (map_Exists (λ _ e, joins a b e) (edges g)) then (Val None, g)
  else
    let id := nextEdgeId g in
    let g1 := mkGraph (vertices g) (<[id := mkEdge id a b]> (edges g))
                (adjacency g) (nextVertexId g) (S id) in
    match adjacency g1 !! a with
    | None => (Throw TypeError, g1)
    | Some sa =>
        let g2 := mkGraph (vertices g1) (edges g1)
                    (<[a := set_add b sa]> (adjacency g1))
                    (nextVertexId g1) (nextEdgeId g1) in
        match adjacency g2 !! b with
        | None => (Throw TypeError, g2)
        | Some sb =>
            (Val (Some id),
             mkGraph (vertices g2) (edges g2)
               (<[b := set_add a sb]> (adjacency g2))
               (nextVertexId g2) (nextEdgeId g2))
        end
    end.

(** [removeEdge(id)]; [?.delete] skips an endpoint without a neighbour
    set. *)
Definition removeEdge (id : nat) (g : Graph) : Graph :=
  match edges g !! id with
  | Some edge =>
      mkGraph (vertices g) (delete id (edges g))
        (alter (set_delete (v1 edge)) (v2 edge)
           (alter (set_delete (v2 edge)) (v1 edge) (adjacency g)))
        (nextVertexId g) (nextEdgeId g)
  | None => g
  end.

(** [removeVertex(id)]: the edges at [id] are collected first and then
    removed one by one. *)
Definition removeVertex (id : nat) (g : Graph) : Graph :=
  let toRemove :=
    (filter (λ p, v1 p.2 = id ∨ v2 p.2 = id) (map_to_list (edges g))).*1 in
  let g1 := foldl (λ g edgeId, removeEdge edgeId g) g toRemove in
  mkGraph (delete id (vertices g1)) (edges g1)
    (set_delete id <$> delete id (adjacency g1))
    (nextVertexId g1) (nextEdgeId g1).

(** [getVertexLabel(id)]: [this.vertices.get(id)?.label || '?'] *)
Definition getVertexLabel (id : nat) (g : Graph) : codeunits :=
  match vertices g !! id with
  | Some v => if decide (vlabel v = []) then [63%N] else vlabel v
  | None => [63%N]
  end.

(** [clear()] *)
Definition clear (g : Graph) : Graph := mkGraph ∅ ∅ ∅ 0 0.

(** What the mutators keep: the neighbour sets are those of the
    vertices, ids are below the counters, an edge joins two different
    vertices, no two edges join the same pair, and the neighbour sets
    say exactly what the edges say. *)
Record graph_wf (g : Graph) : Prop := {
  gw_dom : ∀ v, is_Some (adjacency g !! v) ↔ is_Some (vertices g !! v);
  gw_vertex : ∀ i v, vertices g !! i = Some v → vid v = i ∧ i < nextVertexId g;
  gw_edge : ∀ i e, edges g !! i = Some e →
    eid e = i ∧ i < nextEdgeId g ∧ v1 e ≠ v2 e
    ∧ is_Some (vertices g !! v1 e) ∧ is_Some (vertices g !! v2 e);
  gw_unique : ∀ i j e e', edges g !! i = Some e → edges g !! j = Some e' →
    joins (v1 e) (v2 e) e' → i = j;
  gw_adjacent : ∀ a s b, adjacency g !! a = Some s →
    (b ∈ s ↔ ∃ i e, edges g !! i = Some e ∧ joins a b e);
  gw_nodup : ∀ a s, adjacency g !! a = Some s → NoDup s
}.

(** The calls the editor makes on its graph, and the graphs it can
    build: [addEdge] is called with two vertices found under the
    pointer. *)
Inductive graph_call :=
| AddVertex (x y : Z)
| AddEdge (a b : nat)
| RemoveEdge (id : nat)
| RemoveVertex (id : nat)
| Clear.

Definition graph_perform (c : graph_call) (g : Graph) : Graph :=
  match c with
  | AddVertex x y => (addVertex x y g).2
  | AddEdge a b => (addEdge a b g).2
  | RemoveEdge id => removeEdge id g
  | RemoveVertex id => removeVertex id g
  | Clear => clear g
  end.

Definition call_ok (c : graph_call) (g : Graph) : Prop :=
  match c with
  | AddEdge a b => is_Some (vertices g !! a) ∧ is_Some (vertices g !! b)
  | _ => True
  end.

Inductive edited : Graph → Prop :=
| edited_new : edited empty_graph
| edited_call g c : edited g → call_ok c g → edited (graph_perform c g).

(** The calls of [loadExample('paper')]. *)
Definition paper_calls : list graph_call :=
  [AddVertex 80 150; AddVertex 200 150; AddVertex 320 150; AddVertex 80 280;
   AddEdge 0 1; AddEdge 1 2; AddEdge 0 3].

(** A sequence of editor calls, each checked where it is made. *)
Fixpoint calls_ok (cs : list graph_call) (g : Graph) : Prop :=
  match cs with
  | [] => True
  | c :: cs' => call_ok c g ∧ calls_ok cs' (graph_perform c g)
  end.

Definition graph_perform_all (cs : list graph_call) (g : Graph) : Graph :=
  foldl (λ g c, graph_perform c g) g cs.


(** ** The agent list of [App]

    [this.agents] and [this.selectedAgent]; the [color] of an agent is
    presentation only and is left out. *)
Record AgentList := mkAgentList {
  app_agents : list Agent;
  selectedAgent : option nat
}.

(** [new Agent(id)]: start and goal are [null] until they are set. *)
Definition new_Agent (id : nat) : Agent := mkAgent id Null Null.

(** [addAgent()] *)
Definition addAgent (st : AgentList) : AgentList :=
  let id := length (app_agents st) in
  mkAgentList (app_agents st ++ [new_Agent id]) (Some id).

(** [this.agents.forEach((a, i) => { a.id = i; ... })] *)
Definition reassign_ids (agents : list Agent) : list Agent :=
  imap (λ i a, mkAgent i (start a) (goal a)) agents.

(** [removeSelectedAgent()]; [splice(i, 1)] past the end removes
    nothing. *)
Definition removeSelectedAgent (st : AgentList) : AgentList :=
  match selectedAgent st with
  | Some sel =>
      if decide (0 < length (app_agents st)) then
        let agents := reassign_ids (delete sel (app_agents st)) in
        mkAgentList agents (if decide (0 < length agents) then Some 0 else None)
      else st
  | None => st
  end.

(** [selectAgent(id)] *)
Definition selectAgent (id : nat) (st : AgentList) : AgentList :=
  mkAgentList (app_agents st) (Some id).

(** [this.agents[this.selectedAgent].start = vertex], the write that
    [onCanvasMouseDown] makes in the mode [start] when an agent is
    selected and a vertex was found under the pointer; a [TypeError]
    when the selected index holds no agent. [setGoal] is the same write
    in the mode [goal]. *)
Definition setStart (vertex : nat) (st : AgentList) : outcome unit * AgentList :=
  match selectedAgent st with
  | Some sel =>
      match app_agents st !! sel with
      | Some a =>
          (Val tt,
           mkAgentList (<[sel := mkAgent (aid a) (Num vertex) (goal a)]> (app_agents st))
             (selectedAgent st))
      | None => (Throw TypeError, st)
      end
  | None => (Val tt, st)
  end.

Definition setGoal (vertex : nat) (st : AgentList) : outcome unit * AgentList :=
  match selectedAgent st with
  | Some sel =>
      match app_agents st !! sel with
      | Some a =>
          (Val tt,
           mkAgentList (<[sel := mkAgent (aid a) (start a) (Num vertex)]> (app_agents st))
             (selectedAgent st))
      | None => (Throw TypeError, st)
      end
  | None => (Val tt, st)
  end.

(** The agents after [clearGraph()]. *)
Definition clear_agents : AgentList := mkAgentList [] None.

(** The calls [this.graph.addEdge(u, v)] of a preset, in order; a call
    that throws ends [loadExample]. *)
Fixpoint addEdges (es : list (nat * nat)) (g : Graph) : outcome unit * Graph :=
  match es with
  | [] => (Val tt, g)
  | (u, v) :: es' =>
      match addEdge u v g with
      | (Val _, g') => addEdges es' g'
      | (Throw e, g') => (Throw e, g')
      end
  end.

(** [case 'paper'] *)
Definition load_paper (g : Graph) : outcome (list Agent) * Graph :=
  let '(a, g) := addVertex 80 150 g in
  let '(b, g) := addVertex 200 150 g in
  let '(c, g) := addVertex 320 150 g in
  let '(d, g) := addVertex 80 280 g in
  match addEdges [(a, b); (b, c); (a, d)] g with
  | (Val _, g) => (Val [mkAgent 0 (Num a) (Num d); mkAgent 1 (Num c) (Num b)], g)
  | (Throw e, g) => (Throw e, g)
  end.

(** [case 'swap'] *)
Definition load_swap (g : Graph) : outcome (list Agent) * Graph :=
  let '(s1, g) := addVertex 100 175 g in
  let '(s2, g) := addVertex 200 175 g in
  let '(s3, g) := addVertex 300 175 g in
  match addEdges [(s1, s2); (s2, s3)] g with
  | (Val _, g) => (Val [mkAgent 0 (Num s1) (Num s3); mkAgent 1 (Num s3) (Num s1)], g)
  | (Throw e, g) => (Throw e, g)
  end.

(** [case 'tunnel'] *)
Definition load_tunnel (g : Graph) : outcome (list Agent) * Graph :=
  let '(t1, g) := addVertex 50 175 g in
  let '(t2, g) := addVertex 125 175 g in
  let '(t3, g) := addVertex 200 175 g in
  let '(t4, g) := addVertex 275 175 g in
  let '(t5, g) := addVertex 350 175 g in
  let '(t6, g) := addVertex 200 100 g in
  match addEdges [(t1, t2); (t2, t3); (t3, t4); (t4, t5); (t3, t6)] g with
  | (Val _, g) => (Val [mkAgent 0 (Num t1) (Num t5); mkAgent 1 (Num t5) (Num t1)], g)
  | (Throw e, g) => (Throw e, g)
  end.

(** [gridV[i]] as a vertex id handed to [addEdge]; the indices the
    preset uses are all below the length of [gridV]. *)
Definition grid_edge (gridV : list nat) (ij : nat * nat) : nat * nat :=
  (default 0 (gridV !! ij.1), default 0 (gridV !! ij.2)).

(** [gridV[i]] as the start or goal of an agent. *)
Definition grid_at (gridV : list nat) (i : nat) : jsval :=
  from_option Num Undefined (gridV !! i).

(** [case 'grid']: the two nested loops that add the vertices, row by
    row, and the two that add the horizontal and the vertical edges. *)
Definition load_grid (g : Graph) : outcome (list Agent) * Graph :=
  let '(gridV, g) :=
    foldl (λ '(gridV, g) '(row, col),
             let '(v, g) := addVertex (100 + Z.of_nat col * 100)
                              (100 + Z.of_nat row * 100) g in
             (gridV ++ [v], g))
      ([], g) (row ← seq 0 3; col ← seq 0 3; [(row, col)]) in
  let horizontal :=
    row ← seq 0 3; col ← seq 0 2; [(row * 3 + col, row * 3 + col + 1)] in
  let vertical :=
    row ← seq 0 2; col ← seq 0 3; [(row * 3 + col, (row + 1) * 3 + col)] in
  match addEdges (grid_edge gridV <$> horizontal ++ vertical) g with
  | (Val _, g) =>
      (Val [mkAgent 0 (grid_at gridV 0) (grid_at gridV 8);
            mkAgent 1 (grid_at gridV 2) (grid_at gridV 6)], g)
  | (Throw e, g) => (Throw e, g)
  end.

(** The names of the presets. *)
Definition presets : list string := ["paper"; "swap"; "tunnel"; "grid"].

(** [loadExample(name)]: [clearGraph()], then the [switch] over the
    name, which has no default case, then [this.selectedAgent = 0],
    whatever the name was. *)
Definition loadExample (name : string) (app : Graph * AgentList)
  : outcome unit * (Graph * AgentList) :=
  let g := clear app.1 in
  let loaded :=
    if decide (name = "paper") then load_paper g
    else if decide (name = "swap") then load_swap g
    else if decide (name = "tunnel") then load_tunnel g
    else if decide (name = "grid") then load_grid g
    else (Val [], g) in
  match loaded with
  | (Val pushed, g) =>
      (Val tt, (g, mkAgentList (app_agents clear_agents ++ pushed) (Some 0)))
  | (Throw e, g) => (Throw e, (g, clear_agents))
  end.

(** The calls on the agent list; an agent is selected by a click on
    its entry in the list, so [selectAgent] gets the id of an agent.
    The agents that [loadExample] leaves do not depend on the graph it
    starts from, which it clears first. *)
Inductive agent_call :=
| AddAgent
| RemoveSelectedAgent
| SelectAgent (id : nat)
| SetStart (vertex : nat)
| SetGoal (vertex : nat)
| ClearGraph
| LoadExample (name : string).

Definition agent_perform (c : agent_call) (st : AgentList) : AgentList :=
  match c with
  | AddAgent => addAgent st
  | RemoveSelectedAgent => removeSelectedAgent st
  | SelectAgent id => selectAgent id st
  | SetStart v => (setStart v st).2
  | SetGoal v => (setGoal v st).2
  | ClearGraph => clear_agents
  | LoadExample name => (loadExample name (empty_graph, st)).2.2
  end.

Definition agent_call_ok (c : agent_call) (st : AgentList) : Prop :=
  match c with
  | SelectAgent id => id ∈ aid <$> app_agents st
  | _ => True
  end.

Inductive agents_reachable : AgentList → Prop :=
| agents_new : agents_reachable clear_agents
| agents_call st c :
    agents_reachable st → agent_call_ok c st →
    agents_reachable (agent_perform c st).

(** The selected index, when there is one, is the position of an
    agent. *)
Definition selection_ok (st : AgentList) : Prop :=
  ∀ i, selectedAgent st = Some i → i < length (app_agents st).

(** The state [loadExample] leaves for a name that is no preset: no
    agent, and index 0 selected. *)
Definition no_agent_selected (st : AgentList) : Prop :=
  app_agents st = [] ∧ selectedAgent st = Some 0.

(** [initAlgorithm()]: the three checks, each ending the call with an
    alert, and then [new LaCAM(this.graph, this.agents)] and
    [initialize()]. [None] is the call that was refused. *)
Definition initAlgorithm (g : Graph) (st : AgentList) : option World :=
  if decide (size (vertices g) < 2) then None
  else if decide (length (app_agents st) = 0) then None
  else if decide (Exists (λ a, start a = Null ∨ goal a = Null) (app_agents st))
       then None
  else Some (exec initialize (construct g (app_agents st))).


(** The separator of [join], and a string without it. *)
Definition comma : Ascii.ascii := Ascii.ascii_of_nat 44.

Fixpoint comma_free (s : string) : Prop :=
  match s with
  | EmptyString => True
  | String c s' => c ≠ comma ∧ comma_free s'
  end.


(** ** Runs without [stepBack]

    The worlds of a search that was started by [initialize] (or
    [reset]) and has only been stepped since. *)
Inductive fresh_run (g : Graph) (ags : list Agent) : World → Prop :=
| fresh_init w : reachable g ags w → fresh_run g ags (exec initialize w)
| fresh_step w : fresh_run g ags w → fresh_run g ags (exec step w).

(** [wh] is a move of the agent [who] in [Q]: where it is, or a
    neighbour of that. *)
Definition move_of (g : Graph) (Q : Configuration) (who wh : jsval) : Prop :=
  wh = config_get Q who
  ∨ ∃ v, v ∈ getNeighbors g (config_get Q who) ∧ wh = Num v.

(** A constraint-tree node whose path to the root holds moves of [Q]
    only. *)
Inductive lchain (w : World) (Q : Configuration) : addr → Prop :=
| lchain_root a n :
    llnodes w !! a = Some n → who n = Null → lchain w Q a
| lchain_child a n p :
    llnodes w !! a = Some n → who n ≠ Null → lparent n = Some p → p < a →
    lchain w Q p → move_of (graph w) Q (who n) (where_ n) →
    lchain w Q a.

(** The constraints in [K] are moves of [Q]. *)
Definition constraint_moves (g : Graph) (Q : Configuration)
  (K : gmap jsval jsval) : Prop :=
  ∀ x v, K !! x = Some v → move_of g Q x v.

(** Every entry a configuration of a run can have, and the longest
    location array the generator can make: a write at an agent id past
    the end extends the array. *)
Definition universe (g : Graph) (ags : list Agent) : list jsval :=
  Undefined :: (start <$> ags) ++ (Num <$> targets g).

Definition width (ags : list Agent) : nat :=
  length ags `max` S (max_list (aid <$> ags)).

Definition config_ok (g : Graph) (ags : list Agent) (Q : Configuration) : Prop :=
  length (locations Q) ≤ width ags
  ∧ Forall (λ v, v ∈ universe g ags) (locations Q).

(** The accumulator of the placement loops of [generateConfig] holds
    locations of a configuration of the run. *)
Definition shaped (g : Graph) (ags : list Agent)
  (acc : option (list jsval * list jsval)) : Prop :=
  ∀ nl occ, acc = Some (nl, occ) →
    length nl ≤ width ags ∧ Forall (λ v, v ∈ universe g ags) nl.

(** The lists of length [n] over [U], and the hashes of the
    configurations of a run. *)
Fixpoint tuples {A} (U : list A) (n : nat) : list (list A) :=
  match n with
  | 0 => [[]]
  | S n' => x ← U; cons x <$> tuples U n'
  end.

Definition keyspace (g : Graph) (ags : list Agent) : gset string :=
  list_to_set
    ((λ l, hash (mkConfig l))
       <$> (n ← seq 0 (S (width ags)); tuples (universe g ags) n)).

(** A search node was made from the start configuration, or by the
    generator from the configuration of its parent, an older node of
    Explored, under constraints that are moves. *)
Definition origin_ok (w : World) (ex : gmap string addr) (h : addr)
  (hn : HighLevelNode) : Prop :=
  (parent hn = None ∧ config hn = mkConfig (start <$> agents w))
  ∨ ∃ p pn K,
      parent hn = Some p ∧ p < h
      ∧ ex !! hash (config pn) = Some p
      ∧ hlnodes w !! p = Some pn
      ∧ constraint_moves (graph w) (config pn) K
      ∧ generateConfig (graph w) (agents w) (config pn) K = Some (config hn).

(** A node of Explored, under the key [k]. *)
Record hl_good (w : World) (ex : gmap string addr) (k : string) (h : addr)
  : Prop := {
  hg_node : ∃ hn q,
    hlnodes w !! h = Some hn
    ∧ k = hash (config hn)
    ∧ arrays w !! tree hn = Some q
    ∧ (∀ t, t ∈ q → lchain w (config hn) t)
    ∧ config_ok (graph w) (agents w) (config hn)
    ∧ origin_ok w ex h hn
}.

(** What the phase about to run relies on. *)
Definition phase_inv (w : World) (s : State) : Prop :=
  match phase s with
  | ph_init => False
  | ph_select => True
  | ph_pop_constraint =>
      ∃ N hn q, currentHighLevelNode s = Some N ∧ last (open s) = Some N
                ∧ hlnodes w !! N = Some hn
                ∧ arrays w !! tree hn = Some q ∧ q ≠ []
  | ph_expand_tree | ph_generate =>
      ∃ N hn C, currentHighLevelNode s = Some N ∧ last (open s) = Some N
                ∧ hlnodes w !! N = Some hn
                ∧ currentLowLevelNode s = Some C
                ∧ lchain w (config hn) C
  | ph_check =>
      ∃ N hn Q K, currentHighLevelNode s = Some N
                  ∧ hlnodes w !! N = Some hn
                  ∧ generatedConfig s = Some Q
                  ∧ config_ok (graph w) (agents w) Q
                  ∧ constraint_moves (graph w) (config hn) K
                  ∧ generateConfig (graph w) (agents w) (config hn) K = Some Q
  end.

(** Every configuration of a path but the first was made by the
    generator from the one before it, under constraints that are
    moves. *)
Definition generated_steps (g : Graph) (ags : list Agent)
  (path : list Configuration) : Prop :=
  ∀ i Q Q', path !! i = Some Q → path !! S i = Some Q' →
    ∃ K, constraint_moves g Q K ∧ generateConfig g ags Q K = Some Q'.

(** What the invariant keeps of a solution: it starts with the start
    configuration, ends in a configuration that [equals] takes for
    the goal configuration, and no two of its configurations have the
    same hash. *)
Definition path_ok (g : Graph) (ags : list Agent) (path : list Configuration)
  : Prop :=
  head path = Some (mkConfig (start <$> ags))
  ∧ (∃ Q, last path = Some Q ∧ config_ok g ags Q
          ∧ equals Q (mkConfig (goal <$> ags)) = true)
  ∧ generated_steps g ags path
  ∧ NoDup (hash <$> path).

(** A solution: from the start configuration to the goal
    configuration, every configuration a valid successor of the one
    before it. *)
Definition sound_path (g : Graph) (ags : list Agent) (path : list Configuration)
  : Prop :=
  head path = Some (mkConfig (start <$> ags))
  ∧ last path = Some (mkConfig (goal <$> ags))
  ∧ ∀ i Q Q', path !! i = Some Q → path !! S i = Some Q' →
      ∃ K, valid_successor g (length ags) Q K Q'.

(** Two stores whose constraint-tree nodes differ in their flags and
    children only. *)
Definition same_shape (ll ll' : gmap addr LowLevelNode) : Prop :=
  ∀ a n, ll !! a = Some n →
    ∃ n', ll' !! a = Some n' ∧ who n' = who n ∧ where_ n' = where_ n
          ∧ lparent n' = lparent n ∧ depth n' = depth n.

(** *** What the search has covered *)

(** [Q'] is a valid successor of [Q]: one position per agent, the
    positions pairwise distinct, every agent stays or crosses one
    edge, and no two agents swap. *)
Definition succ_of (g : Graph) (N : nat) (Q Q' : Configuration) : Prop :=
  valid_successor g N Q ∅ Q'.

(** A constraint-tree node of a search node with priority order [ord]
    whose path to the root gives the agents [ord[0]], [ord[1]], ...
    their positions in [Q']. *)
Inductive cchain (ll : gmap addr LowLevelNode) (ord : list nat)
  (Q' : Configuration) : addr → Prop :=
| cchain_root t n :
    ll !! t = Some n → who n = Null → depth n = 0 → cchain ll ord Q' t
| cchain_child t n p pn :
    ll !! t = Some n → lparent n = Some p → p < t → ll !! p = Some pn →
    who n = order_at ord (depth pn) → depth n = S (depth pn) →
    where_ n = config_get Q' (who n) →
    cchain ll ord Q' p → cchain ll ord Q' t.

(** The successor [Q'] is what the phase about to run works on: the
    popped node leads to it, or it is the generated configuration. *)
Definition inflight (w : World) (s : State) (hn : HighLevelNode)
  (Q' : Configuration) : Prop :=
  match phase s with
  | ph_expand_tree =>
      ∃ C, currentLowLevelNode s = Some C
           ∧ cchain (llnodes w) (order hn) Q' C
  | ph_generate =>
      ∃ C c, currentLowLevelNode s = Some C
             ∧ cchain (llnodes w) (order hn) Q' C
             ∧ llnodes w !! C = Some c ∧ depth c = length (agents w)
  | ph_check => generatedConfig s = Some Q'
  | _ => False
  end.

(** Every valid successor of an explored configuration is explored,
    or still to come: by a queued node of the constraint tree of an
    open node, or by the phase about to run. A node that has left Open
    does not hold the goal configuration. *)
Record coverage (w : World) (s : State) : Prop := {
  cv_start : is_Some (explored s !! hash (mkConfig (start <$> agents w)));
  cv_order : ∀ k h hn, explored s !! k = Some h → hlnodes w !! h = Some hn →
    order hn ≡ₚ seq 0 (length (agents w));
  cv_closed : ∀ k h hn Q',
    explored s !! k = Some h → hlnodes w !! h = Some hn →
    succ_of (graph w) (length (agents w)) (config hn) Q' →
    is_Some (explored s !! hash Q')
    ∨ (h ∈ open s
       ∧ ∃ q t, arrays w !! tree hn = Some q ∧ t ∈ q
                ∧ cchain (llnodes w) (order hn) Q' t)
    ∨ (currentHighLevelNode s = Some h ∧ inflight w s hn Q');
  cv_not_goal : ∀ k h hn,
    explored s !! k = Some h → hlnodes w !! h = Some hn → h ∉ open s →
    equals (config hn) (mkConfig (goal <$> agents w)) = false;
  cv_no_solution : status s = no_solution → open s = [] ∧ phase s = ph_select
}.

(** The invariant of a run without [stepBack]. What it says about
    coverage relies on the agents being numbered by position. *)
Record live_state (w : World) (s : State) : Prop := {
  ls_open_nodup : NoDup (open s);
  ls_open : ∀ h, h ∈ open s → ∃ k, explored s !! k = Some h;
  ls_explored : ∀ k h, explored s !! k = Some h → hl_good w (explored s) k h;
  ls_trees : ∀ k1 h1 hn1 k2 h2 hn2,
    explored s !! k1 = Some h1 → explored s !! k2 = Some h2 →
    hlnodes w !! h1 = Some hn1 → hlnodes w !! h2 = Some hn2 →
    tree hn1 = tree hn2 → h1 = h2;
  ls_current : ∀ h, currentHighLevelNode s = Some h →
    ∃ k, explored s !! k = Some h;
  ls_current_ll : ∀ c, currentLowLevelNode s = Some c → is_Some (llnodes w !! c);
  ls_running : status s = running → phase_inv w s;
  ls_solved : status s = solved →
    ∃ path, solution s = Some path ∧ path_ok (graph w) (agents w) path;
  ls_counters : nodesGenerated s = size (explored s)
                ∧ configurationsExplored s = size (explored s);
  ls_cover : ids_wf (agents w) → coverage w s
}.

(** Two worlds with the same store, graph and agents. *)
Record same_store (w w' : World) : Prop := {
  ss_ll : llnodes w' = llnodes w;
  ss_arr : arrays w' = arrays w;
  ss_hl : hlnodes w' = hlnodes w;
  ss_graph : graph w' = graph w;
  ss_agents : agents w' = agents w
}.

(** *** The measure of a run *)

Definition max_degree (g : Graph) : nat :=
  max_list (length <$> (map_to_list (adjacency g)).*2).

(** The most children an expansion adds. *)
Definition branching (g : Graph) : nat := S (max_degree g).

(** How many queue entries a queued node of the constraint tree can
    still lead to, itself included, when [k] levels lie below it. *)
Fixpoint wt_levels (b k : nat) : nat :=
  match k with
  | 0 => 1
  | S k' => 1 + b * wt_levels b k'
  end.

(** The weights are taken for a branching bound [b] and [N] agents. *)
Definition wt (b N d : nat) : nat := wt_levels b (N - d).

Definition ll_weight (b N : nat) (ll : gmap addr LowLevelNode) (t : addr) : nat :=
  from_option (λ n, wt b N (depth n)) 0 (ll !! t).

Definition queue_weight (b N : nat) (ll : gmap addr LowLevelNode) (q : list addr)
  : nat :=
  sum_list (ll_weight b N ll <$> q).

Definition node_weight (b N : nat) (w : World) (h : addr) : nat :=
  match hlnodes w !! h with
  | Some hn =>
      1 + 2 * queue_weight b N (llnodes w) (default [] (arrays w !! tree hn))
  | None => 0
  end.

(** The node that was popped and is not expanded yet. *)
Definition pending (b N : nat) (w : World) (s : State) : nat :=
  match phase s, currentLowLevelNode s with
  | ph_expand_tree, Some C => 2 * ll_weight b N (llnodes w) C - 1
  | _, _ => 0
  end.

Definition rank (p : Phase) : nat :=
  match p with
  | ph_generate => 3
  | ph_check => 2
  | ph_select => 1
  | _ => 0
  end.

(** The work that is left: the configurations not explored yet, each
    with the full constraint tree of its node, the queues of the open
    nodes and the node that is being expanded. *)
Definition search_weight (b N cap : nat) (w : World) (s : State) : nat :=
  (1 + 2 * wt b N 0) * (cap - size (explored s))
  + sum_list (node_weight b N w <$> open s)
  + pending b N w s.

Definition measure_of (b N cap : nat) (w : World) (s : State) : nat :=
  4 * search_weight b N cap w s + rank (phase s).

(** The bound on the number of steps of a run. *)
Definition step_bound (g : Graph) (ags : list Agent) : nat :=
  4 * ((1 + 2 * wt_levels (branching g) (length ags))
       * S (size (keyspace g ags)))
  + 3.

(** A phase run on [w] in the state [s] advances the search: it
    returns, keeps the invariant, and either the search goes on with a
    smaller measure or it has ended. *)
Definition advances (b N cap : nat) (w : World) (s : State)
  (r : outcome bool) (w' : World) : Prop :=
  ∃ bo s', r = Val bo ∧ state w' = Some s' ∧ live_state w' s'
           ∧ stepNumber s' = stepNumber s
           ∧ if bo then status s' = running
                        ∧ measure_of b N cap w' s' < measure_of b N cap w s
             else status s' ≠ running.

(** What the history and the user interface see of the outcome of the
    search: the snapshots, the status and the solution. *)
Definition verdict (w : World)
  : list Snapshot * option Status * option (option (list Configuration)) :=
  (history w, status <$> state w, solution <$> state w).

(** A method that never writes the history, the status or the
    solution, whether it returns or throws. *)
Definition keeps_verdict {A} (m : M A) : Prop :=
  ∀ w, verdict (m w).2 = verdict w.

(** Snapshots are taken of a running search only, and the solver holds
    a solution exactly when its status is [solved]. *)
Definition verdict_ok (w : World) : Prop :=
  (∀ snap, snap ∈ history w → s_status snap = running ∧ s_solution snap = None)
  ∧ (∀ s, state w = Some s → (status s = solved ↔ is_Some (solution s))).

(** The step numbers of the states that [saveHistory] has recorded
    when the search is at step [n]: the state [initialize] left, and
    the state before each call of [step] that ran a phase. *)
Definition saved_steps (n : nat) : list nat := 0 :: seq 0 n.

(** The last [k] elements of a list. *)
Definition last_n {A} (k : nat) (l : list A) : list A := drop (length l - k) l.

(** * Proofs *)

(** ** The distance oracle *)

Section bfs.
Context (g : Graph) (from to : jsval).

Lemma getNeighbors_targets v n : n ∈ getNeighbors g v → n ∈ targets g.
Proof.
  destruct v as [| |v]; simpl; try by rewrite elem_of_nil.
  destruct (adjacency g !! v) as [l|] eqn:E; simpl; [|by rewrite elem_of_nil].
  intros Hn. unfold targets. apply list_elem_of_join. exists l. split; [done|].
  apply list_elem_of_fmap. exists (v, l). split; [done|].
  by apply elem_of_map_to_list.
Qed.

(** What the inner loop does to the visited set and to the queue. *)
Lemma visit_neighbors_spec d nbs vis q :
  ∃ pushed vis',
    visit_neighbors d nbs (vis, q) = (vis', q ++ ((λ n, (Num n, S d)) <$> pushed))
    ∧ NoDup pushed
    ∧ (∀ n, n ∈ pushed → n ∈ nbs ∧ Num n ∉ vis)
    ∧ (∀ x, x ∈ vis' ↔ x ∈ vis ∨ ∃ n, n ∈ pushed ∧ x = Num n)
    ∧ (∀ n, n ∈ nbs → Num n ∈ vis').
Proof.
  revert vis q. induction nbs as [|n nbs IH]; intros vis q.
  - exists [], vis. rewrite app_nil_r.
    split_and!; [done|constructor|set_solver|set_solver|set_solver].
  - unfold visit_neighbors. simpl. unfold visit_neighbor at 2. simpl.
    destruct (decide (Num n ∈ vis)) as [Hin|Hnin].
    + destruct (IH vis q) as (pushed & vis' & Heq & Hnd & Hp & Hv & Hall).
      exists pushed, vis'. split_and!; [done|done| |done|].
      * intros m Hm. destruct (Hp m Hm). set_solver.
      * intros m [->|Hm]%elem_of_cons; [|by apply Hall]. apply Hv. by left.
    + destruct (IH (Num n :: vis) (q ++ [(Num n, S d)]))
        as (pushed & vis' & Heq & Hnd & Hp & Hv & Hall).
      exists (n :: pushed), vis'. split_and!.
      * unfold visit_neighbors in Heq. rewrite Heq. f_equal.
        rewrite <- app_assoc. done.
      * constructor; [|done]. intros Hm. destruct (Hp n Hm) as [_ Hx]. set_solver.
      * intros m [->|Hm]%elem_of_cons; [set_solver|].
        destruct (Hp m Hm). set_solver.
      * intros x. rewrite Hv. split.
        -- intros [[->|Hx]%elem_of_cons|(m & Hm & ->)].
           ++ right. exists n. set_solver.
           ++ by left.
           ++ right. exists m. set_solver.
        -- intros [Hx|(m & [->|Hm]%elem_of_cons & ->)].
           ++ left. set_solver.
           ++ left. set_solver.
           ++ right. eauto.
      * intros m [->|Hm]%elem_of_cons; [|by apply Hall]. apply Hv. left. set_solver.
Qed.

(** Any walk from the source ends at a recorded vertex whose recorded
    length is no longer, or passes a queue entry strictly earlier. *)
Lemma bfs_lower done q vis :
  bfs_inv g from to done q vis →
  ∀ n w, walk g from n w →
    (∃ d, d ≤ n ∧ (w, d) ∈ done ++ q) ∨ (∃ v d, (v, d) ∈ q ∧ S d ≤ n).
Proof.
  intros Hinv n w Hw. induction Hw as [|n v w Hw IH Hnb].
  - left. exists 0. split; [lia|]. apply Hinv.
  - destruct IH as [(d & Hd & [Hin|Hin]%elem_of_app)|(v' & d & Hin & Hd)].
    + destruct (inv_closed _ _ _ _ _ _ Hinv v d w Hin Hnb) as (d' & Hd' & Hin').
      left. exists d'. split; [lia|done].
    + right. exists v, d. split; [done|lia].
    + right. exists v', d. split; [done|lia].
Qed.

(** The head of the queue carries the least length of the queue. *)
Lemma bfs_head_min done v d rest vis :
  bfs_inv g from to done ((v, d) :: rest) vis →
  (∀ e, e ∈ rest → d ≤ e.2 ∧ e.2 ≤ S d) ∧ (∀ e, e ∈ done → e.2 ≤ d).
Proof.
  intros Hinv. destruct (inv_level _ _ _ _ _ _ Hinv) as (d0 & qa & qb & Hq & Ha & Hb & Hd).
  rewrite Forall_forall in Ha, Hb, Hd.
  destruct qa as [|e qa].
  - simpl in Hq. subst qb.
    assert (d = S d0) as -> by (apply (Hb (v, d)); set_solver).
    split.
    + intros e He. rewrite (Hb e) by set_solver. lia.
    + intros e He. specialize (Hd e He). lia.
  - injection Hq as <- ->.
    assert (d = d0) as -> by (apply (Ha (v, d)); set_solver).
    split.
    + intros e [He|He]%elem_of_app.
      * rewrite (Ha e) by set_solver. lia.
      * rewrite (Hb e) by set_solver. lia.
    + intros e He. by apply Hd.
Qed.

Lemma bfs_inv_init : bfs_inv g from to [] [(from, 0)] [from].
Proof.
  split; simpl.
  - set_solver.
  - apply NoDup_singleton.
  - intros v d [= -> ->]%list_elem_of_singleton. constructor.
  - exists 0, [(from, 0)], []. split_and!; [done|by repeat constructor|constructor|constructor].
  - set_solver.
  - set_solver.
  - set_solver.
  - intros v d [= -> ->]%list_elem_of_singleton. by left.
Qed.

(** One iteration of the [while] loop keeps the invariant. *)
Lemma bfs_inv_step done v d rest vis :
  bfs_inv g from to done ((v, d) :: rest) vis →
  v ≠ to →
  let st := visit_neighbors d (getNeighbors g v) (vis, rest) in
  bfs_inv g from to (done ++ [(v, d)]) st.2 st.1.
Proof.
  intros Hinv Hne.
  destruct (visit_neighbors_spec d (getNeighbors g v) vis rest)
    as (pushed & vis' & Heq & Hnd & Hp & Hv & Hall).
  simpl. rewrite Heq. simpl.
  pose proof (bfs_head_min _ _ _ _ _ Hinv) as [Hrest Hdone].
  set (new := (λ n, (Num n, S d)) <$> pushed).
  assert (Hnew1 : new.*1 = Num <$> pushed).
  { unfold new. rewrite <- list_fmap_compose. done. }
  assert (Hassoc : (done ++ [(v, d)]) ++ rest ++ new = (done ++ (v, d) :: rest) ++ new).
  { rewrite <- !app_assoc. done. }
  split.
  - intros x. rewrite Hassoc, fmap_app, elem_of_app, Hv, (inv_vis _ _ _ _ _ _ Hinv), Hnew1.
    split.
    + intros [?|(n & ? & ->)]; [by left|right]. by apply list_elem_of_fmap_2.
    + intros [?|(n & -> & ?)%list_elem_of_fmap]; [by left|right]. eauto.
  - rewrite Hassoc, fmap_app. apply NoDup_app. split_and!.
    + apply Hinv.
    + intros x Hx. rewrite Hnew1. intros (n & -> & Hn)%list_elem_of_fmap.
      destruct (Hp n Hn) as [_ Hnv]. apply Hnv. by apply (inv_vis _ _ _ _ _ _ Hinv).
    + rewrite Hnew1. apply NoDup_fmap_2; [|done]. by intros ?? [=].
  - intros x dx. rewrite Hassoc. intros [Hin|Hin]%elem_of_app.
    + by apply Hinv.
    + apply list_elem_of_fmap in Hin as (n & [= -> ->] & Hn).
      econstructor; [|by apply Hp]. apply Hinv. set_solver.
  - assert (Hnew : Forall (λ e, e.2 = S d) new).
    { apply Forall_forall. intros e (n & -> & _)%list_elem_of_fmap. done. }
    destruct (inv_level _ _ _ _ _ _ Hinv) as (d0 & qa & qb & Hq & Ha & Hb & Hd).
    destruct qa as [|e0 qa'].
    + simpl in Hq. subst qb. apply Forall_cons in Hb as [Hd0 Hb]. simpl in Hd0. subst d.
      exists (S d0), rest, new. split_and!; [done|done|done|].
      apply Forall_app. split; [|by repeat constructor].
      eapply Forall_impl; [exact Hd|]. simpl. intros; lia.
    + injection Hq as <- ->. apply Forall_cons in Ha as [Hd0 Ha]. simpl in Hd0. subst d0.
      exists d, qa', (qb ++ new). split_and!; [by rewrite app_assoc|done| |].
      * apply Forall_app. done.
      * apply Forall_app. split; [done|]. by repeat constructor.
  - intros x dx w [Hin| [= -> ->]%list_elem_of_singleton]%elem_of_app Hw.
    + destruct (inv_closed _ _ _ _ _ _ Hinv x dx w Hin Hw) as (d' & Hd' & Hin').
      exists d'. split; [done|]. rewrite Hassoc. set_solver.
    + pose proof (Hall w Hw) as Hvis'. apply Hv in Hvis' as [Hvis|(n & Hn & [= ->])].
      * apply (inv_vis _ _ _ _ _ _ Hinv) in Hvis.
        apply list_elem_of_fmap in Hvis as ([x' d'] & Hx & Hin). simpl in Hx. subst x'.
        exists d'. split; [|rewrite Hassoc; set_solver].
        apply elem_of_app in Hin as [Hin|[[= <- <-]|Hin]%elem_of_cons].
        -- specialize (Hdone _ Hin). simpl in Hdone. lia.
        -- lia.
        -- destruct (Hrest _ Hin). simpl in *. lia.
      * exists (S d). split; [lia|]. rewrite Hassoc. apply elem_of_app. right.
        apply list_elem_of_fmap. eauto.
  - intros x dx [Hin| [= -> ->]%list_elem_of_singleton]%elem_of_app; [|done].
    by eapply inv_to.
  - rewrite Hassoc. apply elem_of_app. left. apply Hinv.
  - intros x dx. rewrite Hassoc. intros [Hin|Hin]%elem_of_app.
    + by eapply inv_univ.
    + apply list_elem_of_fmap in Hin as (n & [= -> ->] & Hn). right. exists n. split; [done|].
      eapply getNeighbors_targets. by apply Hp.
Qed.

Lemma bfs_size_bound done q vis :
  bfs_inv g from to done q vis → length (done ++ q) ≤ S (length (targets g)).
Proof.
  intros Hinv.
  assert ((done ++ q).*1 ⊆+ from :: (Num <$> targets g)) as Hsub.
  { apply NoDup_submseteq; [apply Hinv|].
    intros x ([v d] & -> & Hin)%list_elem_of_fmap. simpl.
    destruct (inv_univ _ _ _ _ _ _ Hinv v d Hin) as [->|(n & -> & Hn)]; [set_solver|].
    apply elem_of_cons. right. by apply list_elem_of_fmap_2. }
  apply submseteq_length in Hsub. rewrite length_fmap in Hsub. simpl in Hsub.
  by rewrite length_fmap in Hsub.
Qed.

(** The loop returns, and what it returns is the distance. *)
Lemma bfs_loop_correct fuel done q vis :
  bfs_inv g from to done q vis →
  S (S (length (targets g))) ≤ fuel + length done →
  ∃ r, bfs_loop fuel g to vis q = Some r ∧ is_distance g from to r.
Proof.
  revert done q vis. induction fuel as [|fuel IH]; intros done q vis Hinv Hfuel.
  - pose proof (bfs_size_bound _ _ _ Hinv) as Hb. rewrite length_app in Hb. simpl in Hfuel. lia.
  - simpl. destruct q as [|[v d] rest].
    + exists Infinity. split; [done|]. simpl. intros n Hw.
      destruct (bfs_lower _ _ _ Hinv n to Hw) as [(d & _ & Hin)|(v & d & Hin & _)].
      * rewrite app_nil_r in Hin. by eapply inv_to.
      * by apply elem_of_nil in Hin.
    + destruct (decide (v = to)) as [->|Hne].
      * exists (Hops d). split; [done|]. simpl. split.
        -- apply Hinv. set_solver.
        -- intros n Hw. pose proof (bfs_head_min _ _ _ _ _ Hinv) as [Hrest Hdone].
           destruct (bfs_lower _ _ _ Hinv n to Hw) as [(d' & Hd' & Hin)|(v & d' & Hin & Hd')].
           ++ assert (d' = d) as ->; [|done].
              pose proof (inv_nodup _ _ _ _ _ _ Hinv) as Hnd.
              assert ((to, d) ∈ done ++ (to, d) :: rest) as Hin2 by set_solver.
              apply list_elem_of_lookup in Hin as [i Hi].
              apply list_elem_of_lookup in Hin2 as [j Hj].
              assert (i = j) as ->.
              { eapply NoDup_lookup; [exact Hnd| |].
                - rewrite list_lookup_fmap, Hi. done.
                - rewrite list_lookup_fmap, Hj. done. }
              congruence.
           ++ apply elem_of_cons in Hin as [[= -> ->]|Hin]; [lia|].
              destruct (Hrest _ Hin). simpl in *. lia.
      * apply (IH (done ++ [(v, d)])).
        -- by apply bfs_inv_step.
        -- rewrite length_app. simpl. lia.
Qed.

Lemma getDistance_bfs :
  from ≠ to → from ≠ Null → to ≠ Null →
  is_distance g from to (getDistance g from to).
Proof.
  intros Hne Hf Ht. unfold getDistance.
  rewrite decide_False by done.
  rewrite decide_False by (intros [?|?]; done).
  destruct (bfs_loop_correct (bfs_fuel g) [] [(from, 0)] [from]) as (r & -> & Hr).
  - apply bfs_inv_init.
  - unfold bfs_fuel. simpl. lia.
  - done.
Qed.
End bfs.

(** C5, as amended. [getDistance] returns [0] when the arguments are
    equal (two [null]s included); for different arguments it returns
    [Infinity] when one of them is [null] or when no walk leads from
    [from] to [to], and otherwise the length of a shortest walk along the
    adjacency index. *)
Theorem getDistance_spec (g : Graph) (from to : jsval) :
  (from = to → getDistance g from to = Hops 0)
  ∧ (from ≠ to → from = Null ∨ to = Null → getDistance g from to = Infinity)
  ∧ (from ≠ to → (∀ n, ¬ walk g from n to) → getDistance g from to = Infinity)
  ∧ (from ≠ to → from ≠ Null → to ≠ Null →
     ∀ d, walk g from d to → (∀ n, walk g from n to → d ≤ n) →
          getDistance g from to = Hops d).
Proof.
  split_and!.
  - intros ->. unfold getDistance. by rewrite decide_True.
  - intros Hne Hnull. unfold getDistance.
    rewrite decide_False by done. by rewrite decide_True.
  - intros Hne Hno. unfold getDistance. rewrite decide_False by done.
    case_decide; [done|].
    pose proof (getDistance_bfs g from to Hne) as Hd.
    unfold getDistance in Hd. rewrite decide_False in Hd by done.
    rewrite decide_False in Hd by done.
    destruct (default Infinity _) as [d|]; [|done].
    destruct Hd as [Hw _]; [naive_solver..|]. by apply Hno in Hw.
  - intros Hne Hf Ht d Hw Hmin.
    pose proof (getDistance_bfs g from to Hne Hf Ht) as Hd.
    destruct (getDistance g from to) as [d'|]; simpl in Hd.
    + destruct Hd as [Hw' Hmin']. f_equal.
      specialize (Hmin _ Hw'). specialize (Hmin' _ Hw). lia.
    + by apply Hd in Hw.
Qed.

(** On the one-edge graph the distance from one end to the other is the
    one hop that the walk along the edge makes. *)
Lemma getDistance_spec_witness :
  getDistance edge_graph (Num 0) (Num 1) = Hops 1.
Proof.
  apply (getDistance_spec edge_graph (Num 0) (Num 1)); [done..| |].
  - apply (walk_step _ _ 0 (Num 0) 1); [constructor|].
    vm_compute. apply list_elem_of_here.
  - intros n Hw. inversion Hw; lia.
Defined.

(** C5 as stated fails when both arguments are [null]: the equality
    test comes first and the answer is [0], not [Infinity]. *)
Lemma getDistance_null_null : ¬ getDistance_clauses empty_graph Null Null.
Proof.
  intros (_ & H & _). specialize (H (or_introl eq_refl)). discriminate H.
Qed.

(** ** Sorting *)

Section sort.
Context {A : Type} (cmp : A → A → sign) (tie : A → A → Prop).
Context (Hcmp : consistent cmp).

Lemma sort_insert_perm x l : sort_insert cmp x l ≡ₚ x :: l.
Proof.
  induction l as [|y l IH]; simpl; [done|].
  destruct (cmp x y); [done|done|]. rewrite IH. apply Permutation_swap.
Qed.

Lemma sort_perm l : sort cmp l ≡ₚ l.
Proof.
  induction l as [|x l IH]; simpl; [done|].
  rewrite sort_insert_perm. by f_equiv.
Qed.

Lemma sorted_before_not_pos x y : sorted_before cmp tie x y → cmp x y ≠ Pos.
Proof. intros [H|[H _]]; congruence. Qed.

(** Inserting an element that ties in favour of itself with all of a
    sorted list. *)
Lemma sort_insert_sorted x l :
  StronglySorted (sorted_before cmp tie) l →
  Forall (tie x) l →
  StronglySorted (sorted_before cmp tie) (sort_insert cmp x l).
Proof.
  intros Hs Ht. induction Hs as [|y l Hs IH Hy]; simpl.
  - repeat constructor.
  - apply Forall_cons in Ht as [Hty Ht].
    assert (Hle : cmp x y ≠ Pos → Forall (sorted_before cmp tie x) (y :: l)).
    { intros Hxy. constructor.
      - destruct (cmp x y) eqn:E; [by left|by right|done].
      - rewrite Forall_forall in Hy, Ht. apply Forall_forall. intros z Hz.
        pose proof (cmp_trans _ Hcmp x y z Hxy
                      (sorted_before_not_pos _ _ (Hy z Hz))) as Hxz.
        destruct (cmp x z) eqn:E; [by left|right; auto|done]. }
    destruct (cmp x y) eqn:E.
    + constructor; [by constructor|]. by apply Hle.
    + constructor; [by constructor|]. by apply Hle.
    + constructor; [by apply IH|].
      rewrite sort_insert_perm. constructor; [|done].
      left. by apply (cmp_flip _ Hcmp).
Qed.

Lemma sort_sorted l :
  StronglySorted tie l → StronglySorted (sorted_before cmp tie) (sort cmp l).
Proof.
  induction 1 as [|x l Hs IH Hx]; simpl; [constructor|].
  apply sort_insert_sorted; [done|]. by rewrite sort_perm.
Qed.
End sort.

Lemma StronglySorted_fmap_inv {A B} (f : A → B) (R : relation B) l :
  StronglySorted R (f <$> l) → StronglySorted (λ x y, R (f x) (f y)) l.
Proof.
  induction l as [|x l IH]; [constructor|].
  rewrite fmap_cons. intros [Hx Hs]%StronglySorted_cons. constructor; [by apply IH|].
  apply (proj1 (Forall_fmap f (R (f x)) l)) in Hx. exact Hx.
Qed.

Lemma StronglySorted_fmap_elem {A B} (f : A → B) (R1 : relation A) (R2 : relation B) l :
  (∀ x y, x ∈ l → y ∈ l → R1 x y → R2 (f x) (f y)) →
  StronglySorted R1 l → StronglySorted R2 (f <$> l).
Proof.
  intros HR Hs. induction Hs as [|x l Hs IH Hx]; [constructor|].
  rewrite fmap_cons. constructor.
  - apply IH. intros ?????. apply HR; set_solver.
  - apply Forall_fmap. rewrite Forall_forall in Hx. apply Forall_forall.
    intros y Hy. apply HR; [set_solver|set_solver|by apply Hx].
Qed.

(** The comparators of the source are consistent. *)
Lemma dist_sub_sign_neg x y : dist_sub_sign x y = Neg ↔ dist_gt y x.
Proof.
  unfold dist_gt. destruct x, y; simpl; repeat case_decide;
    rewrite ?bool_decide_eq_true; (naive_solver lia).
Qed.

Lemma dist_sub_sign_zero x y : dist_sub_sign x y = Zero ↔ x = y.
Proof.
  destruct x, y; simpl; repeat case_decide; split; intros; simplify_eq; (done || f_equal; lia || lia).
Qed.

Lemma dist_cmp_consistent {A} (key : A → dist) :
  consistent (λ a b, dist_sub_sign (key b) (key a)).
Proof.
  split.
  - intros x y H. destruct (key x), (key y); simpl in *; repeat case_decide; (done || lia).
  - intros x y z. destruct (key x), (key y), (key z); simpl; repeat case_decide; (done || lia).
Qed.

Lemma order_cmp_consistent : consistent order_cmp.
Proof.
  split.
  - intros [? [] dx] [? [] dy]; unfold order_cmp; simpl; try done;
      destruct dx, dy; simpl; repeat case_decide; (done || lia).
  - intros [? [] dx] [? [] dy] [? [] dz]; unfold order_cmp; simpl; try done;
      destruct dx, dy, dz; simpl; repeat case_decide; (done || lia).
Qed.

Lemma ids_wf_lookup agents ag i :
  ids_wf agents → agents !! i = Some ag → aid ag = i.
Proof.
  unfold ids_wf. intros Hwf Hi.
  assert ((aid <$> agents) !! i = Some (aid ag)) as H by (by rewrite list_lookup_fmap, Hi).
  rewrite Hwf in H. apply lookup_seq in H as [-> _]. done.
Qed.

Lemma ids_wf_elem agents ag :
  ids_wf agents → ag ∈ agents → agents !! aid ag = Some ag.
Proof.
  intros Hwf [i Hi]%list_elem_of_lookup. by rewrite (ids_wf_lookup _ _ _ Hwf Hi).
Qed.

Lemma seq_sorted_lt s n : StronglySorted lt (seq s n).
Proof.
  revert s. induction n as [|n IH]; intros s; simpl; constructor; [apply IH|].
  apply Forall_forall. intros x Hx%elem_of_seq. lia.
Qed.

(** C7, as amended. With the agents numbered [0 .. N-1] in array order, both
    priority orders are permutations of the agent ids. [getInitOrder]
    lists them by descending start-to-goal distance, ties by ascending
    id; [getOrder(Q)] lists every agent that is not at its goal in [Q]
    before every agent that is, each group by descending distance from
    its position in [Q] to its goal, ties by ascending id. *)
Theorem priority_orders_spec (g : Graph) (agents : list Agent) (Q : Configuration) :
  ids_wf agents →
  getInitOrder g agents ≡ₚ seq 0 (length agents)
  ∧ StronglySorted (init_before g agents) (getInitOrder g agents)
  ∧ getOrder g agents Q ≡ₚ seq 0 (length agents)
  ∧ StronglySorted (order_before g agents Q) (getOrder g agents Q).
Proof.
  intros Hwf. split_and!.
  - unfold getInitOrder. rewrite sort_perm, <- list_fmap_compose. by rewrite <- Hwf.
  - unfold getInitOrder.
    set (l := (λ a, (aid a, getDistance g (start a) (goal a))) <$> agents).
    set (cmp := λ a b : nat * dist, dist_sub_sign b.2 a.2).
    assert (Hkeys : Forall (λ p, p.2 = init_key g agents p.1) (sort cmp l)).
    { rewrite sort_perm. apply Forall_forall. intros p (ag & -> & Hag)%list_elem_of_fmap.
      simpl. unfold init_key. by rewrite (ids_wf_elem _ _ Hwf Hag). }
    assert (Hs : StronglySorted (sorted_before cmp (λ a b, a.1 < b.1)) (sort cmp l)).
    { apply sort_sorted; [apply (dist_cmp_consistent snd)|].
      apply (StronglySorted_fmap_inv fst lt). unfold l. rewrite <- list_fmap_compose.
      change (StronglySorted lt (aid <$> agents)). rewrite Hwf. apply seq_sorted_lt. }
    eapply StronglySorted_fmap_elem; [|exact Hs].
    rewrite Forall_forall in Hkeys. intros p q Hp Hq Hpq.
    unfold init_before. rewrite <- (Hkeys p Hp), <- (Hkeys q Hq).
    destruct Hpq as [H|[H ?]]; unfold cmp in H.
    + left. by apply dist_sub_sign_neg.
    + right. split; [|done]. symmetry. by apply dist_sub_sign_zero.
  - unfold getOrder. rewrite sort_perm, <- list_fmap_compose. by rewrite <- Hwf.
  - unfold getOrder.
    set (l := (λ a, mkOrderKey _ _ _) <$> agents).
    assert (Hkeys : Forall (λ p, ok_atGoal p = at_goal agents Q (ok_id p)
                                 ∧ ok_dist p = order_key g agents Q (ok_id p))
                      (sort order_cmp l)).
    { rewrite sort_perm. apply Forall_forall. intros p (ag & -> & Hag)%list_elem_of_fmap.
      simpl. unfold at_goal, order_key. by rewrite (ids_wf_elem _ _ Hwf Hag). }
    assert (Hs : StronglySorted (sorted_before order_cmp (λ a b, ok_id a < ok_id b))
                   (sort order_cmp l)).
    { apply sort_sorted; [apply order_cmp_consistent|].
      apply (StronglySorted_fmap_inv ok_id lt). unfold l. rewrite <- list_fmap_compose.
      change (StronglySorted lt (aid <$> agents)). rewrite Hwf. apply seq_sorted_lt. }
    eapply StronglySorted_fmap_elem; [|exact Hs].
    rewrite Forall_forall in Hkeys. intros p q Hp Hq Hpq.
    destruct (Hkeys p Hp) as [Hk1 Hk2]. destruct (Hkeys q Hq) as [Hq1 Hq2].
    unfold order_before. rewrite <- Hk1, <- Hk2, <- Hq1, <- Hq2.
    destruct Hpq as [H|[H ?]]; unfold order_cmp in H;
      destruct (ok_atGoal p), (ok_atGoal q); simpl in H; try done.
    + right. split; [done|]. left. by apply dist_sub_sign_neg.
    + left. done.
    + right. split; [done|]. left. by apply dist_sub_sign_neg.
    + right. split; [done|]. right. split; [|done]. symmetry. by apply dist_sub_sign_zero.
    + right. split; [done|]. right. split; [|done]. symmetry. by apply dist_sub_sign_zero.
Qed.

(** Three agents on the graph of the [paper] preset. At the start
    agent 1 is three hops from its goal and agents 0 and 2 one hop
    each: the initial order is 1, 0, 2. In the configuration (b, c, a)
    agent 0 is at its goal, agent 1 three hops and agent 2 two hops
    from theirs: the order is 1, 2, 0. *)
Lemma priority_orders_spec_witness :
  let Q := mkConfig [Num 1; Num 2; Num 0] in
  ids_wf three_agents
  ∧ (getInitOrder paper_graph three_agents ≡ₚ seq 0 (length three_agents)
     ∧ StronglySorted (init_before paper_graph three_agents)
         (getInitOrder paper_graph three_agents)
     ∧ getOrder paper_graph three_agents Q ≡ₚ seq 0 (length three_agents)
     ∧ StronglySorted (order_before paper_graph three_agents Q)
         (getOrder paper_graph three_agents Q))
  ∧ getInitOrder paper_graph three_agents = [1; 0; 2]
  ∧ getOrder paper_graph three_agents Q = [1; 2; 0].
Proof.
  intros Q. split; [reflexivity|]. split.
  - apply (priority_orders_spec paper_graph three_agents Q). reflexivity.
  - split; vm_compute; reflexivity.
Defined.

(** C7 as stated fails when the ids are not the array positions: with
    the agent of id 1 listed before the agent of id 0 and every
    distance tied (each agent is one hop from its goal at the start,
    whichever of the two an id is taken to name), both orders are
    [1; 0], the order of the array, and not ascending by id. *)
Lemma priority_orders_tie_by_position :
  ¬ priority_orders_claim paper_graph swapped_agents (mkConfig [Num 2; Num 3]).
Proof.
  intros (_ & Hinit & _).
  assert (Hv : getInitOrder paper_graph swapped_agents = [1; 0])
    by (vm_compute; reflexivity).
  rewrite Hv in Hinit. apply StronglySorted_inv in Hinit as [_ Hall].
  apply Forall_cons in Hall as [Hb _].
  destruct Hb as [Hgt|[_ Hlt]].
  - vm_compute in Hgt. discriminate Hgt.
  - lia.
Qed.

(** ** The successor generator *)

Section generator.
Context (g : Graph) (agents : list Agent) (Q : Configuration)
        (K : gmap jsval jsval).
Context (Hwf : ids_wf agents).
Let N := length agents.

(** [getBestMove] gives up or picks a free vertex among the moves. *)
Lemma getBestMove_spec current goal occupied :
  let r := getBestMove g current goal occupied in
  r = Null
  ∨ (r ∉ occupied ∧ (r = current ∨ ∃ n, n ∈ getNeighbors g current ∧ r = Num n)).
Proof.
  unfold getBestMove. case_decide as Hgoal; [right; naive_solver|].
  set (stay := if decide (current ∈ occupied) then _ else _).
  assert (Hstay : stay.1 = Null ∨ (stay.1 ∉ occupied ∧ stay.1 = current)).
  { unfold stay. case_decide; simpl; [by left|by right]. }
  clearbody stay.
  assert (∀ nbs best,
    (best.1 = Null ∨ (best.1 ∉ occupied
                      ∧ (best.1 = current ∨ ∃ n, n ∈ nbs ++ getNeighbors g current ∧ best.1 = Num n))) →
    (∀ n, n ∈ nbs → n ∈ getNeighbors g current) →
    let r := (foldl (try_neighbor g goal occupied) best nbs).1 in
    r = Null ∨ (r ∉ occupied ∧ (r = current ∨ ∃ n, n ∈ getNeighbors g current ∧ r = Num n)))
    as Hfold.
  { induction nbs as [|nb nbs IH]; intros best Hbest Hsub; simpl.
    - destruct Hbest as [?|[? [?|(n & Hn & ?)]]]; [by left|right; auto|right].
      split; [done|]. right. eauto.
    - apply IH; [|set_solver].
      unfold try_neighbor. case_decide as Hocc.
      + destruct Hbest as [?|[? [?|(n & Hn & ?)]]]; [by left|right; auto|right].
        split; [done|]. right. exists n. set_solver.
      + destruct (dist_lt _ _); simpl.
        * right. split; [done|]. right. exists nb. set_solver.
        * destruct Hbest as [?|[? [?|(n & Hn & ?)]]]; [by left|right; auto|right].
          split; [done|]. right. exists n. set_solver. }
  apply Hfold; [|done].
  destruct Hstay as [?|[? ?]]; [by left|right; auto].
Qed.

Lemma array_set_in_range i x arr :
  i < length arr → array_set i x arr = <[i := x]> arr.
Proof. intros. unfold array_set. by rewrite decide_True. Qed.

(** Placing one more agent at a free vertex that is a move for it. *)
Lemma placed_step P locs occ a v :
  placed g N Q K P locs occ →
  a ∉ P → a < N → v ∉ occ →
  is_move g Q a v →
  (∀ v', K !! Num a = Some v' → v = v') →
  placed g N Q K (P ++ [a]) (array_set a v locs) (v :: occ).
Proof.
  intros [Hlen [Hnd Hlt] Hocc Hdis Hmov Hres] Ha HaN Hv Hm HK.
  rewrite array_set_in_range by lia.
  assert (Hget : ∀ b, b ∈ P →
            default Undefined (<[a := v]> locs !! b) = default Undefined (locs !! b)).
  { intros b Hb. rewrite list_lookup_insert_ne; [done|]. intros ->. done. }
  split.
  - by rewrite length_insert.
  - split.
    + apply NoDup_app. split_and!; [done| |apply NoDup_singleton].
      intros b Hb ->%list_elem_of_singleton. done.
    + intros b [Hb| ->%list_elem_of_singleton]%elem_of_app; auto.
  - rewrite fmap_app. simpl. rewrite list_lookup_insert_eq by lia. simpl.
    rewrite <- Permutation_cons_append. constructor.
    rewrite Hocc.
    assert ((λ a0, default Undefined (locs !! a0)) <$> P
            = (λ a0, default Undefined (<[a:=v]> locs !! a0)) <$> P) as ->; [|done].
    apply list_fmap_ext. intros i b Hb. symmetry. apply Hget.
    by eapply list_elem_of_lookup_2.
  - by constructor.
  - intros b [Hb| ->%list_elem_of_singleton]%elem_of_app.
    + rewrite Hget by done. by apply Hmov.
    + by rewrite list_lookup_insert_eq by lia.
  - intros b v' [Hb| ->%list_elem_of_singleton]%elem_of_app Hv'.
    + rewrite Hget by done. by apply Hres.
    + rewrite list_lookup_insert_eq by lia. simpl. by apply HK.
Qed.

Lemma foldl_place_None {A} (f : option (list jsval * list jsval) → A → _) l :
  (∀ x, f None x = None) → foldl f None l = None.
Proof. intros Hf. induction l as [|x l IH]; simpl; [done|]. by rewrite Hf. Qed.

Context (HK : constraints_are_moves g N Q K).

Lemma place_constrained_fold ags P locs occ locs' occ' :
  foldl (place_constrained K) (Some (locs, occ)) ags = Some (locs', occ') →
  placed g N Q K P locs occ →
  NoDup (aid <$> ags) →
  (∀ a, a ∈ ags → aid a ∉ P ∧ aid a < N ∧ is_Some (K !! Num (aid a))) →
  placed g N Q K (P ++ (aid <$> ags)) locs' occ'.
Proof.
  revert P locs occ. induction ags as [|a ags IH]; intros P locs occ Hf Hp Hnd Hags.
  - simpl in Hf. injection Hf as <- <-. by rewrite app_nil_r.
  - simpl in Hf. destruct (Hags a) as (HaP & HaN & [v Hv]); [set_solver|].
    rewrite Hv in Hf. simpl in Hf. case_decide as Hocc.
    { by rewrite foldl_place_None in Hf. }
    apply NoDup_cons in Hnd as [Hna Hnd].
    rewrite fmap_cons, cons_middle, app_assoc. eapply IH; [exact Hf| |done|].
    + apply placed_step; try done.
      * by apply HK.
      * intros v' Hv'. congruence.
    + intros b Hb. destruct (Hags b) as (? & ? & ?); [set_solver|]. split_and!; [|done|done].
      intros [?|Heq%list_elem_of_singleton]%elem_of_app; [done|].
      apply Hna. rewrite <- Heq. by apply list_elem_of_fmap_2.
Qed.

Lemma place_unconstrained_fold ags P locs occ locs' occ' :
  foldl (place_unconstrained g Q) (Some (locs, occ)) ags = Some (locs', occ') →
  placed g N Q K P locs occ →
  NoDup (aid <$> ags) →
  (∀ a, a ∈ ags → aid a ∉ P ∧ aid a < N ∧ K !! Num (aid a) = None) →
  placed g N Q K (P ++ (aid <$> ags)) locs' occ'.
Proof.
  revert P locs occ. induction ags as [|a ags IH]; intros P locs occ Hf Hp Hnd Hags.
  - simpl in Hf. injection Hf as <- <-. by rewrite app_nil_r.
  - simpl in Hf. destruct (Hags a) as (HaP & HaN & HKa); [set_solver|].
    case_decide as Hnull.
    { by rewrite foldl_place_None in Hf. }
    apply NoDup_cons in Hnd as [Hna Hnd].
    rewrite fmap_cons, cons_middle, app_assoc. eapply IH; [exact Hf| |done|].
    + pose proof (getBestMove_spec (config_get Q (Num (aid a))) (goal a) occ) as Hbm.
      simpl in Hbm. destruct Hbm as [?|[Hfree Hmove]]; [done|].
      apply placed_step; try done. intros v' Hv'. congruence.
    + intros b Hb. destruct (Hags b) as (? & ? & ?); [set_solver|]. split_and!; [|done|done].
      intros [?|Heq%list_elem_of_singleton]%elem_of_app; [done|].
      apply Hna. rewrite <- Heq. by apply list_elem_of_fmap_2.
Qed.

Lemma has_swap_conflict_false locs :
  has_swap_conflict N Q locs = false → no_swap N Q (mkConfig locs).
Proof.
  intros Hsw.
  assert (∀ i j, i < j → j < N → swap_conflict Q locs i j = false) as Hlt.
  { intros i j Hij HjN. unfold has_swap_conflict in Hsw.
    destruct (swap_conflict Q locs i j) eqn:E; [|done].
    assert (existsb (λ i, existsb (λ j, swap_conflict Q locs i j) (seq (S i) (N - S i)))
              (seq 0 N) = true) as Hex; [|congruence].
    apply existsb_exists. exists i. split; [apply in_seq; lia|].
    apply existsb_exists. exists j. split; [apply in_seq; lia|done]. }
  intros i j Hi Hj Hne [H1 H2]. simpl in H1, H2.
  destruct (decide (i < j)).
  - specialize (Hlt i j ltac:(done) Hj). unfold swap_conflict in Hlt.
    apply bool_decide_eq_false in Hlt. apply Hlt. done.
  - specialize (Hlt j i ltac:(lia) Hi). unfold swap_conflict in Hlt.
    apply bool_decide_eq_false in Hlt. apply Hlt. done.
Qed.

Lemma generateConfig_valid Q' :
  generateConfig g agents Q K = Some Q' → valid_successor g N Q K Q'.
Proof.
  unfold generateConfig.
  set (constrained := filter _ agents).
  set (unconstrained := sort _ (filter _ agents)).
  destruct (foldl (place_constrained K) _ constrained) as [[locs1 occ1]|] eqn:E1;
    [|by rewrite foldl_place_None].
  destruct (foldl (place_unconstrained g Q) _ unconstrained) as [[locs occ]|] eqn:E2;
    [|done].
  simpl. destruct (has_swap_conflict _ _ _) eqn:Hsw; [done|].
  intros [= <-].
  assert (Hperm : (aid <$> constrained) ++ (aid <$> unconstrained) ≡ₚ seq 0 N).
  { unfold unconstrained. rewrite sort_perm. rewrite <- fmap_app.
    unfold constrained. rewrite filter_app_complement. by rewrite Hwf. }
  assert (Hnd : NoDup ((aid <$> constrained) ++ (aid <$> unconstrained))).
  { rewrite Hperm. apply NoDup_seq. }
  apply NoDup_app in Hnd as (Hnd1 & Hdisj & Hnd2).
  assert (HinN : ∀ a, a ∈ agents → aid a < N).
  { intros a Ha. assert (aid a ∈ seq 0 N) as Hs; [|apply elem_of_seq in Hs; lia].
    unfold N. rewrite <- Hwf. by apply list_elem_of_fmap_2. }
  assert (Hp0 : placed g N Q K [] (replicate (length agents) Undefined) []).
  { split; try done.
    - by rewrite length_replicate.
    - split; [constructor|set_solver].
    - constructor.
    - set_solver.
    - set_solver. }
  assert (Hp1 : placed g N Q K (aid <$> constrained) locs1 occ1).
  { apply (place_constrained_fold constrained [] _ _ _ _ E1 Hp0 Hnd1).
    intros a [Ha1 Ha2]%list_elem_of_filter. split_and!; [set_solver|auto|done]. }
  assert (Hp2 : placed g N Q K ((aid <$> constrained) ++ (aid <$> unconstrained)) locs occ).
  { apply (place_unconstrained_fold unconstrained _ _ _ _ _ E2 Hp1 Hnd2).
    intros a Ha. assert (a ∈ filter (λ a, ¬ is_Some (K !! Num (aid a))) agents) as Ha'.
    { unfold unconstrained in Ha. by rewrite sort_perm in Ha. }
    apply list_elem_of_filter in Ha' as [Ha1 Ha2]. split_and!; [|auto|].
    - intros Hin. apply (Hdisj _ Hin). by apply list_elem_of_fmap_2.
    - by apply eq_None_not_Some. }
  destruct Hp2 as [Hlen [_ Hlt] Hocc Hdis Hmov Hres].
  assert (Hall : ∀ a, a < N → a ∈ (aid <$> constrained) ++ (aid <$> unconstrained)).
  { intros a Ha. rewrite Hperm. apply elem_of_seq. lia. }
  split; simpl.
  - done.
  - assert (locs = (λ a, default Undefined (locs !! a)) <$> seq 0 N) as ->.
    { apply list_eq. intros i. rewrite list_lookup_fmap.
      destruct (decide (i < N)).
      - rewrite lookup_seq_lt by done. simpl.
        destruct (lookup_lt_is_Some_2 locs i) as [x Hx]; [lia|]. by rewrite Hx.
      - rewrite lookup_seq_ge by lia. simpl. apply lookup_ge_None. lia. }
    rewrite <- Hperm, <- Hocc. done.
  - intros a Ha. apply Hmov. by apply Hall.
  - by apply has_swap_conflict_false.
  - intros a v Ha Hv. apply Hres; [by apply Hall|done].
Qed.
End generator.

(** C1, as amended. With the agents numbered [0 .. N-1] and a
    constraint map that pins agents only to their current vertex or to
    a neighbour of it, a configuration returned by [generateConfig]
    has [N] pairwise distinct positions, moves every agent by at most
    one edge, contains no swap, and puts every constrained agent where
    its constraint says. *)
Theorem generateConfig_successor (g : Graph) (agents : list Agent)
  (Q : Configuration) (K : gmap jsval jsval) (Q' : Configuration) :
  ids_wf agents →
  constraints_are_moves g (length agents) Q K →
  generateConfig g agents Q K = Some Q' →
  valid_successor g (length agents) Q K Q'.
Proof. intros. by apply generateConfig_valid. Qed.

(** On the [paper] preset, with agent 2 pinned to b, the generator
    returns (d, b). *)
Lemma generateConfig_successor_witness :
  generateConfig paper_graph paper_agents paper_start {[Num 1 := Num 1]}
    = Some (mkConfig [Num 3; Num 1])
  ∧ valid_successor paper_graph (length paper_agents) paper_start
      {[Num 1 := Num 1]} (mkConfig [Num 3; Num 1]).
Proof.
  split; [reflexivity|].
  apply (generateConfig_successor paper_graph paper_agents paper_start
           {[Num 1 := Num 1]} (mkConfig [Num 3; Num 1])).
  - reflexivity.
  - intros a v Ha Hv. destruct a as [|[|a]]; [discriminate Hv| |simpl in Ha; lia].
    injection Hv as <-. right. exists 1. split; [|done].
    vm_compute. apply list_elem_of_here.
  - reflexivity.
Defined.

(** C1 as stated fails for a constraint that is not a move: on the
    [paper] preset, with agent 1 pinned to c, the generator returns
    (c, b), although c is neither a, where agent 1 is, nor a neighbour
    of a. *)
Lemma generateConfig_far_constraint :
  ¬ generateConfig_claim paper_graph paper_agents paper_start {[Num 0 := Num 2]}.
Proof.
  intros H. specialize (H (mkConfig [Num 2; Num 1]) eq_refl).
  destruct (vs_moves _ _ _ _ _ H 0) as [Heq|(n & Hn & Heq)]; [simpl; lia|discriminate Heq|].
  injection Heq as <-. vm_compute in Hn.
  apply elem_of_cons in Hn as [Hn|Hn]; [discriminate Hn|].
  apply elem_of_cons in Hn as [Hn|Hn]; [discriminate Hn|].
  by apply elem_of_nil in Hn.
Qed.

(** ** Reasoning about methods *)

Local Open Scope lacam_scope.

Section wp_rules.
Context {A : Type} (w : World) (Q : outcome A → World → Prop).

Lemma wp_bind {B} (m : M B) (k : B → M A) :
  wp m w (λ r w', match r with
                  | Val a => wp (k a) w' Q
                  | Throw e => Q (Throw e) w'
                  end) →
  wp (bind m k) w Q.
Proof. unfold wp, bind. by destruct (m w) as [[a|e] w']. Qed.

Lemma wp_ret (a : A) : Q (Val a) w → wp (ret a) w Q.
Proof. done. Qed.

Lemma wp_throw (e : error) : Q (Throw e) w → wp (throw e) w Q.
Proof. done. Qed.

Lemma wp_deref (e : error) (o : option A) :
  (∀ a, o = Some a → Q (Val a) w) → (o = None → Q (Throw e) w) →
  wp (deref e o) w Q.
Proof. destruct o; unfold wp; simpl; auto. Qed.
End wp_rules.

Lemma wp_mono {A} (m : M A) w (Q Q' : outcome A → World → Prop) :
  wp m w Q → (∀ r w', Q r w' → Q' r w') → wp m w Q'.
Proof. unfold wp. auto. Qed.

Section wp_prims.
Context (w : World).

Lemma wp_get_world Q : Q (Val w) w → wp get_world w Q.
Proof. done. Qed.

Lemma wp_modify_world f Q : Q (Val tt) (f w) → wp (modify_world f) w Q.
Proof. done. Qed.

Lemma wp_get_state Q :
  (∀ s, state w = Some s → Q (Val s) w) →
  (state w = None → Q (Throw TypeError) w) →
  wp get_state w Q.
Proof. unfold wp, get_state. destruct (state w); simpl; auto. Qed.

Lemma wp_modify_state f Q :
  (∀ s, state w = Some s → Q (Val tt) (with_state (Some (f s)) w)) →
  (state w = None → Q (Throw TypeError) w) →
  wp (modify_state f) w Q.
Proof. unfold wp, modify_state, bind, get_state. destruct (state w); simpl; auto. Qed.

Lemma wp_read_ll a Q :
  (∀ n, llnodes w !! a = Some n → Q (Val n) w) →
  (llnodes w !! a = None → Q (Throw Dangling) w) →
  wp (read_ll a) w Q.
Proof. unfold wp, read_ll, bind, get_world. destruct (llnodes w !! a); simpl; auto. Qed.

Lemma wp_read_hl a Q :
  (∀ n, hlnodes w !! a = Some n → Q (Val n) w) →
  (hlnodes w !! a = None → Q (Throw Dangling) w) →
  wp (read_hl a) w Q.
Proof. unfold wp, read_hl, bind, get_world. destruct (hlnodes w !! a); simpl; auto. Qed.

Lemma wp_read_array a Q :
  (∀ l, arrays w !! a = Some l → Q (Val l) w) →
  (arrays w !! a = None → Q (Throw Dangling) w) →
  wp (read_array a) w Q.
Proof. unfold wp, read_array, bind, get_world. destruct (arrays w !! a); simpl; auto. Qed.

Lemma wp_write_ll a n Q :
  Q (Val tt) (with_llnodes (insert a n) w) → wp (write_ll a n) w Q.
Proof. done. Qed.

Lemma wp_write_array a l Q :
  Q (Val tt) (with_arrays (insert a l) w) → wp (write_array a l) w Q.
Proof. done. Qed.

Lemma wp_write_hl a n Q :
  Q (Val tt) (with_hlnodes (insert a n) w) → wp (write_hl a n) w Q.
Proof. done. Qed.

Lemma wp_fresh Q :
  Q (Val (next w)) (with_next (S (next w)) w) → wp fresh w Q.
Proof. done. Qed.

Lemma wp_alloc_array l Q :
  Q (Val (next w)) (with_arrays (insert (next w) l) (with_next (S (next w)) w)) →
  wp (alloc_array l) w Q.
Proof. done. Qed.

Lemma wp_new_HighLevelNode config parent fixId treeRoot tree order Q :
  Q (Val (next w))
    (with_hlnodes
       (insert (next w)
          (mkHL (default (hlNodeIdCounter w) fixId) config tree treeRoot order parent))
       (with_next (S (next w)) (with_hlNodeIdCounter (S (hlNodeIdCounter w)) w))) →
  wp (new_HighLevelNode config parent fixId treeRoot tree order) w Q.
Proof. done. Qed.

Lemma wp_new_LowLevelNode parent who where_ Q :
  (∀ d, match parent with
        | Some p => ∃ pn, llnodes w !! p = Some pn ∧ d = S (depth pn)
        | None => d = 0
        end →
        Q (Val (next w))
          (with_llnodes
             (insert (next w)
                (mkLL (llNodeIdCounter w) parent who where_ [] d false false))
             (with_next (S (next w))
                (with_llNodeIdCounter (S (llNodeIdCounter w)) w)))) →
  (∀ p, parent = Some p → llnodes w !! p = None →
        Q (Throw Dangling) (with_llNodeIdCounter (S (llNodeIdCounter w)) w)) →
  wp (new_LowLevelNode parent who where_) w Q.
Proof.
  intros HV HT. unfold wp, new_LowLevelNode, bind, get_world, modify_world.
  destruct parent as [p|]; simpl.
  - unfold read_ll, bind, get_world. simpl.
    destruct (llnodes w !! p) as [pn|] eqn:E; simpl.
    + apply HV. eauto.
    + by apply (HT p).
  - by apply HV.
Qed.
End wp_prims.

#[global] Arguments wp : simpl never.

(** One step of symbolic execution. *)
Ltac wp_step :=
  lazymatch goal with
  | |- wp (bind _ _) _ _ => apply wp_bind
  | |- wp (ret _) _ _ => apply wp_ret
  | |- wp (throw _) _ _ => apply wp_throw
  | |- wp get_world _ _ => apply wp_get_world
  | |- wp (modify_world _) _ _ => apply wp_modify_world
  | |- wp get_state _ _ => apply wp_get_state; [intros ? ?|intros ?]
  | |- wp (modify_state _) _ _ => apply wp_modify_state; [intros ? ?|intros ?]
  | |- wp (deref _ _) _ _ => apply wp_deref; [intros ? ?|intros ?]
  | |- wp (read_ll _) _ _ => apply wp_read_ll; [intros ? ?|intros ?]
  | |- wp (read_hl _) _ _ => apply wp_read_hl; [intros ? ?|intros ?]
  | |- wp (read_array _) _ _ => apply wp_read_array; [intros ? ?|intros ?]
  | |- wp (write_ll _ _) _ _ => apply wp_write_ll
  | |- wp (write_array _ _) _ _ => apply wp_write_array
  | |- wp (write_hl _ _) _ _ => apply wp_write_hl
  | |- wp fresh _ _ => apply wp_fresh
  | |- wp (alloc_array _) _ _ => apply wp_alloc_array
  | |- wp (new_HighLevelNode _ _ _ _ _ _) _ _ => apply wp_new_HighLevelNode
  | |- wp (new_LowLevelNode _ _ _) _ _ =>
      apply wp_new_LowLevelNode; [intros ? ?|intros ? ? ?]
  | |- wp (if ?c then _ else _) _ _ => destruct c
  | |- wp (match ?x with _ => _ end) _ _ => destruct x eqn:?
  end.

Ltac wp_steps := repeat (wp_step; simpl in * ).

(** *** Writes that keep the store well formed *)

Lemma ll_ok_insert N ll nx a n' :
  ll_ok N ll nx → a < nx → depth n' ≤ N →
  (∀ c, c ∈ children n' →
     a < c ∧ ∃ cn, ll !! c = Some cn ∧ depth cn = S (depth n') ∧ lparent cn = Some a) →
  (∀ p pn, ll !! p = Some pn → a ∈ children pn →
     depth n' = S (depth pn) ∧ lparent n' = Some p) →
  ll_ok N (<[a := n']> ll) nx.
Proof.
  intros [Hal Hch Hdp Hcd] Ha Hd Hkids Hpar. split.
  - intros b [<-|Hb]%lookup_insert_is_Some'; [done|by apply Hal].
  - intros b m c Hb Hin. destruct (decide (a = b)) as [<-|Hab].
    + rewrite lookup_insert_eq in Hb. injection Hb as <-.
      destruct (Hkids c Hin) as (? & cn & ? & _). split; [done|].
      apply lookup_insert_is_Some'. right. eauto.
    + rewrite lookup_insert_ne in Hb by done.
      destruct (Hch b m c Hb Hin) as [? ?]. split; [done|].
      apply lookup_insert_is_Some'. by right.
  - intros b m Hb. destruct (decide (a = b)) as [<-|Hab].
    + rewrite lookup_insert_eq in Hb. by injection Hb as <-.
    + rewrite lookup_insert_ne in Hb by done. by eapply Hdp.
  - intros b m c cn Hb Hin Hc.
    destruct (decide (a = b)) as [<-|Hab], (decide (a = c)) as [<-|Hac].
    + rewrite lookup_insert_eq in Hb. injection Hb as <-.
      destruct (Hkids a Hin). lia.
    + rewrite lookup_insert_eq in Hb. injection Hb as <-.
      rewrite lookup_insert_ne in Hc by done.
      destruct (Hkids c Hin) as (_ & cn' & ? & ? & ?). by simplify_eq.
    + rewrite lookup_insert_eq in Hc. injection Hc as <-.
      rewrite lookup_insert_ne in Hb by done. by eapply Hpar.
    + rewrite lookup_insert_ne in Hb, Hc by done. by eapply Hcd.
Qed.

Section store_ok_setters.
Context (w : World) (Hok : store_ok w).

Lemma ok_with_state s : store_ok (with_state (Some s) w).
Proof. destruct Hok. by split. Qed.

Lemma ok_with_hlNodeIdCounter n : store_ok (with_hlNodeIdCounter n w).
Proof. destruct Hok. by split. Qed.

Lemma ok_with_llNodeIdCounter n : store_ok (with_llNodeIdCounter n w).
Proof. destruct Hok. by split. Qed.

Lemma ok_with_next n : next w ≤ n → store_ok (with_next n w).
Proof.
  intros Hn. destruct Hok as [[Hal Hch Hdp Hcd] Harr Hhl Htr Hst Hsn Hhi]. split; simpl; try done.
  - split; try done. intros a Ha. specialize (Hal a Ha). lia.
  - intros a Ha. specialize (Harr a Ha). lia.
  - intros a Ha. specialize (Hhl a Ha). lia.
Qed.

Lemma ok_with_arrays a l : a < next w → store_ok (with_arrays (insert a l) w).
Proof.
  intros Ha. destruct Hok as [Hll Harr Hhl Htr Hst Hsn Hhi]. split; simpl; try done.
  intros b [Hb|Hb]%lookup_insert_is_Some'; [by subst|]. by apply Harr.
Qed.

Lemma ok_with_hlnodes a hn :
  a < next w →
  (∀ r, treeRoot hn = Some r → is_Some (llnodes w !! r)) →
  store_ok (with_hlnodes (insert a hn) w).
Proof.
  intros Ha Hr. destruct Hok as [Hll Harr Hhl Htr Hst Hsn Hhi]. split; simpl; try done.
  - intros b [Hb|Hb]%lookup_insert_is_Some'; [by subst|]. by apply Hhl.
  - intros h hn' r. rewrite lookup_insert. case_decide; [|by apply Htr].
    intros [= <-]. apply Hr.
Qed.

Lemma ok_with_history h :
  (state w = None → h = []) →
  (∀ snap id data r, snap ∈ h → nodes snap !! id = Some data →
     nd_treeRoot data = Some r → is_Some (llnodes w !! r)) →
  length h ≤ 200 →
  store_ok (with_history h w).
Proof. intros. destruct Hok. by split. Qed.

Lemma ok_with_llnodes a n :
  ll_ok (length (agents w)) (<[a := n]> (llnodes w)) (next w) →
  store_ok (with_llnodes (insert a n) w).
Proof.
  intros Hll. destruct Hok as [_ Harr Hhl Htr Hst Hsn Hhi]. split; simpl; try done.
  - intros h hn r Hh Hr. apply lookup_insert_is_Some'. right. by eapply Htr.
  - intros snap id data r ???. apply lookup_insert_is_Some'. right. by eapply Hsn.
Qed.

(** Replacing a node by one with the same place in its tree. *)
Lemma ok_with_llnodes_same a n n' :
  llnodes w !! a = Some n →
  children n' = children n → depth n' = depth n → lparent n' = lparent n →
  store_ok (with_llnodes (insert a n') w).
Proof.
  intros Ha Hc Hd Hp. apply ok_with_llnodes.
  pose proof (ok_ll _ Hok) as Hll. apply ll_ok_insert; [done|..].
  - eapply ll_alloc; eauto.
  - rewrite Hd. by eapply ll_depth.
  - intros c. rewrite Hc, Hd. intros Hin.
    destruct (ll_children _ _ _ Hll a n c Ha Hin) as [? [cn Hcn]].
    split; [done|]. exists cn. split; [done|]. by eapply ll_child.
  - intros p pn Hpn Hin. rewrite Hd, Hp. by eapply ll_child.
Qed.

(** Writing a node without children at an address that holds none. *)
Lemma ok_with_llnodes_leaf a n :
  llnodes w !! a = None → a < next w →
  children n = [] → depth n ≤ length (agents w) →
  store_ok (with_llnodes (insert a n) w).
Proof.
  intros Ha Hlt Hc Hd. apply ok_with_llnodes.
  pose proof (ok_ll _ Hok) as Hll. apply ll_ok_insert; [done..| |].
  - intros c. rewrite Hc. by intros ?%elem_of_nil.
  - intros p pn Hpn Hin.
    destruct (ll_children _ _ _ Hll p pn a Hpn Hin) as [_ [x Hx]]. congruence.
Qed.

(** Giving a node a new list of children, each allocated after it,
    one level below it and pointing back to it. *)
Lemma ok_with_llnodes_children a n kids :
  llnodes w !! a = Some n →
  (∀ k, k ∈ kids → a < k ∧ ∃ kn, llnodes w !! k = Some kn
                             ∧ depth kn = S (depth n) ∧ lparent kn = Some a) →
  store_ok (with_llnodes (insert a (set_children kids n)) w).
Proof.
  intros Ha Hk. apply ok_with_llnodes.
  pose proof (ok_ll _ Hok) as Hll. apply ll_ok_insert; [done|..].
  - eapply ll_alloc; eauto.
  - simpl. by eapply ll_depth.
  - done.
  - intros p pn Hpn Hin. simpl. by eapply ll_child.
Qed.

Lemma ok_next_fresh_ll : llnodes w !! next w = None.
Proof.
  apply eq_None_not_Some. intros H. apply (ll_alloc _ _ _ (ok_ll _ Hok)) in H. lia.
Qed.
Lemma ok_next_fresh_arr : arrays w !! next w = None.
Proof. apply eq_None_not_Some. intros H. apply (ok_arr _ Hok) in H. lia. Qed.
Lemma ok_next_fresh_hl : hlnodes w !! next w = None.
Proof. apply eq_None_not_Some. intros H. apply (ok_hl _ Hok) in H. lia. Qed.
Lemma ok_ll_lt a n : llnodes w !! a = Some n → a < next w.
Proof. intros H. apply (ll_alloc _ _ _ (ok_ll _ Hok)). eauto. Qed.
Lemma ok_arr_lt a l : arrays w !! a = Some l → a < next w.
Proof. intros H. apply (ok_arr _ Hok). eauto. Qed.
Lemma ok_hl_lt a n : hlnodes w !! a = Some n → a < next w.
Proof. intros H. apply (ok_hl _ Hok). eauto. Qed.
End store_ok_setters.

(** Side conditions of the write lemmas. *)
Ltac ok_side :=
  simpl;
  first
    [ lia
    | eassumption
    | done
    | eapply ok_ll_lt; [eassumption|eassumption]
    | eapply ok_arr_lt; [eassumption|eassumption]
    | eapply ok_hl_lt; [eassumption|eassumption]
    | apply ok_next_fresh_ll; assumption
    | rewrite lookup_insert_eq; by eauto
    | intros ? [= <-]; simpl; rewrite ?lookup_insert_eq; by eauto ].

(** Peel the writes off a world, outermost first. *)
Ltac ok_peel :=
  lazymatch goal with
  | H : store_ok ?w |- store_ok ?w => exact H
  | |- store_ok (with_state (Some _) _) => apply ok_with_state; ok_peel
  | |- store_ok (with_hlNodeIdCounter _ _) => apply ok_with_hlNodeIdCounter; ok_peel
  | |- store_ok (with_llNodeIdCounter _ _) => apply ok_with_llNodeIdCounter; ok_peel
  | |- store_ok (with_next _ _) => apply ok_with_next; [ok_peel|try ok_side]
  | |- store_ok (with_arrays (insert _ _) _) =>
      apply ok_with_arrays; [ok_peel|try ok_side]
  | |- store_ok (with_hlnodes (insert _ _) _) =>
      apply ok_with_hlnodes; [ok_peel|try ok_side|try ok_side]
  | |- store_ok (with_llnodes (insert _ (mkLL _ _ _ _ [] _ _ _)) _) =>
      apply ok_with_llnodes_leaf; [ok_peel|try ok_side..]
  | _ => idtac
  end.

(** *** Methods that only read *)

Lemma readonly_ret {A} (a : A) : readonly (ret a).
Proof. done. Qed.
Lemma readonly_throw {A} e : readonly (@throw A e).
Proof. done. Qed.
Lemma readonly_bind {A B} (m : M A) (k : A → M B) :
  readonly m → (∀ a, readonly (k a)) → readonly (bind m k).
Proof.
  intros Hm Hk w. unfold bind. specialize (Hm w).
  destruct (m w) as [[a|e] w']; simpl in *; subst; [apply Hk|done].
Qed.
Lemma readonly_get_world : readonly get_world.
Proof. done. Qed.
Lemma readonly_get_state : readonly get_state.
Proof. intros w. unfold get_state. by destruct (state w). Qed.
Lemma readonly_deref {A} e (o : option A) : readonly (deref e o).
Proof. by destruct o. Qed.
Lemma readonly_read_ll a : readonly (read_ll a).
Proof. apply readonly_bind; [done|]. intros. apply readonly_deref. Qed.
Lemma readonly_read_hl a : readonly (read_hl a).
Proof. apply readonly_bind; [done|]. intros. apply readonly_deref. Qed.
Lemma readonly_read_array a : readonly (read_array a).
Proof. apply readonly_bind; [done|]. intros. apply readonly_deref. Qed.
Lemma readonly_mapM {A B} (f : A → M B) l :
  (∀ x, readonly (f x)) → readonly (mapM f l).
Proof.
  intros Hf. induction l as [|x l IH]; simpl; [done|].
  apply readonly_bind; [done|]. intros. apply readonly_bind; [done|]. done.
Qed.
Lemma readonly_foldM {A B} (f : B → A → M B) b l :
  (∀ b x, readonly (f b x)) → readonly (foldM f b l).
Proof.
  intros Hf. revert b. induction l as [|x l IH]; intros b; simpl; [done|].
  apply readonly_bind; [done|]. done.
Qed.

Ltac readonly_tac :=
  repeat first
    [ apply readonly_ret | apply readonly_throw | apply readonly_get_world
    | apply readonly_get_state | apply readonly_deref | apply readonly_read_ll
    | apply readonly_read_hl | apply readonly_read_array
    | apply readonly_bind; [|intros ?]
    | apply readonly_mapM; intros ?
    | apply readonly_foldM; intros ? ?
    | progress case_match ].

Lemma readonly_getConstraints_loop fuel node K :
  readonly (getConstraints_loop fuel node K).
Proof.
  revert node K. induction fuel as [|fuel IH]; intros node K; simpl; [done|].
  readonly_tac; apply IH.
Qed.
Lemma readonly_getConstraints node : readonly (getConstraints node).
Proof. unfold getConstraints. readonly_tac; apply readonly_getConstraints_loop. Qed.

Lemma readonly_backtrack_loop fuel current path :
  readonly (backtrack_loop fuel current path).
Proof.
  revert current path. induction fuel as [|fuel IH]; intros c p; simpl; [done|].
  readonly_tac; apply IH.
Qed.
Lemma readonly_backtrack node : readonly (backtrack node).
Proof. unfold backtrack. readonly_tac; apply readonly_backtrack_loop. Qed.

Lemma readonly_rebuild_tree fuel ids queue acc :
  readonly (rebuild_tree fuel ids queue acc).
Proof.
  revert queue acc. induction fuel as [|fuel IH]; intros q acc; simpl; [done|].
  readonly_tac; apply IH.
Qed.

Lemma readonly_hl_ids refs : readonly (hl_ids refs).
Proof. unfold hl_ids. readonly_tac. Qed.

Lemma readonly_collect_allNodes s : readonly (collect_allNodes s).
Proof. unfold collect_allNodes. readonly_tac. Qed.

Lemma readonly_opt_id {A} (rd : nat → M A) f r :
  (∀ a, readonly (rd a)) → readonly (opt_id rd f r).
Proof. intros. unfold opt_id. readonly_tac; done. Qed.

Lemma readonly_findLLNode fuel target node : readonly (findLLNode fuel target node).
Proof.
  revert node. induction fuel as [|fuel IH]; intros node; simpl; [done|].
  readonly_tac; apply IH.
Qed.

Lemma wp_readonly {A} (m : M A) w Q :
  readonly m → (∀ r, Q r w) → wp m w Q.
Proof. intros Hm HQ. unfold wp. rewrite Hm. apply HQ. Qed.

(** *** The phases keep the store well formed *)

Lemma stepSelect_ok w : store_ok w → store_ok (exec stepSelect w).
Proof.
  intros Hok. change (wp stepSelect w (λ _ w', store_ok w')). unfold stepSelect.
  wp_steps; try ok_peel.
  apply wp_readonly; [apply readonly_backtrack|]. intros [path|e]; [|by ok_peel].
  wp_steps; ok_peel.
Qed.

Lemma stepPopConstraint_ok w : store_ok w → store_ok (exec stepPopConstraint w).
Proof.
  intros Hok. change (wp stepPopConstraint w (λ _ w', store_ok w')).
  unfold stepPopConstraint.
  assert (∀ a n l, hlnodes w !! a = Some n → arrays w !! tree n = Some l →
            ∀ l', store_ok (with_arrays <[tree n := l']> w)) as Harr.
  { intros. apply ok_with_arrays; [done|]. by eapply ok_arr_lt. }
  wp_steps; try ok_peel; eauto.
  all: eapply ok_with_llnodes_same; eauto.
Qed.

Lemma stepGenerate_ok w : store_ok w → store_ok (exec stepGenerate w).
Proof.
  intros Hok. change (wp stepGenerate w (λ _ w', store_ok w')). unfold stepGenerate.
  wp_steps; try ok_peel.
  apply wp_readonly; [apply readonly_getConstraints|]. intros [K|e]; [|by ok_peel].
  wp_steps; ok_peel.
Qed.

Lemma stepCheck_ok w : store_ok w → store_ok (exec stepCheck w).
Proof.
  intros Hok. change (wp stepCheck w (λ _ w', store_ok w')). unfold stepCheck.
  wp_steps; ok_peel.
Qed.

(** *** Loops *)

Lemma wp_forM_inv {A} (I : World → Prop) (l : list A) (f : A → M unit) w :
  I w →
  (∀ x w, I w → wp (f x) w (λ _ w', I w')) →
  wp (forM_ l f) w (λ _ w', I w').
Proof.
  intros HI Hf. revert w HI. induction l as [|x l IH]; intros w HI; simpl; [done|].
  apply wp_bind. eapply wp_mono; [by apply Hf|].
  intros [[]|e] w' HI'; [by apply IH|done].
Qed.

Lemma wp_foldM_inv {A B} (I : B → World → Prop) (E : World → Prop)
  (f : B → A → M B) b (l : list A) w :
  I b w →
  (∀ b x w, x ∈ l → I b w →
     wp (f b x) w (λ r w', match r with Val b' => I b' w' | Throw _ => E w' end)) →
  wp (foldM f b l) w (λ r w', match r with Val b' => I b' w' | Throw _ => E w' end).
Proof.
  intros HI Hf. revert b w HI. induction l as [|x l IH]; intros b w HI; simpl; [done|].
  apply wp_bind. eapply wp_mono; [apply Hf; [set_solver|done]|].
  intros [b'|e] w' HI'; [|done]. apply IH; [|done].
  intros ?????. apply Hf; [set_solver|done].
Qed.

#[global] Arguments forM_ : simpl never.
#[global] Arguments mapM : simpl never.
#[global] Arguments foldM : simpl never.

(** *** Expanding the tree *)

Lemma add_child_ok N C agentId vertex w :
  store_ok w ∧ (∃ c, llnodes w !! C = Some c ∧ depth c < length (agents w)) →
  wp (add_child N C agentId vertex) w
    (λ _ w', store_ok w'
             ∧ ∃ c, llnodes w' !! C = Some c ∧ depth c < length (agents w')).
Proof.
  intros [Hok (c & HC & Hd)]. unfold add_child.
  pose proof (ok_ll_lt _ Hok _ _ HC) as HClt.
  wp_step. wp_step; simpl in *; [|congruence].
  destruct H as (pn & Hpn & ->). rewrite HC in Hpn. injection Hpn as <-.
  set (new := mkLL _ _ _ _ _ _ _ _).
  set (w1 := with_llnodes _ _).
  assert (Hok1 : store_ok w1) by (unfold w1, new; ok_peel).
  assert (HC1 : llnodes w1 !! C = Some c).
  { unfold w1. simpl. rewrite lookup_insert_ne by lia. done. }
  assert (Hnew : llnodes w1 !! next w = Some new).
  { unfold w1. simpl. by rewrite lookup_insert_eq. }
  assert (Hag1 : agents w1 = agents w) by done.
  clearbody w1.
  wp_step. wp_step; simpl in *; [|split; [done|eauto]].
  rewrite HC1 in H. injection H as <-. 2: { rewrite Hag1. eauto. }
  wp_step. wp_step. simpl.
  set (w2 := with_llnodes _ _).
  assert (Hok2 : store_ok w2).
  { unfold w2. eapply ok_with_llnodes_children; [done|done|].
    intros k [Hk| ->%list_elem_of_singleton]%elem_of_app.
    - pose proof (ok_ll _ Hok1) as Hll.
      destruct (ll_children _ _ _ Hll C c k HC1 Hk) as [? [kn Hkn]].
      split; [done|]. exists kn. split; [done|]. by eapply ll_child.
    - split; [done|]. exists new. split; [exact Hnew|]. done. }
  assert (HC2 : ∃ c, llnodes w2 !! C = Some c ∧ depth c < length (agents w2)).
  { unfold w2. simpl. rewrite lookup_insert_eq. eexists. split; [done|]. simpl.
    by rewrite Hag1. }
  clearbody w2.
  wp_steps; try (split; [ok_peel|done]).
Qed.

Lemma stepExpandTree_ok w : store_ok w → store_ok (exec stepExpandTree w).
Proof.
  intros Hok. change (wp stepExpandTree w (λ _ w', store_ok w')).
  unfold stepExpandTree.
  wp_steps; try ok_peel.
  eapply wp_mono.
  { apply (wp_forM_inv (λ w', store_ok w'
       ∧ ∃ c, llnodes w' !! a = Some c ∧ depth c < length (agents w'))).
    - eauto.
    - intros. by apply add_child_ok. }
  intros [[]|e] w' [Hok' _]; simpl; [|done].
  wp_steps; ok_peel.
Qed.

(** *** Worlds that grow *)

Lemma extends_refl w : extends w w.
Proof. by split. Qed.

Lemma extends_trans w1 w2 w3 : extends w1 w2 → extends w2 w3 → extends w1 w3.
Proof.
  intros [Hn1 Hl1 Ha1 Hh1 Hg1 Hag1] [Hn2 Hl2 Ha2 Hh2 Hg2 Hag2].
  split; try congruence; try lia.
  - intros a Ha. rewrite Hl2 by lia. by apply Hl1.
  - intros a Ha. rewrite Ha2 by lia. by apply Ha1.
  - intros a Ha. rewrite Hh2 by lia. by apply Hh1.
Qed.

Section extends_setters.
Context (w w' : World) (Hext : extends w w').

Lemma ext_with_state s : extends w (with_state s w').
Proof. destruct Hext as [Hn Hl Ha Hh Hg Hag]. by split. Qed.
Lemma ext_with_history h : extends w (with_history h w').
Proof. destruct Hext as [Hn Hl Ha Hh Hg Hag]. by split. Qed.
Lemma ext_with_hlNodeIdCounter n : extends w (with_hlNodeIdCounter n w').
Proof. destruct Hext as [Hn Hl Ha Hh Hg Hag]. by split. Qed.
Lemma ext_with_llNodeIdCounter n : extends w (with_llNodeIdCounter n w').
Proof. destruct Hext as [Hn Hl Ha Hh Hg Hag]. by split. Qed.
Lemma ext_with_next n : next w' ≤ n → extends w (with_next n w').
Proof. destruct Hext as [Hn Hl Ha Hh Hg Hag]. split; simpl; try done. lia. Qed.
Lemma ext_with_llnodes a n : next w ≤ a → extends w (with_llnodes (insert a n) w').
Proof.
  destruct Hext as [Hn Hl Ha Hh Hg Hag]. split; simpl; try done.
  intros b Hb. rewrite lookup_insert_ne by lia. by apply Hl.
Qed.
Lemma ext_with_arrays a l : next w ≤ a → extends w (with_arrays (insert a l) w').
Proof.
  destruct Hext as [Hn Hl Ha Hh Hg Hag]. split; simpl; try done.
  intros b Hb. rewrite lookup_insert_ne by lia. by apply Ha.
Qed.
Lemma ext_with_hlnodes a n : next w ≤ a → extends w (with_hlnodes (insert a n) w').
Proof.
  destruct Hext as [Hn Hl Ha Hh Hg Hag]. split; simpl; try done.
  intros b Hb. rewrite lookup_insert_ne by lia. by apply Hh.
Qed.
End extends_setters.

Ltac ext_peel :=
  lazymatch goal with
  | H : extends ?w ?w' |- extends ?w ?w' => exact H
  | |- extends ?w ?w => apply extends_refl
  | |- extends _ (with_state _ _) => apply ext_with_state; ext_peel
  | |- extends _ (with_history _ _) => apply ext_with_history; ext_peel
  | |- extends _ (with_hlNodeIdCounter _ _) => apply ext_with_hlNodeIdCounter; ext_peel
  | |- extends _ (with_llNodeIdCounter _ _) => apply ext_with_llNodeIdCounter; ext_peel
  | |- extends _ (with_next _ _) => apply ext_with_next; [ext_peel|try (simpl; lia)]
  | |- extends _ (with_llnodes (insert _ _) _) =>
      apply ext_with_llnodes; [ext_peel|try (simpl; lia)]
  | |- extends _ (with_arrays (insert _ _) _) =>
      apply ext_with_arrays; [ext_peel|try (simpl; lia)]
  | |- extends _ (with_hlnodes (insert _ _) _) =>
      apply ext_with_hlnodes; [ext_peel|try (simpl; lia)]
  | _ => idtac
  end.

Lemma extends_ll_Some w w' a n :
  store_ok w → extends w w' → llnodes w !! a = Some n → llnodes w' !! a = Some n.
Proof. intros Hok Hext Ha. rewrite (ext_ll _ _ Hext); [done|]. by eapply ok_ll_lt. Qed.

Lemma extends_ll_is_Some w w' a :
  store_ok w → extends w w' → is_Some (llnodes w !! a) → is_Some (llnodes w' !! a).
Proof. intros Hok Hext [n Ha]. exists n. by eapply extends_ll_Some. Qed.

Lemma clone_safe_extends B fuel a w w' :
  extends w w' → clone_safe B fuel a w → clone_safe B fuel a w'.
Proof.
  intros Hext (HB & Hcl & Ha & Hf). pose proof (ext_next _ _ Hext).
  split_and!; [lia| |done|done].
  intros b n c Hb Hn. rewrite (ext_ll _ _ Hext) in Hn by lia. by eapply Hcl.
Qed.

(** *** Cloning a constraint tree *)

(** The clone of the tree below [a] is written to fresh addresses; its
    root copies the depth of [a] and points to [p]. With [a] allocated
    and enough fuel the recursion does not throw. *)
Lemma cloneLowLevelTree_spec fuel : ∀ a p w,
  store_ok w →
  (∀ q, p = Some q → is_Some (llnodes w !! q)) →
  wp (cloneLowLevelTree fuel a p) w
    (λ r w',
       store_ok w' ∧ extends w w' ∧ state w' = state w ∧ history w' = history w
       ∧ match r with
         | Val c =>
             next w ≤ c
             ∧ ∃ cn n, llnodes w' !! c = Some cn ∧ llnodes w !! a = Some n
                       ∧ depth cn = depth n ∧ lparent cn = p
         | Throw _ =>
             ∀ B, clone_safe B fuel a w → is_Some (llnodes w !! a) → False
         end).
Proof.
  induction fuel as [|fuel IH]; intros a p w Hok Hp; simpl.
  { unfold wp. simpl. split_and!; [done|apply extends_refl|done|done|].
    intros B (_ & _ & ? & ?). lia. }
  wp_step. wp_step; simpl in *.
  2: { split_and!; [done|apply extends_refl|done|done|].
       intros B _ [x Hx]. congruence. }
  rename n into orig. rename H into Ha.
  wp_step. wp_step; simpl in *.
  2: { destruct (Hp p0 H) as [x Hx]. congruence. }
  clear H.
  wp_step. wp_step; simpl in *; [|by rewrite lookup_insert_eq in H].
  rewrite lookup_insert_eq in H. injection H as <-. simpl.
  wp_step. wp_step. simpl.
  set (hdr := mkLL (lid orig) p (who orig) (where_ orig) [] (depth orig)
                (isSearched orig) (isSelected orig)).
  set (cl := next w).
  set (w1 := with_llnodes _ _).
  assert (Hw1 : w1 = with_llnodes (insert cl hdr)
                       (with_next (S (next w))
                          (with_llNodeIdCounter (S (llNodeIdCounter w)) w))).
  { unfold w1, with_llnodes. simpl. by rewrite insert_insert_eq. }
  assert (Hok1 : store_ok w1).
  { rewrite Hw1. unfold hdr. ok_peel. simpl. eapply ll_depth; [apply (ok_ll _ Hok)|done]. }
  assert (Hext1 : extends w w1).
  { rewrite Hw1. ext_peel. }
  assert (Hcl1 : llnodes w1 !! cl = Some hdr).
  { rewrite Hw1. simpl. by rewrite lookup_insert_eq. }
  assert (Hst1 : state w1 = state w ∧ history w1 = history w ∧ next w1 = S cl) by done.
  clearbody w1. clear Hw1.
  (* the children *)
  assert (Hkids : ∀ cs w2,
    (∀ c, c ∈ cs → c ∈ children orig) →
    store_ok w2 → extends w1 w2 →
    wp (mapM (λ child, cloneLowLevelTree fuel child (Some cl)) cs) w2
      (λ r w',
         store_ok w' ∧ extends w2 w' ∧ state w' = state w2 ∧ history w' = history w2
         ∧ match r with
           | Val kids =>
               ∀ k, k ∈ kids →
                 cl < k ∧ ∃ kn, llnodes w' !! k = Some kn
                          ∧ depth kn = S (depth orig) ∧ lparent kn = Some cl
           | Throw _ =>
               ∀ B, clone_safe B (S fuel) a w → False
           end)).
  { induction cs as [|c cs IHcs]; intros w2 Hcs Hok2 Hext2.
    - unfold mapM. apply wp_ret. split_and!; try done; try apply extends_refl. set_solver.
    - unfold mapM. fold (@mapM nat nat). apply wp_bind.
      pose proof (extends_trans _ _ _ Hext1 Hext2) as Hext02.
      pose proof (ok_ll _ Hok) as Hll.
      destruct (ll_children _ _ _ Hll a orig c Ha (Hcs c ltac:(set_solver))) as [Hac [cn Hcn]].
      eapply wp_mono.
      { apply (IH c (Some cl) w2 Hok2). intros q [= <-].
        eapply extends_ll_is_Some; [exact Hok1|exact Hext2|eauto]. }
      intros [k|e] w3 (Hok3 & Hext3 & Hst3 & Hhi3 & Hres); simpl.
      + apply wp_bind.
        destruct Hres as (Hk & kn & cn' & Hkn & Hcn' & Hd & Hpar).
        rewrite (extends_ll_Some _ _ _ _ Hok Hext02 Hcn) in Hcn'. injection Hcn' as <-.
        eapply wp_mono.
        { apply (IHcs w3); [set_solver|done|by eapply extends_trans]. }
        intros [kids|e] w4 (Hok4 & Hext4 & Hst4 & Hhi4 & Hres4); simpl; [|].
        * apply wp_ret.
          split_and!; try done; [by eapply extends_trans|congruence|congruence|].
          intros k' [->|Hk']%elem_of_cons; [|by apply Hres4].
          pose proof (ext_next _ _ Hext2). destruct Hst1 as (_ & _ & Hnx1).
          split; [lia|]. exists kn. split_and!.
          -- eapply extends_ll_Some; [exact Hok3|exact Hext4|exact Hkn].
          -- rewrite Hd. eapply ll_child; [exact Hll|exact Ha| |exact Hcn]. set_solver.
          -- done.
        * split_and!; try done; [by eapply extends_trans|congruence|congruence].
      + split_and!; try done.
        intros B Hsafe. apply (Hres B).
        * destruct Hsafe as (HB & Hcl & HaB & Hf).
          apply (clone_safe_extends B fuel c w w2 Hext02).
          split_and!; [done|done| |lia]. eapply Hcl; [exact HaB|exact Ha|set_solver].
        * eapply extends_ll_is_Some; [exact Hok|exact Hext02|eauto]. }
  wp_step.
  eapply wp_mono; [apply (Hkids (children orig) w1); [done|done|apply extends_refl]|].
  destruct Hst1 as (Hs1 & Hh1 & Hn1).
  intros [kids|e] w2 (Hok2 & Hext2 & Hst2 & Hhi2 & Hres); simpl.
  2: { split_and!; try done; [by eapply extends_trans|congruence|congruence|].
       intros B Hsafe _. by apply (Hres B). }
  wp_step. wp_step; simpl in *.
  2: { rewrite (extends_ll_Some _ _ _ _ Hok1 Hext2 Hcl1) in H. done. }
  rewrite (extends_ll_Some _ _ _ _ Hok1 Hext2 Hcl1) in H. injection H as <-.
  wp_step. wp_step. apply wp_ret.
  split_and!.
  - eapply ok_with_llnodes_children; [done| |exact Hres].
    eapply extends_ll_Some; [exact Hok1|exact Hext2|exact Hcl1].
  - apply ext_with_llnodes; [by eapply extends_trans|done].
  - simpl. congruence.
  - simpl. congruence.
  - done.
  - eexists _, orig. simpl. rewrite lookup_insert_eq. done.
Qed.



(** *** Breadth-first rebuilding of the queue *)

Lemma tree_size_fuel N ll nx D1 : ∀ D2 a,
  ll_ok N ll nx → nx ≤ D1 + a → nx ≤ D2 + a →
  tree_size D1 ll a = tree_size D2 ll a.
Proof.
  induction D1 as [|D1 IH]; intros D2 a Hll H1 H2.
  - destruct D2 as [|D2]; simpl; [done|].
    destruct (ll !! a) as [n|] eqn:E; [|done].
    assert (a < nx) by (eapply ll_alloc; eauto). lia.
  - destruct D2 as [|D2]; simpl.
    + destruct (ll !! a) as [n|] eqn:E; [|done].
      assert (a < nx) by (eapply ll_alloc; eauto). lia.
    + destruct (ll !! a) as [n|] eqn:E; [|done]. do 2 f_equal.
      apply list_fmap_ext. intros i c Hc.
      destruct (ll_children _ _ _ Hll a n c E) as [? _]; [by eapply list_elem_of_lookup_2|].
      apply IH; [done|lia|lia].
Qed.

Lemma tree_size_unfold N ll nx D a n :
  ll_ok N ll nx → nx ≤ D → ll !! a = Some n →
  tree_size D ll a = S (sum_list (tree_size D ll <$> children n)).
Proof.
  intros Hll HD Ha.
  rewrite (tree_size_fuel N ll nx D (S D) a Hll); [|lia|lia].
  simpl. by rewrite Ha.
Qed.

(** With the nodes of the queue allocated and fuel above the number
    of nodes below them, the loop returns. *)
Lemma rebuild_tree_Val w D ids : ∀ fuel queue acc,
  store_ok w → next w ≤ D →
  (∀ a, a ∈ queue → is_Some (llnodes w !! a)) →
  sum_list (tree_size D (llnodes w) <$> queue) < fuel →
  ∃ l, rebuild_tree fuel ids queue acc w = (Val l, w).
Proof.
  intros fuel queue acc Hok HD. revert queue acc.
  pose proof (ok_ll _ Hok) as Hll.
  induction fuel as [|fuel IH]; intros queue acc Hq Hf; [lia|].
  simpl. destruct queue as [|a rest]; [by eexists|].
  destruct (Hq a) as [n Ha]; [set_solver|].
  unfold bind at 1. unfold read_ll, bind, get_world, deref. simpl. rewrite Ha. simpl.
  apply IH.
  - intros c [Hc|Hc]%elem_of_app; [apply Hq; set_solver|].
    by destruct (ll_children _ _ _ Hll a n c Ha Hc).
  - rewrite fmap_cons in Hf. simpl in Hf.
    rewrite (tree_size_unfold _ _ _ D a n Hll HD Ha) in Hf.
    rewrite fmap_app, sum_list_with_app. lia.
Qed.

Lemma wp_eq {A} (m : M A) w r w' Q : m w = (r, w') → Q r w' → wp m w Q.
Proof. unfold wp. by intros ->. Qed.

Lemma mapM_Val {A B} (f : A → M B) (l : list A) w :
  (∀ x, x ∈ l → ∃ y, f x w = (Val y, w)) →
  ∃ ys, mapM f l w = (Val ys, w).
Proof.
  induction l as [|x l IH]; intros Hf; [by eexists|].
  destruct (Hf x) as [y Hy]; [set_solver|].
  destruct IH as [ys Hys]; [intros; apply Hf; set_solver|].
  exists (y :: ys). unfold mapM. fold (@mapM A B). unfold bind. rewrite Hy, Hys. done.
Qed.

Lemma read_ll_Val w a n : llnodes w !! a = Some n → read_ll a w = (Val n, w).
Proof. intros H. unfold read_ll, bind, get_world, deref. simpl. by rewrite H. Qed.
Lemma read_hl_Val w a n : hlnodes w !! a = Some n → read_hl a w = (Val n, w).
Proof. intros H. unfold read_hl, bind, get_world, deref. simpl. by rewrite H. Qed.
Lemma read_array_Val w a l : arrays w !! a = Some l → read_array a w = (Val l, w).
Proof. intros H. unfold read_array, bind, get_world, deref. simpl. by rewrite H. Qed.

Lemma hl_ids_Val refs w :
  (∀ a, a ∈ refs → is_Some (hlnodes w !! a)) →
  ∃ ids, hl_ids refs w = (Val ids, w).
Proof.
  intros Hr. apply mapM_Val. intros a Ha. destruct (Hr a Ha) as [n Hn].
  exists (hid n). unfold bind. by rewrite (read_hl_Val _ _ _ Hn).
Qed.

Lemma wp_readonly_eq {A} (m : M A) w Q :
  readonly m → (∀ r, m w = (r, w) → Q r w) → wp m w Q.
Proof.
  intros Hm HQ. unfold wp. specialize (Hm w). destruct (m w) as [r w'] eqn:E.
  simpl in *. subst w'. by apply HQ.
Qed.

Lemma extends_arr_Some w w' a l :
  store_ok w → extends w w' → arrays w !! a = Some l → arrays w' !! a = Some l.
Proof. intros Hok Hext Ha. rewrite (ext_arr _ _ Hext); [done|]. by eapply ok_arr_lt. Qed.

Lemma extends_hl_Some w w' a n :
  store_ok w → extends w w' → hlnodes w !! a = Some n → hlnodes w' !! a = Some n.
Proof. intros Hok Hext Ha. rewrite (ext_hl _ _ Hext); [done|]. by eapply ok_hl_lt. Qed.

Lemma node_ready_extends w w' h :
  store_ok w → extends w w' → node_ready h w → node_ready h w'.
Proof.
  intros Hok Hext (hn & q & Hh & Hq & Hel & Hpar). exists hn, q. split_and!.
  - by eapply extends_hl_Some.
  - by eapply extends_arr_Some.
  - intros t Ht. eapply extends_ll_is_Some; eauto.
  - intros p Hp. destruct (Hpar p Hp) as [pn Hpn]. exists pn. by eapply extends_hl_Some.
Qed.

Lemma roots_alloc_extends nodes w w' :
  store_ok w → extends w w' → roots_alloc nodes w → roots_alloc nodes w'.
Proof. intros Hok Hext Hr id data r ??. eapply extends_ll_is_Some; eauto. Qed.

Lemma clone_safe_root w r :
  store_ok w → is_Some (llnodes w !! r) → clone_safe (next w) (S (next w)) r w.
Proof.
  intros Hok [n Hr]. pose proof (ok_ll _ Hok) as Hll. split_and!; [done| | |lia].
  - intros b m c _ Hb Hc. destruct (ll_children _ _ _ Hll b m c Hb Hc) as [_ Hs].
    by apply (ll_alloc _ _ _ Hll).
  - by eapply ok_ll_lt.
Qed.

#[global] Arguments cloneLowLevelTree : simpl never.
#[global] Arguments rebuild_tree : simpl never.
#[global] Arguments tree_size : simpl never.

(** *** Snapshots *)

Lemma clone_node_spec acc id node w :
  store_ok w →
  wp (clone_node acc (id, node)) w
    (λ r w',
       store_ok w' ∧ extends w w' ∧ state w' = state w ∧ history w' = history w
       ∧ match r with
         | Val acc' => roots_alloc acc w → roots_alloc acc' w'
         | Throw _ => ¬ node_ready node w
         end).
Proof.
  intros Hok. unfold clone_node.
  wp_step. wp_step; simpl in *.
  2: { split_and!; [done|apply extends_refl|done|done|].
       intros (hn & q & Hh & _). congruence. }
  rename n into hn. rename H into Hh.
  wp_step.
  (* the tree *)
  eapply (wp_mono _ _ (λ r w1,
    store_ok w1 ∧ extends w w1 ∧ state w1 = state w ∧ history w1 = history w
    ∧ match r with
      | Val (Some c) => is_Some (llnodes w1 !! c)
      | Val None => True
      | Throw _ => False
      end)).
  { destruct (treeRoot hn) as [r|] eqn:Hr.
    - wp_step. wp_step. simpl. wp_step.
      eapply wp_mono; [apply cloneLowLevelTree_spec; [done|done]|].
      intros [c|e] w1 (Hok1 & Hext1 & Hst1 & Hhi1 & Hres); simpl.
      + apply wp_ret. split_and!; try done.
        destruct Hres as (_ & cn & _ & Hcn & _). eauto.
      + split_and!; try done. eapply (Hres (next w)).
        * apply clone_safe_root; [done|]. by eapply ok_treeRoot.
        * by eapply ok_treeRoot.
    - apply wp_ret. split_and!; [done|apply extends_refl|done|done|done]. }
  intros [root|e] w1 (Hok1 & Hext1 & Hst1 & Hhi1 & Hroot); simpl; [|done].
  wp_step.
  (* the queue *)
  eapply (wp_mono _ _ (λ r w2,
    w2 = w1 ∧ match r with Val _ => True | Throw _ => ¬ node_ready node w end)).
  { destruct root as [c|].
    - wp_step. wp_step; simpl in *.
      2: { split; [done|]. intros (hn' & q & Hh' & Hq & _).
           assert (hn' = hn) as -> by congruence.
           rewrite (extends_arr_Some _ _ _ _ Hok Hext1 Hq) in H. done. }
      rename l into q. rename H into Hq.
      wp_step.
      apply wp_readonly_eq; [apply readonly_mapM; intros; readonly_tac|].
      intros [ids|e] Hids; simpl.
      2: { split; [done|]. intros (hn' & q' & Hh' & Hq' & Hel & _).
           assert (hn' = hn) as -> by congruence.
           rewrite (extends_arr_Some _ _ _ _ Hok Hext1 Hq') in Hq. injection Hq as ->.
           destruct (mapM_Val (λ t, let! tn := read_ll t in ret (lid tn)) q w1) as [ys Hys].
           - intros t Ht. destruct (Hel t Ht) as [tn Htn].
             exists (lid tn). unfold bind.
             by rewrite (read_ll_Val _ _ _ (extends_ll_Some _ _ _ _ Hok Hext1 Htn)).
           - congruence. }
      wp_step. wp_step.
      destruct (rebuild_tree_Val w1 (S (next w1)) ids
                  (S (tree_size (S (next w1)) (llnodes w1) c)) [c] []) as [l Hl].
      + done.
      + lia.
      + intros a ->%list_elem_of_singleton. done.
      + simpl. lia.
      + eapply wp_eq; [exact Hl|]. done.
    - apply wp_ret. done. }
  intros [clonedTree|e] w2 [-> Hres]; simpl.
  2: { split_and!; done. }
  wp_step. wp_step. simpl.
  set (w3 := with_arrays _ _).
  assert (Hok3 : store_ok w3) by (unfold w3; ok_peel).
  assert (Hext3 : extends w w3).
  { unfold w3. pose proof (ext_next _ _ Hext1). ext_peel. }
  assert (Hst3 : state w3 = state w ∧ history w3 = history w) by done.
  assert (Hroot3 : ∀ c, root = Some c → is_Some (llnodes w3 !! c)).
  { intros c ->. done. }
  clearbody w3. destruct Hst3 as [Hst3 Hhi3].
  wp_step.
  destruct (parent hn) as [p|] eqn:Hp.
  - wp_step. wp_step; simpl in *.
    2: { split_and!; try done. intros (hn' & q' & Hh' & _ & _ & Hpar).
         assert (hn' = hn) as -> by congruence.
         destruct (Hpar p Hp) as [pn Hpn].
         rewrite (extends_hl_Some _ _ _ _ Hok Hext3 Hpn) in H. done. }
    wp_step. wp_step. split_and!; try done.
    intros Hacc id' data r. rewrite lookup_insert. case_decide.
    + intros [= <-] Hr. simpl in Hr. by apply Hroot3.
    + intros ??. eapply extends_ll_is_Some; [exact Hok|exact Hext3|]. by eapply Hacc.
  - wp_step. wp_step. split_and!; try done.
    intros Hacc id' data r. rewrite lookup_insert. case_decide.
    + intros [= <-] Hr. simpl in Hr. by apply Hroot3.
    + intros ??. eapply extends_ll_is_Some; [exact Hok|exact Hext3|]. by eapply Hacc.
Qed.

Lemma foldl_insert_lookup (l : list (nat * nat)) : ∀ (m : gmap nat nat) k v,
  foldl (λ m p, <[p.1 := p.2]> m) m l !! k = Some v →
  m !! k = Some v ∨ (k, v) ∈ l.
Proof.
  induction l as [|[k' v'] l IH]; intros m k v; simpl; [by left|].
  intros [H|H]%IH; [|right; set_solver].
  rewrite lookup_insert in H. case_decide; [|by left].
  simplify_eq. right. set_solver.
Qed.

Lemma opt_id_hl_Val w r :
  (∀ a, r = Some a → is_Some (hlnodes w !! a)) →
  ∃ i, opt_id read_hl hid r w = (Val i, w).
Proof.
  intros Hr. destruct r as [a|]; simpl; [|by eexists].
  destruct (Hr a eq_refl) as [n Hn]. exists (Some (hid n)).
  unfold bind. by rewrite (read_hl_Val _ _ _ Hn).
Qed.

Lemma opt_id_ll_Val w r :
  (∀ a, r = Some a → is_Some (llnodes w !! a)) →
  ∃ i, opt_id read_ll lid r w = (Val i, w).
Proof.
  intros Hr. destruct r as [a|]; simpl; [|by eexists].
  destruct (Hr a eq_refl) as [n Hn]. exists (Some (lid n)).
  unfold bind. by rewrite (read_ll_Val _ _ _ Hn).
Qed.

Lemma cloneAllNodes_spec w :
  store_ok w →
  wp cloneAllNodes w
    (λ r w',
       store_ok w' ∧ extends w w' ∧ state w' = state w ∧ history w' = history w
       ∧ match r with
         | Val nodes => roots_alloc nodes w'
         | Throw _ => ¬ snapshot_ready w
         end).
Proof.
  intros Hok. unfold cloneAllNodes.
  wp_step. wp_step; simpl in *.
  2: { split_and!; [done|apply extends_refl|done|done|]. intros (s & Hs & _). congruence. }
  rename H into Hs.
  wp_step. unfold collect_allNodes.
  set (refs := open s ++ (map_to_list (explored s)).*2).
  assert (Hrefs : snapshot_ready w → ∀ a, a ∈ refs → node_ready a w).
  { intros (s' & Hs' & Hop & Hex & _) a. assert (s' = s) as -> by congruence.
    intros [Ha|Ha]%elem_of_app; [by apply Hop|].
    apply list_elem_of_fmap in Ha as ([k h] & -> & Hkh).
    apply elem_of_map_to_list in Hkh. by eapply Hex. }
  wp_step.
  apply wp_readonly_eq; [apply readonly_hl_ids|].
  intros [ids|e] Hids; simpl.
  2: { split_and!; [done|apply extends_refl|done|done|]. intros Hready.
       destruct (hl_ids_Val refs w) as [ids Hids']; [|congruence].
       intros a Ha. destruct (Hrefs Hready a Ha) as (hn & _ & Hh & _). eauto. }
  wp_step.
  eapply wp_mono.
  { apply (wp_foldM_inv
             (λ acc w', store_ok w' ∧ extends w w' ∧ state w' = state w
                        ∧ history w' = history w ∧ roots_alloc acc w')
             (λ w', store_ok w' ∧ extends w w' ∧ state w' = state w
                    ∧ history w' = history w ∧ ¬ snapshot_ready w)).
    - split_and!; [done|apply extends_refl|done|done|]. intros ??? H. by rewrite lookup_empty in H.
    - intros acc [id a] w1 Hin (Hok1 & Hext1 & Hst1 & Hhi1 & Hacc).
      eapply wp_mono; [by apply clone_node_spec|].
      intros [acc'|e] w2 (Hok2 & Hext2 & Hst2 & Hhi2 & Hres).
      + split_and!; [done|by eapply extends_trans|congruence|congruence|by apply Hres].
      + split_and!; [done|by eapply extends_trans|congruence|congruence|].
        intros Hready. apply Hres. eapply node_ready_extends; [exact Hok|exact Hext1|].
        apply (Hrefs Hready). apply elem_of_map_to_list in Hin.
        apply foldl_insert_lookup in Hin as [Hin|Hin]; [by rewrite lookup_empty in Hin|].
        by apply elem_of_zip_r in Hin. }
  intros [nodes|e] w1 H; simpl; [|done]. tauto.
Qed.

Lemma push_snapshot_elem h snap x :
  x ∈ push_snapshot h snap → x ∈ h ∨ x = snap.
Proof.
  unfold push_snapshot. case_decide.
  - intros Hx. assert (x ∈ h ++ [snap]) as Hx'.
    { destruct (h ++ [snap]); simpl in *; set_solver. }
    set_solver.
  - set_solver.
Qed.

Lemma push_snapshot_length h snap :
  length h ≤ 200 → length (push_snapshot h snap) ≤ 200.
Proof.
  intros Hh. unfold push_snapshot. case_decide as Hl.
  - destruct h as [|x h]; simpl in *; [lia|]. rewrite length_app in *. simpl in *. lia.
  - lia.
Qed.

(** [saveHistory] clones into fresh objects and appends one snapshot;
    it throws only when the state holds a reference to nothing. *)
Lemma saveHistory_spec w :
  store_ok w →
  wp saveHistory w
    (λ r w',
       store_ok w' ∧ extends w w' ∧ state w' = state w
       ∧ match r with
         | Val _ =>
             ∃ snap, history w' = push_snapshot (history w) snap
                     ∧ ∀ s, state w = Some s →
                         s_phase snap = phase s ∧ s_status snap = status s
                         ∧ s_stepNumber snap = stepNumber s
                         ∧ s_generatedConfig snap = generatedConfig s
                         ∧ s_solution snap = solution s
         | Throw _ => history w' = history w ∧ ¬ snapshot_ready w
         end).
Proof.
  intros Hok. unfold saveHistory. wp_step.
  eapply wp_mono; [by apply cloneAllNodes_spec|].
  intros [nodes|e] w1 (Hok1 & Hext1 & Hst1 & Hhi1 & Hres); simpl; [|done].
  wp_step. wp_step; simpl in *.
  2: { split_and!; try done. intros (s' & Hs' & _). congruence. }
  rename H into Hs. rewrite Hst1 in Hs.
  assert (Hready : snapshot_ready w →
            (∀ a, a ∈ open s → is_Some (hlnodes w1 !! a))
            ∧ (∀ a, currentHighLevelNode s = Some a → is_Some (hlnodes w1 !! a))
            ∧ (∀ a, currentLowLevelNode s = Some a → is_Some (llnodes w1 !! a))).
  { intros (s' & Hs' & Hop & _ & Hch & Hcl). assert (s' = s) as -> by congruence.
    split_and!.
    - intros a Ha. destruct (Hop a Ha) as (hn & _ & Hh & _).
      exists hn. eapply extends_hl_Some; [exact Hok|exact Hext1|done].
    - intros a Ha. destruct (Hch a Ha) as [hn Hh]. exists hn.
      eapply extends_hl_Some; [exact Hok|exact Hext1|done].
    - intros a Ha. eapply extends_ll_is_Some; [exact Hok|exact Hext1|eauto]. }
  wp_step. apply wp_readonly_eq; [apply readonly_hl_ids|].
  intros [ids|e] Hids; simpl.
  2: { split_and!; try done. intros Hr. destruct (Hready Hr) as (Hop & _).
       destruct (hl_ids_Val _ _ Hop). congruence. }
  wp_step. wp_step. simpl. wp_step.
  apply wp_readonly_eq; [apply readonly_opt_id, readonly_read_hl|].
  intros [ch|e] Hch; simpl.
  2: { split_and!; try done. intros Hr. destruct (Hready Hr) as (_ & Hc & _).
       destruct (opt_id_hl_Val _ _ Hc). congruence. }
  wp_step. apply wp_readonly_eq; [apply readonly_opt_id, readonly_read_ll|].
  intros [cl|e] Hcl; simpl.
  2: { split_and!; try done. intros Hr. destruct (Hready Hr) as (_ & _ & Hc).
       destruct (opt_id_ll_Val _ _ Hc). congruence. }
  wp_step. wp_step. simpl. wp_step.
  set (snap := mkSnapshot _ _ _ _ _ _ _ _ _ _ _ _).
  split_and!.
  - fold (push_snapshot (history w1) snap). apply ok_with_history; [done| | |].
    + rewrite Hst1, Hs. done.
    + intros sn id data r [Hsn| ->]%push_snapshot_elem Hid Hr.
      * by eapply (ok_snap_root _ Hok1).
      * by eapply Hres.
    + apply push_snapshot_length. rewrite Hhi1. apply Hok.
  - by apply ext_with_history.
  - done.
  - exists snap. split; [by rewrite <- Hhi1|].
    intros s' Hs'. assert (s' = s) as -> by congruence. done.
Qed.

Lemma wp_forM_safe {A} (I : World → Prop) (l : list A) (f : A → M unit) w :
  I w →
  (∀ x w, x ∈ l → I w → wp (f x) w (λ r w', r = Val tt ∧ I w')) →
  wp (forM_ l f) w (λ r w', r = Val tt ∧ I w').
Proof.
  intros HI Hf. revert w HI. induction l as [|x l IH]; intros w HI; [done|].
  unfold forM_. fold (@forM_ A). apply wp_bind.
  eapply wp_mono; [apply Hf; [set_solver|done]|].
  intros r w' [-> HI']. apply IH; [|done]. intros ????. apply Hf; [set_solver|done].
Qed.

(** *** Restoring a snapshot *)

Lemma findLLNode_Val w target : ∀ fuel node,
  store_ok w → is_Some (llnodes w !! node) → next w ≤ fuel + node →
  ∃ r, findLLNode fuel target node w = (Val r, w).
Proof.
  intros fuel node Hok. revert node. pose proof (ok_ll _ Hok) as Hll.
  induction fuel as [|fuel IH]; intros node [n Hn] Hf.
  - pose proof (ok_ll_lt _ Hok _ _ Hn). lia.
  - simpl. unfold bind at 1. rewrite (read_ll_Val _ _ _ Hn).
    case_decide; [by eexists|].
    assert (∀ cs found, (∀ c, c ∈ cs → c ∈ children n) →
      ∃ r, foldM (λ found child, match found with
                                 | Some _ => ret found
                                 | None => findLLNode fuel target child
                                 end) found cs w = (Val r, w)) as Hcs.
    { induction cs as [|c cs IHcs]; intros found Hsub; [by eexists|].
      unfold foldM. fold (@foldM nat (option nat)). unfold bind.
      destruct found as [x|].
      - simpl. apply IHcs. set_solver.
      - destruct (ll_children _ _ _ Hll node n c Hn) as [Hlt Hc]; [set_solver|].
        destruct (IH c Hc) as [r Hr]; [lia|]. rewrite Hr. apply IHcs. set_solver. }
    by apply Hcs.
Qed.

#[global] Arguments findLLNode : simpl never.

Lemma restoreFromSnapshot_spec snapshot w :
  store_ok w → roots_alloc (nodes snapshot) w → is_Some (state w) →
  wp (restoreFromSnapshot snapshot) w
    (λ r w',
       r = Val tt ∧ store_ok w' ∧ history w' = history w
       ∧ ∃ s', state w' = Some s'
               ∧ phase s' = s_phase snapshot ∧ status s' = s_status snapshot
               ∧ stepNumber s' = s_stepNumber snapshot
               ∧ generatedConfig s' = s_generatedConfig snapshot
               ∧ solution s' = s_solution snapshot
               ∧ nodesGenerated s' = s_nodesGenerated snapshot
               ∧ configurationsExplored s' = s_configurationsExplored snapshot).
Proof.
  intros Hok Hroots [s0 Hs0]. unfold restoreFromSnapshot.
  set (I := λ w', store_ok w' ∧ roots_alloc (nodes snapshot) w'
                  ∧ history w' = history w ∧ state w' = state w).
  wp_step.
  eapply wp_mono.
  { apply (wp_foldM_inv
             (λ nodeMap w', I w' ∧ ∀ id a, nodeMap !! id = Some a → is_Some (hlnodes w' !! a))
             (λ _, False)).
    - split; [by split_and!|]. intros ?? H. by rewrite lookup_empty in H.
    - intros nodeMap [id data] w1 Hin [(Hok1 & Hr1 & Hh1 & Hs1) Hmap].
      unfold restore_node. wp_step. wp_step. apply wp_ret.
      apply elem_of_map_to_list in Hin.
      split; [split_and!|]; try done.
      + ok_peel. intros r Hr. simpl in *. by eapply Hr1.
      + intros id' a. rewrite lookup_insert. simpl. case_decide.
        * intros [= <-]. rewrite lookup_insert_eq. eauto.
        * intros Ha. destruct (Hmap _ _ Ha) as [x Hx].
          rewrite lookup_insert_ne; [eauto|].
          intros <-. rewrite (ok_next_fresh_hl _ Hok1) in Hx. done. }
  intros [nodeMap|e] w1 H; simpl; [|done]. destruct H as [HI1 Hmap].
  wp_step.
  eapply wp_mono.
  { apply (wp_forM_safe
             (λ w', I w' ∧ ∀ id a, nodeMap !! id = Some a → is_Some (hlnodes w' !! a))).
    - done.
    - intros [id a] w2 Hin [(Hok2 & Hr2 & Hh2 & Hs2) Hmap2].
      apply elem_of_map_to_list in Hin. destruct (Hmap2 _ _ Hin) as [n Hn].
      unfold link_parent. destruct (from_option _ _ _) as [pid|]; [|done].
      wp_step. wp_step; simpl in *; [|congruence].
      rewrite Hn in H. injection H as <-. wp_step.
      split; [done|]. split; [split_and!|]; try done.
      * apply ok_with_hlnodes; [done|by eapply ok_hl_lt|].
        intros r Hr. simpl in Hr. by eapply ok_treeRoot.
      * intros id' a' Ha'. simpl. destruct (Hmap2 _ _ Ha') as [x Hx].
        apply lookup_insert_is_Some'. right. eauto. }
  intros r w2 (-> & (Hok2 & Hr2 & Hh2 & Hs2) & Hmap2). simpl.
  rewrite Hs0 in Hs2.
  wp_step. wp_step; simpl in *; [|congruence].
  wp_step. wp_step; simpl in *; [|congruence].
  wp_step. wp_step; simpl in *; [|congruence].
  wp_step. wp_step; simpl in *; [|congruence].
  wp_step. wp_step. simpl.
  set (w3 := with_state _ _).
  assert (Hok3 : store_ok w3) by (unfold w3; ok_peel).
  assert (Hh3 : history w3 = history w) by done.
  assert (∃ st3, state w3 = Some st3) as [st3 Hst3] by (unfold w3; simpl; eauto).
  assert (Hw3 : next w3 = next w2 ∧ hlnodes w3 = hlnodes w2) by done.
  destruct Hw3 as [Hn3 Hhl3]. rewrite <- Hn3, <- Hhl3.
  clearbody w3.
  set (root := match match currentHighLevelNodeId snapshot with
                     | Some id => nodeMap !! id
                     | None => None
                     end with
               | Some a => from_option treeRoot None (hlnodes w3 !! a)
               | None => None
               end).
  assert (Hroot : ∀ r, root = Some r → is_Some (llnodes w3 !! r)).
  { unfold root. intros r.
    destruct (match currentHighLevelNodeId snapshot with
              | Some id => nodeMap !! id | None => None end) as [a|]; [|done].
    destruct (hlnodes w3 !! a) as [hn|] eqn:Hhn; [|done]. simpl.
    by eapply ok_treeRoot. }
  clearbody root.
  wp_step.
  eapply (wp_mono _ _ (λ r w4, r = Val tt ∧ store_ok w4 ∧ history w4 = history w
                              ∧ is_Some (state w4))).
  { destruct (currentLowLevelNodeId snapshot) as [target|]; [|by apply wp_ret].
    destruct root as [root|]; [|by apply wp_ret].
    wp_step.
    destruct (findLLNode_Val w3 target (S (next w3)) root) as [found Hfound];
      [done|by apply Hroot|lia|].
    eapply wp_eq; [exact Hfound|]. simpl.
    wp_step; simpl in *; [|congruence].
    split_and!; [done|by ok_peel|done|eauto]. }
  intros r w4 (-> & Hok4 & Hh4 & [s4 Hs4]). simpl.
  wp_steps; try congruence.
  split_and!; [done|by ok_peel|done|].
  eexists. split; [done|]. simplify_eq. done.
Qed.

Lemma removelast_elem {A} (l : list A) x : x ∈ removelast l → x ∈ l.
Proof.
  induction l as [|y l IH]; simpl; [done|].
  destruct l as [|z l]; [by intros ?%elem_of_nil|].
  intros [->|H]%elem_of_cons; [set_solver|]. apply elem_of_cons. right. by apply IH.
Qed.

Lemma removelast_length {A} (l : list A) : length (removelast l) = length l - 1.
Proof.
  induction l as [|y l IH]; simpl; [done|].
  destruct l as [|z l]; [done|]. simpl in *. rewrite IH. lia.
Qed.

(** [stepBack]: with more than one snapshot, the last one is dropped
    and the one before it is restored; otherwise nothing happens. *)
Lemma stepBack_spec w :
  store_ok w →
  (1 < length (history w) →
   ∃ prev s',
     last (removelast (history w)) = Some prev
     ∧ stepBack w
       = (Val true,
          exec (restoreFromSnapshot prev) (with_history (removelast (history w)) w))
     ∧ store_ok (exec stepBack w)
     ∧ history (exec stepBack w) = removelast (history w)
     ∧ state (exec stepBack w) = Some s'
     ∧ phase s' = s_phase prev ∧ status s' = s_status prev
     ∧ stepNumber s' = s_stepNumber prev
     ∧ generatedConfig s' = s_generatedConfig prev
     ∧ solution s' = s_solution prev
     ∧ nodesGenerated s' = s_nodesGenerated prev
     ∧ configurationsExplored s' = s_configurationsExplored prev)
  ∧ (length (history w) ≤ 1 → stepBack w = (Val false, w)).
Proof.
  intros Hok. split.
  - intros Hlen.
    set (h := removelast (history w)).
    assert (Hhlen : length h = length (history w) - 1) by apply removelast_length.
    destruct (last h) as [prev|] eqn:Hlast.
    2: { apply last_None in Hlast. rewrite Hlast in Hhlen. simpl in Hhlen. lia. }
    set (w1 := with_history h w).
    assert (Hok1 : store_ok w1).
    { apply ok_with_history; [done| | |].
      - intros Hs. rewrite (ok_state _ Hok Hs) in Hlen. simpl in Hlen. lia.
      - intros snap id data r Hin. eapply (ok_snap_root _ Hok). by apply removelast_elem.
      - pose proof (ok_history _ Hok). lia. }
    assert (Hst1 : is_Some (state w1)).
    { simpl. destruct (state w) eqn:Hs; [done|].
      rewrite (ok_state _ Hok Hs) in Hlen. simpl in Hlen. lia. }
    assert (Hroots : roots_alloc (nodes prev) w1).
    { intros id data r. apply (ok_snap_root _ Hok1 prev). simpl.
      apply last_Some in Hlast as [l' ->]. set_solver. }
    pose proof (restoreFromSnapshot_spec prev w1 Hok1 Hroots Hst1) as Hres.
    unfold wp in Hres.
    destruct (restoreFromSnapshot prev w1) as [r w2] eqn:Hr. simpl in Hres.
    destruct Hres as (-> & Hok2 & Hh2 & s' & Hs' & Hrest).
    assert (Heq : stepBack w = (Val true, w2)).
    { unfold stepBack, bind, get_world, modify_world. simpl.
      rewrite decide_True by done. fold h. rewrite Hlast. fold w1. by rewrite Hr. }
    exists prev, s'. unfold exec. rewrite Heq. simpl. fold w1. rewrite Hr. simpl.
    split_and!; try done; tauto.
  - intros Hlen. unfold stepBack, bind, get_world. simpl.
    rewrite decide_False by lia. done.
Qed.

(** *** [step] and [initialize] keep the store well formed *)

Lemma step_ok w : store_ok w → store_ok (exec step w).
Proof.
  intros Hok. change (wp step w (λ _ w', store_ok w')). unfold step.
  wp_step. wp_step; simpl in *; [|done].
  destruct (decide (status s ≠ running)); [by apply wp_ret|].
  wp_step. eapply wp_mono; [by apply saveHistory_spec|].
  intros [[]|e] w1 (Hok1 & _); simpl; [|done].
  wp_step. wp_step; simpl in *; [|done].
  wp_step. wp_step; simpl in *; [|by ok_peel].
  destruct (phase s1).
  - apply wp_ret. by ok_peel.
  - apply stepSelect_ok. by ok_peel.
  - apply stepPopConstraint_ok. by ok_peel.
  - apply stepExpandTree_ok. by ok_peel.
  - apply stepGenerate_ok. by ok_peel.
  - apply stepCheck_ok. by ok_peel.
Qed.

Lemma initialize_ok w : store_ok w → store_ok (exec initialize w).
Proof.
  intros Hok. change (wp initialize w (λ _ w', store_ok w')). unfold initialize.
  wp_steps; try congruence. subst d.
  match goal with |- wp _ (with_history [] ?w0) _ => set (w1 := w0) end.
  assert (Hok1 : store_ok (with_history [] w1)).
  { apply ok_with_history; [|done| |simpl; lia].
    - unfold w1. ok_peel.
    - intros ???? H. by apply elem_of_nil in H. }
  eapply wp_mono; [by apply saveHistory_spec|].
  intros r w2 (Hok2 & _). done.
Qed.

(** A reachable world has a well-formed store and still holds the
    graph and the agents it was built with. *)
Lemma construct_ok g ags : store_ok (construct g ags).
Proof.
  split; simpl; try done.
  - split; intros *; rewrite ?lookup_empty; try done; by intros [? ?].
  - intros a [? H]. done.
  - intros a [? H]. done.
  - intros ???? H. by apply elem_of_nil in H.
  - lia.
Qed.

Lemma perform_ok c w : store_ok w → store_ok (perform c w).
Proof.
  intros Hok. destruct c; simpl.
  - by apply initialize_ok.
  - by apply step_ok.
  - destruct (decide (1 < length (history w))) as [Hl|Hl].
    + destruct (proj1 (stepBack_spec w Hok) Hl) as (? & ? & _ & _ & H & _). done.
    + unfold exec. rewrite (proj2 (stepBack_spec w Hok)) by lia. done.
  - by apply initialize_ok.
Qed.

Lemma reachable_ok g ags w : reachable g ags w → store_ok w.
Proof. induction 1; [apply construct_ok|by apply perform_ok]. Qed.


(** *** The inputs are never written *)

Lemma keeps_ret {A} (a : A) : keeps_inputs (ret a).
Proof. done. Qed.
Lemma keeps_throw {A} e : keeps_inputs (@throw A e).
Proof. done. Qed.
Lemma keeps_bind {A B} (m : M A) (k : A → M B) :
  keeps_inputs m → (∀ a, keeps_inputs (k a)) → keeps_inputs (bind m k).
Proof.
  intros Hm Hk w. unfold bind. destruct (Hm w) as [Hg Ha].
  destruct (m w) as [[a|e] w']; simpl in *; [|done].
  destruct (Hk a w') as [Hg' Ha']. split; congruence.
Qed.
Lemma keeps_readonly {A} (m : M A) : readonly m → keeps_inputs m.
Proof. intros Hm w. by rewrite Hm. Qed.
Lemma keeps_modify_world f :
  (∀ w, graph (f w) = graph w ∧ agents (f w) = agents w) →
  keeps_inputs (modify_world f).
Proof. intros Hf w. apply Hf. Qed.
Lemma keeps_modify_state f : keeps_inputs (modify_state f).
Proof.
  apply keeps_bind; [apply keeps_readonly, readonly_get_state|].
  intros s. by apply keeps_modify_world.
Qed.
Lemma keeps_fresh : keeps_inputs fresh.
Proof. intros w. done. Qed.
Lemma keeps_write_ll a n : keeps_inputs (write_ll a n).
Proof. by apply keeps_modify_world. Qed.
Lemma keeps_write_array a l : keeps_inputs (write_array a l).
Proof. by apply keeps_modify_world. Qed.
Lemma keeps_write_hl a n : keeps_inputs (write_hl a n).
Proof. by apply keeps_modify_world. Qed.
Lemma keeps_mapM {A B} (f : A → M B) l :
  (∀ x, keeps_inputs (f x)) → keeps_inputs (mapM f l).
Proof.
  intros Hf. induction l as [|x l IH]; [done|].
  apply keeps_bind; [done|]. intros. apply keeps_bind; [done|]. done.
Qed.
Lemma keeps_forM_ {A} (f : A → M unit) l :
  (∀ x, keeps_inputs (f x)) → keeps_inputs (forM_ l f).
Proof.
  intros Hf. induction l as [|x l IH]; [done|].
  apply keeps_bind; [done|]. done.
Qed.
Lemma keeps_foldM {A B} (f : B → A → M B) b l :
  (∀ b x, keeps_inputs (f b x)) → keeps_inputs (foldM f b l).
Proof.
  intros Hf. revert b. induction l as [|x l IH]; intros b; [done|].
  apply keeps_bind; [done|]. done.
Qed.

Create HintDb keeps discriminated.
#[export] Hint Constants Opaque : keeps.

Ltac keeps_step :=
  lazymatch goal with
  | |- keeps_inputs (bind _ _) => apply keeps_bind; [|intros ?]
  | |- keeps_inputs (ret _) => apply keeps_ret
  | |- keeps_inputs (throw _) => apply keeps_throw
  | |- keeps_inputs fresh => apply keeps_fresh
  | |- keeps_inputs (modify_state _) => apply keeps_modify_state
  | |- keeps_inputs (modify_world _) => apply keeps_modify_world; done
  | |- keeps_inputs (write_ll _ _) => apply keeps_write_ll
  | |- keeps_inputs (write_array _ _) => apply keeps_write_array
  | |- keeps_inputs (write_hl _ _) => apply keeps_write_hl
  | |- keeps_inputs (mapM _ _) => apply keeps_mapM; intros ?
  | |- keeps_inputs (forM_ _ _) => apply keeps_forM_; intros ?
  | |- keeps_inputs (foldM _ _ _) => apply keeps_foldM; intros ? ?
  | |- keeps_inputs (if ?c then _ else _) => destruct c
  | |- keeps_inputs (match ?x with _ => _ end) => destruct x
  | |- keeps_inputs get_world => apply keeps_readonly, readonly_get_world
  | |- keeps_inputs get_state => apply keeps_readonly, readonly_get_state
  | |- keeps_inputs (deref _ _) => apply keeps_readonly, readonly_deref
  | |- keeps_inputs (read_ll _) => apply keeps_readonly, readonly_read_ll
  | |- keeps_inputs (read_hl _) => apply keeps_readonly, readonly_read_hl
  | |- keeps_inputs (read_array _) => apply keeps_readonly, readonly_read_array
  | |- keeps_inputs (getConstraints _) =>
      apply keeps_readonly, readonly_getConstraints
  | |- keeps_inputs (backtrack _) => apply keeps_readonly, readonly_backtrack
  | |- keeps_inputs (rebuild_tree _ _ _ _) =>
      apply keeps_readonly, readonly_rebuild_tree
  | |- keeps_inputs (hl_ids _) => apply keeps_readonly, readonly_hl_ids
  | |- keeps_inputs (collect_allNodes _) =>
      apply keeps_readonly, readonly_collect_allNodes
  | |- keeps_inputs (findLLNode _ _ _) =>
      apply keeps_readonly, readonly_findLLNode
  | |- keeps_inputs (opt_id _ _ _) =>
      apply keeps_readonly, readonly_opt_id;
      first [apply readonly_read_hl|apply readonly_read_ll]
  | |- keeps_inputs _ => solve [auto 1 with keeps nocore]
  end.

Ltac keeps_tac := repeat keeps_step.

Lemma keeps_alloc_array l : keeps_inputs (alloc_array l).
Proof. unfold alloc_array. keeps_tac. Qed.
#[export] Hint Resolve keeps_alloc_array : keeps.
Lemma keeps_new_LowLevelNode p a v : keeps_inputs (new_LowLevelNode p a v).
Proof. unfold new_LowLevelNode. keeps_tac. Qed.
#[export] Hint Resolve keeps_new_LowLevelNode : keeps.
Lemma keeps_new_HighLevelNode c p f r t o :
  keeps_inputs (new_HighLevelNode c p f r t o).
Proof. unfold new_HighLevelNode. keeps_tac. Qed.
#[export] Hint Resolve keeps_new_HighLevelNode : keeps.

Lemma keeps_cloneLowLevelTree fuel : ∀ a p, keeps_inputs (cloneLowLevelTree fuel a p).
Proof.
  induction fuel as [|fuel IH]; intros a p; [done|].
  unfold cloneLowLevelTree; fold cloneLowLevelTree.
  keeps_tac.
Qed.
#[export] Hint Resolve keeps_cloneLowLevelTree : keeps.

Lemma keeps_clone_node m e : keeps_inputs (clone_node m e).
Proof.
  unfold clone_node. destruct e as [id node].
  keeps_tac.
Qed.
#[export] Hint Resolve keeps_clone_node : keeps.

Lemma keeps_saveHistory : keeps_inputs saveHistory.
Proof.
  unfold saveHistory, cloneAllNodes. keeps_tac.
Qed.
#[export] Hint Resolve keeps_saveHistory : keeps.

Lemma keeps_restoreFromSnapshot snap : keeps_inputs (restoreFromSnapshot snap).
Proof.
  unfold restoreFromSnapshot, restore_node, link_parent.
  keeps_tac.
Qed.
#[export] Hint Resolve keeps_restoreFromSnapshot : keeps.

Lemma keeps_stepBack : keeps_inputs stepBack.
Proof. unfold stepBack. keeps_tac. Qed.

Lemma keeps_initialize : keeps_inputs initialize.
Proof.
  unfold initialize.
  keeps_tac.
Qed.

Lemma keeps_step : keeps_inputs step.
Proof.
  unfold step, stepSelect, stepPopConstraint, stepExpandTree, stepGenerate,
    stepCheck, add_child.
  keeps_tac.
Qed.

Lemma perform_keeps c w : graph (perform c w) = graph w ∧ agents (perform c w) = agents w.
Proof.
  destruct c; simpl;
    [apply keeps_initialize|apply keeps_step|apply keeps_stepBack|apply keeps_initialize].
Qed.

Lemma reachable_inputs g ags w : reachable g ags w → graph w = g ∧ agents w = ags.
Proof.
  induction 1 as [|w c Hr [IHg IHa]]; [done|].
  destruct (perform_keeps c w). split; congruence.
Qed.

(** C10: [initialize], [step], [stepBack] and [reset] leave the graph
    (vertices, edges, adjacency index and id counters) and the agents
    (ids, starts and goals) exactly as they were, from every world and
    whether the call returns or throws; every other part of the world
    may change. *)
Theorem solver_keeps_inputs (w : World) :
  (graph (exec initialize w) = graph w ∧ agents (exec initialize w) = agents w)
  ∧ (graph (exec step w) = graph w ∧ agents (exec step w) = agents w)
  ∧ (graph (exec stepBack w) = graph w ∧ agents (exec stepBack w) = agents w)
  ∧ (graph (exec reset w) = graph w ∧ agents (exec reset w) = agents w).
Proof.
  split_and!; first
    [apply keeps_initialize|apply keeps_step|apply keeps_stepBack].
Qed.

(** *** [initialize] *)

(** [initialize] returns, from every well-formed store: the search
    state it leaves holds one high-level node for the start
    configuration, with a one-node constraint tree, and the history
    holds one snapshot. *)
Lemma initialize_spec w :
  store_ok w →
  wp initialize w
    (λ r w',
       r = Val tt ∧ store_ok w' ∧ length (history w') = 1
       ∧ ∃ s Ninit hn Cinit cn,
           state w' = Some s
           ∧ open s = [Ninit]
           ∧ explored s = {[hash (mkConfig (start <$> agents w)) := Ninit]}
           ∧ currentHighLevelNode s = Some Ninit
           ∧ currentLowLevelNode s = None
           ∧ generatedConfig s = None
           ∧ stepNumber s = 0 ∧ phase s = ph_select ∧ status s = running
           ∧ solution s = None
           ∧ nodesGenerated s = 1 ∧ configurationsExplored s = 1
           ∧ hlnodes w' !! Ninit = Some hn
           ∧ config hn = mkConfig (start <$> agents w)
           ∧ parent hn = None
           ∧ order hn = getInitOrder (graph w) (agents w)
           ∧ treeRoot hn = Some Cinit
           ∧ arrays w' !! tree hn = Some [Cinit]
           ∧ llnodes w' !! Cinit = Some cn
           ∧ lparent cn = None ∧ who cn = Null ∧ where_ cn = Null
           ∧ children cn = [] ∧ depth cn = 0).
Proof.
  intros Hok. unfold initialize.
  wp_steps; try congruence. subst d. simplify_eq.
  match goal with |- wp _ (with_history [] ?w0) _ => set (w1 := w0) end.
  assert (Hok1 : store_ok (with_history [] w1)).
  { apply ok_with_history; [|done| |simpl; lia].
    - unfold w1. ok_peel.
    - intros ???? H. by apply elem_of_nil in H. }
  assert (Hne1 : S (S (next w)) ≠ S (next w)) by lia.
  assert (Hready : snapshot_ready (with_history [] w1)).
  { eexists. split; [reflexivity|]. simpl. split_and!.
    - intros h ->%list_elem_of_singleton. eexists _, _. simpl.
      rewrite lookup_insert_eq. split; [done|]. simpl.
      rewrite lookup_insert_eq. split; [done|]. split; [|done].
      intros t ->%list_elem_of_singleton. by rewrite lookup_insert_eq.
    - intros k h [[_ <-]|[_ H]]%lookup_insert_Some; [|done]. eexists _, _. simpl.
      rewrite lookup_insert_eq. split; [done|]. simpl.
      rewrite lookup_insert_eq. split; [done|]. split; [|done].
      intros t ->%list_elem_of_singleton. by rewrite lookup_insert_eq.
    - intros h [= <-]. by rewrite lookup_insert_eq.
    - done. }
  eapply wp_mono; [by apply saveHistory_spec|].
  intros r w2 (Hok2 & Hext & Hst & Hres).
  destruct r as [[]|e]; [|by destruct Hres].
  destruct Hres as (snap & Hh & _).
  split; [done|]. split; [done|]. split; [by rewrite Hh|].
  eexists _, (S (S (next w))), _, (next w), _. rewrite Hst. simpl.
  split; [reflexivity|]. simpl.
  rewrite (ext_hl _ _ Hext) by (simpl; lia).
  do 11 (split; [done|]).
  split; [simpl; apply lookup_insert_eq|]. simpl.
  do 4 (split; [done|]).
  rewrite (ext_arr _ _ Hext) by (simpl; lia).
  rewrite (ext_ll _ _ Hext) by (simpl; lia). simpl.
  rewrite lookup_insert_eq. split; [done|].
  rewrite lookup_insert_eq. done.
Qed.

Lemma initialize_history w :
  store_ok w → length (history (exec initialize w)) = 1.
Proof. intros Hok. by destruct (initialize_spec w Hok) as (_ & _ & ? & _). Qed.

Lemma push_snapshot_cases (h : list Snapshot) snap :
  (length h < 200 → push_snapshot h snap = h ++ [snap])
  ∧ (length h = 200 → push_snapshot h snap = tail h ++ [snap]).
Proof.
  unfold push_snapshot. rewrite length_app. simpl. split; intros Hl.
  - by rewrite decide_False by lia.
  - rewrite decide_True by lia. destruct h; [done|]. done.
Qed.

(** X20: in every world a solver can be in, the history holds at most
    200 snapshots and [stepBack] does not throw. With more than one
    snapshot it returns true, drops the newest snapshot, and sets the
    phase, the status, the step number, the counters, the generated
    configuration and the solution to those recorded in the snapshot
    before the newest. With at most one, in particular right after
    [initialize], it returns false and leaves the world as it is. *)
Theorem stepBack_contract (g : Graph) (ags : list Agent) (w : World) :
  reachable g ags w →
  length (history w) ≤ 200
  ∧ (1 < length (history w) →
     ∃ prev s',
       last (removelast (history w)) = Some prev
       ∧ result stepBack w = Val true
       ∧ history (exec stepBack w) = removelast (history w)
       ∧ state (exec stepBack w) = Some s'
       ∧ phase s' = s_phase prev ∧ status s' = s_status prev
       ∧ stepNumber s' = s_stepNumber prev
       ∧ generatedConfig s' = s_generatedConfig prev
       ∧ solution s' = s_solution prev
       ∧ nodesGenerated s' = s_nodesGenerated prev
       ∧ configurationsExplored s' = s_configurationsExplored prev)
  ∧ (length (history w) ≤ 1 → stepBack w = (Val false, w))
  ∧ stepBack (exec initialize w) = (Val false, exec initialize w).
Proof.
  intros Hok%reachable_ok.
  destruct (stepBack_spec w Hok) as [Hmore Hfew].
  split; [apply (ok_history _ Hok)|]. split.
  { intros Hl. destruct (Hmore Hl) as (prev & s' & Hlast & Heq & _ & Hrest).
    exists prev, s'. split; [done|]. split; [|done].
    unfold result. by rewrite Heq. }
  split; [done|].
  apply (stepBack_spec _ (initialize_ok w Hok)).
  rewrite initialize_history; [lia|done].
Qed.

(** After [initialize] and one [step] on the [paper] preset the history
    holds two snapshots. *)
Lemma stepBack_contract_witness :
  let w := perform Step (perform Initialize (construct paper_graph paper_agents)) in
  reachable paper_graph paper_agents w
  ∧ length (history w) ≤ 200
  ∧ result stepBack w = Val true
  ∧ length (history (exec stepBack w)) = 1.
Proof.
  intros w.
  assert (Hr : reachable paper_graph paper_agents w).
  { exact (reach_call _ _ _ Step
             (reach_call _ _ _ Initialize (reach_new paper_graph paper_agents))). }
  split; [exact Hr|].
  destruct (stepBack_contract paper_graph paper_agents w Hr)
    as (Hlen & Hmore & _).
  split; [exact Hlen|].
  assert (Hl : 1 < length (history w)) by (vm_compute; lia).
  destruct (Hmore Hl) as (prev & s' & _ & Heq & Hh & _).
  split; [exact Heq|].
  rewrite Hh. vm_compute. reflexivity.
Defined.


(** *** What expanding a node does *)

(** One pass of the loop body. *)
Lemma add_child_eq N C agentId vertex w c hn q :
  llnodes w !! C = Some c → C < next w →
  hlnodes w !! N = Some hn → arrays w !! tree hn = Some q →
  add_child N C agentId vertex w
  = (Val tt,
     with_arrays (insert (tree hn) (q ++ [next w]))
       (with_llnodes (insert C (set_children (children c ++ [next w]) c))
          (with_llnodes
             (insert (next w)
                (mkLL (llNodeIdCounter w) (Some C) agentId vertex []
                   (S (depth c)) false false))
             (with_next (S (next w))
                (with_llNodeIdCounter (S (llNodeIdCounter w)) w))))).
Proof.
  intros HC Hlt HN Hq.
  unfold add_child, new_LowLevelNode, read_ll, read_hl, read_array, write_ll,
    write_array, fresh, bind, get_world, modify_world, deref, ret. simpl.
  rewrite HC. simpl. rewrite lookup_insert_ne by lia. rewrite HC. simpl.
  rewrite HN. simpl. rewrite Hq. done.
Qed.

Lemma forM_add_child N C a moves :
  ∀ w c hn q,
    llnodes w !! C = Some c → C < next w →
    hlnodes w !! N = Some hn → arrays w !! tree hn = Some q →
    ∃ w', forM_ moves (add_child N C a) w = (Val tt, w')
          ∧ expanded_by w w' C c (tree hn) q a moves.
Proof.
  induction moves as [|m ms IH]; intros w c hn q HC Hlt HN Hq.
  - exists w. split; [done|]. simpl.
    split; simpl; rewrite ?Nat.add_0_r, ?app_nil_r; try done.
    rewrite HC. by destruct c.
  - set (w1 := (add_child N C a m w).2).
    pose proof (add_child_eq N C a m w c hn q HC Hlt HN Hq) as Heq.
    assert (Hw1 : add_child N C a m w = (Val tt, w1)) by (unfold w1; by rewrite Heq).
    assert (HC1 : llnodes w1 !! C
                  = Some (set_children (children c ++ [next w]) c)).
    { unfold w1. rewrite Heq. simpl. by rewrite lookup_insert_eq. }
    assert (Hn1 : next w1 = S (next w)) by (unfold w1; by rewrite Heq).
    assert (Hhl1 : hlnodes w1 = hlnodes w) by (unfold w1; by rewrite Heq).
    assert (Hq1 : arrays w1 !! tree hn = Some (q ++ [next w])).
    { unfold w1. rewrite Heq. simpl. by rewrite lookup_insert_eq. }
    destruct (IH w1 _ hn _ HC1 ltac:(lia) ltac:(by rewrite Hhl1) Hq1)
      as (w' & Hrun & Hex).
    exists w'. split.
    { change (forM_ (m :: ms) (add_child N C a) w)
        with (bind (add_child N C a m) (λ _, forM_ ms (add_child N C a)) w).
      unfold bind. by rewrite Hw1. }
    destruct Hex as [En Ec Eno Eq Ech Ell Ear Ehl Ehc Est Ehi].
    assert (Hc1 : llNodeIdCounter w1 = S (llNodeIdCounter w))
      by (unfold w1; by rewrite Heq).
    split; simpl.
    + lia.
    + lia.
    + rewrite Eno, Hn1. simpl. by rewrite <- app_assoc.
    + rewrite Eq, Hn1. by rewrite <- app_assoc.
    + intros [|i] x Hx; simpl in Hx.
      * injection Hx as <-. rewrite Nat.add_0_r, Ell by lia.
        unfold w1. rewrite Heq. simpl.
        rewrite lookup_insert_ne by lia. by rewrite lookup_insert_eq, Nat.add_0_r.
      * specialize (Ech i x Hx). rewrite Hn1, Hc1 in Ech. simpl in Ech.
        by rewrite <- !Nat.add_succ_comm.
    + intros b Hb HbC. rewrite Ell by lia. unfold w1. rewrite Heq. simpl.
      rewrite !lookup_insert_ne by lia. done.
    + intros b Hb. rewrite Ear by done. unfold w1. rewrite Heq. simpl.
      by rewrite lookup_insert_ne.
    + by rewrite Ehl.
    + rewrite Ehc. unfold w1. by rewrite Heq.
    + rewrite Est. unfold w1. by rewrite Heq.
    + rewrite Ehi. unfold w1. by rewrite Heq.
Qed.

Lemma wp_result {A} (m : M A) w r w' :
  wp m w (λ r0 w0, r0 = r ∧ w0 = w') → m w = (r, w').
Proof. unfold wp. destruct (m w). simpl. by intros [-> ->]. Qed.

(** [stepExpandTree] below the depth bound. *)
Lemma stepExpandTree_expand w s C c N hn q :
  state w = Some s → currentLowLevelNode s = Some C →
  llnodes w !! C = Some c → C < next w →
  currentHighLevelNode s = Some N → hlnodes w !! N = Some hn →
  arrays w !! tree hn = Some q →
  depth c < length (agents w) →
  let a := order_at (order hn) (depth c) in
  let v := config_get (config hn) a in
  let moves := v :: (Num <$> getNeighbors (graph w) v) in
  ∃ w1, stepExpandTree w
        = (Val true, with_state (Some (set_phase ph_generate s)) w1)
        ∧ expanded_by w w1 C c (tree hn) q a moves.
Proof.
  intros Hs HC Hc Hlt HN Hhn Hq Hd a v moves.
  destruct (forM_add_child N C a moves w c hn q Hc Hlt Hhn Hq) as (w1 & Hrun & Hex).
  exists w1. split; [|done].
  apply wp_result. unfold stepExpandTree.
  wp_steps; try congruence; simplify_eq; try lia.
  eapply wp_eq; [exact Hrun|]. simpl.
  pose proof (exp_state _ _ _ _ _ _ _ _ Hex) as Hst.
  wp_steps; try congruence. split; [done|]. congruence.
Qed.

(** [stepExpandTree] at the depth bound. *)
Lemma stepExpandTree_full w s C c :
  state w = Some s → currentLowLevelNode s = Some C →
  llnodes w !! C = Some c → length (agents w) ≤ depth c →
  stepExpandTree w = (Val true, with_state (Some (set_phase ph_generate s)) w).
Proof.
  intros Hs HC Hc Hd.
  apply wp_result. unfold stepExpandTree.
  wp_steps; try congruence; simplify_eq; try lia. done.
Qed.

(** C6: in every world a solver can be in, every constraint-tree node
    has depth at most the number of agents, and a child is one level
    below its parent and points back to it. Expanding the current node
    [C] at a depth [d] below the number of agents appends one fresh
    child per move of the agent [order[d]] of the current high-level
    node (its position, then the neighbours of its position), to the
    children of [C] and to the queue, and touches nothing else;
    expanding it at a depth that is not below the number of agents
    only moves the phase on. *)
Theorem constraint_tree_depth (g : Graph) (ags : list Agent) (w : World) :
  reachable g ags w →
  (∀ a n, llnodes w !! a = Some n →
     depth n ≤ length ags
     ∧ ∀ k, k ∈ children n →
         ∃ kn, llnodes w !! k = Some kn
               ∧ depth kn = S (depth n) ∧ lparent kn = Some a)
  ∧ (∀ s C c N hn q,
       state w = Some s → currentLowLevelNode s = Some C →
       llnodes w !! C = Some c →
       currentHighLevelNode s = Some N → hlnodes w !! N = Some hn →
       arrays w !! tree hn = Some q →
       depth c < length ags →
       let a := order_at (order hn) (depth c) in
       let v := config_get (config hn) a in
       let moves := v :: (Num <$> getNeighbors g v) in
       ∃ w1, stepExpandTree w
             = (Val true, with_state (Some (set_phase ph_generate s)) w1)
             ∧ expanded_by w w1 C c (tree hn) q a moves)
  ∧ (∀ s C c,
       state w = Some s → currentLowLevelNode s = Some C →
       llnodes w !! C = Some c → length ags ≤ depth c →
       stepExpandTree w
       = (Val true, with_state (Some (set_phase ph_generate s)) w)).
Proof.
  intros Hr. pose proof (reachable_ok _ _ _ Hr) as Hok.
  destruct (reachable_inputs _ _ _ Hr) as [Hg Ha].
  pose proof (ok_ll _ Hok) as Hll. rewrite Ha in Hll.
  split; [|split].
  - intros a n Hn. split; [by eapply ll_depth|].
    intros k Hk. destruct (ll_children _ _ _ Hll a n k Hn Hk) as [_ [kn Hkn]].
    exists kn. split; [done|]. by eapply ll_child.
  - intros s C c N hn q Hs HC Hc HN Hhn Hq Hd. rewrite <- Hg.
    eapply stepExpandTree_expand; eauto.
    + by eapply ok_ll_lt.
    + by rewrite Ha.
  - intros s C c Hs HC Hc Hd. eapply stepExpandTree_full; eauto. by rewrite Ha.
Qed.

(** On the [paper] preset, two steps after [initialize] the root of
    the first constraint tree is about to be expanded for agent 0 at
    vertex a: it gets three children, for a and its neighbours b, d. *)
Lemma constraint_tree_depth_witness :
  let w := perform Step (perform Step (perform Initialize
             (construct paper_graph paper_agents))) in
  reachable paper_graph paper_agents w
  ∧ (∀ a n, llnodes w !! a = Some n → depth n ≤ length paper_agents)
  ∧ ∃ c, llnodes (exec stepExpandTree w) !! 0 = Some c
         ∧ children c = [9; 10; 11].
Proof.
  intros w.
  assert (Hr : reachable paper_graph paper_agents w).
  { exact (reach_call _ _ _ Step (reach_call _ _ _ Step
             (reach_call _ _ _ Initialize (reach_new paper_graph paper_agents)))). }
  split; [exact Hr|].
  destruct (constraint_tree_depth paper_graph paper_agents w Hr)
    as (Hdepth & Hexpand & _).
  split; [intros a n Hn; exact (proj1 (Hdepth a n Hn))|].
  edestruct Hexpand as (w1 & Heq & Hex).
  - vm_compute. reflexivity.
  - vm_compute. reflexivity.
  - vm_compute. reflexivity.
  - vm_compute. reflexivity.
  - vm_compute. reflexivity.
  - vm_compute. reflexivity.
  - vm_compute. lia.
  - unfold exec. rewrite Heq. simpl. rewrite (exp_node _ _ _ _ _ _ _ _ Hex).
    eexists. split; [reflexivity|]. vm_compute. reflexivity.
Defined.


(** ** Snapshots are shared with the state restored from them *)

(** C4: on the [paper] preset, let [w1] be the world after
    [initialize] and one [step] (phase [pop_constraint], step 1). From
    [w1] the next [step] returns true and moves to [expand_tree]. After
    two more steps, a [stepBack], a [step] and a [stepBack] the solver
    shows the state of [w1] again, restored from its snapshot; but now
    [step] throws a [TypeError]: the restored node shares its queue
    array with the snapshot, the [step] in between emptied it, and
    [stepPopConstraint] shifts [undefined] out of the empty queue. *)
Theorem snapshot_restore_diverges :
  let w1 := run_calls [Initialize; Step] (construct paper_graph paper_agents) in
  let w := run_calls [Step; Step; StepBack; Step; StepBack] w1 in
  observe w1 = Some (ph_pop_constraint, running, 1, None)
  ∧ observe w = observe w1
  ∧ result step w1 = Val true
  ∧ observe (exec step w1) = Some (ph_expand_tree, running, 2, None)
  ∧ result step w = Throw TypeError.
Proof. vm_compute. done. Qed.

(** The same sharing makes the solver report [no_solution] on this
    solvable instance: the run from [initialize] reaches [solved] in
    six steps, but once the first snapshot has been restored, stepped
    on twice and restored again, two steps end in [no_solution]. *)
Lemma snapshot_restore_no_solution :
  let w0 := run_calls [Initialize] (construct paper_graph paper_agents) in
  let w := run_calls [Step; StepBack; Step; Step; StepBack; StepBack] w0 in
  observe w = observe w0
  ∧ observe (run_calls [Step; Step; Step; Step; Step; Step] w0)
    = Some (ph_select, solved, 6, Some (mkConfig [Num 3; Num 1]))
  ∧ observe (run_calls [Step; Step] w)
    = Some (ph_select, no_solution, 2, None).
Proof. vm_compute. done. Qed.

(** Symbolic execution that also settles the equations between the
    states it reads. *)
Ltac wp_run := repeat (wp_step; simpl in *; try congruence; simplify_eq).

(** *** The first step on an instance that is already solved *)

Lemma wp_exec {A} (m : M A) w Q : wp m w Q → Q (result m w) (exec m w).
Proof. done. Qed.


Lemma backtrack_root w N hn :
  N < next w → hlnodes w !! N = Some hn → parent hn = None →
  backtrack N w = (Val [config hn], w).
Proof.
  intros Hlt HN Hp. unfold backtrack, bind, get_world. simpl.
  unfold read_hl, bind, get_world, deref. rewrite HN. simpl. rewrite Hp.
  destruct (next w) as [|n] eqn:Hn; [lia|done].
Qed.

Lemma initialize_ready w : store_ok w → snapshot_ready (exec initialize w).
Proof.
  intros Hok. pose proof (wp_exec _ _ _ (initialize_spec w Hok)) as Hinit.
  simpl in Hinit. set (w1 := exec initialize w) in *.
  destruct Hinit
    as (_ & Hok' & _ & s & Ninit & hn & Cinit & cn & Hs & Hopen & Hexp & Hcur
        & Hll & _ & _ & _ & _ & _ & _ & _ & Hhn & _ & Hpar & _ & _ & Hq & Hcn & _).
  assert (Hready : node_ready Ninit w1).
  { exists hn, [Cinit]. split_and!; try done.
    - intros t ->%list_elem_of_singleton. by eexists.
    - intros p. by rewrite Hpar. }
  exists s. split; [done|]. split_and!.
  - rewrite Hopen. by intros h ->%list_elem_of_singleton.
  - rewrite Hexp. intros k h [_ <-]%lookup_singleton_Some. done.
  - rewrite Hcur. intros h [= <-]. by eexists.
  - by rewrite Hll.
Qed.

(** A step in the phase [select] with a parentless goal node on top
    of Open. *)
Lemma step_root_goal w s N hn :
  store_ok w → snapshot_ready w →
  state w = Some s → status s = running → phase s = ph_select →
  last (open s) = Some N → hlnodes w !! N = Some hn → parent hn = None →
  equals (config hn) (mkConfig (goal <$> agents w)) = true →
  wp step w
    (λ r w', r = Val false
             ∧ ∃ s', state w' = Some s' ∧ phase s' = ph_select
                     ∧ status s' = solved ∧ stepNumber s' = S (stepNumber s)
                     ∧ solution s' = Some [config hn]).
Proof.
  intros Hok Hready Hs Hst Hph Hlast Hhn Hpar Hequals.
  destruct s, hn; simpl in *; subst.
  unfold step. wp_run.
  eapply wp_mono; [by apply saveHistory_spec|].
  intros [[]|e] w2 (Hok2 & Hext & Hst2 & Hres); simpl; [|by destruct Hres].
  pose proof (extends_hl_Some w w2 N _ Hok Hext Hhn) as Hhn2.
  rewrite <- (ext_agents _ _ Hext) in Hequals.
  rewrite Hs in Hst2.
  wp_run. unfold stepSelect.
  repeat (wp_step; simpl in *; try congruence; simplify_eq; simpl;
          rewrite ?Hequals).
  eapply wp_eq.
  { eapply backtrack_root; [|done|done].
    simpl. eapply ok_hl_lt; [exact Hok2|done]. }
  simpl. wp_run. split; [done|]. eexists. split; [done|]. done.
Qed.

(** C8: when every agent starts at its goal, the first [step] after
    [initialize] returns false and leaves the solver in the phase
    [select] with status [solved], at step 1, with a solution that
    consists of the start configuration alone. *)
Theorem already_solved (g : Graph) (ags : list Agent) (w : World) :
  reachable g ags w →
  (∀ a, a ∈ ags → start a = goal a) →
  result step (exec initialize w) = Val false
  ∧ ∃ s, state (exec step (exec initialize w)) = Some s
         ∧ phase s = ph_select ∧ status s = solved ∧ stepNumber s = 1
         ∧ solution s = Some [mkConfig (start <$> ags)].
Proof.
  intros Hr Hsg. pose proof (reachable_ok _ _ _ Hr) as Hok.
  destruct (reachable_inputs _ _ _ Hr) as [_ <-].
  pose proof (initialize_ready w Hok) as Hready.
  pose proof (initialize_ok w Hok) as Hok1.
  destruct (wp_exec _ _ _ (initialize_spec w Hok))
    as (_ & _ & _ & s & Ninit & hn & Cinit & cn & Hs & Hopen & _ & _
        & _ & _ & Hstep & Hph & Hst & _ & _ & _ & Hhn & Hcfg & Hpar & _).
  assert (Hags1 : agents (exec initialize w) = agents w)
    by apply keeps_initialize.
  assert (Heq : goal <$> agents w = start <$> agents w).
  { apply list_fmap_ext. intros i a Ha. symmetry.
    apply Hsg. by eapply list_elem_of_lookup_2. }
  pose proof (step_root_goal (exec initialize w) s Ninit hn Hok1 Hready Hs Hst Hph)
    as Hstep1.
  rewrite Hopen, Hcfg, Hstep, Hags1, Heq in Hstep1.
  apply (wp_exec step). apply Hstep1; try done.
  unfold equals. by apply bool_decide_eq_true_2.
Qed.

(** One agent that starts at its goal, vertex a of the [paper] graph. *)
Lemma already_solved_witness :
  let ags := [mkAgent 0 (Num 0) (Num 0)] in
  let w := construct paper_graph ags in
  result step (exec initialize w) = Val false
  ∧ ∃ s, state (exec step (exec initialize w)) = Some s
         ∧ phase s = ph_select ∧ status s = solved ∧ stepNumber s = 1
         ∧ solution s = Some [mkConfig [Num 0]].
Proof.
  intros ags w.
  apply (already_solved paper_graph ags w (reach_new paper_graph ags)).
  intros a Ha. apply list_elem_of_singleton in Ha. subst a. reflexivity.
Defined.

(** ** The graph editor *)

Lemma elem_of_set_add x y s : x ∈ set_add y s ↔ x ∈ s ∨ x = y.
Proof.
  unfold set_add. case_decide; [|set_solver].
  split; [auto|]. intros [?| ->]; done.
Qed.

Lemma elem_of_set_delete x y s : x ∈ set_delete y s ↔ x ∈ s ∧ x ≠ y.
Proof. unfold set_delete. rewrite list_elem_of_filter. tauto. Qed.

Lemma NoDup_set_add y s : NoDup s → NoDup (set_add y s).
Proof.
  intros Hnd. unfold set_add. case_decide; [done|].
  apply NoDup_app. split_and!; [done| |apply NoDup_singleton].
  intros x Hx ->%list_elem_of_singleton. done.
Qed.

Lemma NoDup_set_delete y s : NoDup s → NoDup (set_delete y s).
Proof. apply NoDup_filter. Qed.

Lemma set_delete_notin y s : y ∉ s → set_delete y s = s.
Proof.
  unfold set_delete. induction s as [|x s IH]; intros Hy; [done|].
  rewrite filter_cons_True by set_solver. f_equal. apply IH. set_solver.
Qed.

Lemma set_delete_add y s : y ∉ s → set_delete y (set_add y s) = s.
Proof.
  intros Hy. unfold set_add. rewrite decide_False by done.
  unfold set_delete. rewrite filter_app, filter_cons_False by naive_solver.
  rewrite filter_nil, app_nil_r. by apply set_delete_notin.
Qed.

Lemma joins_sym a b e : joins a b e ↔ joins b a e.
Proof. unfold joins. tauto. Qed.

Lemma empty_graph_wf : graph_wf empty_graph.
Proof.
  split; simpl; intros *; rewrite ?lookup_empty; try done.
Qed.

Lemma addVertex_wf x y g : graph_wf g → graph_wf (addVertex x y g).2.
Proof.
  intros [Hdom Hv He Hu Ha Hn]. split; simpl.
  - intros v. rewrite !lookup_insert_is_Some'. by rewrite Hdom.
  - intros i v [[<- <-]|[Hne Hi]]%lookup_insert_Some; simpl; [lia|].
    destruct (Hv i v Hi). lia.
  - intros i e Hi. destruct (He i e Hi) as (? & ? & ? & ? & ?).
    rewrite !lookup_insert_is_Some'. auto 10.
  - exact Hu.
  - intros a s b [[<- <-]|[Hne Hs]]%lookup_insert_Some; [|by apply Ha].
    split; [by intros ?%elem_of_nil|].
    intros (i & e & Hi & Hj). destruct (He i e Hi) as (_ & _ & _ & [v1' H1] & [v2' H2]).
    destruct Hj as [[Hj _]|[_ Hj]]; rewrite Hj in *.
    + destruct (Hv _ _ H1). lia.
    + destruct (Hv _ _ H2). lia.
  - intros a s [[<- <-]|[Hne Hs]]%lookup_insert_Some; [apply NoDup_nil_2|by eapply Hn].
Qed.

(** [addEdge] refuses a loop and a second edge between two vertices. *)
Lemma addEdge_refused a b g :
  a = b ∨ map_Exists (λ _ e, joins a b e) (edges g) →
  addEdge a b g = (Val None, g).
Proof.
  intros H. unfold addEdge. case_decide; [done|].
  rewrite decide_True; [done|]. by destruct H.
Qed.

Lemma joins_insert (es : gmap nat Edge) n a b x w :
  es !! n = None → a ≠ b →
  (∃ i e, <[n := mkEdge n a b]> es !! i = Some e ∧ joins x w e)
  ↔ (∃ i e, es !! i = Some e ∧ joins x w e) ∨ (x = a ∧ w = b) ∨ (x = b ∧ w = a).
Proof.
  intros Hn Hab. split.
  - intros (i & e & [[<- <-]|[Hne Hi]]%lookup_insert_Some & Hj).
    + right. unfold joins in Hj. simpl in Hj. naive_solver.
    + left. eauto.
  - intros [(i & e & Hi & Hj)|Hnew].
    + exists i, e. split; [|done]. rewrite lookup_insert_ne; [done|].
      intros <-. congruence.
    + exists n, (mkEdge n a b). rewrite lookup_insert_eq. split; [done|].
      unfold joins. simpl. naive_solver.
Qed.

(** A new edge between two vertices. *)
Lemma addEdge_new a b g :
  graph_wf g → a ≠ b →
  is_Some (vertices g !! a) → is_Some (vertices g !! b) →
  ¬ map_Exists (λ _ e, joins a b e) (edges g) →
  ∃ g', addEdge a b g = (Val (Some (nextEdgeId g)), g')
        ∧ graph_wf g'
        ∧ vertices g' = vertices g
        ∧ edges g' = <[nextEdgeId g := mkEdge (nextEdgeId g) a b]> (edges g)
        ∧ getNeighbors g' (Num a) = getNeighbors g (Num a) ++ [b]
        ∧ getNeighbors g' (Num b) = getNeighbors g (Num b) ++ [a]
        ∧ (∀ v, v ≠ a → v ≠ b → adjacency g' !! v = adjacency g !! v)
        ∧ nextVertexId g' = nextVertexId g
        ∧ nextEdgeId g' = S (nextEdgeId g).
Proof.
  intros [Hdom Hv He Hu Ha Hn] Hab Hva Hvb Hnew.
  destruct (proj2 (Hdom a) Hva) as [sa Hsa].
  destruct (proj2 (Hdom b) Hvb) as [sb Hsb].
  assert (Hfresh : edges g !! nextEdgeId g = None).
  { apply eq_None_not_Some. intros [e Hi]. destruct (He _ _ Hi) as (_ & ? & _). lia. }
  assert (Hba : b ∉ sa).
  { intros Hin. apply Hnew. apply (Ha a sa b Hsa) in Hin as (i & e & Hi & Hj).
    by exists i, e. }
  assert (Hab' : a ∉ sb).
  { intros Hin. apply Hnew. apply (Ha b sb a Hsb) in Hin as (i & e & Hi & Hj).
    exists i, e. split; [done|]. by apply joins_sym. }
  eexists. split.
  { unfold addEdge. rewrite decide_False by done. rewrite decide_False by done.
    simpl. rewrite Hsa. simpl. rewrite lookup_insert_ne by done. rewrite Hsb.
    reflexivity. }
  unfold set_add. rewrite !decide_False by done. simpl.
  split_and!; try done.
  - split; simpl.
    + intros v. rewrite !lookup_insert_is_Some'. rewrite Hdom.
      split; [intros [<-|[<-|?]]; done|auto].
    + exact Hv.
    + intros i e [[<- <-]|[Hne Hi]]%lookup_insert_Some; simpl; [auto|].
      destruct (He i e Hi) as (? & ? & ? & ? & ?). auto.
    + intros i j e e' [[<- <-]|[Hni Hi]]%lookup_insert_Some
        [[<- <-]|[Hnj Hj]]%lookup_insert_Some Hjoin; simpl in *.
      * done.
      * exfalso. apply Hnew. by exists j, e'.
      * exfalso. apply Hnew. exists i, e. split; [done|].
        unfold joins in *. simpl in *. naive_solver.
      * by eapply Hu.
    + intros x s w Hx. rewrite joins_insert by done.
      apply lookup_insert_Some in Hx as [[<- <-]|[Hxb Hx]].
      { rewrite elem_of_app, list_elem_of_singleton, (Ha b sb w Hsb). naive_solver. }
      apply lookup_insert_Some in Hx as [[<- <-]|[Hxa Hx]].
      { rewrite elem_of_app, list_elem_of_singleton, (Ha a sa w Hsa). naive_solver. }
      rewrite (Ha x s w Hx). naive_solver.
    + intros x s Hx.
      apply lookup_insert_Some in Hx as [[<- <-]|[Hxb Hx]].
      { apply NoDup_app. split_and!; [by eapply Hn| |apply NoDup_singleton].
        by intros ? ? ->%list_elem_of_singleton. }
      apply lookup_insert_Some in Hx as [[<- <-]|[Hxa Hx]].
      { apply NoDup_app. split_and!; [by eapply Hn| |apply NoDup_singleton].
        by intros ? ? ->%list_elem_of_singleton. }
      by eapply Hn.
  - by rewrite lookup_insert_ne, lookup_insert_eq, Hsa by done.
  - by rewrite lookup_insert_eq, Hsb.
  - intros v ??. by rewrite !lookup_insert_ne by done.
Qed.

(** [addEdge] to a vertex without a neighbour set throws, after the
    edge has been stored and the edge counter advanced. *)
Lemma addEdge_missing a b g :
  a ≠ b → ¬ map_Exists (λ _ e, joins a b e) (edges g) →
  adjacency g !! a = None ∨ adjacency g !! b = None →
  ∃ g', addEdge a b g = (Throw TypeError, g')
        ∧ edges g' = <[nextEdgeId g := mkEdge (nextEdgeId g) a b]> (edges g)
        ∧ nextEdgeId g' = S (nextEdgeId g).
Proof.
  intros Hab Hnew Hmiss. unfold addEdge.
  rewrite decide_False by done. rewrite decide_False by done. simpl.
  destruct (adjacency g !! a) as [sa|] eqn:Hsa; [|by eexists].
  simpl. rewrite lookup_insert_ne by done.
  destruct Hmiss as [?| ->]; [done|]. by eexists.
Qed.

(** [removeEdge] of an id that is not an edge changes nothing. *)
Lemma removeEdge_missing id g : edges g !! id = None → removeEdge id g = g.
Proof. intros H. unfold removeEdge. by rewrite H. Qed.

Lemma removeEdge_wf id g : graph_wf g → graph_wf (removeEdge id g).
Proof.
  intros Hwf. unfold removeEdge. destruct (edges g !! id) as [edge|] eqn:Hid; [|done].
  destruct Hwf as [Hdom Hv He Hu Ha Hn].
  destruct (He _ _ Hid) as (_ & _ & Hne & _ & _).
  assert (Hgone : ∀ x w,
    (∃ i e, delete id (edges g) !! i = Some e ∧ joins x w e)
    ↔ (∃ i e, edges g !! i = Some e ∧ joins x w e) ∧ ¬ joins x w edge).
  { intros x w. split.
    - intros (i & e & [Hne' Hi]%lookup_delete_Some & Hj). split; [eauto|].
      intros Hj'. apply Hne'. eapply (Hu id i edge e); [done|done|].
      unfold joins in *. naive_solver.
    - intros [(i & e & Hi & Hj) Hnj]. exists i, e. split; [|done].
      apply lookup_delete_Some. split; [|done]. intros <-. congruence. }
  split; simpl.
  - intros v. rewrite <- Hdom. rewrite !lookup_alter_is_Some. done.
  - exact Hv.
  - intros i e [_ Hi]%lookup_delete_Some. by apply He.
  - intros i j e e' [_ Hi]%lookup_delete_Some [_ Hj]%lookup_delete_Some. by apply Hu.
  - intros x s w Hx. rewrite Hgone.
    destruct (decide (x = v2 edge)) as [->|Hx2].
    { rewrite lookup_alter_eq, lookup_alter_ne in Hx by done.
      destruct (adjacency g !! v2 edge) as [s0|] eqn:Hs0; simplify_eq/=.
      rewrite elem_of_set_delete, (Ha _ s0 w Hs0). unfold joins. naive_solver. }
    rewrite lookup_alter_ne in Hx by done.
    destruct (decide (x = v1 edge)) as [->|Hx1].
    { rewrite lookup_alter_eq in Hx.
      destruct (adjacency g !! v1 edge) as [s0|] eqn:Hs0; simplify_eq/=.
      rewrite elem_of_set_delete, (Ha _ s0 w Hs0). unfold joins. naive_solver. }
    rewrite lookup_alter_ne in Hx by done.
    rewrite (Ha x s w Hx). unfold joins. naive_solver.
  - intros x s Hx.
    destruct (decide (x = v2 edge)) as [->|Hx2].
    { rewrite lookup_alter_eq, lookup_alter_ne in Hx by done.
      destruct (adjacency g !! v2 edge) as [s0|] eqn:Hs0; simplify_eq/=.
      apply NoDup_set_delete. by eapply Hn. }
    rewrite lookup_alter_ne in Hx by done.
    destruct (decide (x = v1 edge)) as [->|Hx1].
    { rewrite lookup_alter_eq in Hx.
      destruct (adjacency g !! v1 edge) as [s0|] eqn:Hs0; simplify_eq/=.
      apply NoDup_set_delete. by eapply Hn. }
    rewrite lookup_alter_ne in Hx by done. by eapply Hn.
Qed.

Lemma removeEdge_edges id g : edges (removeEdge id g) = delete id (edges g).
Proof.
  unfold removeEdge. destruct (edges g !! id) eqn:H; [done|].
  symmetry. by apply delete_id.
Qed.

Lemma removeEdge_vertices id g :
  vertices (removeEdge id g) = vertices g
  ∧ nextVertexId (removeEdge id g) = nextVertexId g
  ∧ nextEdgeId (removeEdge id g) = nextEdgeId g.
Proof. unfold removeEdge. by destruct (edges g !! id). Qed.

Lemma set_delete_idemp x s : set_delete x (set_delete x s) = set_delete x s.
Proof.
  apply set_delete_notin. rewrite elem_of_set_delete. tauto.
Qed.

(** Removing an edge at [id] changes, at the other vertices, only
    whether [id] is a neighbour. *)
Lemma removeEdge_other id i g v :
  (∀ e, edges g !! i = Some e → v1 e = id ∨ v2 e = id) → v ≠ id →
  set_delete id <$> adjacency (removeEdge i g) !! v
  = set_delete id <$> adjacency g !! v.
Proof.
  intros Hinc Hv. unfold removeEdge.
  destruct (edges g !! i) as [e|] eqn:He; [|done]. simpl.
  rewrite !lookup_alter.
  destruct (Hinc e eq_refl) as [H1|H2].
  - rewrite H1. rewrite (decide_False (P := id = v)) by done.
    case_decide as Hv2; [|done]. subst v.
    case_decide; [done|].
    destruct (adjacency g !! v2 e); [|done]. simpl. by rewrite set_delete_idemp.
  - rewrite H2. rewrite (decide_False (P := id = v)) by done.
    case_decide as Hv1; [|done]. subst v.
    destruct (adjacency g !! v1 e); [|done]. simpl. by rewrite set_delete_idemp.
Qed.

Lemma removeEdges_spec id l g :
  graph_wf g →
  (∀ i e, i ∈ l → edges g !! i = Some e → v1 e = id ∨ v2 e = id) →
  let g1 := foldl (λ g edgeId, removeEdge edgeId g) g l in
  graph_wf g1
  ∧ vertices g1 = vertices g
  ∧ nextVertexId g1 = nextVertexId g ∧ nextEdgeId g1 = nextEdgeId g
  ∧ (∀ i, edges g1 !! i = if decide (i ∈ l) then None else edges g !! i)
  ∧ (∀ v, v ≠ id →
       set_delete id <$> adjacency g1 !! v = set_delete id <$> adjacency g !! v).
Proof.
  revert g. induction l as [|i l IH]; intros g Hwf Hinc; simpl.
  { split_and!; try done. }
  destruct (removeEdge_vertices i g) as (Hv & Hnv & Hne).
  destruct (IH (removeEdge i g)) as (Hwf1 & Hv1 & Hnv1 & Hne1 & He1 & Ha1).
  - by apply removeEdge_wf.
  - intros j e Hj. rewrite removeEdge_edges. intros [_ He]%lookup_delete_Some.
    eapply Hinc; [|done]. set_solver.
  - split_and!; try congruence.
    + intros j. rewrite He1, removeEdge_edges.
      destruct (decide (j = i)) as [->|Hji].
      * rewrite lookup_delete_eq. rewrite (decide_True (P := i ∈ i :: l)) by set_solver.
        by case_decide.
      * rewrite lookup_delete_ne by done.
        repeat case_decide; try done; set_solver.
    + intros v Hv'. rewrite Ha1 by done. apply removeEdge_other; [|done].
      intros e He. eapply Hinc; [|done]. set_solver.
Qed.

(** [removeVertex] takes the vertex out together with the edges at it,
    and keeps the rest as it is. *)
Lemma removeVertex_spec id g :
  graph_wf g →
  let g' := removeVertex id g in
  graph_wf g'
  ∧ vertices g' = delete id (vertices g)
  ∧ (∀ i e, edges g' !! i = Some e
            ↔ edges g !! i = Some e ∧ v1 e ≠ id ∧ v2 e ≠ id)
  ∧ adjacency g' !! id = None
  ∧ (∀ v, v ≠ id →
       adjacency g' !! v = set_delete id <$> adjacency g !! v)
  ∧ nextVertexId g' = nextVertexId g ∧ nextEdgeId g' = nextEdgeId g.
Proof.
  intros Hwf. unfold removeVertex.
  set (l := (filter _ (map_to_list (edges g))).*1).
  assert (Hl : ∀ i, i ∈ l ↔ ∃ e, edges g !! i = Some e ∧ (v1 e = id ∨ v2 e = id)).
  { intros i. unfold l. rewrite list_elem_of_fmap. split.
    - intros ([j e] & -> & [Hinc Hin%elem_of_map_to_list]%list_elem_of_filter).
      by exists e.
    - intros (e & He & Hinc). exists (i, e). split; [done|].
      apply list_elem_of_filter. split; [done|]. by apply elem_of_map_to_list. }
  destruct (removeEdges_spec id l g Hwf) as (Hwf1 & Hv1 & Hnv1 & Hne1 & He1 & Ha1).
  { intros i e Hi He. apply Hl in Hi as (e' & He' & Hinc). congruence. }
  set (g1 := foldl _ g l) in *. clearbody g1. simpl.
  assert (Hedges : ∀ i e, edges g1 !! i = Some e
            ↔ edges g !! i = Some e ∧ v1 e ≠ id ∧ v2 e ≠ id).
  { intros i e. rewrite He1. case_decide as Hi.
    - split; [done|]. intros (He & ? & ?). apply Hl in Hi as (e' & ? & ?).
      simplify_eq. tauto.
    - split; [|tauto]. intros He. split; [done|].
      split; intros Hid; apply Hi, Hl; eauto. }
  assert (Hadj : ∀ v, v ≠ id →
    (set_delete id <$> delete id (adjacency g1)) !! v
    = set_delete id <$> adjacency g !! v).
  { intros v Hv. rewrite lookup_fmap, lookup_delete_ne by done. by apply Ha1. }
  split_and!; try done.
  - destruct Hwf as [Hdom Hv He Hu Ha Hn].
    destruct Hwf1 as [Hdom' Hv' He' Hu' Ha' Hn'].
    split; simpl.
    + intros v. rewrite lookup_fmap, fmap_is_Some.
      destruct (decide (v = id)) as [->|Hne].
      * rewrite !lookup_delete_eq. split; intros [? ?]; done.
      * rewrite !lookup_delete_ne by done. by rewrite Hdom'.
    + intros i v [_ Hi]%lookup_delete_Some. apply Hv'. by rewrite Hv1 in Hi |- *.
    + intros i e Hi. destruct (He' i e Hi) as (? & ? & ? & ? & ?).
      apply Hedges in Hi as (_ & ? & ?).
      rewrite !lookup_delete_is_Some. auto 10.
    + exact Hu'.
    + intros a s b Hs.
      assert (a ≠ id) as Haid.
      { intros ->. by rewrite lookup_fmap, lookup_delete_eq in Hs. }
      rewrite lookup_fmap, lookup_delete_ne in Hs by done.
      destruct (adjacency g1 !! a) as [s1|] eqn:Hs1; simplify_eq/=.
      rewrite elem_of_set_delete, (Ha' a s1 b Hs1). split.
      * intros [? _]. done.
      * intros (i & e & Hi & Hj). split; [eauto|].
        apply Hedges in Hi as (_ & ? & ?). unfold joins in Hj. naive_solver.
    + intros a s Hs.
      assert (a ≠ id) as Haid.
      { intros ->. by rewrite lookup_fmap, lookup_delete_eq in Hs. }
      rewrite lookup_fmap, lookup_delete_ne in Hs by done.
      destruct (adjacency g1 !! a) as [s1|] eqn:Hs1; simplify_eq/=.
      apply NoDup_set_delete. by eapply Hn'.
  - by rewrite Hv1.
  - by rewrite lookup_fmap, lookup_delete_eq.
Qed.

Lemma graph_perform_wf c g : graph_wf g → call_ok c g → graph_wf (graph_perform c g).
Proof.
  intros Hwf Hc. destruct c as [x y|a b|id|id|]; simpl.
  - by apply addVertex_wf.
  - destruct Hc as [Ha Hb].
    destruct (decide (a = b ∨ map_Exists (λ _ e, joins a b e) (edges g))) as [H|H].
    + by rewrite addEdge_refused.
    + destruct (addEdge_new a b g) as (g' & -> & Hwf' & _); auto.
  - by apply removeEdge_wf.
  - by apply removeVertex_spec.
  - apply empty_graph_wf.
Qed.

Lemma edited_wf g : edited g → graph_wf g.
Proof. induction 1; [apply empty_graph_wf|by apply graph_perform_wf]. Qed.

Lemma wf_neighbors g a b :
  graph_wf g → b ∈ getNeighbors g (Num a) →
  a ≠ b ∧ a ∈ getNeighbors g (Num b)
  ∧ is_Some (vertices g !! a) ∧ is_Some (vertices g !! b).
Proof.
  intros [Hdom Hv He Hu Ha Hn] Hb. simpl in Hb.
  destruct (adjacency g !! a) as [s|] eqn:Hs; [|by apply elem_of_nil in Hb].
  simpl in Hb. apply (Ha a s b Hs) in Hb as (i & e & Hi & Hj).
  destruct (He i e Hi) as (_ & _ & Hne & H1 & H2).
  assert (is_Some (vertices g !! a) ∧ is_Some (vertices g !! b)) as [Hva Hvb].
  { destruct Hj as [[<- <-]|[<- <-]]; done. }
  split; [destruct Hj as [[<- <-]|[<- <-]]; done|].
  split; [|done]. simpl.
  destruct (proj2 (Hdom b) Hvb) as [sb Hsb]. rewrite Hsb. simpl.
  apply (Ha b sb a Hsb). exists i, e. split; [done|]. by apply joins_sym.
Qed.

Lemma edited_calls cs g :
  edited g → calls_ok cs g → edited (graph_perform_all cs g).
Proof.
  revert g. induction cs as [|c cs IH]; intros g Hg Hok; [done|].
  destruct Hok as [Hc Hcs]. apply (IH (graph_perform c g)); [|done].
  by apply edited_call.
Qed.

(** The [paper] preset is what [loadExample] builds. *)
Lemma paper_graph_calls : graph_perform_all paper_calls empty_graph = paper_graph.
Proof. vm_compute. reflexivity. Qed.

Lemma paper_graph_edited : edited paper_graph.
Proof.
  rewrite <- paper_graph_calls. apply edited_calls; [apply edited_new|].
  vm_compute. repeat split; eexists; reflexivity.
Qed.

(** X1: in every graph the editor can build, from the empty graph by
    [addVertex], [addEdge] between two vertices, [removeEdge],
    [removeVertex] and [clear], the neighbour sets describe an
    undirected simple graph: a neighbour of a vertex is another vertex,
    it has the vertex among its own neighbours, and no neighbour is
    listed twice. *)
Theorem editor_graph_undirected (g : Graph) :
  edited g →
  ∀ a, NoDup (getNeighbors g (Num a))
       ∧ ∀ b, b ∈ getNeighbors g (Num a) →
              a ≠ b ∧ a ∈ getNeighbors g (Num b)
              ∧ is_Some (vertices g !! a) ∧ is_Some (vertices g !! b).
Proof.
  intros Hwf%edited_wf a. split; [|intros b; by apply wf_neighbors].
  simpl. destruct (adjacency g !! a) as [s|] eqn:Hs; simpl; [|apply NoDup_nil_2].
  by eapply gw_nodup.
Qed.

(** In the [paper] preset d is a neighbour of a, and a of d. *)
Lemma editor_graph_undirected_witness :
  edited paper_graph
  ∧ 3 ∈ getNeighbors paper_graph (Num 0)
  ∧ 0 ∈ getNeighbors paper_graph (Num 3).
Proof.
  assert (H3 : 3 ∈ getNeighbors paper_graph (Num 0)).
  { vm_compute. apply list_elem_of_further, list_elem_of_here. }
  split; [exact paper_graph_edited|]. split; [exact H3|].
  exact (proj1 (proj2 (proj2 (editor_graph_undirected paper_graph
                                paper_graph_edited 0) 3 H3))).
Defined.

(** X2: on a well-formed graph, [addEdge(a, b)] between two vertices
    returns [null] and leaves the graph as it is when [a] is [b] or an
    edge already joins them, in either direction; otherwise it returns
    the next edge id, stores the edge under it, appends [b] to the
    neighbours of [a] and [a] to the neighbours of [b], and leaves the
    graph well formed and everything else unchanged. *)
Theorem addEdge_contract (g : Graph) (a b : nat) :
  graph_wf g → is_Some (vertices g !! a) → is_Some (vertices g !! b) →
  (a = b ∨ map_Exists (λ _ e, joins a b e) (edges g) →
   addEdge a b g = (Val None, g))
  ∧ (a ≠ b → ¬ map_Exists (λ _ e, joins a b e) (edges g) →
     ∃ g', addEdge a b g = (Val (Some (nextEdgeId g)), g')
           ∧ graph_wf g'
           ∧ vertices g' = vertices g
           ∧ edges g' = <[nextEdgeId g := mkEdge (nextEdgeId g) a b]> (edges g)
           ∧ getNeighbors g' (Num a) = getNeighbors g (Num a) ++ [b]
           ∧ getNeighbors g' (Num b) = getNeighbors g (Num b) ++ [a]
           ∧ (∀ v, v ≠ a → v ≠ b → adjacency g' !! v = adjacency g !! v)
           ∧ nextVertexId g' = nextVertexId g
           ∧ nextEdgeId g' = S (nextEdgeId g)).
Proof.
  intros Hwf Ha Hb. split; [apply addEdge_refused|].
  intros Hab Hnew. by apply addEdge_new.
Qed.

(** On the [paper] preset a second edge between a and b is refused,
    in both directions. *)
Lemma addEdge_contract_witness :
  addEdge 0 1 paper_graph = (Val None, paper_graph)
  ∧ addEdge 1 0 paper_graph = (Val None, paper_graph).
Proof.
  assert (Hwf : graph_wf paper_graph) by exact (edited_wf _ paper_graph_edited).
  split.
  - apply (addEdge_contract paper_graph 0 1 Hwf); [by eexists|by eexists|].
    right. exists 0, (mkEdge 0 0 1). split; [reflexivity|]. left. split; reflexivity.
  - apply (addEdge_contract paper_graph 1 0 Hwf); [by eexists|by eexists|].
    right. exists 0, (mkEdge 0 0 1). split; [reflexivity|]. right. split; reflexivity.
Defined.

(** X3: [addEdge(a, b)] with an endpoint that has no neighbour set
    throws a [TypeError] only after the edge has been stored and the
    edge counter advanced: the graph it leaves holds an edge to
    something that is not a vertex, and is not well formed any more. *)
Theorem addEdge_missing_vertex (g : Graph) (a b : nat) :
  graph_wf g → a ≠ b →
  adjacency g !! a = None ∨ adjacency g !! b = None →
  ∃ g', addEdge a b g = (Throw TypeError, g')
        ∧ edges g' !! nextEdgeId g = Some (mkEdge (nextEdgeId g) a b)
        ∧ nextEdgeId g' = S (nextEdgeId g)
        ∧ ¬ graph_wf g'.
Proof.
  intros Hwf Hab Hmiss.
  assert (Hnew : ¬ map_Exists (λ _ e, joins a b e) (edges g)).
  { intros (i & e & Hi & Hj).
    destruct (gw_edge _ Hwf i e Hi) as (_ & _ & _ & H1 & H2).
    apply (gw_dom _ Hwf) in H1 as [s1 H1]. apply (gw_dom _ Hwf) in H2 as [s2 H2].
    destruct Hj as [[<- <-]|[<- <-]]; destruct Hmiss; congruence. }
  unfold addEdge. rewrite decide_False by done. rewrite decide_False by done.
  simpl.
  destruct (adjacency g !! a) as [sa|] eqn:Hsa.
  - destruct Hmiss as [?|Hb]; [done|]. simpl. rewrite lookup_insert_ne by done.
    rewrite Hb. eexists. split; [done|]. simpl. rewrite lookup_insert_eq.
    split_and!; try done. intros Hwf'.
    destruct (gw_edge _ Hwf' (nextEdgeId g) (mkEdge (nextEdgeId g) a b))
      as (_ & _ & _ & _ & H2); [simpl; by rewrite lookup_insert_eq|].
    apply (gw_dom _ Hwf') in H2 as [s2 H2]. simpl in H2.
    rewrite lookup_insert_ne in H2 by done. congruence.
  - eexists. split; [done|]. simpl. rewrite lookup_insert_eq.
    split_and!; try done. intros Hwf'.
    destruct (gw_edge _ Hwf' (nextEdgeId g) (mkEdge (nextEdgeId g) a b))
      as (_ & _ & _ & H1 & _); [simpl; by rewrite lookup_insert_eq|].
    apply (gw_dom _ Hwf') in H1 as [s1 H1]. simpl in H1. congruence.
Qed.

(** On the empty graph, [addEdge(0, 1)] throws. *)
Lemma addEdge_missing_vertex_witness :
  ∃ g', addEdge 0 1 empty_graph = (Throw TypeError, g')
        ∧ edges g' !! 0 = Some (mkEdge 0 0 1)
        ∧ nextEdgeId g' = 1
        ∧ ¬ graph_wf g'.
Proof.
  apply (addEdge_missing_vertex empty_graph 0 1 empty_graph_wf).
  - discriminate.
  - left. reflexivity.
Defined.

(** The result of [removeVertex] does not depend on the order in which
    the edges at the vertex are removed. *)
Lemma removeVertex_any_order id g l :
  graph_wf g →
  l ≡ₚ (filter (λ p, v1 p.2 = id ∨ v2 p.2 = id) (map_to_list (edges g))).*1 →
  let g1 := foldl (λ g edgeId, removeEdge edgeId g) g l in
  mkGraph (delete id (vertices g1)) (edges g1)
    (set_delete id <$> delete id (adjacency g1))
    (nextVertexId g1) (nextEdgeId g1)
  = removeVertex id g.
Proof.
  intros Hwf Hperm. unfold removeVertex.
  set (l0 := (filter _ (map_to_list (edges g))).*1) in *.
  assert (Hl0 : ∀ i e, i ∈ l0 → edges g !! i = Some e → v1 e = id ∨ v2 e = id).
  { intros i e Hi He. unfold l0 in Hi. apply list_elem_of_fmap in Hi
      as ([j e'] & -> & [Hinc Hin%elem_of_map_to_list]%list_elem_of_filter).
    simpl in *. congruence. }
  destruct (removeEdges_spec id l0 g Hwf Hl0) as (_ & Hv0 & Hnv0 & Hne0 & He0 & Ha0).
  destruct (removeEdges_spec id l g Hwf) as (_ & Hv1 & Hnv1 & Hne1 & He1 & Ha1).
  { intros i e Hi. apply Hl0. by rewrite <- Hperm. }
  simpl. f_equal; try congruence.
  - apply map_eq. intros i. rewrite He0, He1.
    destruct (decide (i ∈ l)) as [Hi|Hi]; rewrite Hperm in Hi.
    + by rewrite decide_True.
    + by rewrite decide_False.
  - apply map_eq. intros v. rewrite !lookup_fmap.
    destruct (decide (v = id)) as [->|Hv]; [by rewrite !lookup_delete_eq|].
    rewrite !lookup_delete_ne by done. by rewrite Ha0, Ha1.
Qed.

(** X4: on a well-formed graph, [removeVertex(id)] removes the vertex,
    its neighbour set, every edge at it and every mention of it in the
    other neighbour sets, whose order is kept; the other vertices and
    edges and the two id counters stay, and the graph is well formed.
    The order in which the edges at the vertex are removed does not
    matter. *)
Theorem removeVertex_contract (g : Graph) (id : nat) :
  graph_wf g →
  graph_wf (removeVertex id g)
  ∧ vertices (removeVertex id g) = delete id (vertices g)
  ∧ (∀ i e, edges (removeVertex id g) !! i = Some e
            ↔ edges g !! i = Some e ∧ v1 e ≠ id ∧ v2 e ≠ id)
  ∧ getNeighbors (removeVertex id g) (Num id) = []
  ∧ (∀ v, v ≠ id →
       getNeighbors (removeVertex id g) (Num v)
       = set_delete id (getNeighbors g (Num v)))
  ∧ nextVertexId (removeVertex id g) = nextVertexId g
  ∧ nextEdgeId (removeVertex id g) = nextEdgeId g
  ∧ ∀ l,
      l ≡ₚ (filter (λ p, v1 p.2 = id ∨ v2 p.2 = id) (map_to_list (edges g))).*1 →
      let g1 := foldl (λ g edgeId, removeEdge edgeId g) g l in
      mkGraph (delete id (vertices g1)) (edges g1)
        (set_delete id <$> delete id (adjacency g1))
        (nextVertexId g1) (nextEdgeId g1)
      = removeVertex id g.
Proof.
  intros Hwf.
  destruct (removeVertex_spec id g Hwf) as (Hwf' & Hv & He & Hid & Hadj & Hnv & Hne).
  split_and!; try done.
  - unfold getNeighbors. by rewrite Hid.
  - intros v Hvid. unfold getNeighbors. rewrite Hadj by done.
    by destruct (adjacency g !! v).
  - intros l Hl. by apply removeVertex_any_order.
Qed.

(** Removing b from the [paper] preset leaves d as the only neighbour
    of a and isolates c. *)
Lemma removeVertex_contract_witness :
  graph_wf (removeVertex 1 paper_graph)
  ∧ getNeighbors (removeVertex 1 paper_graph) (Num 0) = [3]
  ∧ getNeighbors (removeVertex 1 paper_graph) (Num 2) = [].
Proof.
  destruct (removeVertex_contract paper_graph 1 (edited_wf _ paper_graph_edited))
    as (Hwf & _ & _ & _ & Hn & _).
  split; [exact Hwf|]. split.
  - rewrite (Hn 0) by discriminate. vm_compute. reflexivity.
  - rewrite (Hn 2) by discriminate. vm_compute. reflexivity.
Defined.

(** X5: adding an edge and removing it again, under the id that
    [addEdge] returned, gives back the vertices, the edges and the
    neighbour sets of a well-formed graph, neighbour order included;
    only the edge counter has moved on, so the id is not given out
    again. *)
Theorem addEdge_removeEdge (g g' : Graph) (a b id : nat) :
  graph_wf g →
  addEdge a b g = (Val (Some id), g') →
  removeEdge id g'
  = mkGraph (vertices g) (edges g) (adjacency g) (nextVertexId g) (S (nextEdgeId g))
    ∧ id = nextEdgeId g.
Proof.
  intros Hwf Hadd. unfold addEdge in Hadd.
  case_decide as Hab; [done|]. case_decide as Hnew; [done|]. simpl in Hadd.
  destruct (adjacency g !! a) as [sa|] eqn:Hsa; [|done]. simpl in Hadd.
  rewrite lookup_insert_ne in Hadd by done.
  destruct (adjacency g !! b) as [sb|] eqn:Hsb; [|done].
  injection Hadd as <- <-. split; [|done].
  assert (Hfresh : edges g !! nextEdgeId g = None).
  { apply eq_None_not_Some. intros [e Hi].
    destruct (gw_edge _ Hwf _ _ Hi) as (_ & ? & _). lia. }
  assert (Hba : b ∉ sa).
  { intros Hin. apply Hnew. apply (gw_adjacent _ Hwf a sa b Hsa) in Hin
      as (i & e & Hi & Hj). by exists i, e. }
  assert (Hab' : a ∉ sb).
  { intros Hin. apply Hnew. apply (gw_adjacent _ Hwf b sb a Hsb) in Hin
      as (i & e & Hi & Hj). exists i, e. split; [done|]. by apply joins_sym. }
  unfold removeEdge. simpl. rewrite lookup_insert_eq. simpl. f_equal.
  - by rewrite delete_insert_eq, delete_id.
  - apply map_eq. intros v. rewrite !lookup_alter.
    destruct (decide (b = v)) as [<-|Hbv].
    + rewrite decide_False by done. rewrite lookup_insert_eq. simpl.
      by rewrite set_delete_add, Hsb.
    + destruct (decide (a = v)) as [<-|Hav].
      * rewrite lookup_insert_ne, lookup_insert_eq by done. simpl.
        by rewrite set_delete_add, Hsa.
      * by rewrite !lookup_insert_ne by done.
Qed.

(** On the [paper] preset: an edge between c and d, added and removed. *)
Lemma addEdge_removeEdge_witness :
  removeEdge 3 (addEdge 2 3 paper_graph).2
  = mkGraph (vertices paper_graph) (edges paper_graph) (adjacency paper_graph) 4 4.
Proof.
  apply (addEdge_removeEdge paper_graph (addEdge 2 3 paper_graph).2 2 3 3).
  - exact (edited_wf _ paper_graph_edited).
  - vm_compute. reflexivity.
Defined.

(** ** Distances in an undirected graph *)

(** Only vertex ids have neighbours. *)
Lemma getNeighbors_Num g v w : w ∈ getNeighbors g v → ∃ n, v = Num n.
Proof. destruct v; simpl; [by intros ?%elem_of_nil..|eauto]. Qed.

(** A walk, extended at its start. *)
Lemma walk_cons g a a' n v :
  a' ∈ getNeighbors g (Num a) → walk g (Num a') n v → walk g (Num a) (S n) v.
Proof.
  intros Ha Hw. induction Hw as [|n v w Hw IH Hin].
  - apply (walk_step g (Num a) 0 (Num a) a'); [constructor|done].
  - by eapply walk_step.
Qed.

Lemma walk_reverse g a b n :
  graph_wf g → walk g (Num a) n (Num b) → walk g (Num b) n (Num a).
Proof.
  intros Hwf. revert b. induction n as [|n IH]; intros b Hw.
  - inversion Hw; subst. constructor.
  - inversion Hw as [|n' v w Hw' Hin]; subst.
    destruct (getNeighbors_Num _ _ _ Hin) as [v' ->].
    destruct (wf_neighbors g v' b Hwf Hin) as (_ & Hback & _).
    eapply walk_cons; [exact Hback|]. by apply IH.
Qed.

(** X6: in a well-formed graph, so in every graph the editor builds,
    [getDistance] is symmetric on vertex ids, [Infinity] included. *)
Theorem getDistance_symmetric (g : Graph) (a b : nat) :
  graph_wf g →
  getDistance g (Num a) (Num b) = getDistance g (Num b) (Num a).
Proof.
  intros Hwf. destruct (decide (a = b)) as [->|Hab]; [done|].
  assert (Hne : Num a ≠ Num b) by congruence.
  assert (Hne' : Num b ≠ Num a) by congruence.
  pose proof (getDistance_bfs g (Num a) (Num b) Hne) as Hd.
  pose proof (getDistance_bfs g (Num b) (Num a) Hne') as Hd'.
  destruct (getDistance g (Num a) (Num b)) as [d|],
           (getDistance g (Num b) (Num a)) as [d'|]; simpl in *.
  - destruct Hd as [Hw Hmin]; [done..|]. destruct Hd' as [Hw' Hmin']; [done..|].
    f_equal. apply walk_reverse in Hw; [|done]. apply walk_reverse in Hw'; [|done].
    specialize (Hmin _ Hw'). specialize (Hmin' _ Hw). lia.
  - destruct Hd as [Hw _]; [done..|]. apply walk_reverse in Hw; [|done].
    exfalso. by eapply Hd'.
  - destruct Hd' as [Hw' _]; [done..|]. apply walk_reverse in Hw'; [|done].
    exfalso. by eapply Hd.
  - done.
Qed.

(** In the [paper] preset d and c are three hops apart, both ways. *)
Lemma getDistance_symmetric_witness :
  getDistance paper_graph (Num 3) (Num 2) = Hops 3
  ∧ getDistance paper_graph (Num 2) (Num 3) = Hops 3.
Proof.
  assert (H : getDistance paper_graph (Num 3) (Num 2) = Hops 3)
    by (vm_compute; reflexivity).
  split; [exact H|].
  rewrite <- (getDistance_symmetric paper_graph 3 2 (edited_wf _ paper_graph_edited)).
  exact H.
Defined.


    

(** ** Agent management *)

Lemma reassign_ids_wf agents : ids_wf (reassign_ids agents).
Proof.
  unfold ids_wf, reassign_ids. rewrite length_imap.
  apply list_eq. intros i. rewrite list_lookup_fmap, list_lookup_imap.
  destruct (agents !! i) as [a|] eqn:Ha; simpl.
  - symmetry. apply lookup_seq. split; [done|]. by eapply lookup_lt_Some.
  - symmetry. apply lookup_seq_ge. by apply lookup_ge_None.
Qed.

Lemma ids_wf_insert agents i a a' :
  ids_wf agents → agents !! i = Some a → aid a' = aid a →
  ids_wf (<[i := a']> agents).
Proof.
  unfold ids_wf. intros Hwf Hi Ha. rewrite length_insert, <- Hwf.
  rewrite list_fmap_insert. apply list_insert_id.
  by rewrite list_lookup_fmap, Hi, Ha.
Qed.

Lemma loadExample_cases name app :
  ∃ g ags,
    loadExample name app = (Val tt, (g, mkAgentList ags (Some 0)))
    ∧ (name ∈ presets → ∃ s0 g0 s1 g1, ags = [mkAgent 0 (Num s0) (Num g0); mkAgent 1 (Num s1) (Num g1)])
    ∧ (name ∉ presets → ags = [] ∧ g = clear app.1).
Proof.
  unfold loadExample, presets. destruct app as [g0 st]. simpl.
  repeat case_decide; subst.
  - eexists _, _. split; [vm_compute; reflexivity|]. split; [eauto 10|]. set_solver.
  - eexists _, _. split; [vm_compute; reflexivity|]. split; [eauto 10|]. set_solver.
  - eexists _, _. split; [vm_compute; reflexivity|]. split; [eauto 10|]. set_solver.
  - eexists _, _. split; [vm_compute; reflexivity|]. split; [eauto 10|]. set_solver.
  - eexists _, _. split; [reflexivity|]. split; [set_solver|done].
Qed.

(** [loadExample] starts from the cleared graph and the empty agent
    list, whatever the application held before. *)
Lemma loadExample_from name app app' :
  loadExample name app = loadExample name app'.
Proof. done. Qed.

(** The graph and the agents of the [paper] preset are what
    [loadExample('paper')] builds. *)
Lemma loadExample_paper app :
  loadExample "paper" app = (Val tt, (paper_graph, mkAgentList paper_agents (Some 0))).
Proof. rewrite (loadExample_from _ app (empty_graph, clear_agents)). vm_compute. reflexivity. Qed.

Record agents_inv (st : AgentList) : Prop := {
  ai_ids : ids_wf (app_agents st);
  ai_selected : selection_ok st ∨ no_agent_selected st;
  ai_places : ∀ a, a ∈ app_agents st →
    (start a = Null ∨ ∃ v, start a = Num v) ∧ (goal a = Null ∨ ∃ v, goal a = Num v)
}.

Lemma selection_ok_not_none st : selection_ok st → ¬ no_agent_selected st.
Proof. intros Hsel [Hnil Hs]. specialize (Hsel 0 Hs). rewrite Hnil in Hsel. simpl in Hsel. lia. Qed.

Lemma agent_perform_selection c st :
  ids_wf (app_agents st) → agent_call_ok c st → selection_ok st →
  (∀ name, c = LoadExample name → name ∈ presets) →
  selection_ok (agent_perform c st).
Proof.
  intros Hids Hc Hsel Hname.
  destruct c as [| |id|v|v| |name]; simpl.
  - unfold selection_ok, addAgent. simpl. intros i [= <-]. rewrite length_app. simpl. lia.
  - unfold removeSelectedAgent. destruct (selectedAgent st) as [sel|] eqn:Hs; [|done].
    case_decide; [|done]. intros i. simpl. case_decide; [|done]. by intros [= <-].
  - intros i [= <-]. simpl.
    simpl in Hc. apply list_elem_of_fmap in Hc as (a & -> & Ha).
    apply list_elem_of_lookup in Ha as [j Hj].
    pose proof (ids_wf_lookup _ _ _ Hids Hj) as ->. by eapply lookup_lt_Some.
  - unfold setStart. destruct (selectedAgent st) as [sel|] eqn:Hs; [|done].
    destruct (app_agents st !! sel) as [a|] eqn:Ha; [|done].
    intros i Hi. simpl in *. rewrite length_insert. apply Hsel. congruence.
  - unfold setGoal. destruct (selectedAgent st) as [sel|] eqn:Hs; [|done].
    destruct (app_agents st !! sel) as [a|] eqn:Ha; [|done].
    intros i Hi. simpl in *. rewrite length_insert. apply Hsel. congruence.
  - by intros i.
  - destruct (loadExample_cases name (empty_graph, st)) as (g & ags & -> & Hp & _).
    destruct (Hp (Hname _ eq_refl)) as (? & ? & ? & ? & ->).
    intros i [= <-]. simpl. lia.
Qed.

Lemma agent_perform_inv c st :
  agents_inv st → agent_call_ok c st → agents_inv (agent_perform c st).
Proof.
  intros Hinv Hc. pose proof Hinv as [Hids Hsel Hpl].
  assert (Hkeep : ∀ name, c = LoadExample name → name ∈ presets →
                  selection_ok st → selection_ok (agent_perform c st)).
  { intros name -> Hn Hs. apply agent_perform_selection; try done.
    by intros ? [= <-]. }
  destruct c as [| |id|v|v| |name]; simpl.
  - split; simpl.
    + unfold ids_wf in *. rewrite fmap_app, length_app, seq_app, Hids. done.
    + left. unfold selection_ok. simpl. intros i [= <-]. rewrite length_app. simpl. lia.
    + intros a [Ha| ->%list_elem_of_singleton]%elem_of_app; [by apply Hpl|].
      simpl. auto.
  - unfold removeSelectedAgent. destruct (selectedAgent st) as [sel|]; [|done].
    case_decide; [|done]. split; simpl.
    + apply reassign_ids_wf.
    + left. unfold selection_ok. simpl. intros i. case_decide; [|done]. by intros [= <-].
    + intros a. unfold reassign_ids. intros Ha.
      apply list_elem_of_lookup in Ha as [i Ha]. rewrite list_lookup_imap in Ha.
      destruct (delete sel (app_agents st) !! i) as [a0|] eqn:Ha0; simplify_eq/=.
      apply Hpl. apply list_elem_of_lookup_2 in Ha0.
      by eapply list_elem_of_delete_inv.
  - split; simpl; [done| |done]. left.
    apply (agent_perform_selection (SelectAgent id) st); try done.
    + intros i Hi. simpl in Hc. apply list_elem_of_fmap in Hc as (a & _ & Ha).
      destruct Hsel as [Hsel|[Hnil _]]; [by apply Hsel|].
      rewrite Hnil in Ha. by apply elem_of_nil in Ha.
  - unfold setStart. destruct (selectedAgent st) as [sel|] eqn:Hs; [|done].
    destruct (app_agents st !! sel) as [a|] eqn:Ha; [|done]. split; simpl.
    + by eapply ids_wf_insert.
    + left. unfold selection_ok. simpl. intros i [= <-]. rewrite length_insert. by eapply lookup_lt_Some.
    + intros a' Ha'. apply list_elem_of_lookup in Ha' as [i Hi].
      destruct (decide (i = sel)) as [->|Hne].
      * rewrite list_lookup_insert_eq in Hi by (by eapply lookup_lt_Some).
        simplify_eq/=. split; [eauto|]. apply Hpl. by eapply list_elem_of_lookup_2.
      * rewrite list_lookup_insert_ne in Hi by done.
        apply Hpl. by eapply list_elem_of_lookup_2.
  - unfold setGoal. destruct (selectedAgent st) as [sel|] eqn:Hs; [|done].
    destruct (app_agents st !! sel) as [a|] eqn:Ha; [|done]. split; simpl.
    + by eapply ids_wf_insert.
    + left. unfold selection_ok. simpl. intros i [= <-]. rewrite length_insert. by eapply lookup_lt_Some.
    + intros a' Ha'. apply list_elem_of_lookup in Ha' as [i Hi].
      destruct (decide (i = sel)) as [->|Hne].
      * rewrite list_lookup_insert_eq in Hi by (by eapply lookup_lt_Some).
        simplify_eq/=. split; [|eauto]. apply Hpl. by eapply list_elem_of_lookup_2.
      * rewrite list_lookup_insert_ne in Hi by done.
        apply Hpl. by eapply list_elem_of_lookup_2.
  - split; simpl; [done| |]; [by left|]. by intros a ?%elem_of_nil.
  - destruct (loadExample_cases name (empty_graph, st)) as (g & ags & -> & Hp & Hn).
    destruct (decide (name ∈ presets)) as [Hin|Hin].
    + destruct (Hp Hin) as (s0 & g0 & s1 & g1 & ->). split; simpl.
      * done.
      * left. unfold selection_ok. simpl. intros i [= <-]. lia.
      * intros a Ha. set_unfold. destruct Ha as [->|[->|[]]]; simpl; split; eauto.
    + destruct (Hn Hin) as [-> _]. split; simpl.
      * done.
      * by right.
      * by intros a ?%elem_of_nil.
Qed.

Lemma agents_reachable_inv st : agents_reachable st → agents_inv st.
Proof.
  induction 1 as [|st c Hr IH Hc]; [|by apply agent_perform_inv].
  split; simpl; [done|by left|]. by intros a ?%elem_of_nil.
Qed.

(** X7: the agent list of the application, after any sequence of
    [addAgent], [removeSelectedAgent], [selectAgent] of a listed agent,
    start and goal clicks, [clearGraph] and [loadExample] with any
    name, numbers the agents by their position, [0 .. N-1]. The
    selected index, when there is one, is the position of an agent,
    and then setting a start or a goal returns; the one exception is
    the state that [loadExample] leaves for a name that is none of the
    four presets, with no agent and index 0 selected, where setting a
    start or a goal throws a [TypeError]. No other call leads from a
    selection that is the position of an agent to one that is not. *)
Theorem agent_list_numbered (st : AgentList) :
  agents_reachable st →
  ids_wf (app_agents st)
  ∧ (selection_ok st ∨ no_agent_selected st)
  ∧ (selection_ok st →
     ∀ v, (setStart v st).1 = Val tt ∧ (setGoal v st).1 = Val tt)
  ∧ (no_agent_selected st →
     ∀ v, (setStart v st).1 = Throw TypeError ∧ (setGoal v st).1 = Throw TypeError)
  ∧ (∀ c, agent_call_ok c st → selection_ok st →
          (∀ name, c = LoadExample name → name ∈ presets) →
          selection_ok (agent_perform c st))
  ∧ (∀ name, name ∉ presets →
             no_agent_selected (agent_perform (LoadExample name) st)).
Proof.
  intros [Hids Hsel _]%agents_reachable_inv. split; [done|]. split; [done|].
  split_and!.
  - intros Hok v. unfold setStart, setGoal.
    destruct (selectedAgent st) as [sel|] eqn:Hs; [|done].
    destruct (lookup_lt_is_Some_2 (app_agents st) sel (Hok _ Hs)) as [a ->].
    done.
  - intros [Hnil Hs] v. unfold setStart, setGoal. by rewrite Hs, Hnil.
  - intros c Hc Hok Hname. by apply agent_perform_selection.
  - intros name Hname. simpl.
    destruct (loadExample_cases name (empty_graph, st)) as (g & ags & -> & _ & Hn).
    destruct (Hn Hname) as [-> _]. done.
Qed.

(** Three agents added and the second one removed: the two that are
    left are numbered 0 and 1, and a start click returns. After
    [loadExample] with a name that is no preset, a start click
    throws. *)
Lemma agent_list_numbered_witness :
  let st := agent_perform RemoveSelectedAgent
              (agent_perform (SelectAgent 1)
                 (agent_perform AddAgent
                    (agent_perform AddAgent
                       (agent_perform AddAgent clear_agents)))) in
  agents_reachable st ∧ aid <$> app_agents st = [0; 1]
  ∧ (setStart 5 st).1 = Val tt
  ∧ (setStart 5 (agent_perform (LoadExample "maze") st)).1 = Throw TypeError.
Proof.
  intros st.
  assert (Hr : agents_reachable st).
  { unfold st. repeat (apply agents_call); try exact I; try apply agents_new.
    simpl. set_solver. }
  split; [exact Hr|].
  destruct (agent_list_numbered st Hr) as (Hids & _ & Hok & _).
  split; [exact Hids|]. split; [|vm_compute; reflexivity].
  apply Hok. intros i Hi. vm_compute in Hi. injection Hi as <-. vm_compute. lia.
Defined.

Lemma reachable_initialize g ags :
  reachable g ags (exec initialize (construct g ags)).
Proof.
  assert (H : ∀ w, perform Initialize w = exec initialize w) by done.
  rewrite <- H. apply reach_call, reach_new.
Qed.

(** X8: [initAlgorithm] starts the solver only on a graph with at
    least two vertices and a non-empty agent list in which every agent
    has a start and a goal vertex; with the agent list in any state the
    application can reach, the agents handed to the solver are numbered
    by position and the solver is left at step 0 of a running search. *)
Theorem initAlgorithm_validates (g : Graph) (st : AgentList) (w : World) :
  agents_reachable st →
  initAlgorithm g st = Some w →
  2 ≤ size (vertices g)
  ∧ reachable g (app_agents st) w
  ∧ graph w = g ∧ agents w = app_agents st
  ∧ app_agents st ≠ []
  ∧ ids_wf (app_agents st)
  ∧ (∀ a, a ∈ app_agents st → ∃ s t, start a = Num s ∧ goal a = Num t)
  ∧ ∃ s, state w = Some s ∧ status s = running ∧ stepNumber s = 0
         ∧ phase s = ph_select.
Proof.
  intros Hr Hinit. unfold initAlgorithm in Hinit.
  case_decide as Hsize; [done|]. case_decide as Hlen; [done|].
  case_decide as Hnull; [done|]. injection Hinit as <-.
  destruct (agents_reachable_inv st Hr) as [Hids _ Hpl].
  pose proof (reachable_initialize g (app_agents st)) as Hreach.
  destruct (reachable_inputs _ _ _ Hreach) as [Hg Ha].
  split; [lia|]. split; [exact Hreach|]. split; [exact Hg|]. split; [exact Ha|].
  clear Hreach Hg Ha.
  split; [intros Hnil; by rewrite Hnil in Hlen|]. split; [exact Hids|]. split.
  - intros a Ha'. destruct (Hpl a Ha') as [[Hs|[s Hs]] [Ht|[t Ht]]].
    + exfalso. apply Hnull, Exists_exists. eauto.
    + exfalso. apply Hnull, Exists_exists. eauto.
    + exfalso. apply Hnull, Exists_exists. eauto.
    + eauto.
  - destruct (wp_exec _ _ _ (initialize_spec _ (construct_ok g (app_agents st))))
      as (_ & _ & _ & s & _ & _ & _ & _ & Hs & _ & _ & _ & _ & _ & Hstep & Hph
          & Hst & _).
    exists s. split; [exact Hs|]. split; [exact Hst|]. split; [exact Hstep|exact Hph].
Qed.

(** [loadExample('paper')] and then [initAlgorithm]. *)
Lemma initAlgorithm_validates_witness :
  let st := agent_perform (LoadExample "paper") clear_agents in
  ∃ w, initAlgorithm paper_graph st = Some w
       ∧ graph w = paper_graph ∧ agents w = paper_agents.
Proof.
  intros st.
  assert (Hr : agents_reachable st).
  { unfold st. apply agents_call; [apply agents_new|exact I]. }
  assert (Hags : app_agents st = paper_agents) by (vm_compute; reflexivity).
  exists (exec initialize (construct paper_graph (app_agents st))).
  assert (Hinit : initAlgorithm paper_graph st
                  = Some (exec initialize (construct paper_graph (app_agents st)))).
  { unfold initAlgorithm. rewrite decide_False by (vm_compute; lia).
    rewrite decide_False by (vm_compute; lia).
    rewrite decide_False; [done|].
    intros (a & Ha & Hnull)%Exists_exists. rewrite Hags in Ha. set_unfold.
    destruct Ha as [->|[->|[]]]; simpl in Hnull; naive_solver. }
  split; [exact Hinit|].
  destruct (initAlgorithm_validates paper_graph st _ Hr Hinit)
    as (_ & _ & Hg & Ha & _).
  split; [exact Hg|]. exact Ha.
Defined.

(** ** The greedy move *)

Lemma dist_lt_irrefl x : dist_lt x x = false.
Proof. destruct x as [n|]; [|done]. unfold dist_lt. apply bool_decide_eq_false. lia. Qed.

Lemma dist_lt_Infinity x : dist_lt x Infinity = false → x = Infinity.
Proof. by destruct x. Qed.

Lemma dist_lt_zero x : dist_lt x (Hops 0) = false.
Proof. destruct x as [n|]; [|done]. unfold dist_lt. apply bool_decide_eq_false. lia. Qed.

Lemma dist_lt_finite x y : dist_lt x y = true → x ≠ Infinity.
Proof. by destruct x. Qed.

(** Not below the old best, which the new best is below. *)
Lemma dist_lt_lower x y z :
  dist_lt x y = false → dist_lt z y = true → dist_lt x z = false.
Proof.
  destruct x, y, z; unfold dist_lt; try done.
  rewrite !bool_decide_eq_false, bool_decide_eq_true. lia.
Qed.

(** X9: [getBestMove] is greedy. A move it returns is the current
    vertex or a neighbour of it, is not occupied, and no free move is
    closer to the goal; for a vertex id as current vertex it returns
    [null] exactly when the current vertex is occupied and every free
    neighbour is at distance [Infinity] from the goal, even if there
    are free neighbours. *)
Theorem getBestMove_greedy (g : Graph) (current goal : jsval) (occupied : list jsval) :
  let r := getBestMove g current goal occupied in
  let moves := current :: (Num <$> getNeighbors g current) in
  (r ≠ Null →
   r ∈ moves ∧ r ∉ occupied
   ∧ ∀ c, c ∈ moves → c ∉ occupied →
          dist_lt (getDistance g c goal) (getDistance g r goal) = false)
  ∧ (∀ v, current = Num v →
     (r = Null ↔
      current ∈ occupied
      ∧ ∀ n, n ∈ getNeighbors g current → Num n ∉ occupied →
             getDistance g (Num n) goal = Infinity)).
Proof.
  intros r moves. unfold r, getBestMove.
  set (d := λ c, getDistance g c goal).
  case_decide as Hgoal.
  { destruct Hgoal as [-> Hfree]. split.
    - intros _. split; [apply list_elem_of_here|]. split; [done|].
      intros c _ _. unfold getDistance at 2. rewrite decide_True by done.
      apply dist_lt_zero.
    - intros v ->. split; [done|]. intros [? _]. done. }
  set (stay := if decide (current ∈ occupied) then _ else _).
  assert (Hfold : ∀ nbs todo best,
    (best = (Null, Infinity)
     ∨ (best.1 ∈ current :: (Num <$> nbs) ∧ best.1 ∉ occupied ∧ best.2 = d best.1)) →
    (∀ c, c ∈ current :: (Num <$> nbs) → c ∉ occupied → dist_lt (d c) best.2 = false) →
    (best.1 = Null → current ∈ occupied ∨ current = Null) →
    (best = (Null, Infinity) ∨ (best.1 = current ∧ current ∉ occupied)
     ∨ best.2 ≠ Infinity) →
    let b := foldl (try_neighbor g goal occupied) best todo in
    (b = (Null, Infinity)
     ∨ (b.1 ∈ current :: (Num <$> nbs ++ todo) ∧ b.1 ∉ occupied ∧ b.2 = d b.1))
    ∧ (∀ c, c ∈ current :: (Num <$> nbs ++ todo) → c ∉ occupied →
            dist_lt (d c) b.2 = false)
    ∧ (b.1 = Null → current ∈ occupied ∨ current = Null)
    ∧ (b = (Null, Infinity) ∨ (b.1 = current ∧ current ∉ occupied)
       ∨ b.2 ≠ Infinity)).
  { intros nbs todo. revert nbs.
    induction todo as [|n todo IH]; intros nbs best H1 H2 H3 H4; simpl.
    { rewrite app_nil_r. done. }
    replace (nbs ++ n :: todo) with ((nbs ++ [n]) ++ todo) by (by rewrite <- app_assoc).
    apply IH; unfold try_neighbor.
    - case_decide as Hocc.
      + destruct H1 as [?|(? & ? & ?)]; [by left|right]. split; [|done].
        rewrite fmap_app. set_solver.
      + fold (d (Num n)). destruct (dist_lt (d (Num n)) best.2) eqn:Hlt; simpl.
        * right. split; [|done]. rewrite fmap_app. set_solver.
        * destruct H1 as [?|(? & ? & ?)]; [by left|right]. split; [|done].
          rewrite fmap_app. set_solver.
    - intros c Hc Hfree. rewrite fmap_app in Hc. simpl in Hc.
      assert (c ∈ current :: (Num <$> nbs) ∨ c = Num n) as [Hc'| ->] by set_solver.
      + specialize (H2 c Hc' Hfree). case_decide; [done|].
        fold (d (Num n)). destruct (dist_lt (d (Num n)) best.2) eqn:Hlt; simpl; [|done].
        by eapply dist_lt_lower.
      + rewrite decide_False by done.
        fold (d (Num n)). destruct (dist_lt (d (Num n)) best.2) eqn:Hlt; simpl; [|done].
        apply dist_lt_irrefl.
    - case_decide; [done|].
      fold (d (Num n)). destruct (dist_lt (d (Num n)) best.2) eqn:Hlt; simpl; done.
    - case_decide; [done|].
      fold (d (Num n)). destruct (dist_lt (d (Num n)) best.2) eqn:Hlt; simpl; [|done].
      right. right. by eapply dist_lt_finite. }
  destruct (Hfold [] (getNeighbors g current) stay) as (H1 & H2 & H3 & H4).
  { unfold stay. case_decide; [by left|right]. simpl.
    split; [apply list_elem_of_here|]. done. }
  { intros c ->%list_elem_of_singleton Hfree. unfold stay.
    rewrite decide_False by done. apply dist_lt_irrefl. }
  { unfold stay. case_decide; [auto|]. simpl. auto. }
  { unfold stay. case_decide; [auto|]. simpl. auto. }
  simpl in *. set (b := foldl _ stay _) in *. clearbody b. split.
  - intros Hr. destruct H1 as [->|(Hin & Hfree & Hd)]; [done|].
    split; [done|]. split; [done|]. intros c Hc Hcf. fold (d c) (d b.1).
    rewrite <- Hd. by apply H2.
  - intros v ->. split.
    + intros Hnull. destruct (H3 Hnull) as [Hocc|?]; [|done]. split; [done|].
      intros n Hn Hfree. apply dist_lt_Infinity.
      destruct H1 as [->|(Hin & _ & Hd)].
      * apply (H2 (Num n)); [|done]. apply list_elem_of_further.
        apply list_elem_of_fmap. eauto.
      * exfalso. rewrite Hnull in Hin.
        apply elem_of_cons in Hin as [?|Hin]; [done|].
        apply list_elem_of_fmap in Hin as (? & ? & _). done.
    + intros [Hocc Hinf]. destruct H1 as [->|(Hin & Hfree & Hd)]; [done|].
      exfalso. apply elem_of_cons in Hin as [Heq|Hin]; [congruence|].
      apply list_elem_of_fmap in Hin as (n & Hbn & Hn).
      rewrite Hbn in Hfree. specialize (Hinf n Hn Hfree).
      destruct H4 as [->|[[Heq _]|Hfin]]; [done|congruence|].
      apply Hfin. rewrite Hd, Hbn. exact Hinf.
Qed.

(** ** Configurations and their hashes *)

Lemma comma_free_String c s : comma_free (String c s) ↔ c ≠ comma ∧ comma_free s.
Proof. done. Qed.

Lemma pretty_N_char_no_comma x : pretty_N_char x ≠ comma.
Proof. unfold pretty_N_char. by repeat case_match. Qed.

Lemma pretty_N_go_comma_free x s : comma_free s → comma_free (pretty_N_go x s).
Proof.
  revert s. induction (N.lt_wf_0 x) as [x _ IH]; intros s Hs.
  assert (x = 0 ∨ 0 < x)%N as [->|?] by lia.
  - by rewrite pretty_N_go_0.
  - rewrite pretty_N_go_step by done. apply IH.
    + by apply N.div_lt.
    + apply comma_free_String. split; [apply pretty_N_char_no_comma|done].
Qed.

Lemma pretty_N_go_keeps x s : s ≠ EmptyString → pretty_N_go x s ≠ EmptyString.
Proof.
  revert s. induction (N.lt_wf_0 x) as [x _ IH]; intros s Hs.
  assert (x = 0 ∨ 0 < x)%N as [->|?] by lia.
  - by rewrite pretty_N_go_0.
  - rewrite pretty_N_go_step by done. apply IH; [by apply N.div_lt|done].
Qed.

Lemma pretty_N_go_nonempty x s : (0 < x)%N → pretty_N_go x s ≠ EmptyString.
Proof.
  intros Hx. rewrite pretty_N_go_step by done. by apply pretty_N_go_keeps.
Qed.

Lemma pretty_nat_comma_free (n : nat) : comma_free (pretty n).
Proof.
  unfold pretty, pretty_nat, pretty, pretty_N. case_decide.
  - done.
  - by apply pretty_N_go_comma_free.
Qed.

Lemma pretty_nat_nonempty (n : nat) : pretty n ≠ EmptyString.
Proof.
  unfold pretty, pretty_nat, pretty, pretty_N. case_decide; [done|].
  apply pretty_N_go_nonempty. lia.
Qed.

(** What [join] prints for an entry that is [null] or a vertex id. *)
Lemma jsval_to_string_comma_free v : comma_free (jsval_to_string v).
Proof. destruct v; simpl; [done..|apply pretty_nat_comma_free]. Qed.

Lemma jsval_to_string_inj v w :
  v ≠ Undefined → w ≠ Undefined →
  jsval_to_string v = jsval_to_string w → v = w.
Proof.
  intros Hv Hw. destruct v as [| |n], w as [| |m]; simpl; try done.
  - intros H. symmetry in H. by apply pretty_nat_nonempty in H.
  - intros H. by apply pretty_nat_nonempty in H.
  - intros H. f_equal. by apply (inj pretty).
Qed.

(** Two strings that agree up to their first comma. *)
Lemma comma_split s1 s2 r1 r2 :
  comma_free s1 → comma_free s2 →
  (s1 +:+ String comma r1 = s2 +:+ String comma r2) → s1 = s2 ∧ r1 = r2.
Proof.
  revert s2. induction s1 as [|c s1 IH]; intros [|c' s2] H1 H2 Heq; simpl in *.
  - by injection Heq as ->.
  - injection Heq as <- _. by destruct H2.
  - injection Heq as -> _. by destruct H1.
  - injection Heq as -> Heq. destruct H1 as [_ H1], H2 as [_ H2].
    destruct (IH s2 H1 H2 Heq) as [-> ->]. done.
Qed.

Lemma concat_inj (l1 l2 : list string) :
  Forall comma_free l1 → Forall comma_free l2 → length l1 = length l2 →
  String.concat "," l1 = String.concat "," l2 → l1 = l2.
Proof.
  revert l2. induction l1 as [|x [|x' l1] IH]; intros [|y [|y' l2]] H1 H2 Hlen Heq;
    simpl in *; try done.
  - by rewrite Heq.
  - apply Forall_cons in H1 as [Hx H1]. apply Forall_cons in H2 as [Hy H2].
    change (x +:+ String comma (String.concat "," (x' :: l1))
            = y +:+ String comma (String.concat "," (y' :: l2))) in Heq.
    destruct (comma_split _ _ _ _ Hx Hy Heq) as [-> Hrest].
    f_equal. apply IH; [done|done|simpl; lia|done].
Qed.

Lemma hash_inj (c1 c2 : Configuration) :
  Undefined ∉ locations c1 → Undefined ∉ locations c2 →
  length (locations c1) = length (locations c2) →
  hash c1 = hash c2 → c1 = c2.
Proof.
  destruct c1 as [l1], c2 as [l2]. simpl. intros H1 H2 Hlen Heq. f_equal.
  apply concat_inj in Heq.
  - revert l2 H2 Hlen Heq. induction l1 as [|v l1 IH]; intros [|w l2] H2 Hlen Heq;
      simpl in *; try done.
    injection Heq as Hvw Heq. f_equal.
    + apply jsval_to_string_inj; [set_solver|set_solver|done].
    + apply IH; [set_solver|set_solver|lia|done].
  - apply Forall_fmap, Forall_forall. intros v _. apply jsval_to_string_comma_free.
  - apply Forall_fmap, Forall_forall. intros v _. apply jsval_to_string_comma_free.
  - by rewrite !length_fmap.
Qed.

(** X10: on configurations of the same length whose entries are vertex
    ids or [null], [equals] decides equality: two of them have the
    same hash only if they are the same. A configuration with an
    [undefined] entry hashes like the one with [null] in its place. *)
Theorem equals_decides (c1 c2 : Configuration) :
  Undefined ∉ locations c1 → Undefined ∉ locations c2 →
  length (locations c1) = length (locations c2) →
  (equals c1 c2 = true ↔ c1 = c2).
Proof.
  intros H1 H2 Hlen. unfold equals. rewrite bool_decide_eq_true.
  split; [by apply hash_inj|by intros ->].
Qed.

(** (1, 12) and (11, 2) print differently; [undefined] and [null]
    print alike. *)
Lemma equals_decides_witness :
  equals (mkConfig [Num 1; Num 12]) (mkConfig [Num 11; Num 2]) = false
  ∧ equals (mkConfig [Undefined]) (mkConfig [Null]) = true.
Proof.
  split; [|reflexivity].
  destruct (equals (mkConfig [Num 1; Num 12]) (mkConfig [Num 11; Num 2])) eqn:E;
    [|reflexivity].
  apply (equals_decides (mkConfig [Num 1; Num 12]) (mkConfig [Num 11; Num 2])) in E.
  - discriminate E.
  - simpl. set_solver.
  - simpl. set_solver.
  - reflexivity.
Defined.


    

(** *** What the search has covered *)

(** *** The measure of a run *)

(** *** Writes the invariant does not see *)

Lemma same_shape_refl ll : same_shape ll ll.
Proof. intros a n Ha. by exists n. Qed.

Lemma same_shape_trans ll1 ll2 ll3 :
  same_shape ll1 ll2 → same_shape ll2 ll3 → same_shape ll1 ll3.
Proof.
  intros H1 H2 a n Ha. destruct (H1 a n Ha) as (n' & Ha' & ? & ? & ? & ?).
  destruct (H2 a n' Ha') as (n'' & Ha'' & ? & ? & ? & ?).
  exists n''. split; [done|]. split_and!; congruence.
Qed.

Lemma same_shape_extends w w' :
  store_ok w → extends w w' → same_shape (llnodes w) (llnodes w').
Proof. intros Hok Hext a n Ha. exists n. split; [by eapply extends_ll_Some|done]. Qed.

Lemma lchain_alloc w Q a : lchain w Q a → is_Some (llnodes w !! a).
Proof. destruct 1; eauto. Qed.

Lemma lchain_shape w w' Q a :
  same_shape (llnodes w) (llnodes w') → graph w' = graph w →
  lchain w Q a → lchain w' Q a.
Proof.
  intros Hsh Hg. induction 1 as [a n Ha Hwho|a n p Ha Hwho Hpar Hlt Hp IH Hmv].
  - destruct (Hsh a n Ha) as (n' & Ha' & Hw & _). eapply lchain_root; [done|congruence].
  - destruct (Hsh a n Ha) as (n' & Ha' & Hw & Hwh & Hlp & _).
    eapply lchain_child; [done|by rewrite Hw|by rewrite Hlp|done|done|].
    by rewrite Hg, Hw, Hwh.
Qed.

Lemma cchain_shape ll ll' ord Q t :
  same_shape ll ll' → cchain ll ord Q t → cchain ll' ord Q t.
Proof.
  intros Hsh. induction 1 as [t n Ht Hwho Hd|t n p pn Ht Hpar Hlt Hp Hwho Hd Hwh Hc IH].
  - destruct (Hsh t n Ht) as (n' & Ht' & Hw & _ & _ & Hd').
    eapply cchain_root; [done|by rewrite Hw|by rewrite Hd'].
  - destruct (Hsh t n Ht) as (n' & Ht' & Hw & Hwh' & Hlp & Hd').
    destruct (Hsh p pn Hp) as (pn' & Hp' & _ & _ & _ & Hpd).
    eapply cchain_child; [done|by rewrite Hlp|done|done| | | |done].
    + by rewrite Hw, Hpd.
    + by rewrite Hd', Hpd.
    + by rewrite Hwh', Hw.
Qed.

Lemma cchain_alloc ll ord Q t : cchain ll ord Q t → is_Some (ll !! t).
Proof. destruct 1; eauto. Qed.

Lemma ll_weight_shape b N ll ll' t :
  same_shape ll ll' → is_Some (ll !! t) → ll_weight b N ll' t = ll_weight b N ll t.
Proof.
  intros Hsh [n Hn]. destruct (Hsh t n Hn) as (n' & Hn' & _ & _ & _ & Hd).
  unfold ll_weight. rewrite Hn, Hn'. simpl. by rewrite Hd.
Qed.

Lemma queue_weight_shape b N ll ll' q :
  same_shape ll ll' → (∀ t, t ∈ q → is_Some (ll !! t)) →
  queue_weight b N ll' q = queue_weight b N ll q.
Proof.
  intros Hsh Hq. unfold queue_weight. f_equal. apply list_fmap_ext.
  intros i t Ht. apply ll_weight_shape; [done|]. apply Hq. by eapply list_elem_of_lookup_2.
Qed.

Lemma sum_list_app_nat (l1 l2 : list nat) :
  sum_list (l1 ++ l2) = sum_list l1 + sum_list l2.
Proof. induction l1 as [|x l IH]; simpl; [done|]. rewrite IH. lia. Qed.

Lemma sum_list_fmap_snoc {A} (f : A → nat) l x :
  sum_list (f <$> l ++ [x]) = sum_list (f <$> l) + f x.
Proof. rewrite fmap_app, sum_list_app_nat. simpl. lia. Qed.

Lemma queue_weight_app b N ll q1 q2 :
  queue_weight b N ll (q1 ++ q2) = queue_weight b N ll q1 + queue_weight b N ll q2.
Proof.
  unfold queue_weight. rewrite fmap_app.
  induction (ll_weight b N ll <$> q1) as [|x l IH]; simpl; [done|]. rewrite IH. lia.
Qed.

(** *** The invariant looks at allocated objects only *)

Lemma hl_good_extends w w' ex k h :
  store_ok w → extends w w' → hl_good w ex k h → hl_good w' ex k h.
Proof.
  intros Hok Hext [(hn & q & Hhn & Hk & Hq & Hch & Hcfg & Hor)].
  constructor. exists hn, q.
  split; [by eapply extends_hl_Some|]. split; [done|].
  split; [by eapply extends_arr_Some|]. split.
  { intros t Ht. eapply lchain_shape; [by apply same_shape_extends|apply Hext|auto]. }
  unfold origin_ok.
  rewrite (ext_graph _ _ Hext), (ext_agents _ _ Hext). split; [done|].
  destruct Hor as [?|(p & pn & K & ? & ? & ? & Hpn & ? & ?)]; [by left|right].
  exists p, pn, K. split_and!; try done. by eapply extends_hl_Some.
Qed.

Lemma phase_inv_extends w w' s :
  store_ok w → extends w w' → phase_inv w s → phase_inv w' s.
Proof.
  intros Hok Hext. unfold phase_inv.
  rewrite (ext_graph _ _ Hext), (ext_agents _ _ Hext).
  destruct (phase s); try done.
  - intros (N & hn & q & ? & ? & ? & ? & ?). exists N, hn, q.
    split_and!; try done; [by eapply extends_hl_Some|by eapply extends_arr_Some].
  - intros (N & hn & C & ? & ? & ? & ? & ?). exists N, hn, C.
    split_and!; try done; [by eapply extends_hl_Some|].
    eapply lchain_shape; [by apply same_shape_extends|apply Hext|done].
  - intros (N & hn & C & ? & ? & ? & ? & ?). exists N, hn, C.
    split_and!; try done; [by eapply extends_hl_Some|].
    eapply lchain_shape; [by apply same_shape_extends|apply Hext|done].
  - intros (N & hn & Q & K & ? & ? & ? & ? & ? & ?). exists N, hn, Q, K.
    split_and!; try done. by eapply extends_hl_Some.
Qed.

Lemma inflight_shape w w' s hn Q' :
  same_shape (llnodes w) (llnodes w') → agents w' = agents w →
  inflight w s hn Q' → inflight w' s hn Q'.
Proof.
  intros Hsh Hag. unfold inflight. rewrite Hag. destruct (phase s); try done.
  - intros (C & ? & ?). exists C. split; [done|]. by eapply cchain_shape.
  - intros (C & c & ? & ? & Hc & ?). destruct (Hsh C c Hc) as (c' & ? & _ & _ & _ & Hd).
    exists C, c'. split_and!; try done; [by eapply cchain_shape|congruence].
Qed.

(** Coverage after a write that keeps the nodes of Explored, their
    queues and the shape of the constraint trees. *)
Lemma coverage_frame w w' s :
  (∀ k h, explored s !! k = Some h → hl_good w (explored s) k h) →
  (∀ k h hn, explored s !! k = Some h → hlnodes w !! h = Some hn →
             hlnodes w' !! h = Some hn
             ∧ ∀ q, arrays w !! tree hn = Some q → arrays w' !! tree hn = Some q) →
  same_shape (llnodes w) (llnodes w') →
  graph w' = graph w → agents w' = agents w →
  coverage w s → coverage w' s.
Proof.
  intros Hex Hfr Hsh Hg Hag [Hst Hord Hcl Hng Hns].
  assert (∀ k h hn, explored s !! k = Some h → hlnodes w' !! h = Some hn →
                    hlnodes w !! h = Some hn) as Hback.
  { intros k h hn Hk Hh. destruct (Hex k h Hk) as [(hn0 & ? & Hh0 & _)].
    destruct (Hfr k h hn0 Hk Hh0) as [Hh' _]. congruence. }
  constructor; rewrite ?Hg, ?Hag; try done.
  - intros k h hn Hk Hh. eapply Hord; eauto.
  - intros k h hn Q' Hk Hh Hsucc. pose proof (Hback k h hn Hk Hh) as Hh0.
    destruct (Hcl k h hn Q' Hk Hh0 Hsucc) as [?|[(Hop & q & t & Hq & Ht & Hc)|[Hcur Hin]]].
    + by left.
    + right. left. split; [done|]. exists q, t. split_and!; try done.
      * by apply (Hfr k h hn Hk Hh0).
      * by eapply cchain_shape.
    + right. right. split; [done|]. by eapply inflight_shape.
  - intros k h hn Hk Hh. eapply Hng; eauto.
Qed.

Lemma coverage_extends w w' s :
  store_ok w → extends w w' →
  (∀ k h, explored s !! k = Some h → hl_good w (explored s) k h) →
  coverage w s → coverage w' s.
Proof.
  intros Hok Hext Hex. apply coverage_frame; try done; try apply Hext.
  - intros k h hn Hk Hh. split; [by eapply extends_hl_Some|].
    intros q Hq. by eapply extends_arr_Some.
  - by apply same_shape_extends.
Qed.

Lemma live_state_extends w w' s :
  store_ok w → extends w w' → live_state w s → live_state w' s.
Proof.
  intros Hok Hext [Hnd Hopen Hex Htr Hcur Hcl Hrun Hsol Hcnt Hcov]. constructor; try done.
  all: try (rewrite (ext_agents _ _ Hext); intros Hwf;
            eapply coverage_extends; eauto; fail).
  - intros k h Hk. eapply hl_good_extends; eauto.
  - intros k1 h1 hn1 k2 h2 hn2 Hk1 Hk2 Hh1 Hh2 Ht.
    destruct (Hex _ _ Hk1) as [(hn1' & ? & Hh1' & _)].
    destruct (Hex _ _ Hk2) as [(hn2' & ? & Hh2' & _)].
    pose proof (extends_hl_Some _ _ _ _ Hok Hext Hh1').
    pose proof (extends_hl_Some _ _ _ _ Hok Hext Hh2').
    eapply (Htr k1 h1 hn1 k2 h2 hn2); congruence.
  - intros c Hc. destruct (Hcl c Hc) as [n Hn]. exists n. by eapply extends_ll_Some.
  - intros Hst. eapply phase_inv_extends; eauto.
  - by rewrite (ext_graph _ _ Hext), (ext_agents _ _ Hext).
Qed.

Lemma sum_list_fmap_ext {A} (f g : A → nat) l :
  (∀ x, x ∈ l → f x = g x) → sum_list (f <$> l) = sum_list (g <$> l).
Proof.
  intros H. f_equal. apply list_fmap_ext. intros i x Hx. apply H.
  by eapply list_elem_of_lookup_2.
Qed.

Lemma node_weight_extends b N w w' ex k h :
  store_ok w → extends w w' → hl_good w ex k h →
  node_weight b N w' h = node_weight b N w h.
Proof.
  intros Hok Hext [(hn & q & Hhn & Hk & Hq & Hch & _)]. unfold node_weight.
  rewrite (extends_hl_Some _ _ _ _ Hok Hext Hhn), Hhn.
  rewrite (extends_arr_Some _ _ _ _ Hok Hext Hq), Hq.
  rewrite (queue_weight_shape b N (llnodes w) (llnodes w')); [done| |].
  - by apply same_shape_extends.
  - intros t Ht. eapply lchain_alloc; eauto.
Qed.

Lemma measure_of_extends b N cap w w' s :
  store_ok w → extends w w' → live_state w s →
  measure_of b N cap w' s = measure_of b N cap w s.
Proof.
  intros Hok Hext Hl. unfold measure_of, search_weight. f_equal. f_equal. f_equal.
  - f_equal. apply sum_list_fmap_ext. intros h Hh.
    destruct (ls_open _ _ Hl h Hh) as [k Hk].
    eapply node_weight_extends; [done|done|]. eapply (ls_explored _ _ Hl); eauto.
  - unfold pending. destruct (phase s); try done.
    destruct (currentLowLevelNode s) as [C|] eqn:HC; [|done].
    rewrite (ll_weight_shape b N (llnodes w) (llnodes w')); [done| |].
    + by apply same_shape_extends.
    + by apply (ls_current_ll _ _ Hl).
Qed.

(** Coverage after an assignment to the state that keeps Open and
    Explored. *)
Lemma coverage_state w s s' :
  coverage w s → open s' = open s → explored s' = explored s →
  (∀ k h hn Q',
     explored s !! k = Some h → hlnodes w !! h = Some hn →
     succ_of (graph w) (length (agents w)) (config hn) Q' →
     currentHighLevelNode s = Some h → inflight w s hn Q' →
     is_Some (explored s !! hash Q')
     ∨ (currentHighLevelNode s' = Some h ∧ inflight w s' hn Q')) →
  (status s' = no_solution → open s' = [] ∧ phase s' = ph_select) →
  coverage w s'.
Proof.
  intros [Hst Hord Hcl Hng Hns] Ho He Hin Hns'.
  constructor; rewrite ?Ho, ?He; try done.
  - intros k h hn Q' Hk Hh Hsucc.
    destruct (Hcl k h hn Q' Hk Hh Hsucc) as [?|[?|[Hcur Hfl]]]; [by left|by right; left|].
    destruct (Hin k h hn Q' Hk Hh Hsucc Hcur Hfl) as [?|?]; [by left|by right; right].
  - by rewrite <- Ho.
Qed.

Lemma live_state_stepNumber w s n :
  live_state w s → live_state w (set_stepNumber n s).
Proof.
  intros []. constructor; try done. intros Hwf.
  eapply coverage_state; eauto. apply ls_cover0. done.
Qed.

Lemma measure_of_stepNumber b N cap w s n :
  measure_of b N cap w (set_stepNumber n s) = measure_of b N cap w s.
Proof. done. Qed.

Lemma rank_le p : rank p ≤ 3.
Proof. destruct p; simpl; lia. Qed.

Lemma measure_lt_weight b N cap w s w' s' :
  search_weight b N cap w' s' < search_weight b N cap w s →
  measure_of b N cap w' s' < measure_of b N cap w s.
Proof.
  unfold measure_of. pose proof (rank_le (phase s')). lia.
Qed.

Lemma measure_lt_rank b N cap w s w' s' :
  search_weight b N cap w' s' ≤ search_weight b N cap w s →
  rank (phase s') < rank (phase s) →
  measure_of b N cap w' s' < measure_of b N cap w s.
Proof. unfold measure_of. lia. Qed.

Ltac state_simpl :=
  cbn [open explored currentHighLevelNode currentLowLevelNode generatedConfig
       stepNumber phase status solution nodesGenerated configurationsExplored
       set_open set_explored set_currentHighLevelNode set_currentLowLevelNode
       set_generatedConfig set_stepNumber set_phase set_status set_solution
       set_nodesGenerated set_configurationsExplored].

Lemma live_state_state w s s' :
  live_state w s →
  NoDup (open s') → (∀ h, h ∈ open s' → h ∈ open s) →
  explored s' = explored s →
  (∀ h, currentHighLevelNode s' = Some h → ∃ k, explored s !! k = Some h) →
  (∀ c, currentLowLevelNode s' = Some c → is_Some (llnodes w !! c)) →
  (status s' = running → phase_inv w s') →
  (status s' = solved →
   ∃ path, solution s' = Some path ∧ path_ok (graph w) (agents w) path) →
  nodesGenerated s' = nodesGenerated s →
  configurationsExplored s' = configurationsExplored s →
  (ids_wf (agents w) → coverage w s → coverage w s') →
  live_state w s'.
Proof.
  intros [Hnd Hopen Hex Htr Hcur Hcl Hrun Hsol Hcnt Hcov]
    Hnd' Ho He Hc Hcl' Hrun' Hsol' Hng Hce Hcov'.
  constructor; rewrite ?He, ?Hng, ?Hce; try done; [|by auto].
  intros h Hh. apply Hopen. by apply Ho.
Qed.

(** *** [getConstraints] on a chain of moves *)

Lemma getConstraints_loop_moves w Q a :
  lchain w Q a →
  ∀ fuel K0, a < fuel →
    (∀ x v, K0 !! x = Some v → move_of (graph w) Q x v) →
    ∃ K, getConstraints_loop fuel (Some a) K0 w = (Val K, w)
         ∧ ∀ x v, K !! x = Some v → move_of (graph w) Q x v.
Proof.
  induction 1 as [a n Ha Hwho|a n p Ha Hwho Hpar Hlt Hp IH Hmv];
    intros [|fuel] K0 Hfuel HK0; try lia.
  - exists K0. split; [|done].
    simpl. unfold bind, read_ll, get_world, deref, bind. simpl. rewrite Ha. simpl.
    by rewrite decide_True.
  - destruct (IH fuel (<[who n := where_ n]> K0)) as (K & HK & HKm); [lia| |].
    { intros x v. rewrite lookup_insert_Some. intros [[<- <-]|[_ ?]]; auto. }
    exists K. split; [|done].
    simpl. unfold bind, read_ll, get_world, deref, bind. simpl. rewrite Ha. simpl.
    rewrite decide_False by done. by rewrite Hpar.
Qed.

Lemma getConstraints_moves w Q a :
  store_ok w → lchain w Q a →
  ∃ K, getConstraints a w = (Val K, w) ∧ constraint_moves (graph w) Q K.
Proof.
  intros Hok Hch.
  destruct (getConstraints_loop_moves w Q a Hch (S (next w)) ∅) as (K & HK & HKm).
  { destruct (lchain_alloc _ _ _ Hch) as [n Hn].
    pose proof (ok_ll_lt w Hok a n Hn). lia. }
  { intros x v. by rewrite lookup_empty. }
  by exists K.
Qed.

(** *** Configurations of a run *)

Lemma universe_Undefined g ags : Undefined ∈ universe g ags.
Proof. apply list_elem_of_here. Qed.

Lemma universe_neighbor g ags v n :
  n ∈ getNeighbors g v → Num n ∈ universe g ags.
Proof.
  intros Hn. apply elem_of_cons. right. apply elem_of_app. right.
  apply list_elem_of_fmap. exists n. split; [done|]. by eapply getNeighbors_targets.
Qed.

Lemma config_get_universe g ags Q x :
  config_ok g ags Q → config_get Q x ∈ universe g ags.
Proof.
  intros [_ Hall]. destruct x as [| |a]; simpl; try apply universe_Undefined.
  destruct (locations Q !! a) as [y|] eqn:Hy; simpl; [|apply universe_Undefined].
  rewrite Forall_forall in Hall. apply Hall. by eapply list_elem_of_lookup_2.
Qed.

Lemma move_of_universe g ags Q x v :
  config_ok g ags Q → move_of g Q x v → v ∈ universe g ags.
Proof.
  intros HQ [->|(n & Hn & ->)]; [by apply config_get_universe|].
  by eapply universe_neighbor.
Qed.

Lemma aid_width ags a : a ∈ ags → S (aid a) ≤ width ags.
Proof.
  intros Ha. unfold width.
  assert (aid a ≤ max_list (aid <$> ags)).
  { apply max_list_elem_of_le. apply list_elem_of_fmap. eauto. }
  lia.
Qed.

(** What [array_set] does to the length and the entries. *)
Lemma array_set_shape (U : list jsval) L i x arr :
  Undefined ∈ U → x ∈ U → S i ≤ L →
  length arr ≤ L → Forall (λ v, v ∈ U) arr →
  length (array_set i x arr) ≤ L ∧ Forall (λ v, v ∈ U) (array_set i x arr).
Proof.
  intros HU Hx Hi Hlen Hall. unfold array_set. case_decide.
  - split; [by rewrite length_insert|]. by apply Forall_insert.
  - split.
    + rewrite !length_app, length_replicate. simpl. lia.
    + apply Forall_app. split; [done|]. apply Forall_app. split.
      * by apply Forall_replicate.
      * by apply Forall_singleton.
Qed.

Lemma getBestMove_candidates g current goal occupied :
  getBestMove g current goal occupied = Null
  ∨ getBestMove g current goal occupied = current
  ∨ ∃ n, n ∈ getNeighbors g current
         ∧ getBestMove g current goal occupied = Num n.
Proof.
  unfold getBestMove. case_decide; [by right; left|].
  set (stay := if decide (current ∈ occupied) then _ else _).
  assert (stay.1 = Null ∨ stay.1 = current) as Hstay.
  { unfold stay. case_decide; [by left|by right]. }
  assert (∀ nbs best,
            (∀ n, n ∈ nbs → n ∈ getNeighbors g current) →
            (best.1 = Null ∨ best.1 = current
             ∨ ∃ n, n ∈ getNeighbors g current ∧ best.1 = Num n) →
            let r := (foldl (try_neighbor g goal occupied) best nbs).1 in
            r = Null ∨ r = current ∨ ∃ n, n ∈ getNeighbors g current ∧ r = Num n)
    as Hfold.
  { induction nbs as [|n nbs IH]; intros best Hsub Hbest; simpl; [done|].
    apply IH; [intros; apply Hsub; set_solver|].
    unfold try_neighbor. case_decide; [done|].
    destruct (dist_lt _ _); [|done]. simpl. right. right. exists n.
    split; [apply Hsub; set_solver|done]. }
  apply Hfold; [done|]. destruct Hstay as [?|?]; [by left|by right; left].
Qed.

Section shape.
Context (g : Graph) (ags : list Agent) (Q : Configuration) (K : gmap jsval jsval).
Context (HQ : config_ok g ags Q) (HK : constraint_moves g Q K).

Let shaped := shaped g ags.

Lemma place_constrained_shaped acc a :
  a ∈ ags → shaped acc → shaped (place_constrained K acc a).
Proof.
  intros Ha Hacc nl occ. unfold place_constrained.
  destruct acc as [[nl0 occ0]|]; simpl; [|done].
  destruct (Hacc nl0 occ0 eq_refl) as [Hlen Hall].
  case_decide; [done|]. intros [= <- <-].
  apply array_set_shape; try done; [apply universe_Undefined| |by apply aid_width].
  destruct (K !! Num (aid a)) as [v|] eqn:Hv; simpl; [|apply universe_Undefined].
  eapply move_of_universe; [done|]. by apply HK.
Qed.

Lemma place_unconstrained_shaped acc a :
  a ∈ ags → shaped acc → shaped (place_unconstrained g Q acc a).
Proof.
  intros Ha Hacc nl occ. unfold place_unconstrained.
  destruct acc as [[nl0 occ0]|]; simpl; [|done].
  destruct (Hacc nl0 occ0 eq_refl) as [Hlen Hall].
  pose proof (config_get_universe g ags Q (Num (aid a)) HQ) as Hcur.
  pose proof (getBestMove_candidates g (config_get Q (Num (aid a))) (goal a) occ0) as Hc.
  set (r := getBestMove g (config_get Q (Num (aid a))) (goal a) occ0) in *.
  change (getBestMove g (default Undefined (locations Q !! aid a)) (goal a) occ0) with r.
  clearbody r.
  case_decide as Hnull; [done|]. intros [= <- <-].
  apply array_set_shape; try done; [apply universe_Undefined| |by apply aid_width].
  destruct Hc as [?|[->|(n & Hn & ->)]]; [done|done|].
  by eapply universe_neighbor.
Qed.

Lemma foldl_shaped (f : option (list jsval * list jsval) → Agent →
                        option (list jsval * list jsval)) l acc :
  (∀ acc a, a ∈ ags → shaped acc → shaped (f acc a)) →
  (∀ a, a ∈ l → a ∈ ags) → shaped acc → shaped (foldl f acc l).
Proof.
  intros Hf. revert acc. induction l as [|a l IH]; intros acc Hl Hacc; simpl; [done|].
  apply IH; [intros; apply Hl; set_solver|]. apply Hf; [apply Hl; set_solver|done].
Qed.

Lemma successor_config_ok Q' :
  generateConfig g ags Q K = Some Q' → config_ok g ags Q'.
Proof.
  unfold generateConfig.
  set (acc := foldl (place_unconstrained g Q) _ _).
  assert (shaped acc) as Hacc.
  { apply foldl_shaped; [apply place_unconstrained_shaped| |].
    { intros a Ha. rewrite sort_perm in Ha. by apply list_elem_of_filter in Ha as [_ ?]. }
    apply foldl_shaped; [apply place_constrained_shaped| |].
    { intros a Ha. by apply list_elem_of_filter in Ha as [_ ?]. }
    intros nl occ [= <- <-]. split.
    - rewrite length_replicate. unfold width. lia.
    - apply Forall_replicate. apply universe_Undefined. }
  destruct acc as [[nl occ]|]; simpl; [|done].
  destruct (has_swap_conflict _ _ _); [done|]. intros [= <-].
  by apply (Hacc nl occ).
Qed.
End shape.

(** *** The generator on a full constraint map *)

Lemma filter_all {A} (P : A → Prop) `{∀ x, Decision (P x)} (l : list A) :
  Forall P l → filter P l = l.
Proof.
  induction 1 as [|x l Hx Hl IH]; [done|].
  rewrite filter_cons, decide_True by done. by rewrite IH.
Qed.

Lemma filter_none {A} (P : A → Prop) `{∀ x, Decision (P x)} (l : list A) :
  Forall (λ x, ¬ P x) l → filter P l = [].
Proof.
  induction 1 as [|x l Hx Hl IH]; [done|].
  rewrite filter_cons, decide_False by done. done.
Qed.

Lemma no_swap_has_swap_conflict N Q locs :
  no_swap N Q (mkConfig locs) → has_swap_conflict N Q locs = false.
Proof.
  intros Hns. unfold has_swap_conflict.
  destruct (existsb _ _) eqn:E; [|done]. exfalso.
  apply existsb_exists in E as (i & Hi & E). apply in_seq in Hi.
  apply existsb_exists in E as (j & Hj & E). apply in_seq in Hj.
  unfold swap_conflict in E. apply bool_decide_eq_true in E.
  apply (Hns i j); [lia|lia|lia|]. done.
Qed.

Lemma place_constrained_prefix ags K locs i :
  ids_wf ags → length locs = length ags → NoDup locs →
  (∀ a, a < length ags → K !! Num a = Some (default Undefined (locs !! a))) →
  i ≤ length ags →
  foldl (place_constrained K) (Some (replicate (length ags) Undefined, []))
    (take i ags)
  = Some (take i locs ++ replicate (length ags - i) Undefined, reverse (take i locs)).
Proof.
  intros Hwf Hlen Hnd HK. induction i as [|i IH]; intros Hi.
  - simpl. by rewrite Nat.sub_0_r.
  - destruct (lookup_lt_is_Some_2 ags i) as [ag Hag]; [lia|].
    destruct (lookup_lt_is_Some_2 locs i) as [x Hx]; [lia|].
    rewrite (take_S_r _ _ _ Hag), foldl_snoc, IH by lia.
    rewrite (take_S_r _ _ _ Hx).
    unfold place_constrained. simpl.
    rewrite (ids_wf_lookup _ _ _ Hwf Hag), HK, Hx by lia. simpl.
    rewrite decide_False.
    2:{ rewrite elem_of_reverse. intros [j Hj]%list_elem_of_lookup.
        apply lookup_take_Some in Hj as [Hj Hlt].
        pose proof (NoDup_lookup _ _ _ _ Hnd Hj Hx). lia. }
    f_equal. f_equal; [|by rewrite reverse_snoc].
    unfold array_set. rewrite decide_True.
    2:{ rewrite length_app, length_take, length_replicate. lia. }
    assert (length (take i locs) = i) as Hti by (rewrite length_take; lia).
    replace i with (length (take i locs) + 0) at 1 by lia.
    rewrite insert_app_r. rewrite <- app_assoc. f_equal.
    replace (length ags - i) with (S (length ags - S i)) by lia. done.
Qed.

Lemma generateConfig_full g ags Q K Q' :
  ids_wf ags →
  length (locations Q') = length ags → NoDup (locations Q') →
  no_swap (length ags) Q Q' →
  (∀ a, a < length ags → K !! Num a = Some (config_get Q' (Num a))) →
  generateConfig g ags Q K = Some Q'.
Proof.
  intros Hwf Hlen Hnd Hns HK. unfold generateConfig.
  assert (Forall (λ a, is_Some (K !! Num (aid a))) ags) as Hall.
  { apply Forall_forall. intros a Ha. rewrite HK; [done|].
    apply list_elem_of_lookup in Ha as [i Hi].
    rewrite (ids_wf_lookup _ _ _ Hwf Hi). by eapply lookup_lt_Some. }
  rewrite (filter_all _ _ Hall).
  rewrite (filter_none (λ a, ¬ is_Some (K !! Num (aid a)))).
  2:{ eapply Forall_impl; [exact Hall|]. intros a Ha Hn. by apply Hn. }
  simpl sort. simpl foldl at 1.
  pose proof (place_constrained_prefix ags K (locations Q') (length ags) Hwf Hlen Hnd HK
                ltac:(lia)) as Hfold.
  rewrite firstn_all in Hfold. rewrite Hfold. simpl.
  rewrite <- Hlen, firstn_all, Nat.sub_diag, app_nil_r.
  rewrite Hlen. destruct Q' as [locs]. simpl in *.
  by rewrite no_swap_has_swap_conflict.
Qed.

Lemma order_at_not_Null o i : order_at o i ≠ Null.
Proof. unfold order_at. by destruct (o !! i). Qed.

(** *** [getConstraints] on a chain that leads to a successor *)

Lemma getConstraints_loop_cover w ord Q' t :
  cchain (llnodes w) ord Q' t →
  ∀ fuel K0 K,
    getConstraints_loop fuel (Some t) K0 w = (Val K, w) →
    ∀ x, (K0 !! x = Some (config_get Q' x)
          ∨ ∃ n i, llnodes w !! t = Some n ∧ i < depth n ∧ x = order_at ord i) →
         K !! x = Some (config_get Q' x).
Proof.
  induction 1 as [t n Ht Hwho Hd|t n p pn Ht Hpar Hlt Hp Hwho Hd Hwh Hc IH];
    intros [|fuel] K0 K; try done.
  all: simpl; unfold bind, read_ll, get_world, deref, bind; simpl; rewrite Ht; simpl.
  - rewrite decide_True by done. intros [= <-] x [?|(n' & i & ? & ? & _)]; [done|].
    simplify_eq. lia.
  - rewrite decide_False by (rewrite Hwho; apply order_at_not_Null).
    rewrite Hpar. intros Hrun x Hx. eapply IH; [exact Hrun|].
    destruct Hx as [Hx|(n' & i & Hn' & Hi & ->)].
    + left. destruct (decide (x = who n)) as [->|Hne].
      * by rewrite lookup_insert_eq, Hwh.
      * by rewrite lookup_insert_ne.
    + simplify_eq. destruct (decide (i = depth pn)) as [->|Hne].
      * left. by rewrite <- Hwho, lookup_insert_eq, Hwh.
      * right. exists pn, i. split_and!; [done|lia|done].
Qed.

Lemma getConstraints_cover w ord Q' C c K :
  cchain (llnodes w) ord Q' C → llnodes w !! C = Some c →
  getConstraints C w = (Val K, w) →
  ord ≡ₚ seq 0 (depth c) →
  ∀ a, a < depth c → K !! Num a = Some (config_get Q' (Num a)).
Proof.
  intros Hch Hc Hrun Hord a Ha.
  assert (a ∈ ord) as [i Hi]%list_elem_of_lookup.
  { rewrite Hord. apply elem_of_seq. lia. }
  pose proof (lookup_lt_Some _ _ _ Hi) as Hlt.
  rewrite Hord, length_seq in Hlt.
  eapply (getConstraints_loop_cover w ord Q' C Hch); [exact Hrun|].
  right. exists c, i. split_and!; [done|done|]. unfold order_at. by rewrite Hi.
Qed.

(** A phase that only assigns to the state. *)
Lemma advances_state b N cap w s w' s' bo :
  store_ok w → extends w w' → state w' = Some s' →
  live_state w s' → stepNumber s' = stepNumber s →
  (if bo : bool then status s' = running
                     ∧ measure_of b N cap w s' < measure_of b N cap w s
   else status s' ≠ running) →
  advances b N cap w s (Val bo) w'.
Proof.
  intros Hok Hext Hs' Hl Hn Hm. exists bo, s'.
  split; [done|]. split; [done|]. split; [by eapply live_state_extends|].
  split; [done|]. destruct bo; [|done].
  by rewrite (measure_of_extends b N cap w w' s' Hok Hext Hl).
Qed.

Ltac ext_state := repeat apply ext_with_state; apply extends_refl.

(** *** [stepGenerate] *)

Lemma stepGenerate_live b N cap w s :
  store_ok w →
  state w = Some s → live_state w s →
  status s = running → phase s = ph_generate →
  wp stepGenerate w (advances b N cap w s).
Proof.
  intros Hok Hs Hl Hst Hph.
  pose proof (ls_running _ _ Hl Hst) as Hinv. unfold phase_inv in Hinv.
  rewrite Hph in Hinv. destruct Hinv as (Nd & hn & C & HN & Hlast & Hhn & HC & Hch).
  destruct (getConstraints_moves w (config hn) C Hok Hch) as (K & HK & HKm).
  destruct (ls_current _ _ Hl Nd HN) as [k Hk].
  destruct (ls_explored _ _ Hl k Nd Hk) as [(hn' & q & Hhn' & _ & _ & _ & Hcfg & _)].
  assert (hn' = hn) as -> by congruence.
  assert (∀ Q', ids_wf (agents w) → coverage w s →
                succ_of (graph w) (length (agents w)) (config hn) Q' →
                inflight w s hn Q' →
                generateConfig (graph w) (agents w) (config hn) K = Some Q') as Hfull.
  { intros Q' Hwf Hcv [Hlen Hnd _ Hns _] Hfl. unfold inflight in Hfl. rewrite Hph in Hfl.
    destruct Hfl as (C' & c & HC' & Hcc & Hc & Hd). simplify_eq.
    apply generateConfig_full; try done.
    rewrite <- Hd. eapply getConstraints_cover; eauto.
    rewrite Hd. by eapply (cv_order _ _ Hcv). }
  unfold stepGenerate. wp_run.
  eapply wp_eq; [exact HK|]. simpl. wp_run.
  - eapply advances_state; [done|ext_state|done| |done|].
    + eapply live_state_state;
        [exact Hl|apply Hl|done|done|apply Hl| | | |done|done|]; simpl.
      * apply (ls_current_ll _ _ Hl).
      * intros _. unfold phase_inv. simpl. exists Nd, hn, c, K.
        split_and!; try done. by eapply successor_config_ok.
      * congruence.
      * intros Hwf Hcv. eapply coverage_state; [exact Hcv|done|done| |simpl; congruence].
        intros k0 h hn0 Q' Hk0 Hh0 Hsucc Hcur Hfl. simplify_eq.
        pose proof (Hfull Q' Hwf Hcv Hsucc Hfl). right. split; [done|].
        unfold inflight. simpl. congruence.
    + split; [done|]. apply measure_lt_rank; [|state_simpl; rewrite Hph; simpl; lia].
      unfold search_weight, pending. state_simpl. rewrite Hph. lia.
  - eapply advances_state; [done|ext_state|done| |done|].
    + eapply live_state_state;
        [exact Hl|apply Hl|done|done|apply Hl| | | |done|done|]; simpl.
      * apply (ls_current_ll _ _ Hl).
      * done.
      * congruence.
      * intros Hwf Hcv. eapply coverage_state; [exact Hcv|done|done| |simpl; congruence].
        intros k0 h hn0 Q' Hk0 Hh0 Hsucc Hcur Hfl. simplify_eq.
        pose proof (Hfull Q' Hwf Hcv Hsucc Hfl). congruence.
    + split; [done|]. apply measure_lt_rank; [|state_simpl; rewrite Hph; simpl; lia].
      unfold search_weight, pending. state_simpl. rewrite Hph. lia.
Qed.

(** *** [backtrack] *)

Lemma generated_steps_snoc g ags pre Qp Q' K :
  generated_steps g ags pre → last pre = Some Qp →
  constraint_moves g Qp K →
  generateConfig g ags Qp K = Some Q' →
  generated_steps g ags (pre ++ [Q']).
Proof.
  intros Hpre Hlast HK Hgen i Q Q'' Hi HSi.
  pose proof (lookup_lt_Some _ _ _ HSi) as Hlt. rewrite length_app in Hlt. simpl in Hlt.
  destruct (decide (S i < length pre)) as [Hin|Hout].
  - rewrite lookup_app_l in Hi by lia. rewrite lookup_app_l in HSi by lia. eauto.
  - assert (S i = length pre) as Heq by lia.
    rewrite lookup_app_l in Hi by lia.
    rewrite lookup_app_r in HSi by lia.
    replace (S i - length pre) with 0 in HSi by lia. simpl in HSi.
    rewrite last_lookup in Hlast. replace (pred (length pre)) with i in Hlast by lia.
    exists K. by simplify_eq.
Qed.

Lemma backtrack_loop_path w ex :
  (∀ k h, ex !! k = Some h → hl_good w ex k h) →
  ∀ h k, ex !! k = Some h → ∀ fuel acc, h + 2 ≤ fuel →
    ∃ pre hn, backtrack_loop fuel (Some h) acc w = (Val (pre ++ acc), w)
              ∧ hlnodes w !! h = Some hn
              ∧ head pre = Some (mkConfig (start <$> agents w))
              ∧ last pre = Some (config hn)
              ∧ generated_steps (graph w) (agents w) pre
              ∧ NoDup (hash <$> pre)
              ∧ ∀ Q, Q ∈ pre → ∃ h', h' ≤ h ∧ ex !! hash Q = Some h'.
Proof.
  intros Hex h. induction h as [h IH] using lt_wf_ind.
  intros k Hk [|fuel] acc Hfuel; [lia|].
  destruct (Hex k h Hk) as [(hn & q & Hhn & Hkh & _ & _ & _ & Hor)].
  destruct Hor as [[Hpar Hcfg]|(p & pn & K & Hpar & Hlt & Hp & Hpn & HK & Hgen)].
  - exists [config hn], hn. split.
    { simpl. unfold bind, read_hl, get_world, deref, bind. simpl. rewrite Hhn. simpl.
      rewrite Hpar. destruct fuel; [lia|done]. }
    split; [done|]. split; [by rewrite Hcfg|]. split; [done|]. split.
    { intros i Q Q' _ Hi. by destruct i. }
    split; [apply NoDup_singleton|].
    intros Q HQ%list_elem_of_singleton. subst Q. exists h. split; [lia|congruence].
  - destruct (IH p Hlt _ Hp fuel (config hn :: acc))
      as (pre & pn' & Hrun & Hpn' & Hhd & Hla & Hst & Hnd & Hbelow); [lia|].
    assert (pn' = pn) as -> by congruence.
    exists (pre ++ [config hn]), hn. split.
    { simpl. unfold bind, read_hl, get_world, deref, bind. simpl. rewrite Hhn. simpl.
      rewrite Hpar, Hrun. by rewrite <- app_assoc. }
    split; [done|]. split.
    { destruct pre; [done|]. done. }
    split; [by rewrite last_snoc|].
    split; [by eapply generated_steps_snoc|]. split.
    + rewrite fmap_app. apply NoDup_app. split; [done|]. split; [|apply NoDup_singleton].
      intros x (Q & -> & HQ)%list_elem_of_fmap Hx%list_elem_of_singleton.
      destruct (Hbelow Q HQ) as (h' & Hle & Hh'). rewrite Hx in Hh'.
      assert (h' = h) by congruence. lia.
    + intros Q [HQ|HQ%list_elem_of_singleton]%elem_of_app.
      * destruct (Hbelow Q HQ) as (h' & ? & ?). exists h'. split; [lia|done].
      * subst Q. exists h. split; [lia|congruence].
Qed.

Lemma backtrack_path w s N :
  store_ok w → live_state w s → (∃ k, explored s !! k = Some N) →
  ∃ path hn, backtrack N w = (Val path, w)
             ∧ hlnodes w !! N = Some hn
             ∧ head path = Some (mkConfig (start <$> agents w))
             ∧ last path = Some (config hn)
             ∧ generated_steps (graph w) (agents w) path
             ∧ NoDup (hash <$> path).
Proof.
  intros Hok Hl [k Hk].
  destruct (ls_explored _ _ Hl k N Hk) as [(hn & q & Hhn & _)].
  pose proof (ok_hl_lt w Hok N hn Hhn) as Hlt.
  destruct (backtrack_loop_path w (explored s) (ls_explored _ _ Hl) N k Hk
              (S (next w)) []) as (pre & hn' & Hrun & Hhn' & ? & ? & ? & ? & _); [lia|].
  rewrite app_nil_r in Hrun. by exists pre, hn'.
Qed.

(** *** [stepSelect] *)

Ltac wp_step_eq :=
  lazymatch goal with
  | |- wp (if ?c then _ else _) _ _ => destruct c eqn:?
  | _ => wp_step
  end.

Ltac wp_run_eq := repeat (wp_step_eq; simpl in *; try congruence; simplify_eq).

Lemma last_Some_snoc {A} (l : list A) x :
  last l = Some x → l = removelast l ++ [x].
Proof.
  intros [l' ->]%last_Some. by rewrite removelast_last.
Qed.

Ltac no_inflight Hph :=
  let Hfl := fresh "Hfl" in
  intros ? ? ? ? _ _ _ _ Hfl; unfold inflight in Hfl; rewrite Hph in Hfl; done.

Lemma stepSelect_live b N cap w s :
  store_ok w →
  state w = Some s → live_state w s →
  status s = running → phase s = ph_select →
  wp stepSelect w (advances b N cap w s).
Proof.
  intros Hok Hs Hl Hst Hph.
  unfold stepSelect. wp_step. wp_step. simpl. simplify_eq.
  2:{ simpl. congruence. }
  destruct (last (open s)) as [Nd|] eqn:Hlast.
  2:{ wp_run_eq. eapply advances_state; [done|ext_state|done| |done|done].
      eapply live_state_state;
        [exact Hl|apply Hl|done|done|apply Hl|apply Hl|done|done|done|done|].
      intros Hwf Hcv. eapply coverage_state; [exact Hcv|done|done|no_inflight Hph|].
      intros _. simpl. split; [by apply last_None|done]. }
  assert (Nd ∈ open s) as HNd.
  { rewrite (last_Some_snoc _ _ Hlast). set_solver. }
  destruct (ls_open _ _ Hl Nd HNd) as [k Hk].
  destruct (ls_explored _ _ Hl k Nd Hk) as [(hn & q & Hhn & Hkh & Hq & Hqch & Hcfg & Hor)].
  wp_step. wp_step. simpl. simplify_eq. 2:{ simpl. congruence. }
  set (s1 := set_currentHighLevelNode (Some Nd) s).
  set (w1 := with_state (Some s1) w).
  assert (store_ok w1) as Hok1 by (by apply ok_with_state).
  assert (extends w w1) as Hext1 by ext_state.
  pose proof (live_state_extends w w1 s Hok Hext1 Hl) as Hl1.
  destruct (backtrack_path w1 s Nd Hok1 Hl1)
    as (path & hn' & Hbt & Hhn' & Hhd & Hla & Hgs & Hnodup); [eauto|].
  wp_step. wp_step. simpl. wp_step. wp_step. simpl in *. 2:{ congruence. }
  simplify_eq. wp_step_eq.
  - wp_step. eapply wp_eq; [exact Hbt|]. simpl. wp_run_eq. subst w1.
    eapply advances_state; [done|ext_state|done| |done|done].
    eapply live_state_state;
      [exact Hl|apply Hl|done|done| |apply Hl|done| |done|done|]; simpl.
    + intros h [= <-]. eauto.
    + intros _. exists path. split; [done|]. split; [done|]. split; [|done].
      exists (config hn). done.
    + intros Hwf Hcv. eapply coverage_state; [exact Hcv|done|done|no_inflight Hph|].
      simpl. congruence.
  - subst w1. wp_run_eq.
    + eapply advances_state; [done|ext_state|done| |done|]; simpl.
      * pose proof (ls_open_nodup _ _ Hl) as Hnd.
        rewrite (last_Some_snoc _ _ Hlast) in Hnd.
        apply NoDup_app in Hnd as (Hndpre & Hdis & _).
        eapply live_state_state; [exact Hl| | |done| |apply Hl| | |done|done|]; simpl.
        -- done.
        -- intros h. apply removelast_elem.
        -- intros h [= <-]. eauto.
        -- intros _. unfold phase_inv. simpl. by rewrite Hph.
        -- congruence.
        -- intros Hwf [Hcs Hord Hcl Hng Hns]. constructor; simpl; try done.
           ++ intros k0 h hn0 Q' Hk0 Hh0 Hsucc.
              destruct (Hcl k0 h hn0 Q' Hk0 Hh0 Hsucc)
                as [?|[(Hop & q0 & t & Hq0 & Ht & Hc)|[Hcur Hfl]]]; [by left| |].
              ** right. left. split; [|by eauto].
                 rewrite (last_Some_snoc _ _ Hlast) in Hop.
                 apply elem_of_app in Hop as [?|Hop%list_elem_of_singleton]; [done|].
                 subst h. assert (hn0 = hn) as -> by congruence.
                 assert (q0 = q) as -> by congruence.
                 destruct q; [by apply elem_of_nil in Ht|done].
              ** unfold inflight in Hfl. by rewrite Hph in Hfl.
           ++ intros k0 h hn0 Hk0 Hh0 Hnot.
              destruct (decide (h ∈ open s)) as [Hin|Hnin]; [|by eapply Hng].
              rewrite (last_Some_snoc _ _ Hlast) in Hin.
              apply elem_of_app in Hin as [?|Hin%list_elem_of_singleton]; [done|].
              subst h. assert (hn0 = hn) as -> by congruence. done.
           ++ congruence.
      * split; [done|]. apply measure_lt_weight.
        unfold search_weight, pending. state_simpl. rewrite Hph.
        rewrite (last_Some_snoc _ _ Hlast) at 2.
        rewrite sum_list_fmap_snoc.
        assert (node_weight b N w Nd = 1) as Hw1.
        { unfold node_weight. rewrite Hhn, Hq. by destruct q. }
        rewrite Hw1. lia.
    + eapply advances_state; [done|ext_state|done| |done|]; simpl.
      * eapply live_state_state;
          [exact Hl|apply Hl|done|done| |apply Hl| | |done|done|]; simpl.
        -- intros h [= <-]. eauto.
        -- intros _. unfold phase_inv. simpl. exists Nd, hn, q.
           split_and!; try done. intros ->. done.
        -- congruence.
        -- intros Hwf Hcv. eapply coverage_state; [exact Hcv|done|done|no_inflight Hph|].
           simpl. congruence.
      * split; [done|]. apply measure_lt_rank; [|state_simpl; rewrite Hph; simpl; lia].
        unfold search_weight, pending. state_simpl. rewrite Hph. lia.
Qed.

(** *** A write to the queue of the current node *)

Lemma same_shape_insert ll C c c' :
  ll !! C = Some c → who c' = who c → where_ c' = where_ c →
  lparent c' = lparent c → depth c' = depth c →
  same_shape ll (<[C := c']> ll).
Proof.
  intros HC ? ? ? ? a n Ha. destruct (decide (a = C)) as [->|Hne].
  - exists c'. rewrite lookup_insert_eq. assert (n = c) as -> by congruence. done.
  - exists n. by rewrite lookup_insert_ne.
Qed.

Lemma live_state_queue w w' s s' k Nd hn q q' :
  live_state w s →
  hlnodes w' = hlnodes w → graph w' = graph w → agents w' = agents w →
  same_shape (llnodes w) (llnodes w') →
  explored s !! k = Some Nd → hlnodes w !! Nd = Some hn →
  arrays w !! tree hn = Some q → arrays w' !! tree hn = Some q' →
  (∀ a, a ≠ tree hn → arrays w' !! a = arrays w !! a) →
  (∀ t, t ∈ q' → lchain w' (config hn) t) →
  open s' = open s → explored s' = explored s →
  currentHighLevelNode s' = currentHighLevelNode s →
  (∀ c, currentLowLevelNode s' = Some c → is_Some (llnodes w' !! c)) →
  (status s' = running → phase_inv w' s') →
  (status s' = solved →
   ∃ path, solution s' = Some path ∧ path_ok (graph w') (agents w') path) →
  nodesGenerated s' = nodesGenerated s →
  configurationsExplored s' = configurationsExplored s →
  (ids_wf (agents w) → coverage w s → coverage w' s') →
  live_state w' s'.
Proof.
  intros [Hnd Hopen Hex Htr Hcur Hcl Hrun Hsol Hcnt Hcov] Hhl Hg Hag Hsh Hk Hhn Hq Hq' Hfr Hch'
    Ho He Hc Hcl' Hrun' Hsol' Hng Hce Hcov'.
  constructor; rewrite ?Ho, ?He, ?Hc, ?Hhl, ?Hng, ?Hce; try done.
  2:{ rewrite Hag. auto. }
  intros k2 h2 Hk2. destruct (Hex k2 h2 Hk2) as [(hn2 & q2 & Hhn2 & Hkh & Hq2 & Hch2 & Hcfg & Hor)].
  constructor. unfold origin_ok. rewrite Hhl, Hg, Hag.
  destruct (decide (tree hn2 = tree hn)) as [Heq|Hne].
  - assert (h2 = Nd) as -> by (eapply (Htr k2 h2 hn2 k Nd hn); eauto).
    assert (hn2 = hn) as -> by congruence.
    exists hn, q'. split_and!; try done.
  - exists hn2, q2. split_and!; try done.
    + rewrite Hfr by done. done.
    + intros t Ht. eapply lchain_shape; [done|done|auto].
Qed.

(** Coverage after a write to the queue of the current node [Nd]:
    what its queue and the phase covered has to be covered still. *)
Lemma coverage_queue w w' s s' k Nd hn q q' :
  live_state w s →
  hlnodes w' = hlnodes w → graph w' = graph w → agents w' = agents w →
  same_shape (llnodes w) (llnodes w') →
  explored s !! k = Some Nd → hlnodes w !! Nd = Some hn → Nd ∈ open s →
  arrays w !! tree hn = Some q → arrays w' !! tree hn = Some q' →
  (∀ a, a ≠ tree hn → arrays w' !! a = arrays w !! a) →
  open s' = open s → explored s' = explored s →
  currentHighLevelNode s = Some Nd → currentHighLevelNode s' = Some Nd →
  status s' = running →
  (∀ Q', succ_of (graph w) (length (agents w)) (config hn) Q' →
     (∃ t, t ∈ q ∧ cchain (llnodes w) (order hn) Q' t) ∨ inflight w s hn Q' →
     is_Some (explored s !! hash Q')
     ∨ (∃ t, t ∈ q' ∧ cchain (llnodes w') (order hn) Q' t)
     ∨ inflight w' s' hn Q') →
  coverage w s → coverage w' s'.
Proof.
  intros Hl Hhl Hg Hag Hsh Hk Hhn HNd Hq Hq' Hfr Ho He Hcur Hcur' Hst' Htr
    [Hcs Hord Hcl Hng Hns].
  constructor; rewrite ?Ho, ?He, ?Hhl, ?Hg, ?Hag; try done; [|congruence].
  intros k0 h hn0 Q' Hk0 Hh0 Hsucc.
  assert (∀ Q', succ_of (graph w) (length (agents w)) (config hn) Q' →
     (∃ t, t ∈ q ∧ cchain (llnodes w) (order hn) Q' t) ∨ inflight w s hn Q' →
     is_Some (explored s !! hash Q')
     ∨ Nd ∈ open s
       ∧ (∃ q0 t, arrays w' !! tree hn = Some q0 ∧ t ∈ q0
                  ∧ cchain (llnodes w') (order hn) Q' t)
     ∨ currentHighLevelNode s' = Some Nd ∧ inflight w' s' hn Q') as Htr'.
  { intros Q0 Hs0 Hc0. destruct (Htr Q0 Hs0 Hc0) as [?|[(t & ? & ?)|?]].
    - by left.
    - right. left. split; [done|]. by exists q', t.
    - right. right. done. }
  destruct (Hcl k0 h hn0 Q' Hk0 Hh0 Hsucc) as [?|[(Hop & q0 & t & Hq0 & Ht & Hc)|[Hc0 Hfl]]].
  - by left.
  - destruct (decide (tree hn0 = tree hn)) as [Heq|Hne].
    + assert (h = Nd) as -> by (eapply (ls_trees _ _ Hl k0 h hn0 k Nd hn); eauto).
      assert (hn0 = hn) as -> by congruence. assert (q0 = q) as -> by congruence.
      apply Htr'; [done|]. left. eauto.
    + right. left. split; [done|]. exists q0, t. rewrite Hfr by done.
      split_and!; try done. by eapply cchain_shape.
  - assert (h = Nd) as -> by congruence. assert (hn0 = hn) as -> by congruence.
    apply Htr'; [done|]. by right.
Qed.

Lemma node_weight_frame b N w w' s k h hn q :
  live_state w s → hlnodes w' = hlnodes w →
  same_shape (llnodes w) (llnodes w') →
  explored s !! k = Some h → hlnodes w !! h = Some hn →
  arrays w !! tree hn = Some q → arrays w' !! tree hn = arrays w !! tree hn →
  node_weight b N w' h = node_weight b N w h.
Proof.
  intros Hl Hhl Hsh Hk Hhn Hq Harr. unfold node_weight. rewrite Hhl, Hhn, Harr, Hq.
  simpl. rewrite (queue_weight_shape b N (llnodes w) (llnodes w')); [done|done|].
  intros t Ht. destruct (ls_explored _ _ Hl k h Hk) as [(hn2 & q2 & ? & _ & ? & Hch & _)].
  simplify_eq. eapply lchain_alloc. eauto.
Qed.

(** The weight of Open after a write to the queue of its last node:
    only that node weighs differently. *)
Lemma open_weight_queue b N w w' s Nd hn q q' :
  live_state w s →
  hlnodes w' = hlnodes w → same_shape (llnodes w) (llnodes w') →
  last (open s) = Some Nd → hlnodes w !! Nd = Some hn →
  arrays w !! tree hn = Some q → arrays w' !! tree hn = Some q' →
  (∀ a, a ≠ tree hn → arrays w' !! a = arrays w !! a) →
  sum_list (node_weight b N w' <$> open s) + 2 * queue_weight b N (llnodes w) q
  = sum_list (node_weight b N w <$> open s) + 2 * queue_weight b N (llnodes w') q'.
Proof.
  intros Hl Hhl Hsh Hlast Hhn Hq Hq' Hfr.
  pose proof (ls_open_nodup _ _ Hl) as Hnd.
  pose proof (ls_open _ _ Hl) as Hopen.
  rewrite (last_Some_snoc _ _ Hlast) in Hnd, Hopen |- *.
  set (pre := removelast (open s)) in *. clearbody pre.
  rewrite !sum_list_fmap_snoc.
  assert (sum_list (node_weight b N w' <$> pre) = sum_list (node_weight b N w <$> pre)) as ->.
  { apply sum_list_fmap_ext. intros h Hh.
    destruct (Hopen h) as [k Hk]; [set_solver|].
    destruct (Hopen Nd) as [kN HkN]; [set_solver|].
    destruct (ls_explored _ _ Hl k h Hk) as [(hn2 & q2 & Hhn2 & _ & Hq2 & _)].
    eapply node_weight_frame; eauto. apply Hfr. intros Heq.
    assert (h = Nd) as -> by (eapply (ls_trees _ _ Hl k h hn2 kN Nd hn); eauto).
    apply NoDup_app in Hnd as (_ & Hdis & _). apply (Hdis Nd Hh). set_solver. }
  unfold node_weight. rewrite Hhl, Hhn, Hq, Hq'. simpl default. lia.
Qed.

Lemma wt_levels_pos b k : 1 ≤ wt_levels b k.
Proof. destruct k; simpl; lia. Qed.

Lemma wt_pos b N d : 1 ≤ wt b N d.
Proof. apply wt_levels_pos. Qed.

Lemma wt_unfold b N d : d < N → wt b N d = 1 + b * wt b N (S d).
Proof.
  intros Hd. unfold wt. replace (N - d) with (S (N - S d)) by lia. done.
Qed.

Lemma ll_weight_pos b N ll t : is_Some (ll !! t) → 1 ≤ ll_weight b N ll t.
Proof. intros [n Hn]. unfold ll_weight. rewrite Hn. apply wt_pos. Qed.

(** *** The invariant reads the store, the graph and the agents only *)

Lemma live_state_same w w' s : same_store w w' → live_state w s → live_state w' s.
Proof.
  intros [Hll Harr Hhl Hg Hag] [Hnd Hopen Hex Htr Hcur Hcl Hrun Hsol Hcnt Hcov].
  assert (∀ Q a, lchain w Q a → lchain w' Q a) as Hch.
  { intros Q a. apply lchain_shape; [|done]. rewrite Hll. apply same_shape_refl. }
  constructor; rewrite ?Hll, ?Hhl, ?Hg, ?Hag; try done.
  - intros k h Hk. destruct (Hex k h Hk) as [(hn & q & ? & ? & ? & ? & ? & ?)].
    constructor. unfold origin_ok. rewrite Hhl, Harr, Hg, Hag. exists hn, q.
    split_and!; try done. auto.
  - intros Hst. specialize (Hrun Hst). unfold phase_inv in *.
    rewrite Hhl, Harr, Hg, Hag. destruct (phase s); try done.
    + destruct Hrun as (Nd & hn & C & ? & ? & ? & ? & ?). exists Nd, hn, C.
      split_and!; try done. auto.
    + destruct Hrun as (Nd & hn & C & ? & ? & ? & ? & ?). exists Nd, hn, C.
      split_and!; try done. auto.
  - intros Hwf. eapply (coverage_frame w w'); try done; [| |by auto].
    + intros k h hn Hk Hh. rewrite Hhl, Harr. done.
    + rewrite Hll. apply same_shape_refl.
Qed.

Lemma search_weight_same b N cap w w' s :
  same_store w w' → search_weight b N cap w' s = search_weight b N cap w s.
Proof.
  intros [Hll Harr Hhl Hg Hag]. unfold search_weight, pending, node_weight.
  by rewrite Hll, Harr, Hhl.
Qed.

(** A phase that writes to the store [w'] and then assigns to the
    state. *)
Lemma advances_store b N cap w s w' W' s' bo :
  same_store w' W' → state W' = Some s' →
  live_state w' s' → stepNumber s' = stepNumber s →
  (if bo : bool then status s' = running
                     ∧ (search_weight b N cap w' s' < search_weight b N cap w s
                        ∨ (search_weight b N cap w' s' ≤ search_weight b N cap w s
                           ∧ rank (phase s') < rank (phase s)))
   else status s' ≠ running) →
  advances b N cap w s (Val bo) W'.
Proof.
  intros Hss Hs' Hl Hn Hm. exists bo, s'.
  split; [done|]. split; [done|]. split; [by eapply live_state_same|].
  split; [done|]. destruct bo; [|done]. destruct Hm as [? Hm]. split; [done|].
  unfold measure_of. rewrite (search_weight_same b N cap w' W' s' Hss).
  pose proof (rank_le (phase s')). lia.
Qed.

(** *** [stepPopConstraint] *)

Lemma stepPopConstraint_live b N cap w s :
  store_ok w →
  state w = Some s → live_state w s →
  status s = running → phase s = ph_pop_constraint →
  wp stepPopConstraint w (advances b N cap w s).
Proof.
  intros Hok Hs Hl Hst Hph.
  pose proof (ls_running _ _ Hl Hst) as Hinv. unfold phase_inv in Hinv.
  rewrite Hph in Hinv. destruct Hinv as (Nd & hn & q & HN & Hlast & Hhn & Hq & Hne).
  destruct (ls_current _ _ Hl Nd HN) as [k Hk].
  destruct (ls_explored _ _ Hl k Nd Hk) as [(hn' & q' & Hhn' & _ & Hq' & Hch & Hcfg & _)].
  simplify_eq. destruct q as [|C rest]; [done|]. clear Hne.
  destruct (lchain_alloc _ _ _ (Hch C ltac:(set_solver))) as [c Hc].
  assert (Nd ∈ open s) as HNd.
  { rewrite (last_Some_snoc _ _ Hlast). set_solver. }
  unfold stepPopConstraint. wp_run.
  set (w' := with_llnodes <[C:=set_flags true true c]> (with_arrays <[tree hn:=rest]> w)).
  assert (same_shape (llnodes w) (llnodes w')) as Hsh.
  { simpl. by eapply same_shape_insert. }
  assert (arrays w' !! tree hn = Some rest) as Hq' by (simpl; by rewrite lookup_insert_eq).
  assert (∀ a, a ≠ tree hn → arrays w' !! a = arrays w !! a) as Hfr.
  { intros a Ha. simpl. by rewrite lookup_insert_ne. }
  eapply (advances_store _ _ _ _ _ w'); [by split|done| |done|].
  - eapply (live_state_queue w w' s _ k Nd hn (C :: rest) rest); try done; simpl.
    + intros t Ht. eapply lchain_shape; [exact Hsh|done|]. apply Hch. set_solver.
    + intros c0 [= <-]. rewrite lookup_insert_eq. eauto.
    + intros _. unfold phase_inv. simpl. exists Nd, hn, C. split_and!; try done.
      eapply lchain_shape; [exact Hsh|done|]. apply Hch. set_solver.
    + congruence.
    + intros Hwf. eapply (coverage_queue w w' s _ k Nd hn (C :: rest) rest); try done.
      intros Q' Hsucc [(t & Ht & Hc0)|Hfl].
      2:{ unfold inflight in Hfl. by rewrite Hph in Hfl. }
      apply (cchain_shape _ _ _ _ _ Hsh) in Hc0.
      apply elem_of_cons in Ht as [->|Ht].
      * right. right. unfold inflight. simpl. eauto.
      * right. left. eauto.
  - split; [done|]. left.
    pose proof (open_weight_queue b N w w' s Nd hn (C :: rest) rest Hl eq_refl Hsh
                  Hlast Hhn Hq Hq' Hfr) as Hsum.
    unfold search_weight, pending. state_simpl. rewrite Hph.
    rewrite (ll_weight_shape b N (llnodes w) (llnodes w')) by eauto.
    pose proof (ll_weight_pos b N (llnodes w) C ltac:(eauto)).
    rewrite (queue_weight_shape b N (llnodes w) (llnodes w') rest) in Hsum.
    2:{ done. }
    2:{ intros t Ht. eapply lchain_alloc. apply Hch. set_solver. }
    change (C :: rest) with ([C] ++ rest) in Hsum. rewrite queue_weight_app in Hsum.
    unfold queue_weight at 1 in Hsum. simpl in Hsum. lia.
Qed.

(** *** [stepExpandTree] *)

Lemma keeps_stepExpandTree : keeps_inputs stepExpandTree.
Proof. unfold stepExpandTree, add_child. keeps_tac. Qed.

Lemma getNeighbors_max_degree g v : length (getNeighbors g v) ≤ max_degree g.
Proof.
  destruct v as [| |v]; simpl; try lia.
  destruct (adjacency g !! v) as [l|] eqn:Hl; simpl; [|lia].
  apply max_list_elem_of_le. apply list_elem_of_fmap. exists l. split; [done|].
  apply list_elem_of_fmap. exists (v, l). split; [done|].
  by apply elem_of_map_to_list.
Qed.

Lemma queue_weight_const b N ll l x :
  (∀ t, t ∈ l → ll_weight b N ll t = x) → queue_weight b N ll l = length l * x.
Proof.
  induction l as [|t l IH]; intros Hl; [done|].
  change (t :: l) with ([t] ++ l). rewrite queue_weight_app, IH.
  - unfold queue_weight. simpl. rewrite Hl by set_solver. lia.
  - intros t' Ht'. apply Hl. set_solver.
Qed.

Lemma expanded_shape w w' C c t q a moves :
  store_ok w → llnodes w !! C = Some c →
  expanded_by w w' C c t q a moves → same_shape (llnodes w) (llnodes w').
Proof.
  intros Hok HC Hexp x n Hx. destruct (decide (x = C)) as [->|Hne].
  - rewrite (exp_node _ _ _ _ _ _ _ _ Hexp). eexists. split; [done|].
    assert (n = c) as -> by congruence. done.
  - exists n. rewrite (exp_ll_frame _ _ _ _ _ _ _ _ Hexp); [done| |done].
    by eapply ok_ll_lt.
Qed.

Lemma stepExpandTree_live cap w s :
  store_ok w →
  state w = Some s → live_state w s →
  status s = running → phase s = ph_expand_tree →
  wp stepExpandTree w
    (advances (branching (graph w)) (length (agents w)) cap w s).
Proof.
  intros Hok Hs Hl Hst Hph.
  set (b := branching (graph w)). set (N := length (agents w)).
  pose proof (ls_running _ _ Hl Hst) as Hinv. unfold phase_inv in Hinv.
  rewrite Hph in Hinv. destruct Hinv as (Nd & hn & C & HN & Hlast & Hhn & HC & HchC).
  destruct (ls_current _ _ Hl Nd HN) as [k Hk].
  destruct (ls_explored _ _ Hl k Nd Hk) as [(hn' & q & Hhn' & _ & Hq & Hch & Hcfg & _)].
  simplify_eq.
  destruct (lchain_alloc _ _ _ HchC) as [c Hc].
  pose proof (ok_ll_lt w Hok C c Hc) as HClt.
  pose proof (ll_depth _ _ _ (ok_ll _ Hok) C c Hc) as Hdepth. fold N in Hdepth.
  destruct (decide (depth c < length (agents w))) as [Hd|Hd].
  - destruct (stepExpandTree_expand w s C c Nd hn q Hs HC Hc HClt HN Hhn Hq Hd)
      as (w1 & Hrun & Hexp).
    pose proof (keeps_stepExpandTree w) as [Hg Hag]. rewrite Hrun in Hg, Hag.
    simpl in Hg, Hag.
    set (a := order_at (order hn) (depth c)) in *.
    set (v := config_get (config hn) a) in *.
    set (moves := v :: (Num <$> getNeighbors (graph w) v)) in *.
    pose proof (expanded_shape _ _ _ _ _ _ _ _ Hok Hc Hexp) as Hsh.
    assert (∀ t, t ∈ seq (next w) (length moves) →
                 ∃ i mv, t = next w + i ∧ moves !! i = Some mv
                         ∧ llnodes w1 !! t
                           = Some (mkLL (llNodeIdCounter w + i) (Some C) a mv []
                                     (S (depth c)) false false)) as Hnew.
    { intros t [Ht1 Ht2]%elem_of_seq.
      destruct (lookup_lt_is_Some_2 moves (t - next w)) as [mv Hmv]; [lia|].
      exists (t - next w), mv. split; [lia|]. split; [done|].
      rewrite <- (exp_child _ _ _ _ _ _ _ _ Hexp _ _ Hmv). f_equal. lia. }
    eapply wp_eq; [exact Hrun|].
    eapply (advances_store _ _ _ _ _ w1); [by split|done| |done|].
    + eapply (live_state_queue w w1 s _ k Nd hn q (q ++ seq (next w) (length moves)));
        try done.
      * apply Hexp.
      * apply Hexp.
      * intros x Hx. by apply (exp_arr_frame _ _ _ _ _ _ _ _ Hexp).
      * intros t [Ht|Ht]%elem_of_app.
        { eapply lchain_shape; [exact Hsh|done|auto]. }
        destruct (Hnew t Ht) as (i & mv & -> & Hmv & Hnode).
        eapply lchain_child; [exact Hnode|apply order_at_not_Null|done|simpl; lia| |].
        { eapply lchain_shape; [exact Hsh|done|auto]. }
        simpl. rewrite Hg. apply list_elem_of_lookup_2 in Hmv.
        apply elem_of_cons in Hmv as [->|Hmv]; [by left|right].
        apply list_elem_of_fmap in Hmv as (n & -> & Hn). eauto.
      * simpl. intros c0 Hc0. assert (c0 = C) as -> by congruence.
        destruct (Hsh C c Hc) as (c' & Hc' & _). eauto.
      * intros _. unfold phase_inv. simpl. rewrite (exp_hl _ _ _ _ _ _ _ _ Hexp).
        exists Nd, hn, C. split_and!; try done.
        eapply lchain_shape; [exact Hsh|done|auto].
      * simpl. congruence.
      * intros Hwf Hcv.
        eapply (coverage_queue w w1 s _ k Nd hn q (q ++ seq (next w) (length moves)));
          try done; try apply Hexp.
        { rewrite (last_Some_snoc _ _ Hlast). set_solver. }
        intros Q' Hsucc [(t & Ht & Hc0)|Hfl].
        { right. left. exists t. split; [set_solver|]. by eapply cchain_shape. }
        unfold inflight in Hfl. rewrite Hph in Hfl. destruct Hfl as (C' & HC' & Hcc).
        assert (C' = C) as -> by congruence.
        pose proof (cv_order _ _ Hcv k Nd hn Hk Hhn) as Hord.
        destruct (lookup_lt_is_Some_2 (order hn) (depth c)) as [i Hi].
        { rewrite Hord, length_seq. done. }
        assert (i < length (agents w)) as Hilt.
        { assert (i ∈ seq 0 (length (agents w))) as Hin
            by (rewrite <- Hord; by eapply list_elem_of_lookup_2).
          apply elem_of_seq in Hin. lia. }
        assert (a = Num i) as Ha by (subst a; unfold order_at; by rewrite Hi).
        assert (config_get Q' a ∈ moves) as [j Hj]%list_elem_of_lookup.
        { destruct Hsucc as [_ _ Hmv _ _]. specialize (Hmv i Hilt).
          rewrite Ha. subst moves v. rewrite Ha.
          destruct Hmv as [->|(n & Hn & ->)]; [apply list_elem_of_here|].
          apply list_elem_of_further. apply list_elem_of_fmap. eauto. }
        right. left. exists (next w + j). split.
        { apply elem_of_app. right. apply elem_of_seq.
          apply lookup_lt_Some in Hj. lia. }
        destruct (Hsh C c Hc) as (c' & Hc' & _ & _ & _ & Hd').
        eapply cchain_child;
          [exact (exp_child _ _ _ _ _ _ _ _ Hexp _ _ Hj)|done|simpl; lia|exact Hc'
          |simpl; by rewrite Hd'|simpl; by rewrite Hd'|done|].
        by eapply cchain_shape.
    + split; [done|]. left.
      pose proof (open_weight_queue b N w w1 s Nd hn q _ Hl
                    (exp_hl _ _ _ _ _ _ _ _ Hexp) Hsh Hlast Hhn Hq
                    (exp_queue _ _ _ _ _ _ _ _ Hexp)
                    (λ x Hx, exp_arr_frame _ _ _ _ _ _ _ _ Hexp x Hx)) as Hsum.
      rewrite queue_weight_app in Hsum.
      rewrite (queue_weight_shape b N (llnodes w) (llnodes w1) q) in Hsum.
      2:{ done. }
      2:{ intros t Ht. eapply lchain_alloc. by apply Hch. }
      rewrite (queue_weight_const b N (llnodes w1) _ (wt b N (S (depth c)))) in Hsum.
      2:{ intros t Ht. destruct (Hnew t Ht) as (i & mv & -> & Hmv & Hnode).
          unfold ll_weight. by rewrite Hnode. }
      rewrite length_seq in Hsum.
      unfold search_weight, pending. state_simpl. rewrite Hph, HC.
      unfold ll_weight. rewrite Hc. simpl from_option.
      rewrite (wt_unfold b N (depth c)) by done.
      assert (length moves ≤ b) as Hmb.
      { subst moves b. simpl. rewrite length_fmap. unfold branching.
        pose proof (getNeighbors_max_degree (graph w) v). lia. }
      pose proof (Nat.mul_le_mono_r _ _ (wt b N (S (depth c))) Hmb). lia.
  - eapply wp_eq; [apply (stepExpandTree_full w s C c Hs HC Hc); lia|].
    eapply (advances_store _ _ _ _ _ w); [by split|done| |done|].
    + eapply live_state_state;
        [exact Hl|apply Hl|done|done|apply Hl|apply Hl| | |done|done|]; simpl.
      * intros _. unfold phase_inv. simpl. exists Nd, hn, C. done.
      * congruence.
      * intros Hwf Hcv. eapply coverage_state; [exact Hcv|done|done| |simpl; congruence].
        intros k0 h hn0 Q' Hk0 Hh0 Hsucc Hcur Hfl. right. split; [done|].
        unfold inflight in *. simpl. rewrite Hph in Hfl.
        destruct Hfl as (C' & HC' & Hcc). assert (C' = C) as -> by congruence.
        exists C, c. split_and!; try done. lia.
    + split; [done|]. left. unfold search_weight, pending. state_simpl. rewrite Hph, HC.
      pose proof (ll_weight_pos b N (llnodes w) C ltac:(eauto)). lia.
Qed.

(** *** The keys of Explored *)

Lemma elem_of_tuples {A} (U : list A) n l :
  length l = n → Forall (λ x, x ∈ U) l → l ∈ tuples U n.
Proof.
  revert l. induction n as [|n IH]; intros [|x l]; simpl; try done.
  - intros _ _. set_solver.
  - intros [= Hlen] [Hx Hl]%Forall_cons. apply list_elem_of_bind.
    exists x. split; [|done]. apply list_elem_of_fmap. exists l. split; [done|]. by apply IH.
Qed.

Lemma config_ok_keyspace g ags Q : config_ok g ags Q → hash Q ∈ keyspace g ags.
Proof.
  intros [Hlen Hall]. unfold keyspace. apply elem_of_list_to_set.
  apply list_elem_of_fmap. exists (locations Q). split; [by destruct Q|].
  apply list_elem_of_bind. exists (length (locations Q)).
  split; [by apply elem_of_tuples|]. apply elem_of_seq. lia.
Qed.

Lemma explored_keyspace w s :
  live_state w s → dom (explored s) ⊆ keyspace (graph w) (agents w).
Proof.
  intros Hl k [h Hk]%elem_of_dom.
  destruct (ls_explored _ _ Hl k h Hk) as [(hn & q & _ & -> & _ & _ & Hcfg & _)].
  by apply config_ok_keyspace.
Qed.

Lemma explored_room w s Q :
  live_state w s → config_ok (graph w) (agents w) Q →
  explored s !! hash Q = None →
  size (explored s) < size (keyspace (graph w) (agents w)).
Proof.
  intros Hl HQ Hnone. rewrite <- size_dom. apply subset_size.
  split; [by eapply explored_keyspace|].
  intros Hsub. apply not_elem_of_dom in Hnone. apply Hnone, Hsub.
  by apply config_ok_keyspace.
Qed.

(** *** A new node of Explored *)

Lemma coverage_push w s s' h hn c0 n0 :
  explored s !! hash (config hn) = None →
  hlnodes w !! h = Some hn →
  (∀ k' h', explored s !! k' = Some h' → h' ≠ h) →
  arrays w !! tree hn = Some [c0] → llnodes w !! c0 = Some n0 →
  who n0 = Null → depth n0 = 0 →
  order hn ≡ₚ seq 0 (length (agents w)) →
  open s' = open s ++ [h] →
  explored s' = <[hash (config hn) := h]> (explored s) →
  phase s = ph_check → generatedConfig s = Some (config hn) →
  phase s' = ph_select → status s' = running →
  coverage w s → coverage w s'.
Proof.
  intros Hnone Hhn Hfresh Harr Hc0 Hwho Hd0 Hord' Ho He Hph HQ Hph' Hst'
    [Hcs Hord Hcl Hng Hns].
  assert (∀ k', is_Some (explored s !! k') →
                is_Some (<[hash (config hn) := h]> (explored s) !! k')) as Hmono.
  { intros k' Hk'. apply lookup_insert_is_Some'. by right. }
  constructor; rewrite ?Ho, ?He.
  - by apply Hmono.
  - intros k0 h0 hn0 [[<- <-]|[Hne Hk0]]%lookup_insert_Some Hh0.
    + by simplify_eq.
    + eapply Hord; eauto.
  - intros k0 h0 hn0 Q' [[<- <-]|[Hne Hk0]]%lookup_insert_Some Hh0 Hsucc.
    + simplify_eq. right. left. split; [set_solver|]. exists [c0], c0.
      split_and!; [done|set_solver|]. by eapply cchain_root.
    + destruct (Hcl k0 h0 hn0 Q' Hk0 Hh0 Hsucc) as [?|[(Hop & Hq)|[Hcur Hfl]]].
      * left. by apply Hmono.
      * right. left. split; [set_solver|done].
      * left. unfold inflight in Hfl. rewrite Hph in Hfl.
        assert (Q' = config hn) as -> by congruence.
        rewrite lookup_insert_eq. eauto.
  - intros k0 h0 hn0 [[<- <-]|[Hne Hk0]]%lookup_insert_Some Hh0 Hnot.
    + exfalso. apply Hnot. set_solver.
    + eapply Hng; eauto. set_solver.
  - congruence.
Qed.

Lemma live_state_push w s s' h hn c0 n0 pN pn K :
  live_state w s →
  explored s !! hash (config hn) = None →
  hlnodes w !! h = Some hn →
  (∀ k' h' hn', explored s !! k' = Some h' → hlnodes w !! h' = Some hn' →
                h' < h ∧ tree hn' ≠ tree hn) →
  arrays w !! tree hn = Some [c0] → llnodes w !! c0 = Some n0 → who n0 = Null →
  config_ok (graph w) (agents w) (config hn) →
  parent hn = Some pN → currentHighLevelNode s = Some pN →
  hlnodes w !! pN = Some pn →
  constraint_moves (graph w) (config pn) K →
  generateConfig (graph w) (agents w) (config pn) K = Some (config hn) →
  open s' = open s ++ [h] →
  explored s' = <[hash (config hn) := h]> (explored s) →
  currentHighLevelNode s' = currentHighLevelNode s →
  currentLowLevelNode s' = currentLowLevelNode s →
  phase s' = ph_select → status s' = running →
  nodesGenerated s' = S (nodesGenerated s) →
  configurationsExplored s' = S (configurationsExplored s) →
  (ids_wf (agents w) → coverage w s → coverage w s') →
  live_state w s'.
Proof.
  intros Hl Hnone Hhn Hold Harr Hc0 Hwho Hcfg Hpar HcurN Hpn HK Hgen Ho He Hc Hcl Hph Hst
    Hng Hce Hcov'.
  assert (∀ k' h', explored s !! k' = Some h' →
                   <[hash (config hn) := h]> (explored s) !! k' = Some h') as Hkeep.
  { intros k' h' Hk'. rewrite lookup_insert_ne; [done|]. intros <-. congruence. }
  assert (∀ k' h', explored s !! k' = Some h' → h' < h) as Hlt.
  { intros k' h' Hk'.
    destruct (ls_explored _ _ Hl k' h' Hk') as [(hn' & ? & Hhn' & _)].
    by destruct (Hold k' h' hn' Hk' Hhn'). }
  constructor; rewrite ?Ho, ?He, ?Hc, ?Hcl, ?Hng, ?Hce.
  - apply NoDup_app. split; [apply Hl|]. split; [|apply NoDup_singleton].
    intros x Hx Hx2%list_elem_of_singleton. subst x.
    destruct (ls_open _ _ Hl h Hx) as [k' Hk']. specialize (Hlt k' h Hk'). lia.
  - intros x [Hx|Hx%list_elem_of_singleton]%elem_of_app.
    + destruct (ls_open _ _ Hl x Hx) as [k' Hk']. eauto.
    + subst x. exists (hash (config hn)). by rewrite lookup_insert_eq.
  - intros k' h' [[<- <-]|[Hne Hk']]%lookup_insert_Some.
    + constructor. exists hn, [c0]. split_and!; try done.
      * intros t Ht%list_elem_of_singleton. subst t. by eapply lchain_root.
      * right. destruct (ls_current _ _ Hl pN HcurN) as [k0 Hk0].
        destruct (ls_explored _ _ Hl k0 pN Hk0) as [(pn' & ? & Hpn' & -> & _)].
        assert (pn' = pn) as -> by congruence.
        exists pN, pn, K. split_and!; eauto.
    + destruct (ls_explored _ _ Hl k' h' Hk') as [(hn' & q' & ? & ? & ? & ? & ? & Hor)].
      constructor. exists hn', q'. split_and!; try done.
      destruct Hor as [?|(p & pn' & K' & ? & ? & ? & ? & ? & ?)]; [by left|right].
      exists p, pn', K'. split_and!; eauto.
  - intros k1 h1 hn1 k2 h2 hn2
      [[<- <-]|[Hne1 Hk1]]%lookup_insert_Some [[<- <-]|[Hne2 Hk2]]%lookup_insert_Some
      Hh1 Hh2 Ht; try done.
    + destruct (Hold k2 h2 hn2 Hk2 Hh2) as [_ Hd]. simplify_eq; congruence.
    + destruct (Hold k1 h1 hn1 Hk1 Hh1) as [_ Hd]. simplify_eq; congruence.
    + eapply (ls_trees _ _ Hl k1 h1 hn1 k2 h2 hn2); eauto.
  - intros x Hx. destruct (ls_current _ _ Hl x Hx) as [k' Hk']. eauto.
  - apply Hl.
  - intros _. unfold phase_inv. by rewrite Hph.
  - congruence.
  - rewrite map_size_insert_None by done. destruct (ls_counters _ _ Hl) as [-> ->]. done.
  - intros Hwf. apply Hcov'; [done|]. by apply (ls_cover _ _ Hl).
Qed.

(** *** [stepCheck] *)

Lemma getInitOrder_perm g ags :
  ids_wf ags → getInitOrder g ags ≡ₚ seq 0 (length ags).
Proof.
  intros Hwf. unfold getInitOrder. rewrite sort_perm, <- list_fmap_compose.
  by rewrite <- Hwf.
Qed.

Lemma getOrder_perm g ags Q :
  ids_wf ags → getOrder g ags Q ≡ₚ seq 0 (length ags).
Proof.
  intros Hwf. unfold getOrder. rewrite sort_perm, <- list_fmap_compose.
  by rewrite <- Hwf.
Qed.

Lemma stepCheck_live b w s :
  store_ok w →
  state w = Some s → live_state w s →
  status s = running → phase s = ph_check →
  wp stepCheck w
    (advances b (length (agents w)) (size (keyspace (graph w) (agents w))) w s).
Proof.
  intros Hok Hs Hl Hst Hph.
  set (N := length (agents w)). set (cap := size (keyspace (graph w) (agents w))).
  pose proof (ls_running _ _ Hl Hst) as Hinv. unfold phase_inv in Hinv.
  rewrite Hph in Hinv.
  destruct Hinv as (Nd & pn & Q & K & HN & Hpn & HQ & HQok & HK & Hgen).
  unfold stepCheck. wp_step. wp_step. simpl. simplify_eq. 2:{ simpl; congruence. }
  wp_step. wp_step. 2:{ simpl; congruence. } simpl. simplify_eq.
  destruct (decide (is_Some (explored s !! hash Q))) as [Hdup|Hnew].
  - wp_run.
    eapply advances_state; [done|ext_state|done| |done|].
    + eapply live_state_state;
        [exact Hl|apply Hl|done|done|apply Hl|apply Hl| | |done|done|]; simpl;
        [done|congruence|].
      intros Hwf Hcv. eapply coverage_state; [exact Hcv|done|done| |simpl; congruence].
      intros k0 h hn0 Q' Hk0 Hh0 Hsucc Hcur Hfl. left.
      unfold inflight in Hfl. rewrite Hph in Hfl. congruence.
    + split; [done|]. apply measure_lt_rank; [|state_simpl; rewrite Hph; simpl; lia].
      unfold search_weight, pending. state_simpl. rewrite Hph. lia.
  - apply eq_None_not_Some in Hnew.
    repeat (wp_step; simpl;
            try match goal with
                | H : state _ = None |- _ => simpl in H; congruence
                | H : state _ = Some _ |- _ => simpl in H; simplify_eq
                | H : _ = 0 |- _ => subst
                end).
    match goal with
    | |- advances _ _ _ _ _ _
           (with_state _ (with_state _ (with_state _ (with_state _
              (with_state _ ?x))))) => set (w' := x)
    end.
    assert (extends w w') as Hext by (subst w'; ext_peel).
    pose proof (live_state_extends w w' s Hok Hext Hl) as Hl'.
    pose proof (ok_hl_lt w Hok Nd pn Hpn) as HNdlt.
    assert (hlnodes w' !! Nd = Some pn) as Hpn'.
    { subst w'. simpl. rewrite lookup_insert_ne by lia. done. }
    set (hn := mkHL (hlNodeIdCounter w) Q (S (next w)) (Some (next w))
                 (getOrder (graph w) (agents w) Q) (currentHighLevelNode s)).
    assert (hlnodes w' !! S (S (next w)) = Some hn) as Hhn.
    { subst w'. simpl. by rewrite lookup_insert_eq. }
    assert (∀ k' h' hn', explored s !! k' = Some h' → hlnodes w' !! h' = Some hn' →
                         h' < S (S (next w)) ∧ tree hn' ≠ tree hn) as Hold.
    { intros k' h' hn' Hk' Hh'.
      destruct (ls_explored _ _ Hl k' h' Hk') as [(hn0 & q0 & Hhn0 & _ & Hq0 & _)].
      pose proof (ok_hl_lt w Hok _ _ Hhn0). pose proof (ok_arr_lt w Hok _ _ Hq0).
      subst w'. simpl in Hh'. rewrite lookup_insert_ne in Hh' by lia.
      simplify_eq. simpl. lia. }
    assert (arrays w' !! tree hn = Some [next w]) as Harr.
    { subst w'. simpl. by rewrite lookup_insert_eq. }
    assert (llnodes w' !! next w
            = Some (mkLL (llNodeIdCounter w) None Null Null [] 0 false false)) as Hc0.
    { subst w'. simpl. by rewrite lookup_insert_eq. }
    eapply (advances_store _ _ _ _ _ w'); [by split|done| |done|].
    + eapply (live_state_push w' s _ (S (S (next w))) hn (next w) _ Nd pn K Hl');
        try done.
      intros Hwf. eapply (coverage_push w' s _ (S (S (next w))) hn (next w)); try done.
      * intros k' h' Hk' ->.
        destruct (ls_explored _ _ Hl' k' _ Hk') as [(hn0 & q0 & Hhn0 & _)].
        destruct (Hold k' _ hn0 Hk' Hhn0). lia.
      * simpl. by apply getOrder_perm.
    + split; [done|]. right. split; [|state_simpl; rewrite Hph; simpl; lia].
      unfold search_weight, pending. state_simpl. rewrite Hph.
      rewrite sum_list_fmap_snoc.
      assert (node_weight b N w' (S (S (next w))) = 1 + 2 * wt b N 0) as ->.
      { unfold node_weight. rewrite Hhn, Harr.
        change (default [] (Some [next w])) with [next w].
        unfold queue_weight, ll_weight. cbn [fmap list_fmap]. rewrite Hc0. simpl. lia. }
      assert (sum_list (node_weight b N w' <$> open s)
              = sum_list (node_weight b N w <$> open s)) as ->.
      { apply sum_list_fmap_ext. intros h Hh.
        destruct (ls_open _ _ Hl h Hh) as [k' Hk'].
        eapply node_weight_extends; [done|done|]. eapply (ls_explored _ _ Hl); eauto. }
      rewrite map_size_insert_None by done.
      pose proof (explored_room w s Q Hl HQok Hnew) as Hroom. fold cap in Hroom.
      replace (cap - size (explored s)) with (S (cap - S (size (explored s)))) by lia.
      rewrite Nat.mul_succ_r. lia.
Qed.

(** *** [step] *)

Lemma live_snapshot_ready w s : state w = Some s → live_state w s → snapshot_ready w.
Proof.
  intros Hs Hl.
  assert (∀ k h, explored s !! k = Some h → node_ready h w) as Hready.
  { intros k h Hk.
    destruct (ls_explored _ _ Hl k h Hk) as [(hn & q & Hhn & _ & Hq & Hch & _ & Hor)].
    exists hn, q. split_and!; try done.
    - intros t Ht. eapply lchain_alloc. eauto.
    - intros p Hp. destruct Hor as [[? _]|(p' & pn & K & ? & _ & _ & ? & _)]; [congruence|].
      simplify_eq. eauto. }
  exists s. split_and!; try done.
  - intros h Hh. destruct (ls_open _ _ Hl h Hh) as [k Hk]. eauto.
  - intros h Hh. destruct (ls_current _ _ Hl h Hh) as [k Hk].
    destruct (Hready k h Hk) as (hn & _ & ? & _). eauto.
  - apply Hl.
Qed.

Lemma advances_mono b N cap w s w0 s0 r w' :
  measure_of b N cap w s = measure_of b N cap w0 s0 →
  stepNumber s = S (stepNumber s0) →
  advances b N cap w s r w' →
  ∃ bo s', r = Val bo ∧ state w' = Some s' ∧ live_state w' s'
           ∧ stepNumber s' = S (stepNumber s0)
           ∧ if bo : bool then status s' = running
                        ∧ measure_of b N cap w' s' < measure_of b N cap w0 s0
             else status s' ≠ running.
Proof.
  intros Hm Hn (bo & s' & ? & ? & ? & ? & Hbo). exists bo, s'.
  split_and!; try done; [congruence|]. destruct bo; [|done]. by rewrite <- Hm.
Qed.

Lemma step_live w s :
  store_ok w → state w = Some s → live_state w s → status s = running →
  wp step w
    (λ r w',
       ∃ bo s', r = Val bo ∧ state w' = Some s' ∧ live_state w' s'
                ∧ stepNumber s' = S (stepNumber s)
                ∧ if bo : bool
                  then status s' = running
                       ∧ measure_of (branching (graph w)) (length (agents w))
                           (size (keyspace (graph w) (agents w))) w' s'
                         < measure_of (branching (graph w)) (length (agents w))
                             (size (keyspace (graph w) (agents w))) w s
                  else status s' ≠ running).
Proof.
  intros Hok Hs Hl Hst.
  unfold step. wp_step. wp_step; [|congruence]. simplify_eq.
  case_decide; [done|]. wp_step.
  eapply wp_mono; [by apply saveHistory_spec|].
  intros r w2 (Hok2 & Hext & Hst2 & Hres).
  destruct r as [[]|e].
  2:{ destruct Hres as [_ Hnr]. exfalso. apply Hnr. by eapply live_snapshot_ready. }
  rewrite Hs in Hst2. clear Hres.
  wp_step. wp_step; [|congruence]. simplify_eq.
  set (s3 := set_stepNumber (S (stepNumber s)) s).
  set (w3 := with_state (Some s3) w2).
  assert (store_ok w3) as Hok3 by (by apply ok_with_state).
  assert (extends w w3) as Hext3 by (by apply ext_with_state).
  assert (live_state w3 s3) as Hl3.
  { apply (live_state_stepNumber w3 s). exact (live_state_extends w w3 s Hok Hext3 Hl). }
  assert (graph w3 = graph w) as Hg by apply Hext.
  assert (agents w3 = agents w) as Hag by apply Hext.
  assert (∀ b N cap, measure_of b N cap w3 s3 = measure_of b N cap w s) as Hm.
  { intros. unfold s3. rewrite measure_of_stepNumber.
    exact (measure_of_extends _ _ _ w w3 s Hok Hext3 Hl). }
  wp_step. wp_step; [|done].
  match goal with
  | Hs0 : state w3 = Some ?x |- _ =>
      assert (x = s3) as -> by (simpl in Hs0; congruence); clear Hs0
  end.
  pose proof (ls_running _ _ Hl Hst) as Hinv. unfold phase_inv in Hinv.
  rewrite <- Hg, <- Hag.
  change (phase s3) with (phase s).
  destruct (phase s) eqn:Hph; [done|..].
  - eapply wp_mono; [by apply stepSelect_live|]. intros r w'.
    by apply advances_mono.
  - eapply wp_mono; [by apply stepPopConstraint_live|]. intros r w'.
    by apply advances_mono.
  - eapply wp_mono; [by apply stepExpandTree_live|]. intros r w'.
    by apply advances_mono.
  - eapply wp_mono; [by apply stepGenerate_live|]. intros r w'.
    by apply advances_mono.
  - eapply wp_mono; [by apply stepCheck_live|]. intros r w'.
    by apply advances_mono.
Qed.

(** *** [initialize] *)

Lemma initialize_live w :
  store_ok w →
  ∃ s, state (exec initialize w) = Some s
       ∧ live_state (exec initialize w) s
       ∧ status s = running ∧ stepNumber s = 0
       ∧ measure_of (branching (graph w)) (length (agents w))
           (size (keyspace (graph w) (agents w))) (exec initialize w) s
         ≤ step_bound (graph w) (agents w).
Proof.
  intros Hok.
  destruct (wp_exec _ _ _ (initialize_spec w Hok))
    as (_ & Hok1 & _ & s & Ninit & hn & Cinit & cn & Hs & Hopen & Hex & Hcur
        & Hcl & _ & Hstep & Hph & Hst & _ & Hng & Hce & Hhn & Hcfg & Hpar & Hord & _
        & Hq & Hcn & _ & Hwho & _ & _ & Hdepth).
  assert (graph (exec initialize w) = graph w) as Hg by apply keeps_initialize.
  assert (agents (exec initialize w) = agents w) as Hag by apply keeps_initialize.
  set (w1 := exec initialize w) in *. clearbody w1.
  exists s. split; [done|].
  assert (config_ok (graph w1) (agents w1) (config hn)) as Hcok.
  { rewrite Hcfg, Hg, Hag. split; simpl.
    - rewrite length_fmap. unfold width. lia.
    - apply Forall_forall. intros x Hx. apply elem_of_cons. right.
      apply elem_of_app. by left. }
  assert (live_state w1 s) as Hl.
  { constructor; rewrite ?Hopen, ?Hex, ?Hcur, ?Hcl, ?Hng, ?Hce.
    - apply NoDup_singleton.
    - intros h Hh%list_elem_of_singleton. subst h. eexists. apply lookup_singleton_eq.
    - intros k h [<- <-]%lookup_singleton_Some. constructor. exists hn, [Cinit].
      split_and!; try done.
      + by rewrite Hcfg.
      + intros t Ht%list_elem_of_singleton. subst t. by eapply lchain_root.
      + left. by rewrite Hag.
    - intros k1 h1 hn1 k2 h2 hn2 [_ <-]%lookup_singleton_Some [_ <-]%lookup_singleton_Some.
      done.
    - intros h [= <-]. eexists. apply lookup_singleton_eq.
    - done.
    - intros _. unfold phase_inv. by rewrite Hph.
    - congruence.
    - by rewrite map_size_singleton.
    - intros Hwf. constructor; rewrite ?Hopen, ?Hex, ?Hag.
      + rewrite lookup_singleton_eq. eauto.
      + intros k h hn0 [<- <-]%lookup_singleton_Some Hh0. simplify_eq.
        rewrite Hord. apply getInitOrder_perm. by rewrite <- Hag.
      + intros k h hn0 Q' [<- <-]%lookup_singleton_Some Hh0 Hsucc. simplify_eq.
        right. left. split; [set_solver|]. exists [Cinit], Cinit.
        split_and!; [done|set_solver|]. by eapply cchain_root.
      + intros k h hn0 [<- <-]%lookup_singleton_Some Hh0 Hnot. exfalso. apply Hnot.
        set_solver.
      + congruence. }
  split; [done|]. split; [done|]. split; [done|].
  unfold measure_of, search_weight, pending, step_bound. rewrite Hph, Hopen, Hex.
  rewrite map_size_singleton. simpl fmap. simpl sum_list.
  assert (node_weight (branching (graph w)) (length (agents w)) w1 Ninit
          = 1 + 2 * wt_levels (branching (graph w)) (length (agents w))) as ->.
  { unfold node_weight. rewrite Hhn, Hq. simpl. unfold queue_weight, ll_weight. simpl.
    rewrite Hcn. simpl. rewrite Hdepth. unfold wt. rewrite Nat.sub_0_r. lia. }
  unfold wt. rewrite Nat.sub_0_r. simpl rank.
  set (W := 1 + 2 * wt_levels _ _). set (cap := size _).
  destruct cap; simpl; lia.
Qed.

(** *** Runs *)

Lemma step_terminal w s :
  state w = Some s → status s ≠ running → step w = (Val false, w).
Proof.
  intros Hs Hst. unfold step, bind, get_state. rewrite Hs. by rewrite decide_True.
Qed.

Lemma run_steps_S n w :
  run_steps (S n) w
  = match step w with
    | (Val true, w') => let '(rs, w'') := run_steps n w' in (Val true :: rs, w'')
    | (r, w') => ([r], w')
    end.
Proof. done. Qed.

(** A run without [stepBack] is a run. *)
Lemma fresh_run_reachable g ags w : fresh_run g ags w → reachable g ags w.
Proof.
  assert (Hi : ∀ w, perform Initialize w = exec initialize w) by done.
  assert (Hs : ∀ w, perform Step w = exec step w) by done.
  induction 1 as [w Hr|w Hf IH].
  - rewrite <- Hi. by apply reach_call.
  - rewrite <- Hs. by apply reach_call.
Qed.

Lemma fresh_run_live g ags w :
  fresh_run g ags w →
  store_ok w ∧ graph w = g ∧ agents w = ags
  ∧ ∃ s, state w = Some s ∧ live_state w s.
Proof.
  induction 1 as [w Hr|w Hf (Hok & Hg & Hag & s & Hs & Hl)].
  - pose proof (reachable_ok _ _ _ Hr) as Hok.
    destruct (reachable_inputs _ _ _ Hr) as [Hg Hag].
    assert (graph (exec initialize w) = graph w) as Hg1 by apply keeps_initialize.
    assert (agents (exec initialize w) = agents w) as Hag1 by apply keeps_initialize.
    destruct (initialize_live w Hok) as (s & Hs & Hl & _).
    split; [by apply initialize_ok|]. split; [congruence|].
    split; [congruence|]. eauto.
  - assert (graph (exec step w) = graph w) as Hg1 by apply keeps_step.
    assert (agents (exec step w) = agents w) as Hag1 by apply keeps_step.
    split; [by apply step_ok|]. split; [congruence|].
    split; [congruence|].
    destruct (decide (status s = running)) as [Hst|Hst].
    + destruct (wp_exec _ _ _ (step_live w s Hok Hs Hl Hst))
        as (bo & s' & _ & Hs' & Hl' & _). eauto.
    + unfold exec. rewrite (step_terminal w s Hs Hst). eauto.
Qed.

Lemma run_bounded b N cap m :
  ∀ w s,
    store_ok w → b = branching (graph w) → N = length (agents w) →
    cap = size (keyspace (graph w) (agents w)) →
    state w = Some s → live_state w s → status s = running →
    measure_of b N cap w s ≤ m →
    ∃ n w' s',
      n ≤ m
      ∧ run_steps (S n) w = (replicate n (Val true) ++ [Val false], w')
      ∧ store_ok w' ∧ state w' = Some s' ∧ live_state w' s'
      ∧ status s' ≠ running ∧ stepNumber s' = stepNumber s + S n.
Proof.
  induction m as [|m IH]; intros w s Hok Hb HN Hcap Hs Hl Hst Hm.
  all: pose proof (step_live w s Hok Hs Hl Hst) as Hstep.
  all: pose proof (step_ok w Hok) as Hok'.
  all: destruct (keeps_step w) as [Hg Hag].
  all: unfold wp in Hstep; unfold exec in Hok'.
  all: destruct (step w) as [r w'] eqn:Hrun; simpl in Hstep, Hok', Hg, Hag.
  all: destruct Hstep as (bo & s' & -> & Hs' & Hl' & Hn' & Hbo).
  all: rewrite <- Hb, <- HN, <- Hcap in Hbo.
  all: destruct bo.
  - destruct Hbo as [_ Hlt]. lia.
  - exists 0, w', s'. split; [lia|]. rewrite run_steps_S, Hrun.
    split_and!; try done. lia.
  - destruct Hbo as [Hst' Hlt].
    destruct (IH w' s') as (n & w'' & s'' & Hle & Hrun' & Hok'' & Hs'' & Hl'' & Hst'' & Hn'');
      try done; [congruence|congruence|congruence|lia|].
    exists (S n), w'', s''. split; [lia|]. rewrite run_steps_S, Hrun, Hrun'.
    split_and!; try done. lia.
  - exists 0, w', s'. split; [lia|]. rewrite run_steps_S, Hrun.
    split_and!; try done. lia.
Qed.

(** C3: on any solver, [initialize] returns, and from the state it
    leaves the calls of [step] return true at most [step_bound] times,
    a number that depends on the graph and the agents only; the call
    after them returns false and leaves the status [solved] or
    [no_solution], and from then on [step] returns false and changes
    nothing. *)
Theorem search_terminates (g : Graph) (ags : list Agent) (w : World) :
  reachable g ags w →
  result initialize w = Val tt
  ∧ ∃ n w' s,
      n ≤ step_bound g ags
      ∧ run_steps (S n) (exec initialize w)
        = (replicate n (Val true) ++ [Val false], w')
      ∧ state w' = Some s
      ∧ (status s = solved ∨ status s = no_solution)
      ∧ stepNumber s = S n
      ∧ step w' = (Val false, w').
Proof.
  intros Hr. pose proof (reachable_ok _ _ _ Hr) as Hok.
  destruct (reachable_inputs _ _ _ Hr) as [Hg Hag].
  split; [apply (wp_exec _ _ _ (initialize_spec w Hok))|].
  assert (graph (exec initialize w) = graph w) as Hg1 by apply keeps_initialize.
  assert (agents (exec initialize w) = agents w) as Hag1 by apply keeps_initialize.
  destruct (initialize_live w Hok) as (s & Hs & Hl & Hst & Hn & Hm).
  pose proof (initialize_ok w Hok) as Hok1.
  set (w1 := exec initialize w) in *. clearbody w1.
  destruct (run_bounded (branching (graph w)) (length (agents w))
              (size (keyspace (graph w) (agents w))) (step_bound (graph w) (agents w))
              w1 s) as (n & w' & s' & Hle & Hrun & Hok' & Hs' & Hl' & Hst' & Hn');
    try done; [congruence|congruence|congruence|].
  exists n, w', s'. subst g ags. split_and!; try done.
  - destruct (status s'); [done|by left|by right].
  - lia.
  - by eapply step_terminal.
Qed.

(** The [paper] preset. *)
Lemma search_terminates_witness :
  result initialize (construct paper_graph paper_agents) = Val tt
  ∧ ∃ n w' s,
      n ≤ step_bound paper_graph paper_agents
      ∧ run_steps (S n) (exec initialize (construct paper_graph paper_agents))
        = (replicate n (Val true) ++ [Val false], w')
      ∧ state w' = Some s
      ∧ (status s = solved ∨ status s = no_solution)
      ∧ stepNumber s = S n
      ∧ step w' = (Val false, w').
Proof.
  exact (search_terminates paper_graph paper_agents _ (reach_new _ _)).
Defined.

(** *** Solutions of a run without [stepBack] *)

Lemma constraint_moves_are_moves g N Q K :
  constraint_moves g Q K → constraints_are_moves g N Q K.
Proof. intros HK a v _ Hv. by apply HK. Qed.

(** With positional agent ids and no [undefined] start, every
    configuration of a generated path has one vertex or [null] per
    agent. *)
Lemma generated_path_strict g ags path :
  ids_wf ags → Undefined ∉ start <$> ags →
  head path = Some (mkConfig (start <$> ags)) →
  generated_steps g ags path →
  ∀ i Q, path !! i = Some Q →
    length (locations Q) = length ags ∧ Undefined ∉ locations Q.
Proof.
  intros Hwf Hst Hhd Hgs. induction i as [|i IH]; intros Q HQ.
  - rewrite <- head_lookup in HQ. simplify_eq. simpl. by rewrite length_fmap.
  - destruct (lookup_lt_is_Some_2 path i) as [Qp HQp].
    { apply lookup_lt_Some in HQ. lia. }
    destruct (IH Qp HQp) as [Hlen Hnu].
    destruct (Hgs i Qp Q HQp HQ) as (K & HK & Hgen).
    pose proof (generateConfig_valid g ags Qp K Hwf
                  (constraint_moves_are_moves _ _ _ _ HK) Q Hgen) as [Hl _ Hmv _ _].
    split; [done|]. intros Hin. apply list_elem_of_lookup in Hin as [a Ha].
    pose proof (lookup_lt_Some _ _ _ Ha) as Hlt. rewrite Hl in Hlt.
    specialize (Hmv a Hlt). unfold is_move in Hmv. simpl in Hmv. rewrite Ha in Hmv.
    simpl in Hmv. destruct Hmv as [Hmv|(n & _ & ?)]; [|done].
    destruct (lookup_lt_is_Some_2 (locations Qp) a) as [x Hx]; [lia|].
    rewrite Hx in Hmv. simpl in Hmv. subst x. apply Hnu.
    by eapply list_elem_of_lookup_2.
Qed.

Lemma path_ok_sound g ags path :
  ids_wf ags → Undefined ∉ start <$> ags → Undefined ∉ goal <$> ags →
  path_ok g ags path → sound_path g ags path.
Proof.
  intros Hwf Hst Hgo (Hhd & (Q & Hla & _ & Heq) & Hgs & _).
  pose proof (generated_path_strict g ags path Hwf Hst Hhd Hgs) as Hstrict.
  split; [done|]. split.
  - rewrite Hla. f_equal. rewrite last_lookup in Hla.
    destruct (Hstrict _ _ Hla) as [Hlen Hnu].
    apply hash_inj; simpl; try done.
    + by rewrite length_fmap.
    + unfold equals in Heq. by apply bool_decide_eq_true in Heq.
  - intros i Q1 Q2 H1 H2. destruct (Hgs i Q1 Q2 H1 H2) as (K & HK & Hgen).
    exists K. apply generateConfig_valid; try done.
    by apply constraint_moves_are_moves.
Qed.

Lemma fresh_run_calls g ags k w :
  fresh_run g ags w → fresh_run g ags (run_calls (replicate k Step) w).
Proof.
  revert w. induction k as [|k IH]; intros w Hf; [done|].
  simpl. apply IH. by apply fresh_step.
Qed.

(** X11: in a run without [stepBack] ([initialize], then calls of
    [step] only), with the agents numbered by position and no
    [undefined] start or goal, a search that has status [solved] holds
    a solution that starts with the start configuration, ends with the
    goal configuration, and in which every configuration is a valid
    successor of the one before it. *)
Theorem fresh_solution_sound (g : Graph) (ags : list Agent) (w : World) :
  fresh_run g ags w →
  ids_wf ags → Undefined ∉ start <$> ags → Undefined ∉ goal <$> ags →
  status <$> state w = Some solved →
  ∃ path, state w ≫= solution = Some path ∧ sound_path g ags path.
Proof.
  intros Hf Hwf Hst Hgo Hsolved.
  destruct (fresh_run_live _ _ _ Hf) as (_ & <- & <- & s & Hs & Hl).
  rewrite Hs in Hsolved |- *. simpl in *. simplify_eq.
  destruct (ls_solved _ _ Hl) as (path & Hsol & Hpath); [done|].
  exists path. split; [done|]. by apply path_ok_sound.
Qed.

(** The [paper] preset is solved by the sixth call of [step]. *)
Lemma fresh_solution_sound_witness :
  ∃ path,
    state (run_calls (replicate 6 Step)
             (exec initialize (construct paper_graph paper_agents)))
      ≫= solution = Some path
    ∧ sound_path paper_graph paper_agents path.
Proof.
  apply fresh_solution_sound.
  - apply fresh_run_calls, fresh_init, reach_new.
  - reflexivity.
  - apply (bool_decide_unpack _). vm_compute. exact I.
  - apply (bool_decide_unpack _). vm_compute. exact I.
  - vm_compute. reflexivity.
Defined.

(** X12: in a run without [stepBack], [step] never throws. While the
    search is running it counts the step and returns true exactly when
    the search is still running afterwards; once the search has ended
    it returns false and changes nothing. *)
Theorem fresh_step_returns (g : Graph) (ags : list Agent) (w : World) :
  fresh_run g ags w →
  ∃ b s s',
    step w = (Val b, exec step w)
    ∧ state w = Some s ∧ state (exec step w) = Some s'
    ∧ (b = true ↔ status s' = running)
    ∧ (status s = running → stepNumber s' = S (stepNumber s))
    ∧ (status s ≠ running → b = false ∧ exec step w = w).
Proof.
  intros Hf. destruct (fresh_run_live _ _ _ Hf) as (Hok & _ & _ & s & Hs & Hl).
  destruct (decide (status s = running)) as [Hst|Hst].
  - pose proof (step_live w s Hok Hs Hl Hst) as Hstep. unfold wp in Hstep.
    unfold exec. destruct (step w) as [r w'] eqn:Hrun. simpl in *.
    destruct Hstep as (bo & s' & -> & Hs' & _ & Hn & Hbo).
    exists bo, s, s'. split_and!; try done.
    destruct bo; [by destruct Hbo|]. split; [done|]. intros ?. done.
  - pose proof (step_terminal w s Hs Hst) as Hrun. unfold exec. rewrite Hrun. simpl.
    exists false, s, s. split_and!; try done.
Qed.

(** The first call of [step] on the [paper] preset. *)
Lemma fresh_step_returns_witness :
  ∃ b s s',
    step (exec initialize (construct paper_graph paper_agents))
    = (Val b, exec step (exec initialize (construct paper_graph paper_agents)))
    ∧ state (exec initialize (construct paper_graph paper_agents)) = Some s
    ∧ state (exec step (exec initialize (construct paper_graph paper_agents))) = Some s'
    ∧ (b = true ↔ status s' = running)
    ∧ (status s = running → stepNumber s' = S (stepNumber s))
    ∧ (status s ≠ running
       → b = false
         ∧ exec step (exec initialize (construct paper_graph paper_agents))
           = exec initialize (construct paper_graph paper_agents)).
Proof.
  exact (fresh_step_returns paper_graph paper_agents _ (fresh_init _ _ _ (reach_new _ _))).
Defined.

(** X13: in a run without [stepBack], Open holds no node twice, and
    every node of Open is registered in Explored under the hash of its
    configuration, as is every node of Explored: no configuration is
    held by two nodes of Open or of Explored. *)
Theorem fresh_open_explored (g : Graph) (ags : list Agent) (w : World) :
  fresh_run g ags w →
  ∃ s, state w = Some s
       ∧ NoDup (open s)
       ∧ (∀ h, h ∈ open s →
            ∃ hn, hlnodes w !! h = Some hn
                  ∧ explored s !! hash (config hn) = Some h)
       ∧ (∀ k h, explored s !! k = Some h →
            ∃ hn, hlnodes w !! h = Some hn ∧ k = hash (config hn))
       ∧ (∀ h1 h2 hn1 hn2, h1 ∈ open s → h2 ∈ open s →
            hlnodes w !! h1 = Some hn1 → hlnodes w !! h2 = Some hn2 →
            hash (config hn1) = hash (config hn2) → h1 = h2).
Proof.
  intros Hf. destruct (fresh_run_live _ _ _ Hf) as (Hok & _ & _ & s & Hs & Hl).
  assert (∀ k h, explored s !! k = Some h →
                 ∃ hn, hlnodes w !! h = Some hn ∧ k = hash (config hn)) as Hex.
  { intros k h Hk. destruct (ls_explored _ _ Hl k h Hk) as [(hn & q & ? & ? & _)]. eauto. }
  assert (∀ h, h ∈ open s →
               ∃ hn, hlnodes w !! h = Some hn
                     ∧ explored s !! hash (config hn) = Some h) as Hop.
  { intros h Hh. destruct (ls_open _ _ Hl h Hh) as [k Hk].
    destruct (Hex k h Hk) as (hn & ? & ->). eauto. }
  exists s. split_and!; try done; [apply Hl|].
  intros h1 h2 hn1 hn2 Hh1 Hh2 Hn1 Hn2 Heq.
  destruct (Hop h1 Hh1) as (hn1' & ? & Hk1). destruct (Hop h2 Hh2) as (hn2' & ? & Hk2).
  simplify_eq. congruence.
Qed.

(** After two calls of [step] on the [paper] preset. *)
Lemma fresh_open_explored_witness :
  let w := run_calls (replicate 2 Step)
             (exec initialize (construct paper_graph paper_agents)) in
  ∃ s, state w = Some s
       ∧ NoDup (open s)
       ∧ (∀ h, h ∈ open s →
            ∃ hn, hlnodes w !! h = Some hn
                  ∧ explored s !! hash (config hn) = Some h)
       ∧ (∀ k h, explored s !! k = Some h →
            ∃ hn, hlnodes w !! h = Some hn ∧ k = hash (config hn))
       ∧ (∀ h1 h2 hn1 hn2, h1 ∈ open s → h2 ∈ open s →
            hlnodes w !! h1 = Some hn1 → hlnodes w !! h2 = Some hn2 →
            hash (config hn1) = hash (config hn2) → h1 = h2).
Proof.
  exact (fresh_open_explored paper_graph paper_agents _
           (fresh_run_calls _ _ 2 _ (fresh_init _ _ _ (reach_new _ _)))).
Defined.

(** X14: in a run without [stepBack], when the phase [generate] is
    about to run, [getConstraints] on the current node of the
    constraint tree returns, leaves the world as it is, and yields
    constraints that pin agents only to their vertex in the
    configuration of the current search node or to a neighbour of it:
    the constraint maps the generator is called with are the ones C1
    is stated for. *)
Theorem fresh_constraints_are_moves (g : Graph) (ags : list Agent) (w : World) :
  fresh_run g ags w →
  status <$> state w = Some running →
  phase <$> state w = Some ph_generate →
  ∃ s N hn C K,
    state w = Some s
    ∧ currentHighLevelNode s = Some N ∧ hlnodes w !! N = Some hn
    ∧ currentLowLevelNode s = Some C
    ∧ getConstraints C w = (Val K, w)
    ∧ constraints_are_moves g (length ags) (config hn) K.
Proof.
  intros Hf Hst Hph.
  destruct (fresh_run_live _ _ _ Hf) as (Hok & <- & <- & s & Hs & Hl).
  rewrite Hs in Hst, Hph. simpl in *. simplify_eq.
  pose proof (ls_running _ _ Hl ltac:(done)) as Hinv. unfold phase_inv in Hinv.
  destruct (phase s); try done.
  destruct Hinv as (N & hn & C & HN & _ & Hhn & HC & Hch).
  destruct (getConstraints_moves w (config hn) C Hok Hch) as (K & HK & HKm).
  exists s, N, hn, C, K. split_and!; try done.
  by apply constraint_moves_are_moves.
Qed.

(** After three calls of [step] on the [paper] preset the phase is
    [generate]. *)
Lemma fresh_constraints_are_moves_witness :
  let w := run_calls (replicate 3 Step)
             (exec initialize (construct paper_graph paper_agents)) in
  ∃ s N hn C K,
    state w = Some s
    ∧ currentHighLevelNode s = Some N ∧ hlnodes w !! N = Some hn
    ∧ currentLowLevelNode s = Some C
    ∧ getConstraints C w = (Val K, w)
    ∧ constraints_are_moves paper_graph (length paper_agents) (config hn) K.
Proof.
  apply fresh_constraints_are_moves.
  - apply fresh_run_calls, fresh_init, reach_new.
  - vm_compute. reflexivity.
  - vm_compute. reflexivity.
Defined.

(** *** Completeness *)

(** With positional agent ids and no [undefined] start, every explored
    configuration has one vertex or [null] per agent. *)
Lemma explored_strict w s :
  live_state w s → ids_wf (agents w) → Undefined ∉ start <$> agents w →
  ∀ h k hn, explored s !! k = Some h → hlnodes w !! h = Some hn →
    length (locations (config hn)) = length (agents w)
    ∧ Undefined ∉ locations (config hn).
Proof.
  intros Hl Hwf Hst h. induction h as [h IH] using lt_wf_ind. intros k hn Hk Hh.
  destruct (ls_explored _ _ Hl k h Hk) as [(hn' & q & Hh' & _ & _ & _ & _ & Hor)].
  assert (hn' = hn) as -> by congruence.
  destruct Hor as [[_ ->]|(p & pn & K & _ & Hlt & Hp & Hpn & HK & Hgen)].
  - simpl. by rewrite length_fmap.
  - destruct (IH p Hlt _ pn Hp Hpn) as [Hlen Hnu].
    pose proof (generateConfig_valid _ _ _ K Hwf
                  (constraint_moves_are_moves _ _ _ _ HK) _ Hgen) as [Hl' _ Hmv _ _].
    split; [done|]. intros Hin. apply list_elem_of_lookup in Hin as [a Ha].
    pose proof (lookup_lt_Some _ _ _ Ha) as Hlta. rewrite Hl' in Hlta.
    specialize (Hmv a Hlta). unfold is_move in Hmv. simpl in Hmv. rewrite Ha in Hmv.
    simpl in Hmv. destruct Hmv as [Hmv|(n & _ & ?)]; [|done].
    destruct (lookup_lt_is_Some_2 (locations (config pn)) a) as [x Hx]; [lia|].
    rewrite Hx in Hmv. simpl in Hmv. subst x. apply Hnu.
    by eapply list_elem_of_lookup_2.
Qed.

(** A valid successor of such a configuration is one, too. *)
Lemma succ_of_strict g N Q Q' :
  length (locations Q) = N → Undefined ∉ locations Q → succ_of g N Q Q' →
  length (locations Q') = N ∧ Undefined ∉ locations Q'.
Proof.
  intros Hlen Hnu [Hl' _ Hmv _ _]. split; [done|].
  intros Hin. apply list_elem_of_lookup in Hin as [a Ha].
  pose proof (lookup_lt_Some _ _ _ Ha) as Hlta. rewrite Hl' in Hlta.
  specialize (Hmv a Hlta). unfold is_move in Hmv. simpl in Hmv. rewrite Ha in Hmv.
  simpl in Hmv. destruct Hmv as [Hmv|(n & _ & ?)]; [|done].
  destruct (lookup_lt_is_Some_2 (locations Q) a) as [x Hx]; [lia|].
  rewrite Hx in Hmv. simpl in Hmv. subst x. apply Hnu.
  by eapply list_elem_of_lookup_2.
Qed.

Lemma valid_successor_succ_of g N Q K Q' :
  valid_successor g N Q K Q' → succ_of g N Q Q'.
Proof. intros [? ? ? ? ?]. by split. Qed.

(** Once Open is empty, Explored holds every configuration of every
    path of valid successors from the start configuration. *)
Lemma closed_path_explored w s path :
  live_state w s → ids_wf (agents w) → Undefined ∉ start <$> agents w →
  open s = [] → phase s = ph_select →
  head path = Some (mkConfig (start <$> agents w)) →
  (∀ i Q Q', path !! i = Some Q → path !! S i = Some Q' →
             succ_of (graph w) (length (agents w)) Q Q') →
  ∀ i Q, path !! i = Some Q →
    ∃ k h hn, explored s !! k = Some h ∧ hlnodes w !! h = Some hn ∧ config hn = Q.
Proof.
  intros Hl Hwf Hst Hopen Hph Hhd Hsteps.
  pose proof (ls_cover _ _ Hl Hwf) as Hcv.
  assert (∀ Q, length (locations Q) = length (agents w) → Undefined ∉ locations Q →
               is_Some (explored s !! hash Q) →
               ∃ k h hn, explored s !! k = Some h ∧ hlnodes w !! h = Some hn
                         ∧ config hn = Q) as Hfind.
  { intros Q Hlen Hnu [h Hk].
    destruct (ls_explored _ _ Hl _ h Hk) as [(hn & q & Hh & Hkh & _)].
    destruct (explored_strict w s Hl Hwf Hst h _ hn Hk Hh) as [Hlen' Hnu'].
    exists (hash Q), h, hn. split_and!; try done.
    symmetry. apply hash_inj; try done. congruence. }
  induction i as [|i IH]; intros Q HQ.
  - rewrite <- head_lookup in HQ. simplify_eq. apply Hfind.
    + simpl. by rewrite length_fmap.
    + done.
    + apply (cv_start _ _ Hcv).
  - destruct (lookup_lt_is_Some_2 path i) as [Qp HQp].
    { apply lookup_lt_Some in HQ. lia. }
    destruct (IH Qp HQp) as (k & h & hn & Hk & Hh & <-).
    pose proof (Hsteps i _ Q HQp HQ) as Hsucc.
    destruct (explored_strict w s Hl Hwf Hst h k hn Hk Hh) as [Hlen Hnu].
    destruct (succ_of_strict _ _ _ _ Hlen Hnu Hsucc) as [Hlen' Hnu'].
    destruct (cv_closed _ _ Hcv k h hn Q Hk Hh Hsucc) as [?|[[Hin _]|[_ Hfl]]].
    + by apply Hfind.
    + rewrite Hopen in Hin. by apply elem_of_nil in Hin.
    + unfold inflight in Hfl. by rewrite Hph in Hfl.
Qed.

(** X15: completeness. In a run without [stepBack], with the agents
    numbered by position and no [undefined] start, the status
    [no_solution] is only reported when there is no solution: no
    sequence of configurations leads from the start configuration to
    the goal configuration by valid successor steps. *)
Theorem no_solution_complete (g : Graph) (ags : list Agent) (w : World) :
  fresh_run g ags w →
  ids_wf ags → Undefined ∉ start <$> ags →
  status <$> state w = Some no_solution →
  ¬ ∃ path, sound_path g ags path.
Proof.
  intros Hf Hwf Hst Hno (path & Hhd & Hla & Hsteps).
  destruct (fresh_run_live _ _ _ Hf) as (Hok & <- & <- & s & Hs & Hl).
  rewrite Hs in Hno. simpl in Hno. simplify_eq.
  pose proof (ls_cover _ _ Hl Hwf) as Hcv.
  destruct (cv_no_solution _ _ Hcv) as [Hopen Hph]; [done|].
  rewrite last_lookup in Hla.
  destruct (closed_path_explored w s path Hl Hwf Hst Hopen Hph Hhd) with
    (i := pred (length path)) (Q := mkConfig (goal <$> agents w))
    as (k & h & hn & Hk & Hh & Hcfg); [|done|].
  { intros i Q Q' HQ HQ'. destruct (Hsteps i Q Q' HQ HQ') as [K HK].
    by eapply valid_successor_succ_of. }
  pose proof (cv_not_goal _ _ Hcv k h hn Hk Hh) as Hng.
  rewrite Hopen, Hcfg in Hng. unfold equals in Hng.
  rewrite bool_decide_eq_false in Hng. apply Hng; [apply not_elem_of_nil|done].
Qed.

(** Two agents that would have to swap along the one edge of a graph:
    after 32 calls of [step] the status is [no_solution]. *)
Lemma no_solution_complete_witness :
  ¬ ∃ path,
      sound_path edge_graph
        [mkAgent 0 (Num 0) (Num 1); mkAgent 1 (Num 1) (Num 0)] path.
Proof.
  apply (no_solution_complete _ _
           (run_calls (replicate 32 Step)
              (exec initialize
                 (construct edge_graph
                    [mkAgent 0 (Num 0) (Num 1); mkAgent 1 (Num 1) (Num 0)])))).
  - apply fresh_run_calls, fresh_init, reach_new.
  - reflexivity.
  - apply (bool_decide_unpack _). vm_compute. exact I.
  - vm_compute. reflexivity.
Defined.

(** X16: in a run without [stepBack], the two counters of the search,
    [nodesGenerated] and [configurationsExplored], both equal the
    number of entries of Explored. *)
Theorem fresh_counters (g : Graph) (ags : list Agent) (w : World) :
  fresh_run g ags w →
  ∃ s, state w = Some s
       ∧ nodesGenerated s = size (explored s)
       ∧ configurationsExplored s = size (explored s).
Proof.
  intros Hf. destruct (fresh_run_live _ _ _ Hf) as (_ & _ & _ & s & Hs & Hl).
  exists s. split; [done|]. apply (ls_counters _ _ Hl).
Qed.

(** The [paper] preset after six calls of [step]. *)
Lemma fresh_counters_witness :
  ∃ s, state (run_calls (replicate 6 Step)
                (exec initialize (construct paper_graph paper_agents))) = Some s
       ∧ nodesGenerated s = size (explored s)
       ∧ configurationsExplored s = size (explored s).
Proof.
  exact (fresh_counters paper_graph paper_agents _
           (fresh_run_calls _ _ 6 _ (fresh_init _ _ _ (reach_new _ _)))).
Defined.

(** X17: in a run without [stepBack], a solution never holds a
    configuration twice. *)
Theorem fresh_solution_no_repeat (g : Graph) (ags : list Agent) (w : World) :
  fresh_run g ags w →
  status <$> state w = Some solved →
  ∃ path, state w ≫= solution = Some path ∧ NoDup path.
Proof.
  intros Hf Hsolved.
  destruct (fresh_run_live _ _ _ Hf) as (_ & _ & _ & s & Hs & Hl).
  rewrite Hs in Hsolved |- *. simpl in *. simplify_eq.
  destruct (ls_solved _ _ Hl) as (path & Hsol & _ & _ & _ & Hnd); [done|].
  exists path. split; [done|]. by eapply NoDup_fmap_1.
Qed.

(** The solution of the T-shaped graph with the edges a-b, b-c and
    b-d, on which the agents at a and c trade places. *)
Lemma fresh_solution_no_repeat_witness :
  let g := mkGraph
             {[0 := mkVertex 0 0 0 [97%N]; 1 := mkVertex 1 100 0 [98%N];
               2 := mkVertex 2 200 0 [99%N]; 3 := mkVertex 3 100 100 [100%N]]}
             {[0 := mkEdge 0 0 1; 1 := mkEdge 1 1 2; 2 := mkEdge 2 1 3]}
             {[0 := [1]; 1 := [0; 2; 3]; 2 := [1]; 3 := [1]]} 4 3 in
  let ags := [mkAgent 0 (Num 0) (Num 2); mkAgent 1 (Num 2) (Num 0)] in
  ∃ path,
    state (run_calls (replicate 58 Step) (exec initialize (construct g ags)))
      ≫= solution = Some path
    ∧ NoDup path.
Proof.
  intros g ags. apply (fresh_solution_no_repeat g ags).
  - apply fresh_run_calls, fresh_init, reach_new.
  - vm_compute. reflexivity.
Defined.


(** *** The history, the status and the solution *)

Lemma kv_ret {A} (a : A) : keeps_verdict (ret a).
Proof. done. Qed.
Lemma kv_throw {A} e : keeps_verdict (@throw A e).
Proof. done. Qed.
Lemma kv_bind {A B} (m : M A) (k : A → M B) :
  keeps_verdict m → (∀ a, keeps_verdict (k a)) → keeps_verdict (bind m k).
Proof.
  intros Hm Hk w. unfold bind. pose proof (Hm w) as Hw.
  destruct (m w) as [[a|e] w']; simpl in *; [|done].
  by rewrite Hk.
Qed.
Lemma kv_readonly {A} (m : M A) : readonly m → keeps_verdict m.
Proof. intros Hm w. by rewrite Hm. Qed.
Lemma kv_modify_world f :
  (∀ w, verdict (f w) = verdict w) → keeps_verdict (modify_world f).
Proof. intros Hf w. apply Hf. Qed.
Lemma kv_modify_state f :
  (∀ s, status (f s) = status s ∧ solution (f s) = solution s) →
  keeps_verdict (modify_state f).
Proof.
  intros Hf w. unfold modify_state, bind, get_state, modify_world.
  destruct (state w) as [s|] eqn:Hs; simpl; [|done].
  unfold verdict. simpl. rewrite Hs. simpl. by destruct (Hf s) as [-> ->].
Qed.
Lemma kv_forM_ {A} (f : A → M unit) l :
  (∀ x, keeps_verdict (f x)) → keeps_verdict (forM_ l f).
Proof.
  intros Hf. induction l as [|x l IH]; [done|].
  apply kv_bind; [done|]. done.
Qed.

Ltac kv_step :=
  lazymatch goal with
  | |- keeps_verdict (bind _ _) => apply kv_bind; [|intros ?]
  | |- keeps_verdict (ret _) => apply kv_ret
  | |- keeps_verdict (throw _) => apply kv_throw
  | |- keeps_verdict fresh => apply kv_modify_world; done
  | |- keeps_verdict (modify_state _) => apply kv_modify_state; done
  | |- keeps_verdict (modify_world _) => apply kv_modify_world; done
  | |- keeps_verdict (write_ll _ _) => apply kv_modify_world; done
  | |- keeps_verdict (write_array _ _) => apply kv_modify_world; done
  | |- keeps_verdict (write_hl _ _) => apply kv_modify_world; done
  | |- keeps_verdict (forM_ _ _) => apply kv_forM_; intros ?
  | |- keeps_verdict (if ?c then _ else _) => destruct c
  | |- keeps_verdict (match ?x with _ => _ end) => destruct x
  | |- keeps_verdict get_world => apply kv_readonly, readonly_get_world
  | |- keeps_verdict get_state => apply kv_readonly, readonly_get_state
  | |- keeps_verdict (deref _ _) => apply kv_readonly, readonly_deref
  | |- keeps_verdict (read_ll _) => apply kv_readonly, readonly_read_ll
  | |- keeps_verdict (read_hl _) => apply kv_readonly, readonly_read_hl
  | |- keeps_verdict (read_array _) => apply kv_readonly, readonly_read_array
  | |- keeps_verdict (getConstraints _) =>
      apply kv_readonly, readonly_getConstraints
  end.

Lemma kv_fresh : keeps_verdict fresh.
Proof. intros w. done. Qed.

Lemma kv_alloc_array l : keeps_verdict (alloc_array l).
Proof. unfold alloc_array. repeat kv_step. Qed.
Lemma kv_new_LowLevelNode p a v : keeps_verdict (new_LowLevelNode p a v).
Proof. unfold new_LowLevelNode. repeat kv_step. Qed.
Lemma kv_new_HighLevelNode c p f r t o :
  keeps_verdict (new_HighLevelNode c p f r t o).
Proof. unfold new_HighLevelNode. repeat kv_step. Qed.

Lemma kv_stepPopConstraint : keeps_verdict stepPopConstraint.
Proof. unfold stepPopConstraint. repeat kv_step. Qed.

Lemma kv_add_child N C a v : keeps_verdict (add_child N C a v).
Proof. unfold add_child. repeat first [apply kv_new_LowLevelNode|kv_step]. Qed.

Lemma kv_stepExpandTree : keeps_verdict stepExpandTree.
Proof. unfold stepExpandTree. repeat first [apply kv_add_child|kv_step]. Qed.

Lemma kv_stepGenerate : keeps_verdict stepGenerate.
Proof. unfold stepGenerate. repeat kv_step. Qed.

Lemma kv_stepCheck : keeps_verdict stepCheck.
Proof.
  unfold stepCheck.
  repeat first [apply kv_new_LowLevelNode|apply kv_alloc_array
               |apply kv_new_HighLevelNode|kv_step].
Qed.

Lemma verdict_ok_verdict w w' :
  verdict w' = verdict w → verdict_ok w → verdict_ok w'.
Proof.
  unfold verdict. intros [= Hh Hst Hsol] [Hsnap Hs]. split.
  - rewrite Hh. done.
  - intros s' Hs'. rewrite Hs' in Hst, Hsol. simpl in *.
    destruct (state w) as [s|]; simplify_eq/=.
    rewrite Hst, Hsol. by apply Hs.
Qed.

Lemma verdict_ok_running w s :
  verdict_ok w → state w = Some s → status s = running → solution s = None.
Proof.
  intros [_ Hs] Hst Hr. destruct (solution s) eqn:Hsol; [|done].
  assert (status s = solved) by (apply (Hs s Hst); by rewrite Hsol).
  congruence.
Qed.

Lemma stepSelect_verdict w s :
  state w = Some s → status s = running → solution s = None →
  wp stepSelect w
    (λ _ w', history w' = history w
             ∧ ∃ s', state w' = Some s'
                     ∧ (status s' = solved ↔ is_Some (solution s'))).
Proof.
  intros Hs Hr Hn. unfold stepSelect.
  assert (Hiff : status s = solved ↔ is_Some (solution s)).
  { rewrite Hr, Hn. split; [done|]. by intros [? ?]. }
  wp_run; try (split; [done|]; eexists; split; [done|]; simpl; done).
  - apply wp_readonly; [apply readonly_backtrack|]. intros [path|e].
    + wp_run. split; [done|]. eexists. split; [done|]. simpl. done.
    + simpl. split; [done|]. eexists. split; [done|]. simpl. done.
  - split; [done|]. eexists. split; [done|]. simpl.
    split; [done|]. rewrite Hn. by intros [? ?].
Qed.

Lemma initialize_verdict w : store_ok w → verdict_ok (exec initialize w).
Proof.
  intros Hok. apply (wp_exec initialize w (λ _ w', verdict_ok w')).
  unfold initialize.
  wp_steps; try congruence. subst d. simplify_eq.
  match goal with |- wp _ (with_history [] ?w0) _ => set (w1 := w0) end.
  assert (Hok1 : store_ok (with_history [] w1)).
  { apply ok_with_history; [|done| |simpl; lia].
    - unfold w1. ok_peel.
    - intros ???? H. by apply elem_of_nil in H. }
  eapply wp_mono; [by apply saveHistory_spec|].
  intros r w2 (Hok2 & Hext & Hst & Hres). split.
  - intros snap Hin. destruct r as [[]|e].
    + destruct Hres as (snap' & Hh & Hsnap). rewrite Hh in Hin.
      apply push_snapshot_elem in Hin as [Hin| ->]; [by apply elem_of_nil in Hin|].
      destruct (Hsnap _ eq_refl) as (_ & Hs1 & _ & _ & Hs2).
      by rewrite Hs1, Hs2.
    + destruct Hres as [Hh _]. rewrite Hh in Hin. by apply elem_of_nil in Hin.
  - intros s. rewrite Hst. intros [= <-]. simpl. split; [done|]. by intros [? ?].
Qed.

Lemma step_verdict w : store_ok w → verdict_ok w → verdict_ok (exec step w).
Proof.
  intros Hok Hv. apply (wp_exec step w (λ _ w', verdict_ok w')).
  unfold step.
  wp_step. wp_step; simpl in *; [|done].
  destruct (decide (status s ≠ running)) as [|Hr%dec_stable]; [by apply wp_ret|].
  pose proof (verdict_ok_running w s Hv H Hr) as Hn.
  wp_step. eapply wp_mono; [by apply saveHistory_spec|].
  intros r w1 (Hok1 & _ & Hst1 & Hres).
  assert (Hv1 : verdict_ok w1).
  { split; [|rewrite Hst1; apply Hv].
    intros snap Hin. destruct r as [[]|e].
    - destruct Hres as (snap' & Hh & Hsnap). rewrite Hh in Hin.
      apply push_snapshot_elem in Hin as [Hin| ->]; [by apply Hv|].
      destruct (Hsnap _ H) as (_ & Hs1 & _ & _ & Hs2).
      by rewrite Hs1, Hs2.
    - destruct Hres as [Hh _]. rewrite Hh in Hin. by apply Hv. }
  destruct r as [[]|e]; simpl; [|done].
  rewrite H in Hst1.
  wp_step. wp_step; simpl in *; [|congruence]. simplify_eq.
  set (w2 := with_state _ w1).
  assert (Hvd : verdict w2 = verdict w1).
  { unfold verdict, w2. simpl. by rewrite Hst1. }
  pose proof (verdict_ok_verdict w1 w2 Hvd Hv1) as Hv2.
  clearbody w2.
  wp_step. wp_step; simpl in *; [|done].
  assert (Hr0 : status s0 = running).
  { unfold verdict in Hvd. rewrite H0, Hst1 in Hvd. simpl in Hvd. congruence. }
  set (Q := λ (_ : outcome bool) w', verdict_ok w').
  assert (Hk : ∀ m : M bool, keeps_verdict m → wp m w2 Q).
  { intros m Hm. unfold wp, Q. by apply (verdict_ok_verdict w2). }
  destruct (phase s0).
  - by apply wp_ret.
  - eapply wp_mono.
    + apply (stepSelect_verdict w2 s0); [done|done|].
      by apply (verdict_ok_running w2).
    + intros r w3 (Hh & s3 & Hs3 & Hiff). split.
      * rewrite Hh. apply Hv2.
      * intros s'. rewrite Hs3. by intros [= <-].
  - apply Hk, kv_stepPopConstraint.
  - apply Hk, kv_stepExpandTree.
  - apply Hk, kv_stepGenerate.
  - apply Hk, kv_stepCheck.
Qed.

Lemma stepBack_verdict w :
  store_ok w → verdict_ok w →
  verdict_ok (exec stepBack w)
  ∧ (1 < length (history w) →
     ∃ s', result stepBack w = Val true ∧ state (exec stepBack w) = Some s'
           ∧ status s' = running ∧ solution s' = None).
Proof.
  intros Hok Hv. destruct (stepBack_spec w Hok) as [Hmore Hfew].
  destruct (decide (1 < length (history w))) as [Hl|Hl].
  - destruct (Hmore Hl)
      as (prev & s' & Hlast & Heq & _ & Hh & Hs' & _ & Hst & _ & _ & Hsol & _).
    assert (Hprev : prev ∈ history w).
    { apply removelast_elem. apply last_Some in Hlast as [l' ->]. set_solver. }
    destruct (proj1 Hv prev Hprev) as [Hp1 Hp2].
    rewrite Hp1 in Hst. rewrite Hp2 in Hsol. split.
    + split.
      * intros snap. rewrite Hh. intros Hin%removelast_elem. by apply Hv.
      * intros s. rewrite Hs'. intros [= <-]. rewrite Hst, Hsol.
        split; [done|]. by intros [? ?].
    + intros _. exists s'. split_and!; try done.
      unfold result. by rewrite Heq.
  - split; [|lia]. unfold exec. rewrite Hfew by lia. done.
Qed.

Lemma reachable_verdict g ags w : reachable g ags w → verdict_ok w.
Proof.
  induction 1 as [|w c Hr IH].
  - split; [intros snap Hin; by apply elem_of_nil in Hin|done].
  - pose proof (reachable_ok g ags w Hr) as Hok. destruct c; simpl.
    + by apply initialize_verdict.
    + by apply step_verdict.
    + by apply stepBack_verdict.
    + by apply initialize_verdict.
Qed.

Lemma reachable_run_calls g ags cs w :
  reachable g ags w → reachable g ags (run_calls cs w).
Proof.
  revert w. induction cs as [|c cs IH]; intros w Hr; [done|].
  simpl. apply IH. by apply reach_call.
Qed.

(** X18: whatever calls were made ([initialize], [step], [stepBack],
    [reset], in any order), the solver holds a solution exactly when
    its status is [solved]. *)
Theorem solution_iff_solved (g : Graph) (ags : list Agent) (w : World) :
  reachable g ags w →
  status <$> state w = Some solved ↔ is_Some (state w ≫= solution).
Proof.
  intros Hr. destruct (reachable_verdict g ags w Hr) as [_ Hs].
  destruct (state w) as [s|]; simpl.
  - rewrite <- (Hs s eq_refl). split; congruence.
  - split; [done|]. by intros [? ?].
Qed.

(** The [paper] preset, solved after stepping back twice on the way. *)
Lemma solution_iff_solved_witness :
  is_Some
    (state (run_calls [Initialize; Step; Step; Step; StepBack; StepBack; Step;
                       Step; Step; Step; Step; Step]
              (construct paper_graph paper_agents)) ≫= solution).
Proof.
  apply (solution_iff_solved paper_graph paper_agents).
  - apply reachable_run_calls, reach_new.
  - vm_compute. reflexivity.
Defined.

(** X19: whatever calls were made, every snapshot of the history was
    taken of a running search and holds no solution; so stepping back,
    when the history holds more than one snapshot, returns true and
    leaves a running search without a solution, also from a search
    that was solved or had failed. *)
Theorem stepBack_resumes (g : Graph) (ags : list Agent) (w : World) :
  reachable g ags w →
  (∀ snap, snap ∈ history w → s_status snap = running ∧ s_solution snap = None)
  ∧ (1 < length (history w) →
     ∃ s', result stepBack w = Val true
           ∧ state (exec stepBack w) = Some s'
           ∧ status s' = running ∧ solution s' = None).
Proof.
  intros Hr. pose proof (reachable_verdict g ags w Hr) as Hv.
  split; [apply Hv|].
  by apply stepBack_verdict; [eapply reachable_ok|].
Qed.

(** Stepping back from the solved [paper] preset. *)
Lemma stepBack_resumes_witness :
  let w := run_calls (Initialize :: replicate 6 Step)
             (construct paper_graph paper_agents) in
  status <$> state w = Some solved
  ∧ ∃ s', result stepBack w = Val true
          ∧ state (exec stepBack w) = Some s'
          ∧ status s' = running ∧ solution s' = None.
Proof.
  intros w. split; [vm_compute; reflexivity|].
  apply (stepBack_resumes paper_graph paper_agents w).
  - apply reachable_run_calls, reach_new.
  - vm_compute. lia.
Defined.

(** *** What the history holds in a run without [stepBack] *)

Lemma initialize_saved w :
  store_ok w → s_stepNumber <$> history (exec initialize w) = [0].
Proof.
  intros Hok.
  assert (Hall : ∀ snap, snap ∈ history (exec initialize w) → s_stepNumber snap = 0).
  { apply (wp_exec initialize w (λ _ w', ∀ snap, snap ∈ history w' → s_stepNumber snap = 0)).
    unfold initialize.
    wp_steps; try congruence. subst d. simplify_eq.
    match goal with |- wp _ (with_history [] ?w0) _ => set (w1 := w0) end.
    assert (Hok1 : store_ok (with_history [] w1)).
    { apply ok_with_history; [|done| |simpl; lia].
      - unfold w1. ok_peel.
      - intros ???? H. by apply elem_of_nil in H. }
    eapply wp_mono; [by apply saveHistory_spec|].
    intros r w2 (Hok2 & Hext & Hst & Hres) snap Hin. destruct r as [[]|e].
    - destruct Hres as (snap' & Hh & Hsnap). rewrite Hh in Hin.
      apply push_snapshot_elem in Hin as [Hin| ->]; [by apply elem_of_nil in Hin|].
      by destruct (Hsnap _ eq_refl) as (_ & _ & -> & _).
    - destruct Hres as [Hh _]. rewrite Hh in Hin. by apply elem_of_nil in Hin. }
  pose proof (initialize_history w Hok) as Hlen.
  destruct (history (exec initialize w)) as [|snap [|??]]; simplify_eq/=.
  rewrite (Hall snap) by set_solver. done.
Qed.

Lemma step_saved w s :
  store_ok w → verdict_ok w → snapshot_ready w →
  state w = Some s → status s = running →
  ∃ snap, history (exec step w) = push_snapshot (history w) snap
          ∧ s_stepNumber snap = stepNumber s.
Proof.
  intros Hok Hv Hready Hs Hr.
  apply (wp_exec step w
           (λ _ w', ∃ snap, history w' = push_snapshot (history w) snap
                            ∧ s_stepNumber snap = stepNumber s)).
  unfold step.
  wp_step. wp_step; simpl in *; [|congruence]. simplify_eq.
  rewrite decide_False by (intros Hne; by apply Hne).
  pose proof (verdict_ok_running w s Hv Hs Hr) as Hn.
  wp_step. eapply wp_mono; [by apply saveHistory_spec|].
  intros r w1 (Hok1 & _ & Hst1 & Hres).
  destruct r as [[]|e]; simpl; [|by destruct Hres].
  destruct Hres as (snap & Hh & Hsnap).
  destruct (Hsnap _ Hs) as (_ & _ & Hnum & _).
  rewrite Hs in Hst1.
  wp_step. wp_step; simpl in *; [|congruence]. simplify_eq.
  set (w2 := with_state _ w1).
  assert (Hh2 : history w2 = history w1) by done.
  assert (Hst2 : status <$> state w2 = Some running).
  { unfold w2. simpl. by rewrite Hr. }
  assert (Hsol2 : solution <$> state w2 = Some None).
  { unfold w2. simpl. by rewrite Hn. }
  clearbody w2.
  wp_step. wp_step; simpl in *; [|by exists snap; split; [congruence|]].
  rewrite H in Hst2, Hsol2. simpl in *. simplify_eq.
  set (Q := λ (_ : outcome bool) w', ∃ snap, history w' = push_snapshot (history w) snap
                                             ∧ s_stepNumber snap = stepNumber s).
  assert (Hk : ∀ m : M bool, keeps_verdict m → wp m w2 Q).
  { intros m Hm. unfold wp, Q. exists snap. split; [|done].
    pose proof (Hm w2) as Hvd. unfold verdict in Hvd. simplify_eq. congruence. }
  destruct (phase s0).
  - apply wp_ret. exists snap. split; [congruence|done].
  - eapply wp_mono; [by apply (stepSelect_verdict w2 s0)|].
    intros r w3 (Hh3 & _). exists snap. split; [congruence|done].
  - apply Hk, kv_stepPopConstraint.
  - apply Hk, kv_stepExpandTree.
  - apply Hk, kv_stepGenerate.
  - apply Hk, kv_stepCheck.
Qed.

Lemma last_n_snoc {A} k (l : list A) x :
  last_n (S k) (l ++ [x]) = last_n k l ++ [x].
Proof.
  unfold last_n. rewrite length_app. simpl.
  replace (length l + 1 - S k) with (length l - k) by lia.
  rewrite drop_app_le by lia. done.
Qed.

Lemma last_n_last_n {A} k (l : list A) x :
  0 < k → last_n k (last_n k l ++ [x]) = last_n k (l ++ [x]).
Proof.
  intros Hk. unfold last_n. rewrite !length_app, length_drop. simpl.
  rewrite !drop_app_le by (rewrite ?length_drop; lia).
  rewrite drop_drop. f_equal. f_equal. lia.
Qed.

Lemma push_snapshot_last_n h snap :
  length h ≤ 200 → push_snapshot h snap = last_n 200 (h ++ [snap]).
Proof.
  intros Hh. unfold push_snapshot, last_n. rewrite length_app. simpl.
  case_decide.
  - replace (length h + 1 - 200) with 1 by lia. by destruct h.
  - replace (length h + 1 - 200) with 0 by lia. done.
Qed.

Lemma saved_steps_S n : saved_steps (S n) = saved_steps n ++ [n].
Proof. unfold saved_steps. by rewrite seq_S. Qed.

Lemma fmap_last_n {A B} (f : A → B) k (l : list A) :
  f <$> last_n k l = last_n k (f <$> l).
Proof. unfold last_n. by rewrite fmap_drop, length_fmap. Qed.

Lemma fresh_history g ags w :
  fresh_run g ags w →
  ∃ s, state w = Some s
       ∧ s_stepNumber <$> history w = last_n 200 (saved_steps (stepNumber s)).
Proof.
  induction 1 as [w Hr|w Hf (s & Hs & IH)].
  - pose proof (reachable_ok _ _ _ Hr) as Hok.
    destruct (initialize_live w Hok) as (s & Hs & _ & Hn).
    destruct Hn as [_ [Hn _]].
    exists s. split; [done|]. rewrite initialize_saved by done.
    by rewrite Hn.
  - destruct (fresh_run_live _ _ _ Hf) as (Hok & _ & _ & s0 & Hs0 & Hl).
    assert (s0 = s) as -> by congruence.
    destruct (decide (status s = running)) as [Hst|Hst].
    + destruct (wp_exec _ _ _ (step_live w s Hok Hs Hl Hst))
        as (bo & s' & _ & Hs' & _ & Hnum & _).
      exists s'. split; [done|].
      destruct (step_saved w s Hok) as (snap & Hh & Hsnap); try done.
      { eapply reachable_verdict, fresh_run_reachable, Hf. }
      { by eapply live_snapshot_ready. }
      rewrite Hh, push_snapshot_last_n by apply (ok_history _ Hok).
      rewrite fmap_last_n, fmap_app. simpl.
      rewrite Hsnap, IH, Hnum, saved_steps_S.
      apply last_n_last_n. lia.
    + unfold exec. rewrite (step_terminal w s Hs Hst). eauto.
Qed.

Lemma last_n_snoc2 {A} k (l : list A) x y :
  last_n (S (S k)) (l ++ [x; y]) = last_n k l ++ [x; y].
Proof.
  change (l ++ [x; y]) with (l ++ [x] ++ [y]).
  rewrite app_assoc, last_n_snoc, last_n_snoc, <- app_assoc. done.
Qed.

Lemma saved_steps_two n :
  2 ≤ n → saved_steps n = saved_steps (n - 2) ++ [n - 2; n - 1].
Proof.
  intros Hn. replace n with (S (S (n - 2))) at 1 by lia.
  rewrite !saved_steps_S, <- app_assoc. simpl.
  by replace (S (n - 2)) with (n - 1) by lia.
Qed.

Lemma removelast_snoc2 {A} (l : list A) x y :
  removelast (l ++ [x; y]) = l ++ [x].
Proof.
  change (l ++ [x; y]) with (l ++ [x] ++ [y]).
  rewrite app_assoc. apply removelast_last.
Qed.

(** C9: in a run of [initialize] and calls of [step] that has reached
    step [n >= 2], [stepBack] returns true and leaves the solver at step
    [n - 2]: not in the state before the last step, which had step
    number [n - 1], but in the state before the step before it. [step]
    saves its snapshot before it advances, so the newest entry of the
    history is the state before the last step, and [stepBack] drops
    that entry and restores the one before it. *)
Theorem stepBack_skips_step (g : Graph) (ags : list Agent) (w : World) (n : nat) :
  fresh_run g ags w →
  stepNumber <$> state w = Some n →
  2 ≤ n →
  ∃ before newest s',
    last (history w) = Some newest ∧ s_stepNumber newest = n - 1
    ∧ last (removelast (history w)) = Some before ∧ s_stepNumber before = n - 2
    ∧ result stepBack w = Val true
    ∧ state (exec stepBack w) = Some s'
    ∧ stepNumber s' = n - 2.
Proof.
  intros Hf Hnum Hn.
  destruct (fresh_history _ _ _ Hf) as (s & Hs & Hh).
  rewrite Hs in Hnum. simpl in Hnum. injection Hnum as Hnum. rewrite Hnum in Hh.
  rewrite (saved_steps_two n Hn) in Hh.
  change 200 with (S (S 198)) in Hh. rewrite last_n_snoc2 in Hh.
  apply fmap_app_inv in Hh as (l1 & l2 & _ & Hl2 & Hhist).
  destruct l2 as [|a [|b [|??]]]; try discriminate Hl2.
  injection Hl2 as Ha Hb.
  destruct (fresh_run_live _ _ _ Hf) as (Hok & _).
  destruct (proj1 (stepBack_spec w Hok)) as (prev & s' & Hlast & Heq & _ & _ & Hs' & _ & _ & Hst & _).
  { rewrite Hhist, length_app. simpl. lia. }
  rewrite Hhist, removelast_snoc2, last_snoc in Hlast. injection Hlast as <-.
  exists a, b, s'. rewrite Hhist, removelast_snoc2.
  change (l1 ++ [a; b]) with (l1 ++ [a] ++ [b]). rewrite app_assoc, !last_snoc.
  split_and!; try done; try lia; try congruence.
  unfold result. by rewrite Heq.
Qed.

(** On the [paper] preset, after two steps, [stepBack] leaves step 0. *)
Lemma stepBack_skips_step_witness :
  let w := run_calls [Step; Step]
             (exec initialize (construct paper_graph paper_agents)) in
  ∃ before newest s',
    last (history w) = Some newest ∧ s_stepNumber newest = 1
    ∧ last (removelast (history w)) = Some before ∧ s_stepNumber before = 0
    ∧ result stepBack w = Val true
    ∧ state (exec stepBack w) = Some s'
    ∧ stepNumber s' = 0.
Proof.
  intros w.
  apply (stepBack_skips_step paper_graph paper_agents w 2).
  - apply (fresh_run_calls _ _ 2), fresh_init, reach_new.
  - vm_compute. reflexivity.
  - lia.
Defined.

(** X21: in a run of [initialize] and calls of [step], the history
    holds the last 200 of the states saved so far, oldest first: at
    step [n] these are the state [initialize] left and the states
    before each of the [n] steps, with step numbers 0, 0, 1, ...,
    [n - 1]. *)
Theorem fresh_history_fifo (g : Graph) (ags : list Agent) (w : World) (n : nat) :
  fresh_run g ags w →
  stepNumber <$> state w = Some n →
  s_stepNumber <$> history w = last_n 200 (saved_steps n)
  ∧ length (history w) = S n `min` 200.
Proof.
  intros Hf Hnum.
  destruct (fresh_history _ _ _ Hf) as (s & Hs & Hh).
  rewrite Hs in Hnum. simpl in Hnum. injection Hnum as Hnum. rewrite Hnum in Hh.
  split; [done|].
  rewrite <- (length_fmap s_stepNumber), Hh. unfold last_n, saved_steps.
  rewrite length_drop. simpl. rewrite length_seq. lia.
Qed.

(** The [paper] preset after three steps. *)
Lemma fresh_history_fifo_witness :
  let w := run_calls (replicate 3 Step)
             (exec initialize (construct paper_graph paper_agents)) in
  s_stepNumber <$> history w = [0; 0; 1; 2] ∧ length (history w) = 4.
Proof.
  intros w.
  apply (fresh_history_fifo paper_graph paper_agents w 3).
  - apply (fresh_run_calls _ _ 3), fresh_init, reach_new.
  - vm_compute. reflexivity.
Defined.
